(** * MilkWidgetCore: colour grammar, style merging, markup roots and
      widget animations

    A shallow embedding of the configuration core of MilkWidgetCore
    (Types.h, Utils.cpp, CSSParser.cpp, XMLParser.cpp, Widget.cpp,
    Widgets.cpp, Application.cpp) with the properties stated about it.

    Conventions.
    - A [QString] is the list of its characters; only Latin-1 code units
      occur in the modelled inputs.
    - A C++ [int] is a [Z]; the conversions that can overflow say so.
    - A C++ [double] is a [spec_float] of the binary64 format
      (precision 53, maximal exponent 1024) with the operations of
      [SpecFloat].
    - Qt functions the sources call ([QString], [QColor], [qBound],
      [QPropertyAnimation], the place the XML reader reports) are
      written out after the Qt sources and documentation; each says
      which Qt function it stands for. *)

From Stdlib Require Import ZArith List Bool Ascii String Lia.
From Stdlib Require Import Floats.SpecFloat.
From stdpp Require Import base gmap strings.
Import ListNotations.

Local Open Scope Z_scope.
Local Set Warnings "-register-all".

(* ===================================================================== *)
(** * QString                                                             *)
(* ===================================================================== *)

Module QStr.

Definition QString := list ascii.

(** A string literal of the source. *)
Definition qs (s : string) : QString := list_ascii_of_string s.

Definition code (c : ascii) : Z := Z.of_nat (nat_of_ascii c).

Definition chr (n : Z) : ascii := ascii_of_nat (Z.to_nat n).

Definition eqc (a b : ascii) : bool := Ascii.eqb a b.

Fixpoint eqs (a b : QString) : bool :=
  match a, b with
  | [], [] => true
  | x :: a', y :: b' => eqc x y && eqs a' b'
  | _, _ => false
  end.

(** [QChar::isSpace]: tab .. carriage return, space, NEL and the
    no-break space. *)
Definition isSpace (c : ascii) : bool :=
  let n := code c in
  (n =? 32) || ((9 <=? n) && (n <=? 13)) || (n =? 133) || (n =? 160).

(** [QChar::isDigit] on the Latin-1 range. *)
Definition isDigit (c : ascii) : bool :=
  let n := code c in (48 <=? n) && (n <=? 57).

(** [QChar::toLower] on the Latin-1 range. *)
Definition lowerc (c : ascii) : ascii :=
  let n := code c in
  if (65 <=? n) && (n <=? 90) then chr (n + 32)
  else if (192 <=? n) && (n <=? 222) && negb (n =? 215) then chr (n + 32)
  else c.

Definition toLower (s : QString) : QString := map lowerc s.

Fixpoint dropSpaces (s : QString) : QString :=
  match s with
  | c :: s' => if isSpace c then dropSpaces s' else s
  | [] => []
  end.

(** [QString::trimmed]. *)
Definition trimmed (s : QString) : QString :=
  rev (dropSpaces (rev (dropSpaces s))).

Definition isEmpty (s : QString) : bool :=
  match s with [] => true | _ => false end.

Definition size (s : QString) : Z := Z.of_nat (length s).

(** [QString::startsWith]. *)
Fixpoint startsWith (s p : QString) {struct p} : bool :=
  match p, s with
  | [], _ => true
  | x :: p', y :: s' => eqc x y && startsWith s' p'
  | _ :: _, [] => false
  end.

(** [QString::endsWith]. *)
Definition endsWith (s p : QString) : bool := startsWith (rev s) (rev p).

(** [QString::contains(QChar)]. *)
Definition contains (s : QString) (c : ascii) : bool := existsb (eqc c) s.

(** [QString::contains(QString)]. *)
Fixpoint containsStr (s p : QString) : bool :=
  startsWith s p ||
  match s with
  | [] => false
  | _ :: s' => containsStr s' p
  end.

(** [QString::remove(QChar)]. *)
Definition remove (s : QString) (c : ascii) : QString :=
  List.filter (fun x => negb (eqc x c)) s.

(** [QString::remove(const QString &)]: every occurrence, found from left
    to right, is taken out.  [skip] counts the characters of the
    occurrence being taken out. *)
Fixpoint removeFrom (p : QString) (skip : nat) (s : QString) : QString :=
  match s with
  | [] => []
  | c :: s' =>
      match skip with
      | S k => removeFrom p k s'
      | O => if negb (isEmpty p) && startsWith s p
             then removeFrom p (Nat.pred (length p)) s'
             else c :: removeFrom p O s'
      end
  end.

Definition removeStr (s p : QString) : QString := removeFrom p O s.

(** [QString::mid(position, n)]. *)
Definition mid (s : QString) (pos n : Z) : QString :=
  let len := size s in
  if len <? pos then []
  else if pos <? 0 then
    if (n <? 0) || (len <=? n + pos) then s
    else if n + pos <=? 0 then []
    else firstn (Z.to_nat (n + pos)) s
  else if (n <? 0) || (len - pos <? n) then skipn (Z.to_nat pos) s
  else firstn (Z.to_nat n) (skipn (Z.to_nat pos) s).

(** [QString::left(n)]. *)
Definition left (s : QString) (n : Z) : QString :=
  if (n <? 0) || (size s <=? n) then s else firstn (Z.to_nat n) s.

(** [QString::indexOf(QChar)], -1 when absent. *)
Fixpoint indexOf (s : QString) (c : ascii) : Z :=
  match s with
  | [] => -1
  | x :: s' => if eqc x c then 0
               else let i := indexOf s' c in if i <? 0 then -1 else i + 1
  end.

(** [QString::split(QChar)] with [Qt::KeepEmptyParts]: an empty string
    gives one empty part. *)
Fixpoint split (s : QString) (sep : ascii) : list QString :=
  match s with
  | [] => [[]]
  | c :: s' =>
      if eqc c sep then [] :: split s' sep
      else match split s' sep with
           | p :: ps => (c :: p) :: ps
           | [] => [[c]]
           end
  end.

(** [QString::split(QChar, Qt::SkipEmptyParts)]. *)
Definition splitSkipEmpty (s : QString) (sep : ascii) : list QString :=
  List.filter (fun p => negb (isEmpty p)) (split s sep).

(** ** Integers *)

Definition INT_MIN : Z := -2147483648.
Definition INT_MAX : Z := 2147483647.

Definition digitVal (c : ascii) : Z := code c - 48.

Definition digitsVal (ds : QString) : Z :=
  fold_left (fun acc c => acc * 10 + digitVal c) ds 0.

(** [QString::toInt(bool *ok)] in base 10: surrounding white space is
    ignored, a sign is accepted, anything else than digits or a value
    outside of [int] fails with 0. *)
Definition toIntOk (s : QString) : Z * bool :=
  let t := trimmed s in
  let '(neg, ds) :=
    match t with
    | c :: r => if eqc c "-" then (true, r)
                else if eqc c "+" then (false, r) else (false, t)
    | [] => (false, t)
    end in
  if negb (isEmpty ds) && forallb isDigit ds then
    let v := if neg then - digitsVal ds else digitsVal ds in
    if (INT_MIN <=? v) && (v <=? INT_MAX) then (v, true) else (0, false)
  else (0, false).

Definition toInt (s : QString) : Z := fst (toIntOk s).

(** Digits of a non-negative number in base [base], most significant
    first; [fuel] bounds the number of digits. *)
Definition digitChar (d : Z) : ascii :=
  if d <? 10 then chr (48 + d) else chr (87 + d).

Fixpoint digitsOf (fuel : nat) (base n : Z) (acc : QString) : QString :=
  match fuel with
  | O => acc
  | S k =>
      let acc' := digitChar (n mod base) :: acc in
      if n / base =? 0 then acc' else digitsOf k base (n / base) acc'
  end.

(** [QString::number(int)], also what [QString::arg(int)] inserts. *)
Definition number (n : Z) : QString :=
  if n <? 0 then "-"%char :: digitsOf 12 10 (- n) []
  else digitsOf 12 10 n [].

(** [QString::arg(n, fieldWidth, 16, QChar('0'))] for a non-negative
    [n]: lower-case hexadecimal, padded on the left. *)
Definition hexPadded (n : Z) (width : nat) : QString :=
  let ds := digitsOf 10 16 n [] in
  repeat "0"%char (width - length ds) ++ ds.

End QStr.

Import QStr.

(* ===================================================================== *)
(** * double                                                              *)
(* ===================================================================== *)

Module Dbl.

Definition double := spec_float.

Definition prec : Z := 53.
Definition emax : Z := 1024.

Definition zero : double := S754_zero false.
Definition nan : double := S754_nan.

(** The double nearest to [p / q] (ties to even), with sign [s]. *)
Definition ofRatio (s : bool) (p q : positive) : double :=
  let '(mz, ez, lz) := SFdiv_core_binary prec emax (Zpos p) 0 (Zpos q) 0 in
  binary_round_aux prec emax s mz ez lz.

(** The double nearest to [n * 10 ^ e10]. *)
Definition ofDecimal (s : bool) (n e10 : Z) : double :=
  match n with
  | Zpos p =>
      if 0 <=? e10 then
        let v := Zpos p * 10 ^ e10 in
        binary_normalize prec emax (if s then - v else v) 0 s
      else ofRatio s p (Z.to_pos (10 ^ (- e10)))
  | _ => S754_zero s
  end.

Definition ofZ (n : Z) : double := binary_normalize prec emax n 0 false.

Definition one : double := ofZ 1.

Definition mul (x y : double) : double := SFmul prec emax x y.

(** The operators [<] and [<=] of C++ on doubles: false on a NaN. *)
Definition ltb (x y : double) : bool := SFltb x y.
Definition leb (x y : double) : bool := SFleb x y.

(** [static_cast<int>(x)]: the fraction is dropped.  A NaN, an infinity or
    a value outside of [int] has no defined result in C++; they give
    [INT_MIN] here, as the x86-64 conversion does. *)
Definition toIntTrunc (x : double) : Z :=
  match x with
  | S754_zero _ => 0
  | S754_finite s m e =>
      let a := if 0 <=? e then Zpos m * 2 ^ e else Zpos m / 2 ^ (- e) in
      let v := if s then - a else a in
      if (INT_MIN <=? v) && (v <=? INT_MAX) then v else INT_MIN
  | _ => INT_MIN
  end.

Fixpoint spanDigits (s : QString) : QString * QString :=
  match s with
  | c :: s' => if isDigit c
               then let '(ds, r) := spanDigits s' in (c :: ds, r)
               else ([], s)
  | [] => ([], [])
  end.

Definition splitSign (s : QString) : bool * QString :=
  match s with
  | c :: r => if eqc c "-" then (true, r)
              else if eqc c "+" then (false, r) else (false, s)
  | [] => (false, s)
  end.

(** The exponent part of a number: empty, or [e] with an optional sign
    and at least one digit. *)
Definition parseExponent (s : QString) : option Z :=
  match s with
  | [] => Some 0
  | c :: r =>
      if eqc c "e" then
        let '(neg, ds) := splitSign r in
        if negb (isEmpty ds) && forallb isDigit ds
        then Some (if neg then - digitsVal ds else digitsVal ds)
        else None
      else None
  end.

(** [QString::toDouble(bool *ok)]: the C locale notation
    [[sign] digits [. digits] [e [sign] digits]], [inf] and [nan], with
    surrounding white space ignored; anything else fails with 0.0.  The
    value is the double nearest to the decimal number, an infinity when
    it is too large. *)
Definition toDoubleOk (s : QString) : double * bool :=
  let t := toLower (trimmed s) in
  if eqs t (qs "nan") then (nan, true)
  else if eqs t (qs "inf") || eqs t (qs "+inf")
       then (S754_infinity false, true)
  else if eqs t (qs "-inf") then (S754_infinity true, true)
  else
    let '(neg, r0) := splitSign t in
    let '(ip, r1) := spanDigits r0 in
    let '(fp, r2) :=
      match r1 with
      | c :: r => if eqc c "." then spanDigits r else ([], r1)
      | [] => ([], r1)
      end in
    if isEmpty (ip ++ fp) then (zero, false)
    else
      match parseExponent r2 with
      | Some e =>
          let x := ofDecimal neg (digitsVal (ip ++ fp))
                             (e - Z.of_nat (length fp)) in
          match x with
          | S754_infinity _ => (x, false)
          | _ => (x, true)
          end
      | None => (zero, false)
      end.

Definition toDouble (s : QString) : double := fst (toDoubleOk s).

End Dbl.

(* ===================================================================== *)
(** * QColor                                                              *)
(* ===================================================================== *)

Module QCol.

(** A [QColor] is invalid or holds 16-bit components in the RGB or in
    the HSL colour model. *)
Inductive QColor : Type :=
  | Invalid
  | Rgb (a r g b : Z)
  | Hsl (a h s l : Z).

Definition isValid (c : QColor) : bool :=
  match c with Invalid => false | _ => true end.

Definition USHRT_MAX : Z := 65535.

Definition inByte (x : Z) : bool := (0 <=? x) && (x <=? 255).

(** [QColor(int r, int g, int b, int a)]: invalid unless every component
    is in 0..255. *)
Definition fromRgba (r g b a : Z) : QColor :=
  if inByte r && inByte g && inByte b && inByte a
  then Rgb (a * 257) (r * 257) (g * 257) (b * 257)
  else Invalid.

(** [QColor(int r, int g, int b)]. *)
Definition fromRgb (r g b : Z) : QColor := fromRgba r g b 255.

(** [QColor::setHsl(h, s, l)] on a fresh colour, the alpha being 255. *)
Definition fromHsl (h s l : Z) : QColor :=
  if (h <? -1) || negb (inByte s) || negb (inByte l) then Invalid
  else Hsl (255 * 257)
           (if h =? -1 then USHRT_MAX else Z.rem h 360 * 100)
           (s * 257) (l * 257).

(** The division by 257 that brings a 16-bit component back to 8 bits;
    on a multiple of 257 it is exact. *)
Definition qt_div_257 (x : Z) : Z := Z.shiftr (x - Z.shiftr x 8 + 128) 8.

(** The 8-bit [(alpha, red, green, blue)] of a colour.  An invalid colour
    reads as opaque black, as the colour of the default constructor
    does; the invalid colour that Qt 6 makes of components out of range
    has the alpha 0 and is not told apart here.  A colour of the HSL
    model would first be converted in single-precision arithmetic, which
    is not modelled. *)
Definition argb (c : QColor) : option (Z * Z * Z * Z) :=
  match c with
  | Invalid => Some (255, 0, 0, 0)
  | Rgb a r g b =>
      Some (qt_div_257 a, qt_div_257 r, qt_div_257 g, qt_div_257 b)
  | Hsl _ _ _ _ => None
  end.

(** [QColor::getHsl] of a colour of the HSL model; an invalid colour
    reads as zeros.  A colour of the RGB model would first be converted,
    which is not modelled. *)
Definition getHsl (c : QColor) : option (Z * Z * Z) :=
  match c with
  | Invalid => Some (0, 0, 0)
  | Hsl _ h s l =>
      Some (if h =? USHRT_MAX then -1 else h / 100,
            qt_div_257 s, qt_div_257 l)
  | Rgb _ _ _ _ => None
  end.

(** ** Colour names and hexadecimal notation *)

Definition h2i (c : ascii) : Z :=
  let n := code c in
  if (48 <=? n) && (n <=? 57) then n - 48
  else if (97 <=? n) && (n <=? 102) then n - 97 + 10
  else if (65 <=? n) && (n <=? 70) then n - 65 + 10
  else -1.

Fixpoint hex2int (s : QString) (n : nat) (result : Z) {struct n} : Z :=
  match n with
  | O => result
  | S k =>
      match s with
      | c :: s' => if h2i c <? 0 then -1
                   else hex2int s' k (result * 16 + h2i c)
      | [] => -1
      end
  end.

Definition hexAt (s : QString) (pos n : nat) : Z := hex2int (skipn pos s) n 0.

Definition inUShort (x : Z) : bool := (0 <=? x) && (x <=? USHRT_MAX).

(** [get_hex_rgb], the [#] already taken off: [RGB], [RRGGBB],
    [AARRGGBB], [RRRGGGBBB] and [RRRRGGGGBBBB]. *)
Definition get_hex_rgb (name : QString) : QColor :=
  let widen9 (x : Z) := Z.lor (Z.shiftl x 4) (Z.shiftr x 8) in
  let '(a, r, g, b) :=
    match length name with
    | 12%nat => (USHRT_MAX, hexAt name 0 4, hexAt name 4 4, hexAt name 8 4)
    | 9%nat => (USHRT_MAX, widen9 (hexAt name 0 3), widen9 (hexAt name 3 3),
                widen9 (hexAt name 6 3))
    | 8%nat => (hexAt name 0 2 * 257, hexAt name 2 2 * 257,
                hexAt name 4 2 * 257, hexAt name 6 2 * 257)
    | 6%nat => (USHRT_MAX, hexAt name 0 2 * 257, hexAt name 2 2 * 257,
                hexAt name 4 2 * 257)
    | 3%nat => (USHRT_MAX, hexAt name 0 1 * 4369, hexAt name 1 1 * 4369,
                hexAt name 2 1 * 4369)
    | _ => (USHRT_MAX, -1, -1, -1)
    end in
  if inUShort r && inUShort g && inUShort b && inUShort a
  then Rgb a r g b else Invalid.

(** The colour keywords of SVG 1.0 that Qt knows, as [0xRRGGBB]. *)
Definition svgColors : list (string * Z) :=
  [ ("aliceblue", 0xf0f8ff); ("antiquewhite", 0xfaebd7); ("aqua", 0x00ffff);
    ("aquamarine", 0x7fffd4); ("azure", 0xf0ffff); ("beige", 0xf5f5dc);
    ("bisque", 0xffe4c4); ("black", 0x000000); ("blanchedalmond", 0xffebcd);
    ("blue", 0x0000ff); ("blueviolet", 0x8a2be2); ("brown", 0xa52a2a);
    ("burlywood", 0xdeb887); ("cadetblue", 0x5f9ea0);
    ("chartreuse", 0x7fff00); ("chocolate", 0xd2691e); ("coral", 0xff7f50);
    ("cornflowerblue", 0x6495ed); ("cornsilk", 0xfff8dc);
    ("crimson", 0xdc143c); ("cyan", 0x00ffff); ("darkblue", 0x00008b);
    ("darkcyan", 0x008b8b); ("darkgoldenrod", 0xb8860b);
    ("darkgray", 0xa9a9a9); ("darkgreen", 0x006400); ("darkgrey", 0xa9a9a9);
    ("darkkhaki", 0xbdb76b); ("darkmagenta", 0x8b008b);
    ("darkolivegreen", 0x556b2f); ("darkorange", 0xff8c00);
    ("darkorchid", 0x9932cc); ("darkred", 0x8b0000);
    ("darksalmon", 0xe9967a); ("darkseagreen", 0x8fbc8f);
    ("darkslateblue", 0x483d8b); ("darkslategray", 0x2f4f4f);
    ("darkslategrey", 0x2f4f4f); ("darkturquoise", 0x00ced1);
    ("darkviolet", 0x9400d3); ("deeppink", 0xff1493);
    ("deepskyblue", 0x00bfff); ("dimgray", 0x696969); ("dimgrey", 0x696969);
    ("dodgerblue", 0x1e90ff); ("firebrick", 0xb22222);
    ("floralwhite", 0xfffaf0); ("forestgreen", 0x228b22);
    ("fuchsia", 0xff00ff); ("gainsboro", 0xdcdcdc); ("ghostwhite", 0xf8f8ff);
    ("gold", 0xffd700); ("goldenrod", 0xdaa520); ("gray", 0x808080);
    ("green", 0x008000); ("greenyellow", 0xadff2f); ("grey", 0x808080);
    ("honeydew", 0xf0fff0); ("hotpink", 0xff69b4); ("indianred", 0xcd5c5c);
    ("indigo", 0x4b0082); ("ivory", 0xfffff0); ("khaki", 0xf0e68c);
    ("lavender", 0xe6e6fa); ("lavenderblush", 0xfff0f5);
    ("lawngreen", 0x7cfc00); ("lemonchiffon", 0xfffacd);
    ("lightblue", 0xadd8e6); ("lightcoral", 0xf08080);
    ("lightcyan", 0xe0ffff); ("lightgoldenrodyellow", 0xfafad2);
    ("lightgray", 0xd3d3d3); ("lightgreen", 0x90ee90);
    ("lightgrey", 0xd3d3d3); ("lightpink", 0xffb6c1);
    ("lightsalmon", 0xffa07a); ("lightseagreen", 0x20b2aa);
    ("lightskyblue", 0x87cefa); ("lightslategray", 0x778899);
    ("lightslategrey", 0x778899); ("lightsteelblue", 0xb0c4de);
    ("lightyellow", 0xffffe0); ("lime", 0x00ff00); ("limegreen", 0x32cd32);
    ("linen", 0xfaf0e6); ("magenta", 0xff00ff); ("maroon", 0x800000);
    ("mediumaquamarine", 0x66cdaa); ("mediumblue", 0x0000cd);
    ("mediumorchid", 0xba55d3); ("mediumpurple", 0x9370db);
    ("mediumseagreen", 0x3cb371); ("mediumslateblue", 0x7b68ee);
    ("mediumspringgreen", 0x00fa9a); ("mediumturquoise", 0x48d1cc);
    ("mediumvioletred", 0xc71585); ("midnightblue", 0x191970);
    ("mintcream", 0xf5fffa); ("mistyrose", 0xffe4e1); ("moccasin", 0xffe4b5);
    ("navajowhite", 0xffdead); ("navy", 0x000080); ("oldlace", 0xfdf5e6);
    ("olive", 0x808000); ("olivedrab", 0x6b8e23); ("orange", 0xffa500);
    ("orangered", 0xff4500); ("orchid", 0xda70d6);
    ("palegoldenrod", 0xeee8aa); ("palegreen", 0x98fb98);
    ("paleturquoise", 0xafeeee); ("palevioletred", 0xdb7093);
    ("papayawhip", 0xffefd5); ("peachpuff", 0xffdab9); ("peru", 0xcd853f);
    ("pink", 0xffc0cb); ("plum", 0xdda0dd); ("powderblue", 0xb0e0e6);
    ("purple", 0x800080); ("red", 0xff0000); ("rosybrown", 0xbc8f8f);
    ("royalblue", 0x4169e1); ("saddlebrown", 0x8b4513);
    ("salmon", 0xfa8072); ("sandybrown", 0xf4a460); ("seagreen", 0x2e8b57);
    ("seashell", 0xfff5ee); ("sienna", 0xa0522d); ("silver", 0xc0c0c0);
    ("skyblue", 0x87ceeb); ("slateblue", 0x6a5acd); ("slategray", 0x708090);
    ("slategrey", 0x708090); ("snow", 0xfffafa); ("springgreen", 0x00ff7f);
    ("steelblue", 0x4682b4); ("tan", 0xd2b48c); ("teal", 0x008080);
    ("thistle", 0xd8bfd8); ("tomato", 0xff6347); ("turquoise", 0x40e0d0);
    ("violet", 0xee82ee); ("wheat", 0xf5deb3); ("white", 0xffffff);
    ("whitesmoke", 0xf5f5f5); ("yellow", 0xffff00);
    ("yellowgreen", 0x9acd32) ].

Fixpoint lookupName (tbl : list (string * Z)) (name : QString) : option Z :=
  match tbl with
  | [] => None
  | (k, v) :: tbl' => if eqs (qs k) name then Some v else lookupName tbl' name
  end.

(** [get_named_rgb]: blanks and tabs are dropped and the name is put in
    lower case before the table is searched; [transparent] is in the
    table with alpha 0. *)
Definition get_named_rgb (name : QString) : QColor :=
  let key := toLower (List.filter (fun c => negb (eqc c " ") && negb (eqc c "009"))
                             name) in
  if eqs key (qs "transparent") then fromRgba 0 0 0 0
  else match lookupName svgColors key with
       | Some v => fromRgb (Z.land (Z.shiftr v 16) 255)
                           (Z.land (Z.shiftr v 8) 255) (Z.land v 255)
       | None => Invalid
       end.

(** [QColor(const QString &)]: a [#] introduces the hexadecimal notation,
    anything else is looked up as a name; an empty or unknown string gives
    an invalid colour. *)
Definition fromString (name : QString) : QColor :=
  match name with
  | [] => Invalid
  | c :: rest =>
      if eqc c "#" then
        if (13 <? size name) then Invalid else get_hex_rgb rest
      else if (255 <? size name) then Invalid else get_named_rgb name
  end.

(** [QColor::name()]: [#rrggbb]. *)
Definition name (c : QColor) : option QString :=
  match argb c with
  | Some (_, r, g, b) =>
      Some ("#"%char :: hexPadded r 2 ++ hexPadded g 2 ++ hexPadded b 2)
  | None => None
  end.

(** [Qt::transparent], [Qt::white] and [Qt::black] as colours. *)
Definition transparent : QColor := fromRgba 0 0 0 0.
Definition white : QColor := fromRgb 255 255 255.
Definition black : QColor := fromRgb 0 0 0.

End QCol.

Import QCol.

(* ===================================================================== *)
(** * Types.h                                                             *)
(* ===================================================================== *)

Module Types.

Inductive Shape : Type :=
  | Rectangle | RoundedRect | Circle | Ellipse | Square | Custom.

Inductive BlurMode : Type := BlurNone | BlurBackground | BlurGlass | BlurFrosted.

Inductive BorderStyle : Type :=
  | StyleNone | StyleSolid | StyleDashed | StyleDotted | StyleGradient.

Inductive Animation : Type :=
  | AnimNone | FadeIn | FadeOut | SlideIn | SlideOut | Bounce | Pulse
  | Scale | Shake | Glow.

Inductive GradientType : Type := Linear | Radial | Conical.

Record Margin : Type := mkMargin {
  top : Z; right : Z; bottom : Z; left : Z
}.

(** [Margin() = default]. *)
Definition Margin0 : Margin := mkMargin 0 0 0 0.

(** [struct Padding : Margin]. *)
Definition Padding : Type := Margin.

Record Shadow : Type := mkShadow {
  sh_color : QColor; sh_blur : Z; offsetX : Z; offsetY : Z; spread : Z;
  enabled : bool
}.

Definition Shadow0 : Shadow := mkShadow (fromRgba 0 0 0 80) 10 0 2 0 false.

Record Gradient : Type := mkGradient {
  g_type : GradientType; g_start : QColor; g_end : QColor;
  angle : Dbl.double; center : Dbl.double * Dbl.double
}.

Definition Gradient0 : Gradient :=
  mkGradient Linear Invalid Invalid Dbl.zero (Dbl.zero, Dbl.zero).

Definition Gradient_isValid (g : Gradient) : bool :=
  isValid (g_start g) && isValid (g_end g).

Record Border : Type := mkBorder {
  b_color : QColor; width : Z; radius : Z; b_style : BorderStyle
}.

Definition Border0 : Border := mkBorder QCol.transparent 0 0 StyleSolid.

Record StyleSheet : Type := mkStyleSheet {
  backgroundColor : QColor;
  backgroundGradient : Gradient;
  backgroundImage : QString;
  textColor : QColor;
  fontFamily : QString;
  fontSize : Z;
  fontBold : bool;
  fontItalic : bool;
  border : Border;
  shadow : Shadow;
  margin : Margin;
  padding : Padding;
  cornerRadius : Z;
  opacity : Dbl.double;
  blur : BlurMode;
  blurRadius : Dbl.double
}.

(** The default-initialised [StyleSheet]: the member initialisers of the
    struct and of its members. *)
Definition StyleSheet0 : StyleSheet := {|
  backgroundColor := Invalid;
  backgroundGradient := Gradient0;
  backgroundImage := [];
  textColor := Invalid;
  fontFamily := [];
  fontSize := 12;
  fontBold := false;
  fontItalic := false;
  border := Border0;
  shadow := Shadow0;
  margin := Margin0;
  padding := Margin0;
  cornerRadius := 0;
  opacity := Dbl.one;
  blur := BlurNone;
  blurRadius := Dbl.ofZ 10
|}.

(** The inline helper [parseColor] of the header. *)
Definition parseColor (str : QString) : QColor :=
  let fallback := fromString str in
  if startsWith str (qs "rgb(") then
    let inner := mid str 4 (size str - 5) in
    match split inner "," with
    | p0 :: p1 :: p2 :: _ =>
        fromRgb (toInt (trimmed p0)) (toInt (trimmed p1)) (toInt (trimmed p2))
    | _ => fallback
    end
  else if startsWith str (qs "rgba(") then
    let inner := mid str 5 (size str - 6) in
    match split inner "," with
    | p0 :: p1 :: p2 :: p3 :: _ =>
        fromRgba (toInt (trimmed p0)) (toInt (trimmed p1))
                 (toInt (trimmed p2)) (toInt (trimmed p3))
    | _ => fallback
    end
  else fallback.

End Types.

Import Types.

(* ===================================================================== *)
(** * Utils.cpp, namespace Color                                          *)
(* ===================================================================== *)

Module Color.

Definition Red : QColor := fromRgb 255 0 0.
Definition Green : QColor := fromRgb 0 255 0.
Definition Blue : QColor := fromRgb 0 0 255.
Definition Yellow : QColor := fromRgb 255 255 0.
Definition Cyan : QColor := fromRgb 0 255 255.
Definition Magenta : QColor := fromRgb 255 0 255.
Definition Orange : QColor := fromRgb 255 165 0.
Definition Purple : QColor := fromRgb 128 0 128.
Definition Pink : QColor := fromRgb 255 192 203.
Definition Gray : QColor := fromRgb 128 128 128.

(** An [int] product as the machine computes it. *)
Definition wrap32 (x : Z) : Z := (x + 2147483648) mod 4294967296 - 2147483648.

(** The [rgb(] branch of [parse]; [None] when control falls through. *)
Definition parseRgb (s : QString) : option QColor :=
  if startsWith s (qs "rgb(") then
    let inner := mid s 4 (size s - 5) in
    match split inner "," with
    | p0 :: p1 :: p2 :: _ =>
        Some (fromRgb (toInt (trimmed p0)) (toInt (trimmed p1))
                      (toInt (trimmed p2)))
    | _ => None
    end
  else None.

(** The alpha of [rgba(]: a fraction of 255 when the text has a decimal
    point, the integer itself otherwise. *)
Definition parseAlpha (alphaStr : QString) : Z :=
  if contains alphaStr "." then
    Dbl.toIntTrunc (Dbl.mul (Dbl.toDouble alphaStr) (Dbl.ofZ 255))
  else toInt alphaStr.

(** The [rgba(] branch of [parse]. *)
Definition parseRgba (s : QString) : option QColor :=
  if startsWith s (qs "rgba(") then
    let inner := mid s 5 (size s - 6) in
    match split inner "," with
    | p0 :: p1 :: p2 :: p3 :: _ =>
        let alpha := parseAlpha (trimmed p3) in
        Some (fromRgba (toInt (trimmed p0)) (toInt (trimmed p1))
                       (toInt (trimmed p2)) alpha)
    | _ => None
    end
  else None.

(** The [hsl(] branch of [parse]. *)
Definition parseHsl (s : QString) : option QColor :=
  if startsWith s (qs "hsl(") then
    let inner := mid s 4 (size s - 5) in
    match split inner "," with
    | p0 :: p1 :: p2 :: _ =>
        let h := toInt (trimmed p0) in
        let sat := toInt (remove (trimmed p1) "%") in
        let light := toInt (remove (trimmed p2) "%") in
        Some (fromHsl h (Z.quot (wrap32 (sat * 255)) 100)
                        (Z.quot (wrap32 (light * 255)) 100))
    | _ => None
    end
  else None.

(** The colour names [parse] knows itself. *)
Definition namedColors : list (string * QColor) :=
  [ ("transparent", QCol.transparent); ("white", QCol.white);
    ("black", QCol.black); ("red", Red); ("green", Green); ("blue", Blue);
    ("yellow", Yellow); ("cyan", Cyan); ("magenta", Magenta);
    ("orange", Orange); ("purple", Purple); ("pink", Pink);
    ("gray", Gray); ("grey", Gray) ].

Fixpoint parseNamed (tbl : list (string * QColor)) (s : QString)
  : option QColor :=
  match tbl with
  | [] => None
  | (k, c) :: tbl' => if eqs s (qs k) then Some c else parseNamed tbl' s
  end.

Definition orElse {A} (x : option A) (y : option A) : option A :=
  match x with Some _ => x | None => y end.

(** [Color::parse]. *)
Definition parse (str : QString) : QColor :=
  let s := toLower (trimmed str) in
  match orElse (parseRgb s)
       (orElse (parseRgba s)
       (orElse (parseHsl s) (parseNamed namedColors s))) with
  | Some c => c
  | None => fromString str
  end.

(** [Color::toRgb]: [rgb(r, g, b)]. *)
Definition toRgb (color : QColor) : option QString :=
  match argb color with
  | Some (_, r, g, b) =>
      Some (qs "rgb(" ++ number r ++ qs ", " ++ number g ++ qs ", "
            ++ number b ++ qs ")")
  | None => None
  end.

(** [Color::toRgba]: [rgba(r, g, b, a)]. *)
Definition toRgba (color : QColor) : option QString :=
  match argb color with
  | Some (a, r, g, b) =>
      Some (qs "rgba(" ++ number r ++ qs ", " ++ number g ++ qs ", "
            ++ number b ++ qs ", " ++ number a ++ qs ")")
  | None => None
  end.

(** [Color::toHex]. *)
Definition toHex (color : QColor) (includeAlpha : bool) : option QString :=
  match argb color with
  | Some (a, r, g, b) =>
      if includeAlpha && (a <? 255) then
        Some ("#"%char :: hexPadded r 2 ++ hexPadded g 2 ++ hexPadded b 2
                       ++ hexPadded a 2)
      else QCol.name color
  | None => None
  end.

(** [Color::toHsl]: [hsl(h, s%, l%)]. *)
Definition toHsl (color : QColor) : option QString :=
  match getHsl color with
  | Some (h, s, l) =>
      Some (qs "hsl(" ++ number h ++ qs ", "
            ++ number (Z.quot (s * 100) 255) ++ qs "%, "
            ++ number (Z.quot (l * 100) 255) ++ qs "%)")
  | None => None
  end.

(** [Color::toString]. *)
Definition toString (color : QColor) (includeAlpha : bool) : option QString :=
  if negb (isValid color) then Some (qs "transparent")
  else match argb color with
       | Some (a, _, _, _) =>
           if includeAlpha && (a <? 255) then toRgba color
           else toHex color false
       | None => None
       end.

End Color.

(* ===================================================================== *)
(** * CSSParser.cpp                                                       *)
(* ===================================================================== *)

Module CSSParser.

Definition parseColor (value : QString) : QColor := Color.parse value.

(** [CSSParser::parsePixels]. *)
Definition parsePixels (value : QString) : Z :=
  let v := toLower (trimmed value) in
  let v := removeStr v (qs "px") in
  let v := removeStr v (qs "pt") in
  let v := removeStr v (qs "em") in
  let v := removeStr v (qs "rem") in
  toInt v.

(** [CSSParser::parseMargin]. *)
Definition parseMargin (value : QString) : Margin :=
  match splitSkipEmpty value " " with
  | [] => Margin0
  | [p0] => let v := parsePixels p0 in mkMargin v v v v
  | [p0; p1] =>
      let v := parsePixels p0 in let h := parsePixels p1 in mkMargin v h v h
  | [p0; p1; p2] =>
      mkMargin (parsePixels p0) (parsePixels p1) (parsePixels p2)
               (parsePixels p1)
  | p0 :: p1 :: p2 :: p3 :: _ =>
      mkMargin (parsePixels p0) (parsePixels p1) (parsePixels p2)
               (parsePixels p3)
  end.

(** [p[0].isDigit()]; on an empty string the terminating null character
    is read, which is no digit. *)
Definition firstIsDigit (p : QString) : bool :=
  match p with c :: _ => isDigit c | [] => false end.

Definition isBorderStyleWord (p : QString) : bool :=
  eqs p (qs "solid") || eqs p (qs "dashed") || eqs p (qs "dotted")
  || eqs p (qs "none").

Definition borderStyleOf (p : QString) : BorderStyle :=
  if eqs p (qs "solid") then StyleSolid
  else if eqs p (qs "dashed") then StyleDashed
  else if eqs p (qs "dotted") then StyleDotted
  else StyleNone.

(** The body of the loop of [parseBorder]. *)
Definition borderPart (b : Border) (part : QString) : Border :=
  let p := trimmed part in
  if endsWith p (qs "px") || firstIsDigit p then
    mkBorder (b_color b) (parsePixels p) (radius b) (b_style b)
  else if isBorderStyleWord p then
    mkBorder (b_color b) (width b) (radius b) (borderStyleOf p)
  else
    mkBorder (parseColor p) (width b) (radius b) (b_style b).

(** [CSSParser::parseBorder]. *)
Definition parseBorder (value : QString) : Border :=
  fold_left borderPart (splitSkipEmpty value " ") Border0.

(** The body of the loop of [parseShadow]: the numbers seen so far and
    the colour text. *)
Definition shadowPart (acc : list Z * QString) (part : QString)
  : list Z * QString :=
  let '(numbers, colorStr) := acc in
  let p := trimmed part in
  let '(num, ok) := toIntOk (removeStr p (qs "px")) in
  if ok then (numbers ++ [num], colorStr) else (numbers, p).

(** [CSSParser::parseShadow]. *)
Definition parseShadow (value : QString) : Shadow :=
  let '(numbers, colorStr) :=
    fold_left shadowPart (splitSkipEmpty value " ") ([], []) in
  let s := mkShadow (sh_color Shadow0) (sh_blur Shadow0) (offsetX Shadow0)
                    (offsetY Shadow0) (spread Shadow0) true in
  let s := match numbers with
           | n0 :: n1 :: _ =>
               mkShadow (sh_color s) (sh_blur s) n0 n1 (spread s) (enabled s)
           | _ => s
           end in
  let s := match numbers with
           | _ :: _ :: n2 :: _ =>
               mkShadow (sh_color s) n2 (offsetX s) (offsetY s) (spread s)
                        (enabled s)
           | _ => s
           end in
  let s := match numbers with
           | _ :: _ :: _ :: n3 :: _ =>
               mkShadow (sh_color s) (sh_blur s) (offsetX s) (offsetY s) n3
                        (enabled s)
           | _ => s
           end in
  if negb (isEmpty colorStr) then
    mkShadow (parseColor colorStr) (sh_blur s) (offsetX s) (offsetY s)
             (spread s) (enabled s)
  else s.

Definition marginSet (m : Margin) : bool :=
  (0 <? top m) || (0 <? right m) || (0 <? bottom m) || (0 <? left m).

Definition blurSet (m : BlurMode) : bool :=
  match m with BlurNone => false | _ => true end.

(** [CSSParser::merge]: every test of the source guards the assignment of
    one member (of two for the blur), so the result is given member by
    member. *)
Definition merge (a b : StyleSheet) : StyleSheet := {|
  backgroundColor :=
    if isValid (backgroundColor b) then backgroundColor b
    else backgroundColor a;
  backgroundGradient :=
    if Gradient_isValid (backgroundGradient b) then backgroundGradient b
    else backgroundGradient a;
  backgroundImage :=
    if negb (isEmpty (backgroundImage b)) then backgroundImage b
    else backgroundImage a;
  textColor := if isValid (textColor b) then textColor b else textColor a;
  fontFamily :=
    if negb (isEmpty (fontFamily b)) then fontFamily b else fontFamily a;
  fontSize := if 0 <? fontSize b then fontSize b else fontSize a;
  fontBold := if fontBold b then fontBold b else fontBold a;
  fontItalic := if fontItalic b then fontItalic b else fontItalic a;
  border := if 0 <? width (border b) then border b else border a;
  shadow := if enabled (shadow b) then shadow b else shadow a;
  margin := if marginSet (margin b) then margin b else margin a;
  padding := if marginSet (padding b) then padding b else padding a;
  cornerRadius :=
    if 0 <? cornerRadius b then cornerRadius b else cornerRadius a;
  opacity := if Dbl.ltb (opacity b) Dbl.one then opacity b else opacity a;
  blur := if blurSet (blur b) then blur b else blur a;
  blurRadius := if blurSet (blur b) then blurRadius b else blurRadius a
|}.

(** [CSSParser::getStyle] and [getTypeStyle] on the rule table. *)
Definition getStyle (m_styles : gmap string StyleSheet) (className : QString)
  : StyleSheet :=
  let selector :=
    if startsWith className (qs ".") then className
    else "."%char :: className in
  default StyleSheet0 (m_styles !! string_of_list_ascii selector).

Definition getTypeStyle (m_styles : gmap string StyleSheet)
  (typeName : QString) : StyleSheet :=
  default StyleSheet0 (m_styles !! string_of_list_ascii (toLower typeName)).

End CSSParser.

(* ===================================================================== *)
(** * Widget.cpp                                                          *)
(* ===================================================================== *)

Module Widget.

(** ** Qt: values, animations *)

Definition qMin (a b : Dbl.double) : Dbl.double := if Dbl.ltb a b then a else b.
Definition qMax (a b : Dbl.double) : Dbl.double := if Dbl.ltb a b then b else a.

(** [qBound(min, val, max)]. *)
Definition qBound (min val max : Dbl.double) : Dbl.double :=
  qMax min (qMin max val).

(** [QColor::alpha]. *)
Definition alpha (c : QColor) : Z :=
  match c with
  | Invalid => 255
  | Rgb a _ _ _ | Hsl a _ _ _ => qt_div_257 a
  end.

(** [QColor::setAlpha] with an alpha in 0..255; an invalid colour stays
    invalid. *)
Definition setAlpha (c : QColor) (a : Z) : QColor :=
  match c with
  | Invalid => Invalid
  | Rgb _ r g b => Rgb (a * 257) r g b
  | Hsl _ h s l => Hsl (a * 257) h s l
  end.

(** What the slot connected to [finished] of an animation does: hide the
    widget or not, free the slot of a name, emit [animationFinished] or
    not, call the animation callback of the widget or not. *)
Record Slot : Type := mkSlot {
  sl_hide : bool;
  sl_name : string;
  sl_signal : option Animation;
  sl_callback : bool
}.

(** A [QPropertyAnimation] owned by the widget.  [a_time] is the total
    time it has run.  The values it writes to its property are what is
    painted and are left out. *)
Record QPropertyAnimation : Type := mkAnim {
  a_id : nat;
  a_property : string;
  a_duration : Z;
  a_loopCount : Z;
  a_time : Z;
  a_running : bool;
  a_finished : option Slot
}.

(** What is logged of a widget.  [EvFinished id]: the slot connected to
    [finished] of the animation [id] runs; [EvAnimationFinished id a]:
    that slot emits [animationFinished(a)]; [EvCallback id]: that slot
    calls the animation callback of the widget; [EvShown], [EvHidden]:
    [show] and [hide] of [QWidget]. *)
Inductive Event : Type :=
  | EvFinished (id : nat)
  | EvAnimationFinished (id : nat) (a : Animation)
  | EvCallback (id : nat)
  | EvShown
  | EvHidden.

Record Widget : Type := mkWidget {
  w_width : Z;
  w_height : Z;
  visible : bool;
  windowOpacity : Dbl.double;
  m_shape : Shape;
  m_cornerRadius : Z;
  m_bgColor : QColor;
  m_bgGradient : Gradient;
  m_opacity : Dbl.double;
  m_border : Border;
  m_shadow : Shadow;
  m_style : StyleSheet;
  m_blurMode : BlurMode;
  m_blurRadius : Dbl.double;
  m_initialized : bool;
  m_animations : gmap string nat;
  m_animationCallback : bool;
  objects : list QPropertyAnimation;
  nextId : nat;
  events : list Event
}.

(** The part of a widget the appearance setters write. *)
Definition withLook (w : Widget) (width height : Z) (shape : Shape)
  (corner : Z) (bg : QColor) (grad : Gradient) (bd : Border) (sh : Shadow)
  (st : StyleSheet) (bm : BlurMode) (br : Dbl.double) : Widget :=
  mkWidget width height (visible w) (windowOpacity w) shape corner bg grad
    (m_opacity w) bd sh st bm br (m_initialized w) (m_animations w)
    (m_animationCallback w) (objects w) (nextId w) (events w).

(** The part the animations write. *)
Definition withAnim (w : Widget) (vis : bool) (anims : gmap string nat)
  (objs : list QPropertyAnimation) (next : nat) (evs : list Event) : Widget :=
  mkWidget (w_width w) (w_height w) vis (windowOpacity w) (m_shape w)
    (m_cornerRadius w) (m_bgColor w) (m_bgGradient w) (m_opacity w)
    (m_border w) (m_shadow w) (m_style w) (m_blurMode w) (m_blurRadius w)
    (m_initialized w) anims (m_animationCallback w) objs next evs.

Definition QWIDGETSIZE_MAX : Z := 16777215.

(** [QWidget::resize]: a size is kept between the default minimum and
    maximum size of a widget. *)
Definition resize (w : Widget) (width height : Z) : Widget :=
  withLook w (Z.max 0 (Z.min width QWIDGETSIZE_MAX))
    (Z.max 0 (Z.min height QWIDGETSIZE_MAX)) (m_shape w) (m_cornerRadius w)
    (m_bgColor w) (m_bgGradient w) (m_border w) (m_shadow w) (m_style w)
    (m_blurMode w) (m_blurRadius w).

(** [Widget::Widget(width, height)]: the member initialisers of the class,
    then the body of the constructor. *)
Definition create (width height : Z) : Widget :=
  resize
    (mkWidget 0 0 false Dbl.one Rectangle 0 (fromRgba 30 30 40 220) Gradient0
       Dbl.one Border0 Shadow0 StyleSheet0 BlurNone (Dbl.ofZ 10) true
       ∅ false [] 0%nat [])
    width height.

(** ** Shape and appearance *)

Definition setShape (shape : Shape) (w : Widget) : Widget :=
  let w := withLook w (w_width w) (w_height w) shape (m_cornerRadius w)
             (m_bgColor w) (m_bgGradient w) (m_border w) (m_shadow w)
             (m_style w) (m_blurMode w) (m_blurRadius w) in
  match shape with
  | Circle | Square =>
      let s := Z.min (w_width w) (w_height w) in resize w s s
  | _ => w
  end.

Definition setRounded (radius : Z) (w : Widget) : Widget :=
  withLook w (w_width w) (w_height w) RoundedRect radius (m_bgColor w)
    (m_bgGradient w) (m_border w) (m_shadow w) (m_style w) (m_blurMode w)
    (m_blurRadius w).

Definition setBackgroundColor (color : QColor) (w : Widget) : Widget :=
  withLook w (w_width w) (w_height w) (m_shape w) (m_cornerRadius w) color
    (m_bgGradient w) (m_border w) (m_shadow w) (m_style w) (m_blurMode w)
    (m_blurRadius w).

(** [Widget::setBackground(const QString &)]. *)
Definition setBackground (color : QString) (w : Widget) : Widget :=
  setBackgroundColor (Color.parse color) w.

Definition setBackgroundGradient (g : Gradient) (w : Widget) : Widget :=
  withLook w (w_width w) (w_height w) (m_shape w) (m_cornerRadius w)
    (m_bgColor w) g (m_border w) (m_shadow w) (m_style w) (m_blurMode w)
    (m_blurRadius w).

(** The doubles of the interval [0.0, 1.0]. *)
Definition inUnit (x : Dbl.double) : bool :=
  Dbl.leb Dbl.zero x && Dbl.leb x Dbl.one.

(** [Widget::setOpacity]; [QWidget::setWindowOpacity] bounds its argument
    the same way. *)
Definition setOpacity (opacity : Dbl.double) (w : Widget) : Widget :=
  let o := qBound Dbl.zero opacity Dbl.one in
  mkWidget (w_width w) (w_height w) (visible w)
    (qBound Dbl.zero o Dbl.one) (m_shape w)
    (m_cornerRadius w) (m_bgColor w) (m_bgGradient w) o
    (m_border w) (m_shadow w) (m_style w) (m_blurMode w) (m_blurRadius w)
    (m_initialized w) (m_animations w) (m_animationCallback w) (objects w)
    (nextId w) (events w).

(** [Widget::setBlur]. *)
Definition setBlur (mode : BlurMode) (radius : Dbl.double) (w : Widget)
  : Widget :=
  let bg :=
    if CSSParser.blurSet mode && (150 <? alpha (m_bgColor w))
    then setAlpha (m_bgColor w) 100 else m_bgColor w in
  withLook w (w_width w) (w_height w) (m_shape w) (m_cornerRadius w) bg
    (m_bgGradient w) (m_border w) (m_shadow w) (m_style w) mode radius.

Definition setGlass (on : bool) (w : Widget) : Widget :=
  setBlur (if on then BlurGlass else BlurNone) (Dbl.ofZ 10) w.

(** [Widget::setShadow(color, blur, offsetX, offsetY)]. *)
Definition setShadow (color : QColor) (blur offX offY : Z) (w : Widget)
  : Widget :=
  withLook w (w_width w) (w_height w) (m_shape w) (m_cornerRadius w)
    (m_bgColor w) (m_bgGradient w) (m_border w)
    (mkShadow color blur offX offY (spread (m_shadow w)) true)
    (m_style w) (m_blurMode w) (m_blurRadius w).

Definition setBorderStruct (b : Border) (w : Widget) : Widget :=
  withLook w (w_width w) (w_height w) (m_shape w) (m_cornerRadius w)
    (m_bgColor w) (m_bgGradient w) b (m_shadow w) (m_style w) (m_blurMode w)
    (m_blurRadius w).

(** [Widget::setBorder(const QColor &, int)]. *)
Definition setBorderColor (color : QColor) (width : Z) (w : Widget) : Widget :=
  setBorderStruct
    (mkBorder color width (radius (m_border w)) (b_style (m_border w))) w.

(** [Widget::setBorder(const QString &, int)]. *)
Definition setBorder (color : QString) (width : Z) (w : Widget) : Widget :=
  setBorderColor (Color.parse color) width w.

Definition Border_isVisible (b : Border) : bool :=
  (0 <? Types.width b) && (0 <? alpha (b_color b)).

(** [Widget::setStyle]; the contents margins of the layout are not part
    of the state. *)
Definition setStyle (style : StyleSheet) (w : Widget) : Widget :=
  let w := withLook w (w_width w) (w_height w) (m_shape w) (m_cornerRadius w)
             (m_bgColor w) (m_bgGradient w) (m_border w) (m_shadow w) style
             (m_blurMode w) (m_blurRadius w) in
  let w := if isValid (backgroundColor style)
           then setBackgroundColor (backgroundColor style) w else w in
  let w := if Gradient_isValid (backgroundGradient style)
           then setBackgroundGradient (backgroundGradient style) w else w in
  let w := if 0 <? cornerRadius style
           then setRounded (cornerRadius style) w else w in
  let w := if Border_isVisible (border style)
           then setBorderStruct (border style) w else w in
  let w := if enabled (shadow style)
           then setShadow (sh_color (shadow style)) (sh_blur (shadow style))
                  (offsetX (shadow style)) (offsetY (shadow style)) w
           else w in
  let w := if Dbl.ltb (opacity style) Dbl.one
           then setOpacity (opacity style) w else w in
  if CSSParser.blurSet (blur style)
  then setBlur (blur style) (blurRadius style) w else w.

(** ** Animations *)

(** [QAbstractAnimation::totalDuration]: -1 for an endless animation. *)
Definition totalDuration (a : QPropertyAnimation) : Z :=
  if a_duration a <=? 0 then a_duration a
  else if a_loopCount a <? 0 then -1
  else a_duration a * a_loopCount a.

(** The current loop and the time within it, as
    [QAbstractAnimation::setCurrentTime] leaves them. *)
Definition currentLoop (a : QPropertyAnimation) : Z :=
  let l := if a_duration a <=? 0 then 0 else a_time a / a_duration a in
  if l =? a_loopCount a then Z.max 0 (a_loopCount a - 1) else l.

Definition currentTime (a : QPropertyAnimation) : Z :=
  let l := if a_duration a <=? 0 then 0 else a_time a / a_duration a in
  if l =? a_loopCount a then Z.max 0 (a_duration a)
  else if a_duration a <=? 0 then a_time a
  else a_time a mod a_duration a.

(** Whether leaving the running state emits [finished]: the animation is
    endless or stands at its end. *)
Definition emitsOnStop (a : QPropertyAnimation) : bool :=
  (a_duration a =? -1) || (a_loopCount a <? 0)
  || (currentTime a * (currentLoop a + 1) =? a_duration a * a_loopCount a).

Definition log (e : Event) (w : Widget) : Widget :=
  withAnim w (visible w) (m_animations w) (objects w) (nextId w)
    (events w ++ [e]).

(** The slot connected to [finished] runs. *)
Definition runSlot (id : nat) (sl : Slot) (w : Widget) : Widget :=
  let w := log (EvFinished id) w in
  let w := withAnim w (if sl_hide sl then false else visible w)
             (delete (sl_name sl) (m_animations w)) (objects w) (nextId w)
             (events w) in
  let w := match sl_signal sl with
           | Some a => log (EvAnimationFinished id a) w
           | None => w
           end in
  if sl_callback sl && m_animationCallback w then log (EvCallback id) w
  else w.

(** The signal [finished] of an animation is emitted. *)
Definition emitFinished (a : QPropertyAnimation) (w : Widget) : Widget :=
  match a_finished a with
  | Some sl => runSlot (a_id a) sl w
  | None => w
  end.

(** [QAbstractAnimation::setCurrentTime]: the animation with its new time,
    and whether it has reached its end and stops. *)
Definition setCurrentTime (msecs : Z) (a : QPropertyAnimation)
  : QPropertyAnimation * bool :=
  let total := totalDuration a in
  let msecs := Z.max msecs 0 in
  let msecs := if total =? -1 then msecs else Z.min total msecs in
  let atEnd := msecs =? total in
  (mkAnim (a_id a) (a_property a) (a_duration a) (a_loopCount a) msecs
          (if atEnd then false else a_running a) (a_finished a),
   atEnd).

Definition stopped (a : QPropertyAnimation) : QPropertyAnimation :=
  mkAnim (a_id a) (a_property a) (a_duration a) (a_loopCount a) (a_time a)
         false (a_finished a).

Definition findObject (id : nat) (objs : list QPropertyAnimation)
  : option QPropertyAnimation :=
  find (fun a => Nat.eqb (a_id a) id) objs.

Definition deleteObject (id : nat) (objs : list QPropertyAnimation)
  : list QPropertyAnimation :=
  List.filter (fun a => negb (Nat.eqb (a_id a) id)) objs.

(** [anim->stop(); anim->deleteLater()]: the object leaves the running
    state, which can emit [finished], and is gone. *)
Definition stopAndDelete (a : QPropertyAnimation) (w : Widget) : Widget :=
  let w := withAnim w (visible w) (m_animations w)
             (deleteObject (a_id a) (objects w)) (nextId w) (events w) in
  if a_running a && emitsOnStop a then emitFinished a w else w.

(** [Widget::stopAnimation]: nothing happens when the name is absent or
    its pointer is null. *)
Definition stopAnimation (name : string) (w : Widget) : Widget :=
  match m_animations w !! name with
  | Some id =>
      match findObject id (objects w) with
      | Some a =>
          let w := stopAndDelete a w in
          withAnim w (visible w) (delete name (m_animations w)) (objects w)
            (nextId w) (events w)
      | None => w
      end
  | None => w
  end.

(** [Widget::cleanupAnimations]: every entry whose pointer is not null is
    stopped and deleted, then the map is cleared.  (The map is walked in
    the order of [map_to_list]; the walk of the source is by name.) *)
Definition cleanupAnimations (w : Widget) : Widget :=
  let stopEntry (w : Widget) (e : string * nat) :=
    match findObject (snd e) (objects w) with
    | Some a => stopAndDelete a w
    | None => w
    end in
  let w := fold_left stopEntry (map_to_list (m_animations w)) w in
  withAnim w (visible w) ∅ (objects w) (nextId w) (events w).

(** [QPropertyAnimation::setDuration]: a negative duration is refused and
    the default of 250 ms stays. *)
Definition setDuration (duration : Z) : Z :=
  if duration <? 0 then 250 else duration.

(** [QPropertyAnimation::updateState] of an animation that enters the
    running state: the animation that runs on the same property of the
    same object is stopped, which can emit its [finished]; it is not
    deleted and keeps its entry in [m_animations].  (Qt keeps, for an
    object and a property, the animation that entered the running state
    last and stops that one; as each start stops the one before, it is
    the only one that runs on the property.) *)
Definition stopOther (property : string) (a : QPropertyAnimation)
  : QPropertyAnimation :=
  if a_running a && String.eqb (a_property a) property then stopped a else a.

Definition stopSameProperty (property : string) (w : Widget) : Widget :=
  let emitting :=
    List.filter (fun a => a_running a && String.eqb (a_property a) property
                          && emitsOnStop a) (objects w) in
  fold_left (fun w a => emitFinished a w) emitting
    (withAnim w (visible w) (m_animations w)
       (map (stopOther property) (objects w)) (nextId w) (events w)).

(** What the animation methods share: [createAnimation], [setLoopCount],
    [connect], the entry in [m_animations] and [start], which stops the
    animation running on the same property, sets the current time to 0
    and so ends an animation without duration at once. *)
Definition startAnimation (name property : string) (duration loops : Z)
  (slot : option Slot) (w : Widget) : Widget :=
  let id := nextId w in
  let a := mkAnim id property (setDuration duration) loops 0 true slot in
  let w := withAnim w (visible w) (<[name := id]> (m_animations w))
             (objects w) (S id) (events w) in
  let w := stopSameProperty property w in
  let '(a', atEnd) := setCurrentTime 0 a in
  let w := withAnim w (visible w) (m_animations w) (objects w ++ [a'])
             (nextId w) (events w) in
  if atEnd then emitFinished a' w else w.

(** The requests for an animation, with the arguments that matter for
    its life: the duration. *)
Inductive Request : Type :=
  | ReqFadeIn (duration : Z)
  | ReqFadeOut (duration : Z)
  | ReqFadeTo (duration : Z)
  | ReqBounce (duration : Z)
  | ReqPulse (duration : Z)
  | ReqShake (duration : Z)
  | ReqScaleTo (duration : Z)
  | ReqMoveTo (duration : Z)
  | ReqSlideIn (duration : Z)
  | ReqSlideOut (duration : Z).

Definition requestName (r : Request) : string :=
  match r with
  | ReqFadeIn _ | ReqFadeOut _ | ReqFadeTo _ => "fade"
  | ReqBounce _ => "bounce"
  | ReqPulse _ => "pulse"
  | ReqShake _ => "shake"
  | ReqScaleTo _ => "scale"
  | ReqMoveTo _ => "move"
  | ReqSlideIn _ | ReqSlideOut _ => "slide"
  end.

Definition requestDuration (r : Request) : Z :=
  match r with
  | ReqFadeIn d | ReqFadeOut d | ReqFadeTo d | ReqBounce d | ReqPulse d
  | ReqShake d | ReqScaleTo d | ReqMoveTo d | ReqSlideIn d | ReqSlideOut d => d
  end.

Definition requestProperty (r : Request) : string :=
  match r with
  | ReqFadeIn _ | ReqFadeOut _ | ReqFadeTo _ | ReqPulse _ => "windowOpacity"
  | ReqBounce _ | ReqScaleTo _ => "geometry"
  | ReqShake _ | ReqMoveTo _ | ReqSlideIn _ | ReqSlideOut _ => "pos"
  end.

Definition requestLoops (r : Request) : Z :=
  match r with ReqPulse _ => -1 | _ => 1 end.

(** The lambda each method connects to [finished]; [pulse] connects
    none. *)
Definition requestSlot (r : Request) : option Slot :=
  match r with
  | ReqFadeIn _ => Some (mkSlot false "fade" (Some FadeIn) true)
  | ReqFadeOut _ => Some (mkSlot true "fade" (Some FadeOut) true)
  | ReqFadeTo _ => Some (mkSlot false "fade" None false)
  | ReqBounce _ => Some (mkSlot false "bounce" (Some Bounce) false)
  | ReqPulse _ => None
  | ReqShake _ => Some (mkSlot false "shake" (Some Shake) false)
  | ReqScaleTo _ => Some (mkSlot false "scale" (Some Scale) false)
  | ReqMoveTo _ => Some (mkSlot false "move" None false)
  | ReqSlideIn _ => Some (mkSlot false "slide" (Some SlideIn) false)
  | ReqSlideOut _ => Some (mkSlot true "slide" (Some SlideOut) false)
  end.

(** [Widget::fadeIn], [fadeOut], [fadeTo], [bounce], [pulse], [shake],
    [scaleTo], [moveTo], [slideIn], [slideOut]. *)
Definition request (r : Request) (w : Widget) : Widget :=
  if negb (m_initialized w) then w
  else
    let w := match r with
             | ReqSlideIn _ =>
                 withAnim w true (m_animations w) (objects w) (nextId w)
                   (events w)
             | _ => w
             end in
    let w := stopAnimation (requestName r) w in
    startAnimation (requestName r) (requestProperty r) (requestDuration r)
      (requestLoops r) (requestSlot r) w.

(** One step of the animation timer of Qt on one running animation: it
    advances by [dt] ms and may reach its end. *)
Definition advance (dt : Z) (a : QPropertyAnimation)
  : QPropertyAnimation * bool :=
  if a_running a then setCurrentTime (a_time a + dt) a else (a, false).

(** One step of the animation timer of Qt: every running animation
    advances by [dt] ms; those that reach their end stop and emit
    [finished], in the order in which they were started. *)
Definition tick (dt : Z) (w : Widget) : Widget :=
  let objs := map (fun a => fst (advance dt a)) (objects w) in
  let ended := List.filter (fun a => snd (advance dt a)) (objects w) in
  fold_left (fun w a => emitFinished a w) ended
    (withAnim w (visible w) (m_animations w) objs (nextId w) (events w)).

(** [Widget::setAnimationCallback]; the callback itself is code of the
    caller and is taken not to call back into the widget. *)
Definition setAnimationCallback (present : bool) (w : Widget) : Widget :=
  mkWidget (w_width w) (w_height w) (visible w) (windowOpacity w) (m_shape w)
    (m_cornerRadius w) (m_bgColor w) (m_bgGradient w) (m_opacity w)
    (m_border w) (m_shadow w) (m_style w) (m_blurMode w) (m_blurRadius w)
    (m_initialized w) (m_animations w) present (objects w) (nextId w)
    (events w).

(** [Widget::show] and [Widget::hide]. *)
Definition show (w : Widget) : Widget :=
  let w := withAnim w true (m_animations w) (objects w) (nextId w)
             (events w) in
  let w := if m_initialized w then request (ReqFadeIn 200) w else w in
  log EvShown w.

Definition hide (w : Widget) : Widget :=
  let w := if m_initialized w then request (ReqFadeOut 200) w
           else withAnim w false (m_animations w) (objects w) (nextId w)
                  (events w) in
  log EvHidden w.

(** What can happen to a widget. *)
Inductive Op : Type :=
  | OpSetOpacity (opacity : Dbl.double)
  | OpSetStyle (style : StyleSheet)
  | OpSetBackground (color : QString)
  | OpSetShape (shape : Shape)
  | OpSetRounded (radius : Z)
  | OpSetBlur (mode : BlurMode) (radius : Dbl.double)
  | OpSetGlass (on : bool)
  | OpSetShadow (color : QColor) (blur offX offY : Z)
  | OpSetBorder (color : QString) (width : Z)
  | OpSetSize (width height : Z)
  | OpSetAnimationCallback (present : bool)
  | OpRequest (r : Request)
  | OpStopAnimations
  | OpShow
  | OpHide
  | OpTick (dt : Z).

Definition apply (w : Widget) (op : Op) : Widget :=
  match op with
  | OpSetOpacity o => setOpacity o w
  | OpSetStyle st => setStyle st w
  | OpSetBackground c => setBackground c w
  | OpSetShape sh => setShape sh w
  | OpSetRounded r => setRounded r w
  | OpSetBlur m r => setBlur m r w
  | OpSetGlass on => setGlass on w
  | OpSetShadow c b x y => setShadow c b x y w
  | OpSetBorder c wd => setBorder c wd w
  | OpSetSize wd h => resize w wd h
  | OpSetAnimationCallback p => setAnimationCallback p w
  | OpRequest r => request r w
  | OpStopAnimations => cleanupAnimations w
  | OpShow => show w
  | OpHide => hide w
  | OpTick dt => tick dt w
  end.

Definition run (ops : list Op) (w : Widget) : Widget := fold_left apply ops w.

Definition ticks (dts : list Z) (w : Widget) : Widget :=
  fold_left (fun w dt => tick dt w) dts w.

Definition isFinishedOf (id : nat) (e : Event) : bool :=
  match e with EvFinished i => Nat.eqb i id | _ => false end.

(** How often the slot of animation [id] has run. *)
Definition fired (id : nat) (w : Widget) : nat :=
  length (List.filter (isFinishedOf id) (events w)).









(** On each property at most one animation runs. *)
Definition oneRunning (w : Widget) : Prop :=
  forall a b,
    In a (objects w) -> In b (objects w) ->
    a_running a = true -> a_running b = true ->
    a_property a = a_property b -> a_id a = a_id b.

(** Whether the slot of [a] counts for [id]: 1 when [a] has a slot and
    the identifier [id], else 0. *)
Definition firesFor (id : nat) (a : QPropertyAnimation) : nat :=
  match a_finished a with
  | Some _ => if Nat.eqb (a_id a) id then 1%nat else 0%nat
  | None => 0%nat
  end.

(** How many of the objects of [l] count for [id]. *)
Definition firesAmong (id : nat) (l : list QPropertyAnimation) : nat :=
  fold_right (fun a n => (firesFor id a + n)%nat) 0%nat l.


(** An animation object as the methods of the widget make and keep it:
    it runs once and, while it runs, has not reached its end; or it is an
    endless pulse, which has no slot. *)
Definition goodObject (a : QPropertyAnimation) : Prop :=
  0 <= a_duration a /\ 0 <= a_time a /\
  ((a_loopCount a = 1 /\ (a_running a = true -> a_time a < a_duration a))
   \/ (a_loopCount a = -1 /\ a_finished a = None)).


(** What holds of every widget that the constructor made: the objects
    have distinct identifiers below the next one, a running object has
    not run its slot, and no slot has run for an identifier to come. *)
Record wf (w : Widget) : Prop := mkWf {
  wf_initialized : m_initialized w = true;
  wf_ids : Forall (fun a => (a_id a < nextId w)%nat) (objects w);
  wf_nodup : List.NoDup (map a_id (objects w));
  wf_good : Forall goodObject (objects w);
  wf_running :
    Forall (fun a => a_running a = true -> fired (a_id a) w = 0%nat)
           (objects w);
  wf_fresh : forall id, (nextId w <= id)%nat -> fired id w = 0%nat
}.

End Widget.

Import Widget.

(* ===================================================================== *)
(** * XMLParser.cpp                                                       *)
(* ===================================================================== *)

Module XMLParser.

(** A node of a [QDomDocument]. *)
Inductive QDomNode : Type :=
  | DomElement (tag : QString) (attributes : list (QString * QString))
               (children : list QDomNode)
  | DomText (data : QString)
  | DomComment (data : QString).

(** What the XML reader behind [QDomDocument::setContent] finds: the
    document element, or the message of the first well-formedness error
    and the number of characters it had read when it met the error. *)
Inductive SetContentResult : Type :=
  | DomOk (root : QDomNode)
  | DomError (errorMsg : QString) (consumed : nat).

(** The place of the reader of Qt 6 after the characters [read], from
    the line [line] and the column [column]:
    [QXmlStreamReader::lineNumber], the current line number, starting
    with 1, and [columnNumber], the current column number, starting with
    0.  A line feed ends a line, and so does a carriage return, together
    with the line feed that follows it if one does ([afterCR]). *)
Fixpoint place (read : QString) (afterCR : bool) (line column : Z) : Z * Z :=
  match read with
  | [] => (line, column)
  | c :: rest =>
      if eqc c "010" then
        if afterCR then place rest false line column
        else place rest false (line + 1) 0
      else if eqc c "013" then place rest true (line + 1) 0
      else place rest false line (column + 1)
  end.

(** The line and the column [setContent] writes to [*errorLine] and
    [*errorColumn]: the place of the reader, narrowed to [int]. *)
Definition errorLine (text : QString) (consumed : nat) : Z :=
  Color.wrap32 (fst (place (firstn consumed text) false 1 0)).

Definition errorColumn (text : QString) (consumed : nat) : Z :=
  Color.wrap32 (snd (place (firstn consumed text) false 1 0)).

Definition tagName (n : QDomNode) : QString :=
  match n with DomElement t _ _ => t | _ => [] end.

Definition childNodes (n : QDomNode) : list QDomNode :=
  match n with DomElement _ _ cs => cs | _ => [] end.

Definition isElement (n : QDomNode) : bool :=
  match n with DomElement _ _ _ => true | _ => false end.

Fixpoint lookupAttr (attrs : list (QString * QString)) (name : QString)
  : option QString :=
  match attrs with
  | [] => None
  | (k, v) :: attrs' => if eqs k name then Some v else lookupAttr attrs' name
  end.

(** [QDomElement::attribute(name, defValue)] and [hasAttribute]. *)
Definition attribute (n : QDomNode) (name : string) (defValue : string)
  : QString :=
  match n with
  | DomElement _ attrs _ => default (qs defValue) (lookupAttr attrs (qs name))
  | _ => qs defValue
  end.

Definition hasAttribute (n : QDomNode) (name : string) : bool :=
  match n with
  | DomElement _ attrs _ => bool_decide (is_Some (lookupAttr attrs (qs name)))
  | _ => false
  end.

Inductive Signal : Type :=
  | ParseError (error : QString) (line column : Z)
  | WidgetCreated (w : Widget).

(** The parser object: its members and the signals it has emitted. *)
Record XMLParser : Type := mkParser {
  m_lastError : QString;
  m_basePath : QString;
  emitted : list Signal
}.

Definition newParser : XMLParser := mkParser [] [] [].

(** [XMLParser::hasError]. *)
Definition hasError (p : XMLParser) : bool := negb (isEmpty (m_lastError p)).

(** [XMLParser::parseShape]. *)
Definition parseShape (value : QString) : Shape :=
  let v := toLower value in
  if eqs v (qs "rectangle") || eqs v (qs "rect") then Rectangle
  else if eqs v (qs "rounded") || eqs v (qs "roundedrect") then RoundedRect
  else if eqs v (qs "circle") then Circle
  else if eqs v (qs "ellipse") || eqs v (qs "oval") then Ellipse
  else if eqs v (qs "square") then Square
  else Rectangle.

Definition when (c : bool) (f : Widget -> Widget) (w : Widget) : Widget :=
  if c then f w else w.

(** [XMLParser::parseWidgetProperties], for the attributes that write the
    modelled state of the widget.  The attributes [position], [pos], [x],
    [y], [glow], [draggable], [always-on-top], [click-through], [margin],
    [padding], [spacing] and [class] reach the window system, the layout
    or nothing at all. *)
Definition parseWidgetProperties (elem : QDomNode) (w : Widget) : Widget :=
  let att name := attribute elem name "" in
  let w := when (hasAttribute elem "background")
             (setBackground (att "background")) w in
  let w := when (hasAttribute elem "bg") (setBackground (att "bg")) w in
  let w := when (hasAttribute elem "shape")
             (setShape (parseShape (att "shape"))) w in
  let w := when (hasAttribute elem "rounded")
             (setRounded (toInt (att "rounded"))) w in
  let w := when (hasAttribute elem "radius")
             (setRounded (toInt (att "radius"))) w in
  let w := when (hasAttribute elem "border")
             (match split (att "border") " " with
              | p0 :: p1 :: _ => setBorder p1 (toInt (removeStr p0 (qs "px")))
              | _ => setBorder (att "border") 1
              end) w in
  let w := when (hasAttribute elem "border-color"
                 && hasAttribute elem "border-width")
             (setBorder (att "border-color") (toInt (att "border-width"))) w in
  let w := when (hasAttribute elem "opacity")
             (setOpacity (Dbl.toDouble (att "opacity"))) w in
  let w := when (hasAttribute elem "glass")
             (setGlass (eqs (att "glass") (qs "true"))) w in
  let w := when (hasAttribute elem "blur")
             (setBlur BlurGlass (Dbl.toDouble (att "blur"))) w in
  when (hasAttribute elem "shadow")
    (match split (att "shadow") " " with
     | p0 :: p1 :: p2 :: p3 :: _ =>
         setShadow (Color.parse p0) (toInt p1) (toInt p2) (toInt p3)
     | _ => fun w => w
     end) w.

(** [XMLParser::parseWidget]; the child elements become widgets of the
    layout, which is not part of the modelled state. *)
Definition parseWidget (elem : QDomNode) : Widget :=
  let width := toInt (attribute elem "width" "300") in
  let height := toInt (attribute elem "height" "200") in
  parseWidgetProperties elem (Widget.create width height).

(** The widgets of a document element, shared by [parseFile] and
    [parseString]. *)
Definition parseRoot (root : QDomNode) : list Widget :=
  if eqs (tagName root) (qs "widgets") || eqs (tagName root) (qs "milk") then
    map parseWidget
      (List.filter (fun child => isElement child
                                 && eqs (tagName child) (qs "widget"))
                   (childNodes root))
  else if eqs (tagName root) (qs "widget") then [parseWidget root]
  else [].

Definition parseErrorText (errorMsg : QString) (errorLine errorColumn : Z)
  : QString :=
  qs "XML parse error at line " ++ number errorLine ++ qs ", column "
  ++ number errorColumn ++ qs ": " ++ errorMsg.

Section Environment.

(** The XML reader of Qt and the file system. *)
Variable setContent : QString -> SetContentResult.
Variable readFile : QString -> option QString.
Variable absolutePath : QString -> QString.

(** [XMLParser::parseString]. *)
Definition parseString (p : XMLParser) (xml : QString)
  : list Widget * XMLParser :=
  let p := mkParser [] (m_basePath p) (emitted p) in
  match setContent xml with
  | DomError errorMsg consumed =>
      let line := errorLine xml consumed in
      let column := errorColumn xml consumed in
      let err := parseErrorText errorMsg line column in
      ([], mkParser err (m_basePath p)
             (emitted p ++ [ParseError err line column]))
  | DomOk root => (parseRoot root, p)
  end.

(** [XMLParser::parseFile]. *)
Definition parseFile (p : XMLParser) (path : QString)
  : list Widget * XMLParser :=
  let p := mkParser [] (m_basePath p) (emitted p) in
  match readFile path with
  | None =>
      let err := qs "Cannot open file: " ++ path in
      ([], mkParser err (m_basePath p) (emitted p ++ [ParseError err 0 0]))
  | Some content =>
      let p := mkParser (m_lastError p) (absolutePath path) (emitted p) in
      match setContent content with
      | DomError errorMsg consumed =>
          let line := errorLine content consumed in
          let column := errorColumn content consumed in
          let err := parseErrorText errorMsg line column in
          ([], mkParser err (m_basePath p)
                 (emitted p ++ [ParseError err line column]))
      | DomOk root =>
          let widgets := parseRoot root in
          (widgets, mkParser (m_lastError p) (m_basePath p)
                      (emitted p ++ map WidgetCreated widgets))
      end
  end.

End Environment.

End XMLParser.

Import XMLParser.

(* ===================================================================== *)
(** * The members of a StyleSheet as [merge] treats them                  *)
(* ===================================================================== *)

Module StyleFields.

(** The units in which [CSSParser::merge] copies: thirteen single members,
    the border and the shadow as wholes, and the blur mode together with
    its radius. *)
Inductive Field : Type :=
  | FBackgroundColor | FBackgroundGradient | FBackgroundImage | FTextColor
  | FFontFamily | FFontSize | FFontBold | FFontItalic | FBorder | FShadow
  | FMargin | FPadding | FCornerRadius | FOpacity | FBlur.

Inductive FieldValue : Type :=
  | VColor (c : QColor)
  | VGradient (g : Gradient)
  | VString (s : QString)
  | VInt (n : Z)
  | VBool (b : bool)
  | VBorder (b : Border)
  | VShadow (s : Shadow)
  | VMargin (m : Margin)
  | VDouble (d : Dbl.double)
  | VBlur (mode : BlurMode) (radius : Dbl.double).

Definition get (f : Field) (s : StyleSheet) : FieldValue :=
  match f with
  | FBackgroundColor => VColor (backgroundColor s)
  | FBackgroundGradient => VGradient (backgroundGradient s)
  | FBackgroundImage => VString (backgroundImage s)
  | FTextColor => VColor (textColor s)
  | FFontFamily => VString (fontFamily s)
  | FFontSize => VInt (fontSize s)
  | FFontBold => VBool (fontBold s)
  | FFontItalic => VBool (fontItalic s)
  | FBorder => VBorder (border s)
  | FShadow => VShadow (shadow s)
  | FMargin => VMargin (margin s)
  | FPadding => VMargin (padding s)
  | FCornerRadius => VInt (cornerRadius s)
  | FOpacity => VDouble (opacity s)
  | FBlur => VBlur (blur s) (blurRadius s)
  end.

(** The state "set" of a field: a valid colour, a non-empty string, a
    positive size (the width for a border, some side for a margin), an
    enabled flag, an opacity below 1.0, a blur mode other than None. *)
Definition isSet (f : Field) (s : StyleSheet) : bool :=
  match f with
  | FBackgroundColor => isValid (backgroundColor s)
  | FBackgroundGradient => Gradient_isValid (backgroundGradient s)
  | FBackgroundImage => negb (isEmpty (backgroundImage s))
  | FTextColor => isValid (textColor s)
  | FFontFamily => negb (isEmpty (fontFamily s))
  | FFontSize => 0 <? fontSize s
  | FFontBold => fontBold s
  | FFontItalic => fontItalic s
  | FBorder => 0 <? width (border s)
  | FShadow => enabled (shadow s)
  | FMargin => CSSParser.marginSet (margin s)
  | FPadding => CSSParser.marginSet (padding s)
  | FCornerRadius => 0 <? cornerRadius s
  | FOpacity => Dbl.ltb (opacity s) Dbl.one
  | FBlur => CSSParser.blurSet (blur s)
  end.

(** A style sheet that sets the font size and the opacity only. *)
Definition sample (size : Z) (o : QString) : StyleSheet := {|
  backgroundColor := Invalid;
  backgroundGradient := Gradient0;
  backgroundImage := [];
  textColor := Invalid;
  fontFamily := [];
  fontSize := size;
  fontBold := false;
  fontItalic := false;
  border := Border0;
  shadow := Shadow0;
  margin := Margin0;
  padding := Margin0;
  cornerRadius := 0;
  opacity := Dbl.toDouble o;
  blur := BlurNone;
  blurRadius := Dbl.ofZ 10
|}.

End StyleFields.

Import StyleFields.

(* ===================================================================== *)
(** * The tokens of a border or shadow shorthand                          *)
(* ===================================================================== *)

Module Shorthand.

Inductive TokenClass : Type := TokLength | TokStyle | TokColor.

Definition isLength (c : TokenClass) : bool :=
  match c with TokLength => true | _ => false end.
Definition isStyle (c : TokenClass) : bool :=
  match c with TokStyle => true | _ => false end.
Definition isColor (c : TokenClass) : bool :=
  match c with TokColor => true | _ => false end.

(** The shape of a token of a border: a length when it ends in [px] or
    starts with a digit, else a style when it is one of the four
    keywords, else a colour. *)
Definition borderClass (part : QString) : TokenClass :=
  let p := trimmed part in
  if endsWith p (qs "px") || CSSParser.firstIsDigit p then TokLength
  else if CSSParser.isBorderStyleWord p then TokStyle
  else TokColor.

(** The shape of a token of a shadow: a length when it is an integer once
    [px] is taken out, else a colour. *)
Definition shadowClass (part : QString) : TokenClass :=
  if snd (toIntOk (removeStr (trimmed part) (qs "px"))) then TokLength
  else TokColor.

(** The last token of a class. *)
Definition lastOf (cls : QString -> TokenClass) (sel : TokenClass -> bool)
  (parts : list QString) : option QString :=
  last (List.filter (fun p => sel (cls p)) parts).

End Shorthand.

Import Shorthand.

(* ===================================================================== *)
(** * Components of a colour as texts                                     *)
(* ===================================================================== *)

Module Components.

(** The values of an 8-bit component. *)
Definition bytes : list Z := map Z.of_nat (seq 0 256).

(** What reading back the decimal text of a component needs. *)
Definition decimalOk (n : Z) : bool :=
  (toInt (number n) =? n)
  && eqs (trimmed (" "%char :: number n)) (number n)
  && eqs (trimmed (number n)) (number n)
  && negb (contains (number n) ",")
  && negb (contains (number n) ".")
  && eqs (toLower (number n)) (number n).

(** What reading back the two hexadecimal digits of a component needs. *)
Definition hexOk (n : Z) : bool :=
  match hexPadded n 2 with
  | [c1; c2] =>
      (0 <=? h2i c1) && (0 <=? h2i c2) && (h2i c1 * 16 + h2i c2 =? n)
  | _ => false
  end.

(** The components of a colour are 16-bit values. *)
Definition wellFormed (c : QColor) : bool :=
  match c with
  | Rgb a r g b => inUShort a && inUShort r && inUShort g && inUShort b
  | _ => true
  end.

(** A colour read from [source] comes back from the text [fmt] gives
    it: the text exists and is read as a colour with the same alpha, red,
    green and blue. *)
Definition comesBack (fmt : QColor -> option QString) (source : QString)
  : Prop :=
  exists text, fmt (Color.parse source) = Some text
               /\ argb (Color.parse text) = argb (Color.parse source).

End Components.

Import Components.

(* ===================================================================== *)
(** * Sample inputs                                                       *)
(* ===================================================================== *)

Module Samples.

(** An XML reader that knows three documents: one with a foreign root,
    one collection of a single widget, and one that opens a tag and never
    closes it, which the reader finds out at its end. *)
Definition reader (xml : QString) : SetContentResult :=
  if eqs xml (qs "<foo/>") then DomOk (DomElement (qs "foo") [] [])
  else if eqs xml (qs "<widgets><widget/></widgets>") then
    DomOk (DomElement (qs "widgets") [] [DomElement (qs "widget") [] []])
  else DomError (qs "Premature end of document.") (length xml).

(** A file system with two files. *)
Definition files (path : QString) : option QString :=
  if eqs path (qs "foo.xml") then Some (qs "<foo/>")
  else if eqs path (qs "open.xml") then Some (qs "<widget>")
  else None.

Definition absolute (path : QString) : QString := qs "/themes".

End Samples.

(* ===================================================================== *)
(** * QString and QChar, continued                                        *)
(* ===================================================================== *)

Module QStrMore.

(** [QChar::isUpper] on the Latin-1 range: the letters [A] to [Z] and
    the accented capitals, the multiplication sign apart. *)
Definition isUpper (c : ascii) : bool :=
  let n := code c in
  ((65 <=? n) && (n <=? 90))
  || ((192 <=? n) && (n <=? 222) && negb (n =? 215)).

(** [QString::replace(QChar before, QChar after)]. *)
Definition replaceChar (s : QString) (before after : ascii) : QString :=
  map (fun c => if eqc c before then after else c) s.

End QStrMore.

(* ===================================================================== *)
(** * double and QColor, continued                                        *)
(* ===================================================================== *)

Module DblMore.

Import Dbl.

Definition add (x y : double) : double := SFadd prec emax x y.
Definition sub (x y : double) : double := SFsub prec emax x y.
Definition div (x y : double) : double := SFdiv prec emax x y.

(** The same double, bit for bit. *)
Definition same (x y : double) : bool :=
  match x, y with
  | S754_zero a, S754_zero b => Bool.eqb a b
  | S754_infinity a, S754_infinity b => Bool.eqb a b
  | S754_nan, S754_nan => true
  | S754_finite a m e, S754_finite b n f =>
      Bool.eqb a b && Pos.eqb m n && Z.eqb e f
  | _, _ => false
  end.

(** [qBound(min, val, max)] on [int]s. *)
Definition qBoundInt (min val max : Z) : Z := Z.max min (Z.min max val).

(** [QColor::setHsl(h, s, l, a)] on a fresh colour. *)
Definition fromHsla (h s l a : Z) : QColor :=
  if (h <? -1) || negb (inByte s) || negb (inByte l) || negb (inByte a)
  then Invalid
  else Hsl (a * 257)
           (if h =? -1 then USHRT_MAX else Z.rem h 360 * 100)
           (s * 257) (l * 257).

(** The components of a colour of the HSL model are 16-bit values, the
    hue a number of hundredths of a degree or the mark of a colour
    without hue. *)
Definition wellFormedHsl (c : QColor) : bool :=
  match c with
  | Hsl a h s l =>
      inUShort a && inUShort s && inUShort l
      && (((0 <=? h) && (h <=? 35999)) || (h =? USHRT_MAX))
  | Invalid => true
  | Rgb _ _ _ _ => false
  end.

End DblMore.

(* ===================================================================== *)
(** * Utils.cpp, namespace Color, continued                               *)
(* ===================================================================== *)

Module ColorOps.

Import Dbl. Import DblMore.

(** [Color::lighten] and [Color::darken]. *)
Definition lighten (color : QColor) (amount : double) : option QColor :=
  match getHsl color with
  | Some (h, s, l) =>
      let a := Widget.alpha color in
      let l := qBoundInt 0 (toIntTrunc (add (ofZ l) (mul (ofZ 255) amount)))
                         255 in
      Some (fromHsla h s l a)
  | None => None
  end.

Definition darken (color : QColor) (amount : double) : option QColor :=
  lighten color (SFopp amount).

(** [Color::saturate] and [Color::desaturate]. *)
Definition saturate (color : QColor) (amount : double) : option QColor :=
  match getHsl color with
  | Some (h, s, l) =>
      let a := Widget.alpha color in
      let s := qBoundInt 0 (toIntTrunc (add (ofZ s) (mul (ofZ 255) amount)))
                         255 in
      Some (fromHsla h s l a)
  | None => None
  end.

Definition desaturate (color : QColor) (amount : double) : option QColor :=
  saturate color (SFopp amount).

(** One component of [Color::mix]. *)
Definition mixChannel (x y : Z) (ratio : double) : Z :=
  toIntTrunc (add (mul (ofZ x) (sub (ofZ 1) ratio)) (mul (ofZ y) ratio)).

(** [Color::mix] on the components of its two colours, each the alpha,
    the red, the green and the blue. *)
Definition mixArgb (x y : Z * Z * Z * Z) (ratio : double) : QColor :=
  let ratio := qBound zero ratio one in
  let '(aa, ar, ag, ab) := x in
  let '(ba, br, bg, bb) := y in
  fromRgba (mixChannel ar br ratio) (mixChannel ag bg ratio)
           (mixChannel ab bb ratio) (mixChannel aa ba ratio).

(** [Color::mix]. *)
Definition mix (a b : QColor) (ratio : double) : option QColor :=
  match argb a, argb b with
  | Some x, Some y => Some (mixArgb x y ratio)
  | _, _ => None
  end.

(** The values [0 .. n - 1] of the counter of a loop. *)
Definition upTo (n : Z) : list Z := map Z.of_nat (seq 0 (Z.to_nat n)).

(** What can go wrong in [int] arithmetic. *)
Inductive Outcome (A : Type) : Type :=
  | Value (a : A)
  | DivisionByZero.

Arguments Value {A} a.
Arguments DivisionByZero {A}.

(** [Color::palette]; the step is computed before the loop, also for a
    count of zero. *)
Definition palette (base : QColor) (count : Z)
  : option (Outcome (list QColor)) :=
  match getHsl base with
  | Some (h, s, l) =>
      if count =? 0 then Some DivisionByZero
      else
        let step := Z.quot 360 count in
        Some (Value (map (fun i => fromHsl (Z.rem (h + i * step) 360) s l)
                         (upTo count)))
  | None => None
  end.

(** [Color::gradient]. *)
Definition gradient (start finish : QColor) (steps : Z)
  : option (list QColor) :=
  match argb start, argb finish with
  | Some x, Some y =>
      Some (map (fun i => mixArgb x y (div (ofZ i) (ofZ (steps - 1))))
                (upTo steps))
  | _, _ => None
  end.

(** The bounds of every component of a colour. *)
Definition inBytes (x : Z * Z * Z * Z) : Prop :=
  let '(a, r, g, b) := x in
  0 <= a <= 255 /\ 0 <= r <= 255 /\ 0 <= g <= 255 /\ 0 <= b <= 255.

(** What the two ends of [mix] need of a component. *)
Definition mixEndsOk (x : Z) : bool :=
  same (mul (ofZ x) (sub (ofZ 1) zero)) (ofZ x)
  && same (mul (ofZ x) zero) zero
  && same (add (ofZ x) zero) (ofZ x)
  && same (mul (ofZ x) (sub (ofZ 1) one)) zero
  && same (mul (ofZ x) one) (ofZ x)
  && same (add zero (ofZ x)) (ofZ x)
  && (toIntTrunc (ofZ x) =? x).

End ColorOps.

(* ===================================================================== *)
(** * Utils.cpp, namespace String                                         *)
(* ===================================================================== *)

Module StringUtils.

Import QStrMore.

(** The loop of [toSnakeCase]; [first] says that the index is 0. *)
Fixpoint snakeFrom (first : bool) (str : QString) : QString :=
  match str with
  | [] => []
  | c :: str' =>
      let rest := lowerc c :: snakeFrom false str' in
      if isUpper c && negb first then "_"%char :: rest else rest
  end.

(** [String::toSnakeCase]. *)
Definition toSnakeCase (str : QString) : QString := snakeFrom true str.

(** A text without capitals. *)
Definition noUpper (s : QString) : Prop :=
  Forall (fun c => isUpper c = false) s.

(** [String::toKebabCase]. *)
Definition toKebabCase (str : QString) : QString :=
  replaceChar (toSnakeCase str) "_" "-".

(** [String::formatDuration]; [/] and [%] of C++ round towards zero. *)
Definition formatDuration (seconds : Z) : QString :=
  let days := Z.quot seconds 86400 in
  let hours := Z.quot (Z.rem seconds 86400) 3600 in
  let minutes := Z.quot (Z.rem seconds 3600) 60 in
  let secs := Z.rem seconds 60 in
  if 0 <? days then
    number days ++ qs "d " ++ number hours ++ qs "h " ++ number minutes
    ++ qs "m"
  else if 0 <? hours then
    number hours ++ qs "h " ++ number minutes ++ qs "m " ++ number secs
    ++ qs "s"
  else if 0 <? minutes then
    number minutes ++ qs "m " ++ number secs ++ qs "s"
  else number secs ++ qs "s".

(** [String::formatDurationMs]. *)
Definition formatDurationMs (milliseconds : Z) : QString :=
  formatDuration (Z.quot milliseconds 1000).

(** [String::truncate]. *)
Definition truncate (str : QString) (maxLength : Z) (suffix : QString)
  : QString :=
  if size str <=? maxLength then str
  else QStr.left str (maxLength - size suffix) ++ suffix.

(** [String::ellipsis]. *)
Definition ellipsis (str : QString) (maxLength : Z) : QString :=
  truncate str maxLength (qs "...").

(** [String::toInt] and [String::toDouble]. *)
Definition toInt (str : QString) (defaultValue : Z) : Z :=
  let '(value, ok) := toIntOk str in if ok then value else defaultValue.

Definition toDouble (str : QString) (defaultValue : Dbl.double)
  : Dbl.double :=
  let '(value, ok) := Dbl.toDoubleOk str in if ok then value else defaultValue.

(** [String::toBool]. *)
Definition toBool (str : QString) (defaultValue : bool) : bool :=
  let s := trimmed (toLower str) in
  if eqs s (qs "true") || eqs s (qs "yes") || eqs s (qs "1")
     || eqs s (qs "on") then true
  else if eqs s (qs "false") || eqs s (qs "no") || eqs s (qs "0")
          || eqs s (qs "off") then false
  else defaultValue.

End StringUtils.

(* ===================================================================== *)
(** * Utils.cpp, namespace Screen                                         *)
(* ===================================================================== *)

Module Screen.

Inductive Position : Type :=
  | TopLeft | TopCenter | TopRight | CenterLeft | Center | CenterRight
  | BottomLeft | BottomCenter | BottomRight | Manual.

(** A [QRect] holds its first and its last column and row. *)
Record QRect : Type := mkRect { x1 : Z; y1 : Z; x2 : Z; y2 : Z }.

(** [QRect(x, y, width, height)]. *)
Definition rect (x y w h : Z) : QRect := mkRect x y (x + w - 1) (y + h - 1).

Definition rwidth (r : QRect) : Z := x2 r - x1 r + 1.
Definition rheight (r : QRect) : Z := y2 r - y1 r + 1.

(** [QRect::center]: the sums are taken in 64 bits and halved towards
    zero. *)
Definition rcenter (r : QRect) : Z * Z :=
  (Z.quot (x1 r + x2 r) 2, Z.quot (y1 r + y2 r) 2).

Record QSize : Type := mkSize { s_width : Z; s_height : Z }.

(** [Screen::availableGeometry]: that of the primary screen, or a screen
    of 1920 by 1080 when there is none. *)
Definition availableGeometry (primaryScreen : option QRect) : QRect :=
  match primaryScreen with
  | Some g => g
  | None => rect 0 0 1920 1080
  end.

(** [Screen::calculatePosition], on [int]s far from overflow as the
    coordinates of a screen are. *)
Definition calculatePosition (primaryScreen : option QRect) (pos : Position)
  (widgetSize : QSize) (margin : Z) : Z * Z :=
  let avail := availableGeometry primaryScreen in
  let w := s_width widgetSize in
  let h := s_height widgetSize in
  let xLeft := x1 avail + margin in
  let xMid := fst (rcenter avail) - Z.quot w 2 in
  let xRight := x2 avail - w - margin in
  let yTop := y1 avail + margin in
  let yMid := snd (rcenter avail) - Z.quot h 2 in
  let yBottom := y2 avail - h - margin in
  match pos with
  | TopLeft => (xLeft, yTop)
  | TopCenter => (xMid, yTop)
  | TopRight => (xRight, yTop)
  | CenterLeft => (xLeft, yMid)
  | Center => (xMid, yMid)
  | CenterRight => (xRight, yMid)
  | BottomLeft => (xLeft, yBottom)
  | BottomCenter => (xMid, yBottom)
  | BottomRight => (xRight, yBottom)
  | Manual => (0, 0)
  end.

(** The rectangle of a widget of size [sz] put at [p] lies within
    [r]. *)
Definition within (r : QRect) (p : Z * Z) (sz : QSize) : Prop :=
  x1 r <= fst p /\ fst p + s_width sz - 1 <= x2 r
  /\ y1 r <= snd p /\ snd p + s_height sz - 1 <= y2 r.

End Screen.

(* ===================================================================== *)
(** * Widget.cpp and XMLParser.cpp: the place of a widget                 *)
(* ===================================================================== *)

Module Placement.

Import Screen.

(** The members of a [Widget] that say where it is, and the position of
    its window. *)
Record Placement : Type := mkPlacement {
  m_position : Position;
  m_screenMargin : Z;
  pos : Z * Z
}.

(** The member initialisers of the class; a new window is at the
    origin. *)
Definition Placement0 : Placement := mkPlacement Center 50 (0, 0).

Definition isManual (p : Position) : bool :=
  match p with Manual => true | _ => false end.

Section OnScreen.

Variable primaryScreen : option QRect.

(** [Widget::updatePosition] for a widget of size [size]. *)
Definition updatePosition (size : QSize) (p : Placement) : Placement :=
  mkPlacement (m_position p) (m_screenMargin p)
    (calculatePosition primaryScreen (m_position p) size (m_screenMargin p)).

(** [Widget::setPosition(Position)]. *)
Definition setPosition (position : Position) (size : QSize) (p : Placement)
  : Placement :=
  updatePosition size (mkPlacement position (m_screenMargin p) (pos p)).

(** [Widget::setPosition(int, int)]. *)
Definition setPositionXY (x y : Z) (p : Placement) : Placement :=
  mkPlacement Manual (m_screenMargin p) (x, y).

(** [Widget::setScreenMargin]. *)
Definition setScreenMargin (margin : Z) (size : QSize) (p : Placement)
  : Placement :=
  let p := mkPlacement (m_position p) margin (pos p) in
  if isManual (m_position p) then p else updatePosition size p.

(** [Widget::center]. *)
Definition center (size : QSize) (p : Placement) : Placement :=
  setPosition Center size p.

(** [XMLParser::parsePosition]. *)
Definition parsePosition (value : QString) : Position :=
  let v := QStrMore.replaceChar
             (QStrMore.replaceChar (toLower value) "-" " ") "_" " " in
  let word (text : string) := eqs v (qs text) in
  if word "top left" || word "topleft" then TopLeft
  else if word "top center" || word "topcenter" || word "top" then TopCenter
  else if word "top right" || word "topright" then TopRight
  else if word "center left" || word "centerleft" || word "left" then CenterLeft
  else if word "center" || word "middle" then Center
  else if word "center right" || word "centerright" || word "right"
       then CenterRight
  else if word "bottom left" || word "bottomleft" then BottomLeft
  else if word "bottom center" || word "bottomcenter" || word "bottom"
       then BottomCenter
  else if word "bottom right" || word "bottomright" then BottomRight
  else Center.

(** The size of the window of a widget. *)
Definition sizeOf (w : Widget) : QSize := mkSize (w_width w) (w_height w).

(** The attributes [position], [pos], [x] and [y] in
    [XMLParser::parseWidgetProperties], on a widget of size [size]. *)
Definition parsePlacement (elem : QDomNode) (size : QSize) (p : Placement)
  : Placement :=
  let att name := attribute elem name "" in
  let p := if hasAttribute elem "position"
           then setPosition (parsePosition (att "position")) size p else p in
  let p := if hasAttribute elem "pos"
           then setPosition (parsePosition (att "pos")) size p else p in
  if hasAttribute elem "x" && hasAttribute elem "y"
  then setPositionXY (toInt (att "x")) (toInt (att "y")) p else p.

(** The widget when [XMLParser::parseWidgetProperties] comes to the
    position: made by [parseWidget] and past the attributes of the
    background and the shape. *)
Definition widgetAtPosition (elem : QDomNode) : Widget :=
  let att name := attribute elem name "" in
  let w := Widget.create (toInt (attribute elem "width" "300"))
                         (toInt (attribute elem "height" "200")) in
  let w := when (hasAttribute elem "background")
             (setBackground (att "background")) w in
  let w := when (hasAttribute elem "bg") (setBackground (att "bg")) w in
  let w := when (hasAttribute elem "shape")
             (setShape (parseShape (att "shape"))) w in
  let w := when (hasAttribute elem "rounded")
             (setRounded (toInt (att "rounded"))) w in
  when (hasAttribute elem "radius") (setRounded (toInt (att "radius"))) w.

(** Where [XMLParser::parseWidget] leaves the widget of an element. *)
Definition placeWidget (elem : QDomNode) : Placement :=
  parsePlacement elem (sizeOf (widgetAtPosition elem)) Placement0.

End OnScreen.

End Placement.

(* ===================================================================== *)
(** * Widgets.cpp: progress bar, graph, gauge and clock                   *)
(* ===================================================================== *)

Module ProgressBar.

Import Dbl.

(** The members of a [ProgressBar] that its setters write; [animTimer]
    says whether [m_animTimerId] holds a timer, [startTimer] being taken
    to give one; [fixedHeight] is the height [setHeight] fixes. *)
Record ProgressBar : Type := mkProgressBar {
  m_value : double;
  m_minValue : double;
  m_maxValue : double;
  m_displayValue : double;
  m_bgColor : QColor;
  m_fillColor : QColor;
  m_radius : Z;
  m_showText : bool;
  m_animated : bool;
  animTimer : bool;
  fixedHeight : option Z;
  valueChanged : list double
}.

(** The member initialisers of the class. *)
Definition create : ProgressBar :=
  mkProgressBar zero zero (ofZ 100) zero (fromRgba 60 60 70 150)
    (fromRgb 0 150 255) 4 false true false None [].

(** [ProgressBar::setValue]. *)
Definition setValue (value : double) (b : ProgressBar) : ProgressBar :=
  let v := qBound (m_minValue b) value (m_maxValue b) in
  let timer := if m_animated b && negb (animTimer b) then true
               else animTimer b in
  let display := if m_animated b && negb (animTimer b) then m_displayValue b
                 else if negb (m_animated b) then v else m_displayValue b in
  mkProgressBar v (m_minValue b) (m_maxValue b) display (m_bgColor b)
    (m_fillColor b) (m_radius b) (m_showText b) (m_animated b) timer
    (fixedHeight b) (valueChanged b ++ [v]).

Definition setMinValue (min : double) (b : ProgressBar) : ProgressBar :=
  mkProgressBar (m_value b) min (m_maxValue b) (m_displayValue b)
    (m_bgColor b) (m_fillColor b) (m_radius b) (m_showText b) (m_animated b)
    (animTimer b) (fixedHeight b) (valueChanged b).

Definition setMaxValue (max : double) (b : ProgressBar) : ProgressBar :=
  mkProgressBar (m_value b) (m_minValue b) max (m_displayValue b)
    (m_bgColor b) (m_fillColor b) (m_radius b) (m_showText b) (m_animated b)
    (animTimer b) (fixedHeight b) (valueChanged b).

Definition setRange (min max : double) (b : ProgressBar) : ProgressBar :=
  setMaxValue max (setMinValue min b).

(** [ProgressBar::setColors(const QString &, const QString &)]. *)
Definition setColors (bg fill : QString) (b : ProgressBar) : ProgressBar :=
  mkProgressBar (m_value b) (m_minValue b) (m_maxValue b) (m_displayValue b)
    (Color.parse bg) (Color.parse fill) (m_radius b) (m_showText b)
    (m_animated b) (animTimer b) (fixedHeight b) (valueChanged b).

Definition setRounded (r : Z) (b : ProgressBar) : ProgressBar :=
  mkProgressBar (m_value b) (m_minValue b) (m_maxValue b) (m_displayValue b)
    (m_bgColor b) (m_fillColor b) r (m_showText b) (m_animated b)
    (animTimer b) (fixedHeight b) (valueChanged b).

Definition setHeight (h : Z) (b : ProgressBar) : ProgressBar :=
  mkProgressBar (m_value b) (m_minValue b) (m_maxValue b) (m_displayValue b)
    (m_bgColor b) (m_fillColor b) (m_radius b) (m_showText b) (m_animated b)
    (animTimer b) (Some h) (valueChanged b).

Definition setShowText (show : bool) (b : ProgressBar) : ProgressBar :=
  mkProgressBar (m_value b) (m_minValue b) (m_maxValue b) (m_displayValue b)
    (m_bgColor b) (m_fillColor b) (m_radius b) show (m_animated b)
    (animTimer b) (fixedHeight b) (valueChanged b).

Definition setAnimated (a : bool) (b : ProgressBar) : ProgressBar :=
  mkProgressBar (m_value b) (m_minValue b) (m_maxValue b) (m_displayValue b)
    (m_bgColor b) (m_fillColor b) (m_radius b) (m_showText b) a
    (animTimer b) (fixedHeight b) (valueChanged b).

(** [ProgressBar::animateTo]. *)
Definition animateTo (v : double) (b : ProgressBar) : ProgressBar :=
  setValue v b.

Definition applyIf (c : bool) (f : ProgressBar -> ProgressBar)
  (b : ProgressBar) : ProgressBar :=
  if c then f b else b.

(** The branch of [XMLParser::parseChildElement] for the tags [progress],
    [progressbar] and [progress-bar]. *)
Definition parse (elem : QDomNode) : ProgressBar :=
  let att name := attribute elem name "" in
  let b := create in
  let b := applyIf (hasAttribute elem "value")
             (setValue (toDouble (att "value"))) b in
  let b := applyIf (hasAttribute elem "max")
             (setMaxValue (toDouble (att "max"))) b in
  let b := applyIf (hasAttribute elem "min")
             (setMinValue (toDouble (att "min"))) b in
  let b := applyIf (hasAttribute elem "background" && hasAttribute elem "fill")
             (setColors (att "background") (att "fill")) b in
  let b := applyIf (hasAttribute elem "bg" && hasAttribute elem "color")
             (setColors (att "bg") (att "color")) b in
  let b := applyIf (hasAttribute elem "rounded")
             (setRounded (toInt (att "rounded"))) b in
  let b := applyIf (hasAttribute elem "height")
             (setHeight (toInt (att "height"))) b in
  applyIf (hasAttribute elem "show-text")
    (setShowText (eqs (att "show-text") (qs "true"))) b.

End ProgressBar.

Module Gauge.

Import Dbl. Import DblMore.

Inductive GaugeStyle : Type := Arc | CircleGauge | LinearGauge | Semicircle.

(** The members of a [Gauge] that its setters write. *)
Record Gauge : Type := mkGauge {
  m_value : double;
  m_minValue : double;
  m_maxValue : double;
  m_displayValue : double;
  m_style : GaugeStyle;
  m_thickness : Z;
  m_label : QString;
  m_unit : QString;
  m_animated : bool;
  valueChanged : list double
}.

(** The member initialisers of the class. *)
Definition create : Gauge :=
  mkGauge zero zero (ofZ 100) zero Arc 10 [] [] true [].

(** [Gauge::setValue]; [0.3] is the double nearest to three tenths. *)
Definition setValue (v : double) (g : Gauge) : Gauge :=
  let value := qBound (m_minValue g) v (m_maxValue g) in
  let display :=
    if m_animated g
    then add (m_displayValue g)
             (mul (sub value (m_displayValue g)) (ofDecimal false 3 (-1)))
    else value in
  mkGauge value (m_minValue g) (m_maxValue g) display (m_style g)
    (m_thickness g) (m_label g) (m_unit g) (m_animated g)
    (valueChanged g ++ [value]).

Definition setRange (min max : double) (g : Gauge) : Gauge :=
  mkGauge (m_value g) min max (m_displayValue g) (m_style g) (m_thickness g)
    (m_label g) (m_unit g) (m_animated g) (valueChanged g).

Definition setStyle (s : GaugeStyle) (g : Gauge) : Gauge :=
  mkGauge (m_value g) (m_minValue g) (m_maxValue g) (m_displayValue g) s
    (m_thickness g) (m_label g) (m_unit g) (m_animated g) (valueChanged g).

Definition setThickness (t : Z) (g : Gauge) : Gauge :=
  mkGauge (m_value g) (m_minValue g) (m_maxValue g) (m_displayValue g)
    (m_style g) t (m_label g) (m_unit g) (m_animated g) (valueChanged g).

Definition setLabel (l : QString) (g : Gauge) : Gauge :=
  mkGauge (m_value g) (m_minValue g) (m_maxValue g) (m_displayValue g)
    (m_style g) (m_thickness g) l (m_unit g) (m_animated g) (valueChanged g).

Definition setUnit (u : QString) (g : Gauge) : Gauge :=
  mkGauge (m_value g) (m_minValue g) (m_maxValue g) (m_displayValue g)
    (m_style g) (m_thickness g) (m_label g) u (m_animated g) (valueChanged g).

Definition applyIf (c : bool) (f : Gauge -> Gauge) (g : Gauge) : Gauge :=
  if c then f g else g.

(** The style a [style] attribute names, if any. *)
Definition styleOf (style : QString) : option GaugeStyle :=
  if eqs style (qs "arc") then Some Arc
  else if eqs style (qs "circle") then Some CircleGauge
  else if eqs style (qs "linear") then Some LinearGauge
  else if eqs style (qs "semicircle") then Some Semicircle
  else None.

(** The branch of [XMLParser::parseChildElement] for the tags [gauge] and
    [meter]. *)
Definition parse (elem : QDomNode) : Gauge :=
  let att name := attribute elem name "" in
  let g := create in
  let g := applyIf (hasAttribute elem "value")
             (setValue (toDouble (att "value"))) g in
  let g := applyIf (hasAttribute elem "min" && hasAttribute elem "max")
             (setRange (toDouble (att "min")) (toDouble (att "max"))) g in
  let g := applyIf (hasAttribute elem "style")
             (match styleOf (toLower (att "style")) with
              | Some s => setStyle s
              | None => fun g => g
              end) g in
  let g := applyIf (hasAttribute elem "thickness")
             (setThickness (toInt (att "thickness"))) g in
  let g := applyIf (hasAttribute elem "label") (setLabel (att "label")) g in
  applyIf (hasAttribute elem "unit") (setUnit (att "unit")) g.

End Gauge.

Module Graph.

Import Dbl. Import DblMore.

(** The members of a [Graph] that hold its data. *)
Record Graph : Type := mkGraph {
  m_values : list double;
  m_maxPoints : Z;
  m_minValue : double;
  m_maxValue : double;
  m_autoScale : bool
}.

(** The member initialisers of the class. *)
Definition create : Graph := mkGraph [] 60 zero (ofZ 100) false.

(** [while (m_values.size() > m_maxPoints) m_values.removeFirst()];
    [None] when [removeFirst] is reached on an empty list, which [QList]
    leaves undefined. *)
Fixpoint trim (maxPoints : Z) (values : list double)
  : option (list double) :=
  if Z.of_nat (length values) <=? maxPoints then Some values
  else match values with
       | [] => None
       | _ :: rest => trim maxPoints rest
       end.

(** [std::min_element] and [std::max_element]: the first least and the
    first greatest value by [<]. *)
Definition minElement (first : double) (rest : list double) : double :=
  fold_left (fun smallest x => if ltb x smallest then x else smallest)
            rest first.

Definition maxElement (first : double) (rest : list double) : double :=
  fold_left (fun largest x => if ltb largest x then x else largest)
            rest first.

(** [qAbs] and [qFuzzyCompare] on doubles. *)
Definition qAbs (t : double) : double :=
  if leb zero t then t else SFopp t.

Definition qFuzzyCompare (p1 p2 : double) : bool :=
  leb (mul (qAbs (sub p1 p2)) (ofDecimal false 1 12))
      (qMin (qAbs p1) (qAbs p2)).

(** The automatic scale of [addValue]. *)
Definition autoScale (g : Graph) : Graph :=
  match m_values g with
  | first :: rest =>
      if m_autoScale g then
        let lo := minElement first rest in
        let hi := maxElement first rest in
        mkGraph (m_values g) (m_maxPoints g) lo
          (if qFuzzyCompare lo hi then add lo (ofZ 1) else hi)
          (m_autoScale g)
      else g
  | [] => g
  end.

(** [Graph::addValue]. *)
Definition addValue (value : double) (g : Graph) : option Graph :=
  match trim (m_maxPoints g) (m_values g ++ [value]) with
  | Some values =>
      Some (autoScale (mkGraph values (m_maxPoints g) (m_minValue g)
                               (m_maxValue g) (m_autoScale g)))
  | None => None
  end.

(** [Graph::setValues]. *)
Definition setValues (v : list double) (g : Graph) : option Graph :=
  match trim (m_maxPoints g) v with
  | Some values =>
      Some (mkGraph values (m_maxPoints g) (m_minValue g) (m_maxValue g)
                    (m_autoScale g))
  | None => None
  end.

Definition clear (g : Graph) : Graph :=
  mkGraph [] (m_maxPoints g) (m_minValue g) (m_maxValue g) (m_autoScale g).

Definition setMaxPoints (c : Z) (g : Graph) : Graph :=
  mkGraph (m_values g) c (m_minValue g) (m_maxValue g) (m_autoScale g).

Definition setMinValue (m : double) (g : Graph) : Graph :=
  mkGraph (m_values g) (m_maxPoints g) m (m_maxValue g) (m_autoScale g).

Definition setMaxValue (m : double) (g : Graph) : Graph :=
  mkGraph (m_values g) (m_maxPoints g) (m_minValue g) m (m_autoScale g).

Definition setAutoScale (e : bool) (g : Graph) : Graph :=
  mkGraph (m_values g) (m_maxPoints g) (m_minValue g) (m_maxValue g) e.

(** The last [n] values of a list. *)
Definition lastValues (n : nat) (l : list double) : list double :=
  skipn (length l - n) l.

End Graph.

Module Clock.

Inductive Style : Type := Digital | Analog | Minimal.

(** The members of a [Clock] that say what it shows. *)
Record Clock : Type := mkClock {
  m_style : Style;
  m_timeFormat : QString;
  m_24hour : bool;
  m_showSeconds : bool;
  m_showDate : bool;
  m_textColor : QColor
}.

(** [Clock::Clock(style)] with the member initialisers of the class. *)
Definition create (style : Style) : Clock :=
  mkClock style (qs "hh:mm:ss") true true true QCol.white.

Definition setFormat (f : QString) (c : Clock) : Clock :=
  mkClock (m_style c) f (m_24hour c) (m_showSeconds c) (m_showDate c)
    (m_textColor c).

(** [Clock::set24Hour]. *)
Definition set24Hour (e : bool) (c : Clock) : Clock :=
  mkClock (m_style c) (if e then qs "hh:mm:ss" else qs "h:mm:ss AP") e
    (m_showSeconds c) (m_showDate c) (m_textColor c).

(** [Clock::setShowSeconds]. *)
Definition setShowSeconds (s : bool) (c : Clock) : Clock :=
  mkClock (m_style c)
    (if m_24hour c then (if s then qs "hh:mm:ss" else qs "hh:mm")
     else (if s then qs "h:mm:ss AP" else qs "h:mm AP"))
    (m_24hour c) s (m_showDate c) (m_textColor c).

Definition setShowDate (s : bool) (c : Clock) : Clock :=
  mkClock (m_style c) (m_timeFormat c) (m_24hour c) (m_showSeconds c) s
    (m_textColor c).

Definition setTextColor (color : QColor) (c : Clock) : Clock :=
  mkClock (m_style c) (m_timeFormat c) (m_24hour c) (m_showSeconds c)
    (m_showDate c) color.

Definition applyIf (b : bool) (f : Clock -> Clock) (c : Clock) : Clock :=
  if b then f c else c.

(** The branch of [XMLParser::parseChildElement] for the tag [clock]. *)
Definition parse (elem : QDomNode) : Clock :=
  let att name := attribute elem name "" in
  let style :=
    if hasAttribute elem "style" then
      let s := toLower (att "style") in
      if eqs s (qs "analog") then Analog
      else if eqs s (qs "minimal") then Minimal
      else Digital
    else Digital in
  let c := create style in
  let c := applyIf (hasAttribute elem "format") (setFormat (att "format")) c in
  let c := applyIf (hasAttribute elem "color")
             (setTextColor (Color.parse (att "color"))) c in
  let c := applyIf (hasAttribute elem "show-seconds")
             (setShowSeconds (eqs (att "show-seconds") (qs "true"))) c in
  let c := applyIf (hasAttribute elem "show-date")
             (setShowDate (eqs (att "show-date") (qs "true"))) c in
  applyIf (hasAttribute elem "24hour")
    (set24Hour (eqs (att "24hour") (qs "true"))) c.

(** Whether a time format shows the seconds. *)
Definition showsSeconds (format : QString) : bool :=
  containsStr format (qs "ss").

End Clock.

(* ===================================================================== *)
(** * Application.cpp: the widgets of the application                     *)
(* ===================================================================== *)

Module Application.

(** A [Widget *] is an address of type [nat], 0 for the null pointer. *)

Inductive AppSignal : Type :=
  | WidgetAdded (widget : nat)
  | WidgetRemoved (widget : nat).

(** The list [m_widgets] and the signals emitted. *)
Record Application : Type := mkApplication {
  m_widgets : list nat;
  appSignals : list AppSignal
}.

Definition start : Application := mkApplication [] [].

(** [QList::removeAll]. *)
Definition removeAll (widget : nat) (l : list nat)
  : list nat :=
  List.filter (fun w => negb (Nat.eqb w widget)) l.

(** [Application::registerWidget]. *)
Definition registerWidget (widget : nat) (app : Application)
  : Application :=
  if negb (Nat.eqb widget 0) && negb (existsb (Nat.eqb widget) (m_widgets app))
  then mkApplication (m_widgets app ++ [widget])
                     (appSignals app ++ [WidgetAdded widget])
  else app.

(** [Application::unregisterWidget]. *)
Definition unregisterWidget (widget : nat) (app : Application)
  : Application :=
  let kept := removeAll widget (m_widgets app) in
  if (length kept <? length (m_widgets app))%nat
  then mkApplication kept (appSignals app ++ [WidgetRemoved widget])
  else mkApplication kept (appSignals app).

(** The slot that [registerWidget] connects to [destroyed] of the
    widget. *)
Definition destroyed (widget : nat) (app : Application)
  : Application :=
  mkApplication (removeAll widget (m_widgets app)) (appSignals app).

(** [Application::loadWidgets] on the widgets that the parser made. *)
Definition registerAll (widgets : list nat) (app : Application)
  : Application :=
  fold_left (fun a w => registerWidget w a) widgets app.

Inductive AppOp : Type :=
  | Register (widget : nat)
  | Unregister (widget : nat)
  | Destroyed (widget : nat)
  | Load (widgets : list nat).

Definition step (app : Application) (op : AppOp) : Application :=
  match op with
  | Register w => registerWidget w app
  | Unregister w => unregisterWidget w app
  | Destroyed w => destroyed w app
  | Load ws => registerAll ws app
  end.

Definition run (ops : list AppOp) : Application := fold_left step ops start.

(** How often a signal was emitted. *)
Definition isAdded (w : nat) (s : AppSignal) : bool :=
  match s with WidgetAdded x => Nat.eqb x w | _ => false end.

Definition isRemoved (w : nat) (s : AppSignal) : bool :=
  match s with WidgetRemoved x => Nat.eqb x w | _ => false end.

Definition countOf (p : AppSignal -> bool) (app : Application) : nat :=
  length (List.filter p (appSignals app)).

Definition registered (w : nat) (app : Application) : bool :=
  existsb (Nat.eqb w) (m_widgets app).

Definition isDestroyed (op : AppOp) : bool :=
  match op with Destroyed _ => true | _ => false end.

(** What [m_widgets] keeps: no widget twice, no null pointer. *)
Definition registryOk (app : Application) : Prop :=
  List.NoDup (m_widgets app) /\ ~ In 0%nat (m_widgets app).

(** A widget is in the list exactly when [widgetAdded] was emitted for
    it once more than [widgetRemoved]. *)
Definition balanced (app : Application) : Prop :=
  forall w,
    countOf (isAdded w) app
    = (countOf (isRemoved w) app + (if registered w app then 1 else 0))%nat.

End Application.

(* ===================================================================== *)
(** * Utils.cpp: throttle                                                 *)
(* ===================================================================== *)

Module Timers.

(** One call of [throttle]: the context, a [QObject *] as an address,
    the interval, and the time [QDateTime::currentMSecsSinceEpoch]
    answers. *)
Record Call : Type := mkCall { context : nat; ms : Z; now : Z }.

(** [throttle] on the map [lastCalls]: whether the callback runs, and the
    map after the call.  The callback is code of the caller and is taken
    not to call [throttle] itself. *)
Definition throttle (c : Call) (lastCalls : gmap nat Z)
  : bool * gmap nat Z :=
  match lastCalls !! context c with
  | Some last =>
      if ms c <=? now c - last
      then (true, <[context c := now c]> lastCalls)
      else (false, lastCalls)
  | None => (true, <[context c := now c]> lastCalls)
  end.

(** The calls of a sequence whose callback runs. *)
Fixpoint ran (calls : list Call) (lastCalls : gmap nat Z) : list Call :=
  match calls with
  | [] => []
  | c :: rest =>
      let '(runs, lastCalls') := throttle c lastCalls in
      if runs then c :: ran rest lastCalls' else ran rest lastCalls'
  end.

End Timers.

(* ===================================================================== *)
(** * QRegularExpression                                                  *)
(* ===================================================================== *)

Module Regex.

(** The classes of characters in the patterns of the sources: any
    character (a dot that matches everything), [\s], [\d], and the
    complement of a set. *)
Inductive CharClass : Type :=
  | AnyChar
  | SpaceChar
  | DigitChar
  | NoneOf (excluded : list ascii).

(** [\s] without Unicode properties: tab to carriage return, and the
    blank. *)
Definition inClass (k : CharClass) (c : ascii) : bool :=
  match k with
  | AnyChar => true
  | SpaceChar => let n := code c in (n =? 32) || ((9 <=? n) && (n <=? 13))
  | DigitChar => isDigit c
  | NoneOf excluded => negb (existsb (eqc c) excluded)
  end.

(** The patterns of the sources are sequences of literal texts and of
    repeated classes: [min] times or more, as many as possible (greedy)
    or as few as possible (lazy), captured as a group or not. *)
Inductive Item : Type :=
  | Lit (text : string)
  | Rep (k : CharClass) (min : nat) (greedy : bool) (capture : bool).

(** How many characters of class [k] a text starts with. *)
Fixpoint runLength (k : CharClass) (s : QString) : nat :=
  match s with
  | c :: s' => if inClass k c then S (runLength k s') else O
  | [] => O
  end.

(** The first candidate for which [f] succeeds. *)
Fixpoint firstSome {A : Type} (f : nat -> option A) (candidates : list nat)
  : option (nat * A) :=
  match candidates with
  | [] => None
  | n :: rest =>
      match f n with
      | Some a => Some (n, a)
      | None => firstSome f rest
      end
  end.

(** The numbers of repetitions to try, in the order of backtracking. *)
Definition candidates (min run : nat) (greedy : bool) : list nat :=
  let up := seq min (S run - min) in
  if greedy then rev up else up.

(** A match of a sequence of items at the start of a text, found by
    backtracking: the captured groups and the text after the match. *)
Fixpoint matchItems (items : list Item) (s : QString)
  : option (list QString * QString) :=
  match items with
  | [] => Some ([], s)
  | Lit text :: items' =>
      if startsWith s (qs text)
      then matchItems items' (skipn (length (qs text)) s)
      else None
  | Rep k min greedy capture :: items' =>
      match firstSome (fun n => matchItems items' (skipn n s))
                      (candidates min (runLength k s) greedy) with
      | Some (n, (groups, rest)) =>
          Some (if capture then firstn n s :: groups else groups, rest)
      | None => None
      end
  end.

(** [QRegularExpression::match]: the leftmost match.  The answer is the
    text before the match, the groups, and the text after. *)
Fixpoint search (items : list Item) (before s : QString)
  : option (QString * list QString * QString) :=
  match matchItems items s with
  | Some (groups, rest) => Some (rev before, groups, rest)
  | None =>
      match s with
      | [] => None
      | c :: s' => search items (c :: before) s'
      end
  end.

Definition firstMatch (items : list Item) (s : QString)
  : option (QString * list QString * QString) :=
  search items [] s.

(** [QRegularExpression::globalMatch] for a pattern that matches no empty
    text: the groups of the successive matches.  [fuel] bounds their
    number. *)
Fixpoint globalMatch (fuel : nat) (items : list Item) (s : QString)
  : list (list QString) :=
  match fuel with
  | O => []
  | S k =>
      match firstMatch items s with
      | Some (_, groups, rest) => groups :: globalMatch k items rest
      | None => []
      end
  end.

(** [QString::remove(const QRegularExpression &)] for such a pattern. *)
Fixpoint removeMatches (fuel : nat) (items : list Item) (s : QString)
  : QString :=
  match fuel with
  | O => s
  | S k =>
      match firstMatch items s with
      | Some (before, _, rest) => before ++ removeMatches k items rest
      | None => s
      end
  end.

End Regex.

(* ===================================================================== *)
(** * CSSParser.cpp, continued: rules and declarations                    *)
(* ===================================================================== *)

Module CSSRules.

Import Regex. Import CSSParser.

(** The pattern of a comment: a slash and a star, any characters, line
    ends too and as few as possible, a star and a slash. *)
Definition commentRe : list Item :=
  [Lit "/*"; Rep AnyChar 0 false false; Lit "*/"].

(** The pattern of a rule: one or more characters other than braces (the
    selector, group 1), white space, an opening brace, characters other
    than braces (the body, group 2), a closing brace. *)
Definition ruleRe : list Item :=
  [Rep (NoneOf ["{"; "}"]%char) 1 true true; Rep SpaceChar 0 true false;
   Lit "{"; Rep (NoneOf ["{"; "}"]%char) 0 true true; Lit "}"].

(** The pattern of a blur: [blur], an opening parenthesis, one or more
    digits (group 1). *)
Definition blurRe : list Item := [Lit "blur("; Rep DigitChar 1 true true].

(** The pattern of a gradient with an angle: [linear-gradient], an
    opening parenthesis, digits (group 1), [deg], a comma, characters
    other than commas (group 2), a comma, characters other than closing
    parentheses (group 3), a closing parenthesis; white space is allowed
    around the parentheses and the commas. *)
Definition gradRe : list Item :=
  [Lit "linear-gradient"; Rep SpaceChar 0 true false; Lit "(";
   Rep SpaceChar 0 true false; Rep DigitChar 1 true true; Lit "deg";
   Rep SpaceChar 0 true false; Lit ","; Rep SpaceChar 0 true false;
   Rep (NoneOf [","%char]) 1 true true; Rep SpaceChar 0 true false;
   Lit ","; Rep SpaceChar 0 true false;
   Rep (NoneOf [")"%char]) 1 true true; Rep SpaceChar 0 true false;
   Lit ")"].

(** The pattern of a gradient without angle: the same with groups 1 and
    2 for the two colours. *)
Definition simpleRe : list Item :=
  [Lit "linear-gradient"; Rep SpaceChar 0 true false; Lit "(";
   Rep SpaceChar 0 true false; Rep (NoneOf [","%char]) 1 true true;
   Rep SpaceChar 0 true false; Lit ","; Rep SpaceChar 0 true false;
   Rep (NoneOf [")"%char]) 1 true true; Rep SpaceChar 0 true false;
   Lit ")"].

(** [CSSParser::parseGradient]. *)
Definition parseGradient (value : QString) : Gradient :=
  match firstMatch gradRe value with
  | Some (_, [a; c1; c2], _) =>
      mkGradient Linear (parseColor (trimmed c1)) (parseColor (trimmed c2))
                 (Dbl.toDouble a) (center Gradient0)
  | _ =>
      match firstMatch simpleRe value with
      | Some (_, [c1; c2], _) =>
          mkGradient Linear (parseColor (trimmed c1))
                     (parseColor (trimmed c2)) (Dbl.ofZ 180)
                     (center Gradient0)
      | _ => Gradient0
      end
  end.

(** The setters of the members of a [StyleSheet]. *)
Definition withBackgroundColor (c : QColor) (s : StyleSheet) : StyleSheet :=
  mkStyleSheet c (backgroundGradient s) (backgroundImage s) (textColor s)
    (fontFamily s) (fontSize s) (fontBold s) (fontItalic s) (border s)
    (shadow s) (margin s) (padding s) (cornerRadius s) (opacity s) (blur s)
    (blurRadius s).

Definition withBackgroundGradient (g : Gradient) (s : StyleSheet)
  : StyleSheet :=
  mkStyleSheet (backgroundColor s) g (backgroundImage s) (textColor s)
    (fontFamily s) (fontSize s) (fontBold s) (fontItalic s) (border s)
    (shadow s) (margin s) (padding s) (cornerRadius s) (opacity s) (blur s)
    (blurRadius s).

Definition withBackgroundImage (i : QString) (s : StyleSheet) : StyleSheet :=
  mkStyleSheet (backgroundColor s) (backgroundGradient s) i (textColor s)
    (fontFamily s) (fontSize s) (fontBold s) (fontItalic s) (border s)
    (shadow s) (margin s) (padding s) (cornerRadius s) (opacity s) (blur s)
    (blurRadius s).

Definition withTextColor (c : QColor) (s : StyleSheet) : StyleSheet :=
  mkStyleSheet (backgroundColor s) (backgroundGradient s) (backgroundImage s)
    c (fontFamily s) (fontSize s) (fontBold s) (fontItalic s) (border s)
    (shadow s) (margin s) (padding s) (cornerRadius s) (opacity s) (blur s)
    (blurRadius s).

Definition withFontFamily (f : QString) (s : StyleSheet) : StyleSheet :=
  mkStyleSheet (backgroundColor s) (backgroundGradient s) (backgroundImage s)
    (textColor s) f (fontSize s) (fontBold s) (fontItalic s) (border s)
    (shadow s) (margin s) (padding s) (cornerRadius s) (opacity s) (blur s)
    (blurRadius s).

Definition withFontSize (n : Z) (s : StyleSheet) : StyleSheet :=
  mkStyleSheet (backgroundColor s) (backgroundGradient s) (backgroundImage s)
    (textColor s) (fontFamily s) n (fontBold s) (fontItalic s) (border s)
    (shadow s) (margin s) (padding s) (cornerRadius s) (opacity s) (blur s)
    (blurRadius s).

Definition withFontBold (b : bool) (s : StyleSheet) : StyleSheet :=
  mkStyleSheet (backgroundColor s) (backgroundGradient s) (backgroundImage s)
    (textColor s) (fontFamily s) (fontSize s) b (fontItalic s) (border s)
    (shadow s) (margin s) (padding s) (cornerRadius s) (opacity s) (blur s)
    (blurRadius s).

Definition withFontItalic (b : bool) (s : StyleSheet) : StyleSheet :=
  mkStyleSheet (backgroundColor s) (backgroundGradient s) (backgroundImage s)
    (textColor s) (fontFamily s) (fontSize s) (fontBold s) b (border s)
    (shadow s) (margin s) (padding s) (cornerRadius s) (opacity s) (blur s)
    (blurRadius s).

Definition withBorder (b : Border) (s : StyleSheet) : StyleSheet :=
  mkStyleSheet (backgroundColor s) (backgroundGradient s) (backgroundImage s)
    (textColor s) (fontFamily s) (fontSize s) (fontBold s) (fontItalic s) b
    (shadow s) (margin s) (padding s) (cornerRadius s) (opacity s) (blur s)
    (blurRadius s).

Definition withShadow (sh : Shadow) (s : StyleSheet) : StyleSheet :=
  mkStyleSheet (backgroundColor s) (backgroundGradient s) (backgroundImage s)
    (textColor s) (fontFamily s) (fontSize s) (fontBold s) (fontItalic s)
    (border s) sh (margin s) (padding s) (cornerRadius s) (opacity s)
    (blur s) (blurRadius s).

Definition withMargin (m : Margin) (s : StyleSheet) : StyleSheet :=
  mkStyleSheet (backgroundColor s) (backgroundGradient s) (backgroundImage s)
    (textColor s) (fontFamily s) (fontSize s) (fontBold s) (fontItalic s)
    (border s) (shadow s) m (padding s) (cornerRadius s) (opacity s)
    (blur s) (blurRadius s).

Definition withPadding (m : Padding) (s : StyleSheet) : StyleSheet :=
  mkStyleSheet (backgroundColor s) (backgroundGradient s) (backgroundImage s)
    (textColor s) (fontFamily s) (fontSize s) (fontBold s) (fontItalic s)
    (border s) (shadow s) (margin s) m (cornerRadius s) (opacity s)
    (blur s) (blurRadius s).

Definition withCornerRadius (r : Z) (s : StyleSheet) : StyleSheet :=
  mkStyleSheet (backgroundColor s) (backgroundGradient s) (backgroundImage s)
    (textColor s) (fontFamily s) (fontSize s) (fontBold s) (fontItalic s)
    (border s) (shadow s) (margin s) (padding s) r (opacity s) (blur s)
    (blurRadius s).

Definition withOpacity (o : Dbl.double) (s : StyleSheet) : StyleSheet :=
  mkStyleSheet (backgroundColor s) (backgroundGradient s) (backgroundImage s)
    (textColor s) (fontFamily s) (fontSize s) (fontBold s) (fontItalic s)
    (border s) (shadow s) (margin s) (padding s) (cornerRadius s) o (blur s)
    (blurRadius s).

Definition withBlur (m : BlurMode) (r : Dbl.double) (s : StyleSheet)
  : StyleSheet :=
  mkStyleSheet (backgroundColor s) (backgroundGradient s) (backgroundImage s)
    (textColor s) (fontFamily s) (fontSize s) (fontBold s) (fontItalic s)
    (border s) (shadow s) (margin s) (padding s) (cornerRadius s) (opacity s)
    m r.

Definition withTop (v : Z) (m : Margin) : Margin :=
  mkMargin v (Types.right m) (bottom m) (Types.left m).
Definition withRight (v : Z) (m : Margin) : Margin :=
  mkMargin (top m) v (bottom m) (Types.left m).
Definition withBottom (v : Z) (m : Margin) : Margin :=
  mkMargin (top m) (Types.right m) v (Types.left m).
Definition withLeft (v : Z) (m : Margin) : Margin :=
  mkMargin (top m) (Types.right m) (bottom m) v.

(** The value with its double and its single quotes taken out. *)
Definition unquoted (value : QString) : QString :=
  remove (remove value "034"%char) "'"%char.

(** [CSSParser::parseProperty].  The quotes of a font family are taken out
    of a copy of the value. *)
Definition parseProperty (style : StyleSheet) (property value : QString)
  : StyleSheet :=
  let named (name : string) := eqs property (qs name) in
  let word (text : string) := eqs value (qs text) in
  if named "background" || named "background-color" || named "bg" then
    if startsWith value (qs "linear-gradient")
    then withBackgroundGradient (parseGradient value) style
    else withBackgroundColor (parseColor value) style
  else if named "background-image" then
    if startsWith value (qs "url(")
    then withBackgroundImage (unquoted (mid value 4 (size value - 5))) style
    else style
  else if named "color" then withTextColor (parseColor value) style
  else if named "font-family" then withFontFamily (unquoted value) style
  else if named "font-size" then withFontSize (parsePixels value) style
  else if named "font-weight"
  then withFontBold (word "bold" || (700 <=? toInt value)) style
  else if named "font-style" then withFontItalic (word "italic") style
  else if named "border" then withBorder (parseBorder value) style
  else if named "border-color" then
    withBorder (mkBorder (parseColor value) (width (border style))
                         (radius (border style)) (b_style (border style)))
               style
  else if named "border-width" then
    withBorder (mkBorder (b_color (border style)) (parsePixels value)
                         (radius (border style)) (b_style (border style)))
               style
  else if named "border-radius"
  then withCornerRadius (parsePixels value) style
  else if named "border-style" then
    let setStyle (b : BorderStyle) :=
      withBorder (mkBorder (b_color (border style)) (width (border style))
                           (radius (border style)) b) style in
    if word "solid" then setStyle StyleSolid
    else if word "dashed" then setStyle StyleDashed
    else if word "dotted" then setStyle StyleDotted
    else if word "none" then setStyle StyleNone
    else style
  else if named "box-shadow" then withShadow (parseShadow value) style
  else if named "margin" then withMargin (parseMargin value) style
  else if named "margin-top"
  then withMargin (withTop (parsePixels value) (margin style)) style
  else if named "margin-right"
  then withMargin (withRight (parsePixels value) (margin style)) style
  else if named "margin-bottom"
  then withMargin (withBottom (parsePixels value) (margin style)) style
  else if named "margin-left"
  then withMargin (withLeft (parsePixels value) (margin style)) style
  else if named "padding" then withPadding (parseMargin value) style
  else if named "padding-top"
  then withPadding (withTop (parsePixels value) (padding style)) style
  else if named "padding-right"
  then withPadding (withRight (parsePixels value) (padding style)) style
  else if named "padding-bottom"
  then withPadding (withBottom (parsePixels value) (padding style)) style
  else if named "padding-left"
  then withPadding (withLeft (parsePixels value) (padding style)) style
  else if named "opacity" then withOpacity (Dbl.toDouble value) style
  else if named "backdrop-filter" || named "blur" then
    if containsStr value (qs "blur") then
      match firstMatch blurRe value with
      | Some (_, [digits], _) =>
          withBlur BlurBackground (Dbl.toDouble digits) style
      | _ => withBlur BlurBackground (blurRadius style) style
      end
    else style
  else style.

(** One declaration of the body of a rule: nothing without a colon. *)
Definition parseDeclaration (style : StyleSheet) (prop : QString)
  : StyleSheet :=
  let colonIdx := indexOf prop ":" in
  if colonIdx <? 0 then style
  else parseProperty style (toLower (trimmed (QStr.left prop colonIdx)))
                     (trimmed (mid prop (colonIdx + 1) (-1))).

(** The style that the body of a rule describes. *)
Definition parseBody (body : QString) : StyleSheet :=
  fold_left parseDeclaration (splitSkipEmpty body ";") StyleSheet0.

(** The key of a selector in [m_styles]. *)
Definition key (selector : QString) : string :=
  string_of_list_ascii selector.

(** [CSSParser::parseRule]. *)
Definition parseRule (selector body : QString)
  (m_styles : gmap string StyleSheet) : gmap string StyleSheet :=
  let style := parseBody body in
  fold_left (fun m sel => <[key (trimmed sel) := style]> m)
            (split selector ",") m_styles.

(** [CSSParser::parseString]; it answers [true]. *)
Definition parseString (css : QString) (m_styles : gmap string StyleSheet)
  : gmap string StyleSheet :=
  let cleaned := removeMatches (S (length css)) commentRe css in
  fold_left (fun m groups =>
               match groups with
               | [selector; body] =>
                   parseRule (trimmed selector) (trimmed body) m
               | _ => m
               end)
            (globalMatch (S (length cleaned)) ruleRe cleaned) m_styles.

(** [CSSParser::parseFile]: whether it succeeded, the rules and
    [m_lastError]. *)
Definition parseFile (readFile : QString -> option QString) (path : QString)
  (m_styles : gmap string StyleSheet)
  : bool * gmap string StyleSheet * QString :=
  match readFile path with
  | None => (false, m_styles, qs "Cannot open file: " ++ path)
  | Some css => (true, parseString css m_styles, [])
  end.

(** [CSSParser::applyStyle]. *)
Definition applyStyle (m_styles : gmap string StyleSheet)
  (className : QString) (w : Widget) : Widget :=
  setStyle (getStyle m_styles className) w.

(** One line of the text [toCSS] writes, for the name of a property and
    its value. *)
Definition declaration (d : string * QString) : QString :=
  qs "  " ++ qs (fst d) ++ qs ": " ++ snd d ++ [";"; "010"]%char.

(** The lines that a test guards: none when it fails. *)
Definition lineIf (c : bool) (name : string) (value : option QString)
  : option (list (string * QString)) :=
  if c then option_map (fun v => [(name, v)]) value else Some [].

Definition joinLines (lines : list (option (list (string * QString))))
  : option (list (string * QString)) :=
  fold_right (fun line rest =>
                match line, rest with
                | Some l, Some r => Some (l ++ r)
                | _, _ => None
                end) (Some []) lines.

(** The declarations [CSSParser::toCSS] writes, in their order.  The text
    of an opacity below 1 is that of a double, which is not modelled; so
    is the text of a colour of the HSL model. *)
Definition declarations (style : StyleSheet)
  : option (list (string * QString)) :=
  joinLines
    [ lineIf (isValid (backgroundColor style)) "background-color"
        (Color.toString (backgroundColor style) true);
      lineIf (isValid (textColor style)) "color"
        (Color.toString (textColor style) true);
      lineIf (negb (isEmpty (fontFamily style))) "font-family"
        (Some ("034"%char :: fontFamily style ++ ["034"%char]));
      lineIf (0 <? fontSize style) "font-size"
        (Some (number (fontSize style) ++ qs "px"));
      lineIf (fontBold style) "font-weight" (Some (qs "bold"));
      lineIf (fontItalic style) "font-style" (Some (qs "italic"));
      lineIf (0 <? width (border style)) "border"
        (option_map
           (fun c => number (width (border style)) ++ qs "px solid " ++ c)
           (Color.toString (b_color (border style)) true));
      lineIf (0 <? cornerRadius style) "border-radius"
        (Some (number (cornerRadius style) ++ qs "px"));
      lineIf (enabled (shadow style)) "box-shadow"
        (option_map
           (fun c => number (offsetX (shadow style)) ++ qs "px "
                     ++ number (offsetY (shadow style)) ++ qs "px "
                     ++ number (sh_blur (shadow style)) ++ qs "px " ++ c)
           (Color.toString (sh_color (shadow style)) true));
      lineIf (Dbl.ltb (opacity style) Dbl.one) "opacity" None ].

(** [CSSParser::toCSS]. *)
Definition toCSS (style : StyleSheet) : option QString :=
  option_map (fun ds => concat (map declaration ds)) (declarations style).

(** A declaration read: the property set to the value. *)
Definition applyEntry (style : StyleSheet) (d : string * QString)
  : StyleSheet :=
  parseProperty style (qs (fst d)) (snd d).

(** White space only. *)
Definition blank (s : QString) : bool := forallb isSpace s.

(** A text without the characters that end a declaration, open or close
    a rule, or may open a comment. *)
Definition plainChar (c : ascii) : bool :=
  negb (existsb (eqc c) [";"; "{"; "}"; "*"]%char).

Definition plain (s : QString) : bool := forallb plainChar s.

(** A text that is not empty and neither starts nor ends with white
    space. *)
Definition ends (s : QString) : bool :=
  match s with
  | c :: _ => negb (isSpace c) && negb (isSpace (List.last s c))
  | [] => false
  end.

(** A name that [parseRule] reads as it is written. *)
Definition nameOk (name : string) : bool :=
  eqs (toLower (trimmed (qs name))) (qs name)
  && negb (contains (qs name) ":") && plain (qs name) && ends (qs name).

(** A declaration that [parseRule] reads as it is written. *)
Definition entryOk (d : string * QString) : bool :=
  nameOk (fst d) && plain (snd d) && ends (snd d).

(** A class selector that [parseString] reads as it is written. *)
Definition classSelector (s : QString) : bool :=
  startsWith s (qs ".") && ends s && plain s && negb (contains s ",").

(** A style as the program holds it: the colours hold 16-bit components
    and the numbers fit an [int]; the font family holds none of the
    characters that end a declaration, open or close a rule or may open a
    comment, and no quote. *)
Definition wellFormedStyle (style : StyleSheet) : bool :=
  wellFormed (backgroundColor style) && wellFormed (textColor style)
  && wellFormed (b_color (border style))
  && wellFormed (sh_color (shadow style))
  && (fontSize style <=? INT_MAX) && (cornerRadius style <=? INT_MAX)
  && (width (border style) <=? INT_MAX)
  && plain (fontFamily style)
  && negb (contains (fontFamily style) "034")
  && negb (contains (fontFamily style) "'").

(** The declarations [Widget::toCSS] writes. *)
Definition widgetDeclarations (w : Widget)
  : option (list (string * QString)) :=
  joinLines
    [ lineIf true "background-color" (Color.toString (m_bgColor w) true);
      lineIf true "width" (Some (number (w_width w) ++ qs "px"));
      lineIf true "height" (Some (number (w_height w) ++ qs "px"));
      lineIf (0 <? m_cornerRadius w) "border-radius"
        (Some (number (m_cornerRadius w) ++ qs "px"));
      lineIf (Border_isVisible (m_border w)) "border"
        (option_map
           (fun c => number (width (m_border w)) ++ qs "px solid " ++ c)
           (Color.toString (b_color (m_border w)) true)) ].

(** [Widget::toCSS]. *)
Definition widgetToCSS (w : Widget) : option QString :=
  option_map
    (fun ds => qs ".widget {" ++ "010"%char :: concat (map declaration ds)
               ++ qs "}" ++ ["010"%char])
    (widgetDeclarations w).

End CSSRules.

(* ===================================================================== *)
(** * Sample styles                                                       *)
(* ===================================================================== *)

Module StyleSamples.

(** A style with a dashed border of two pixels in the colour [c], a
    corner radius, bold text and the font size 0. *)
Definition card (c : QColor) : StyleSheet :=
  mkStyleSheet (fromRgb 10 20 30) Gradient0 [] (fromRgba 200 100 50 128) []
    0 true false (mkBorder c 2 0 StyleDashed) Shadow0 Margin0 Margin0 8
    Dbl.one BlurNone (Dbl.ofZ 10).

(** The lines [CSSParser::toCSS] writes for [card], the text of the
    colour of the border being [c]. *)
Definition cardText (c : string) : QString :=
  qs "  background-color: #0a141e;" ++ "010"%char
  :: qs "  color: rgba(200, 100, 50, 128);" ++ "010"%char
  :: qs "  font-weight: bold;" ++ "010"%char
  :: qs "  border: 2px solid " ++ qs c ++ ";"%char :: "010"%char
  :: qs "  border-radius: 8px;" ++ ["010"%char].

(** A widget of 300 by 200 with rounded corners and a red border. *)
Definition panel : Widget :=
  setRounded 12 (setBorderColor (fromRgb 255 0 0) 2 (Widget.create 300 200)).

(** What [Widget::toCSS] writes for [panel]. *)
Definition panelText : QString :=
  qs ".widget {" ++ "010"%char
  :: qs "  background-color: rgba(30, 30, 40, 220);" ++ "010"%char
  :: qs "  width: 300px;" ++ "010"%char
  :: qs "  height: 200px;" ++ "010"%char
  :: qs "  border-radius: 12px;" ++ "010"%char
  :: qs "  border: 2px solid #ff0000;" ++ "010"%char
  :: qs "}" ++ ["010"%char].

End StyleSamples.

(* ===================================================================== *)
(** * Properties                                                          *)
(* ===================================================================== *)

(** ** Style sheets *)

(** C1. [merge base override] is defined field by field: a field that is
    set in [override] has the value of [override] in the result, a field
    that is not set there has the value of [base]; hence the two orders
    of merging differ as soon as both sheets set one field to different
    values. *)
Theorem merge_field_by_field : forall base override : StyleSheet,
  (forall f, isSet f override = true ->
             get f (CSSParser.merge base override) = get f override) /\
  (forall f, isSet f override = false ->
             get f (CSSParser.merge base override) = get f base) /\
  (forall f, isSet f base = true -> isSet f override = true ->
             get f base <> get f override ->
             CSSParser.merge base override <> CSSParser.merge override base).
Proof.
  intros base override.
  assert (Hset : forall a b f, isSet f b = true ->
                   get f (CSSParser.merge a b) = get f b).
  { intros a b f H; destruct f; simpl in *; rewrite ?H; reflexivity. }
  assert (Hunset : forall a b f, isSet f b = false ->
                     get f (CSSParser.merge a b) = get f a).
  { intros a b f H; destruct f; simpl in *; rewrite ?H; reflexivity. }
  split; [apply Hset | split; [apply Hunset |]].
  intros f Hb Ho Hne Heq.
  apply Hne.
  rewrite <- (Hset override base f Hb), <- (Hset base override f Ho).
  now rewrite Heq.
Qed.

Lemma merge_field_by_field_witness :
  get FFontSize (CSSParser.merge (sample 14 (qs "0.5")) (sample 12 (qs "1")))
    = VInt 12 /\
  get FOpacity (CSSParser.merge (sample 14 (qs "0.5")) (sample 12 (qs "1")))
    = VDouble (Dbl.toDouble (qs "0.5")) /\
  CSSParser.merge (sample 14 (qs "0.5")) (sample 12 (qs "1"))
    <> CSSParser.merge (sample 12 (qs "1")) (sample 14 (qs "0.5")).
Proof.
  destruct (merge_field_by_field (sample 14 (qs "0.5")) (sample 12 (qs "1")))
    as (Hset & Hunset & Hdiff).
  split; [exact (Hset FFontSize eq_refl) |].
  split; [exact (Hunset FOpacity eq_refl) |].
  apply (Hdiff FFontSize); [reflexivity | reflexivity | discriminate].
Defined.

(** C3, as stated: every field of a default-initialised style sheet is
    unset.  The font size is initialised to 12, a positive size. *)
Lemma fresh_stylesheet_font_size_is_set :
  ~ (forall f, isSet f StyleSheet0 = false).
Proof. intros H. specialize (H FFontSize). discriminate H. Qed.

(** C3, amended.  A default-initialised style sheet has every field unset
    except the font size, which is 12.  Within the unset border, shadow
    and blur, the members that [merge] does not look at carry defaults:
    a valid transparent border colour, a valid shadow colour, a shadow
    blur of 10 and vertical offset of 2, a blur radius of 10. *)
Theorem fresh_stylesheet_unset_but_font_size :
  (forall f, isSet f StyleSheet0
             = match f with FFontSize => true | _ => false end) /\
  fontSize StyleSheet0 = 12 /\
  b_color (border StyleSheet0) = QCol.transparent /\
  isValid (b_color (border StyleSheet0)) = true /\
  isValid (sh_color (shadow StyleSheet0)) = true /\
  sh_blur (shadow StyleSheet0) = 10 /\
  offsetY (shadow StyleSheet0) = 2 /\
  blurRadius StyleSheet0 = Dbl.ofZ 10.
Proof.
  split; [intros f; destruct f; reflexivity |].
  repeat split.
Qed.

(** ** Markup roots *)

(** C4, as stated: a document with a foreign root gives no widget and a
    diagnostic.  On [<foo/>] the parser gives no widget, keeps its error
    text empty and emits no signal. *)
Lemma foreign_root_reports_nothing :
  parseString Samples.reader newParser (qs "<foo/>") = ([], newParser) /\
  ~ (hasError (snd (parseString Samples.reader newParser (qs "<foo/>"))) = true
     \/ emitted (snd (parseString Samples.reader newParser (qs "<foo/>")))
        <> []).
Proof.
  split; [reflexivity |].
  intros [H | H]; [discriminate H | apply H; reflexivity].
Qed.

(** C4, amended.  For a well-formed document whose root is neither
    [widget] nor [widgets] nor [milk], [parseString] and [parseFile]
    return no widget and report nothing: the error text is empty and no
    signal is emitted. *)
Theorem foreign_root_no_widget_no_diagnostic :
  forall (setContent : QString -> SetContentResult)
         (readFile : QString -> option QString)
         (absolutePath : QString -> QString)
         (p : XMLParser) (xml path : QString) (root : QDomNode),
    setContent xml = DomOk root ->
    eqs (tagName root) (qs "widget") = false ->
    eqs (tagName root) (qs "widgets") = false ->
    eqs (tagName root) (qs "milk") = false ->
    (fst (parseString setContent p xml) = [] /\
     hasError (snd (parseString setContent p xml)) = false /\
     emitted (snd (parseString setContent p xml)) = emitted p) /\
    (readFile path = Some xml ->
     fst (parseFile setContent readFile absolutePath p path) = [] /\
     hasError (snd (parseFile setContent readFile absolutePath p path))
       = false /\
     emitted (snd (parseFile setContent readFile absolutePath p path))
       = emitted p).
Proof.
  intros setContent readFile absolutePath p xml path root Hdoc Hw Hws Hm.
  assert (Hroot : parseRoot root = []).
  { unfold parseRoot. rewrite Hw, Hws, Hm. reflexivity. }
  split.
  - unfold parseString. rewrite Hdoc, Hroot. repeat split.
  - intros Hfile. unfold parseFile. rewrite Hfile, Hdoc, Hroot. simpl.
    repeat split. apply app_nil_r.
Qed.

Lemma foreign_root_no_widget_no_diagnostic_witness :
  fst (parseString Samples.reader newParser (qs "<foo/>")) = [] /\
  emitted (snd (parseFile Samples.reader Samples.files Samples.absolute
                          newParser (qs "foo.xml"))) = [].
Proof.
  destruct (foreign_root_no_widget_no_diagnostic Samples.reader Samples.files
              Samples.absolute newParser (qs "<foo/>") (qs "foo.xml")
              (DomElement (qs "foo") [] []) eq_refl eq_refl eq_refl eq_refl)
    as [(Hs & _) Hf].
  split; [exact Hs |].
  destruct (Hf eq_refl) as (_ & _ & He). exact He.
Defined.






(** ** Opacity of a widget *)

Lemma SFltb_SFleb : forall x y, SFltb x y = true -> SFleb x y = true.
Proof.
  intros x y. unfold SFltb, SFleb.
  destruct (SFcompare x y) as [[ | | ] | ]; intros H;
    reflexivity || discriminate H.
Qed.

Lemma one_eq : Dbl.one = S754_finite false 4503599627370496 (-52).
Proof. vm_compute. reflexivity. Qed.

(** Above 0 and not above 1 means at most 1. *)
Lemma not_above_one : forall x,
  SFltb Dbl.zero x = true -> SFltb Dbl.one x = false -> SFleb x Dbl.one = true.
Proof.
  intros x H0 H1. rewrite one_eq in *. unfold Dbl.zero in *.
  destruct x as [s | s | | s m e]; try discriminate H0.
  - destruct s; [discriminate H0 | discriminate H1].
  - destruct s; [discriminate H0 |].
    unfold SFltb, SFleb, SFcompare in *.
    rewrite (Z.compare_antisym e (-52)) in H1.
    rewrite !Pos.compare_cont_spec in *.
    rewrite (Pos.compare_antisym m 4503599627370496) in H1.
    destruct (e ?= -52); destruct (m ?= 4503599627370496)%positive;
      cbv [CompOpp Pos.switch_Eq] in *;
      first [reflexivity | discriminate H1].
Qed.

Lemma qBound_in_unit : forall x, inUnit (qBound Dbl.zero x Dbl.one) = true.
Proof.
  intros x. unfold qBound, qMin, qMax, Dbl.ltb, inUnit, Dbl.leb.
  destruct (SFltb Dbl.one x) eqn:H1.
  - vm_compute; reflexivity.
  - destruct (SFltb Dbl.zero x) eqn:H0.
    + rewrite (SFltb_SFleb _ _ H0), (not_above_one _ H0 H1). reflexivity.
    + vm_compute; reflexivity.
Qed.

(** The animation methods, the timer and the appearance setters other
    than [setOpacity] leave [m_opacity] alone. *)
Lemma m_opacity_log : forall e w, m_opacity (log e w) = m_opacity w.
Proof. reflexivity. Qed.

Lemma m_opacity_emitFinished : forall a w,
  m_opacity (emitFinished a w) = m_opacity w.
Proof.
  intros a w. unfold emitFinished, runSlot.
  destruct (a_finished a) as [sl |]; [| reflexivity].
  destruct (sl_signal sl); destruct (sl_callback sl && _); reflexivity.
Qed.

Lemma m_opacity_stopAndDelete : forall a w,
  m_opacity (stopAndDelete a w) = m_opacity w.
Proof.
  intros a w. unfold stopAndDelete.
  destruct (a_running a && emitsOnStop a);
    [rewrite m_opacity_emitFinished |]; reflexivity.
Qed.

Lemma m_opacity_stopAnimation : forall name w,
  m_opacity (stopAnimation name w) = m_opacity w.
Proof.
  intros name w. unfold stopAnimation.
  destruct (m_animations w !! name) as [id |]; [| reflexivity].
  destruct (findObject id (objects w)) as [a |]; [| reflexivity].
  simpl. apply m_opacity_stopAndDelete.
Qed.

Lemma m_opacity_fold : forall (A : Type) (f : Widget -> A -> Widget),
  (forall w x, m_opacity (f w x) = m_opacity w) ->
  forall l w, m_opacity (fold_left f l w) = m_opacity w.
Proof.
  intros A f Hf l. induction l as [| x l IH]; intros w; simpl;
    [reflexivity | rewrite IH; apply Hf].
Qed.

Lemma m_opacity_stopSameProperty : forall property w,
  m_opacity (stopSameProperty property w) = m_opacity w.
Proof.
  intros property w. unfold stopSameProperty.
  rewrite m_opacity_fold; [reflexivity |].
  intros; apply m_opacity_emitFinished.
Qed.

Lemma m_opacity_startAnimation : forall name property duration loops slot w,
  m_opacity (startAnimation name property duration loops slot w) = m_opacity w.
Proof.
  intros. unfold startAnimation.
  destruct (setCurrentTime 0 _) as [a' atEnd].
  destruct atEnd; [rewrite m_opacity_emitFinished |]; cbn [m_opacity withAnim];
    rewrite m_opacity_stopSameProperty; reflexivity.
Qed.

Lemma m_opacity_request : forall r w, m_opacity (request r w) = m_opacity w.
Proof.
  intros r w. unfold request.
  destruct (negb (m_initialized w)); [reflexivity |].
  rewrite m_opacity_startAnimation, m_opacity_stopAnimation.
  destruct r; reflexivity.
Qed.

Lemma m_opacity_tick : forall dt w, m_opacity (tick dt w) = m_opacity w.
Proof.
  intros dt w. unfold tick. rewrite m_opacity_fold; [reflexivity |].
  intros; apply m_opacity_emitFinished.
Qed.

Lemma m_opacity_cleanupAnimations : forall w,
  m_opacity (cleanupAnimations w) = m_opacity w.
Proof.
  intros w. unfold cleanupAnimations. simpl.
  rewrite m_opacity_fold; [reflexivity |].
  intros w' e. destruct (findObject _ _); [apply m_opacity_stopAndDelete |].
  reflexivity.
Qed.

Lemma m_opacity_setShape : forall sh w, m_opacity (setShape sh w) = m_opacity w.
Proof. intros sh w. destruct sh; reflexivity. Qed.

Lemma m_opacity_setBorder : forall c n w, m_opacity (setBorder c n w) = m_opacity w.
Proof. reflexivity. Qed.

Lemma m_opacity_setBlur : forall m r w, m_opacity (setBlur m r w) = m_opacity w.
Proof. reflexivity. Qed.

Lemma m_opacity_setShadow : forall c b x y w,
  m_opacity (setShadow c b x y w) = m_opacity w.
Proof. reflexivity. Qed.

Lemma m_opacity_setRounded : forall r w, m_opacity (setRounded r w) = m_opacity w.
Proof. reflexivity. Qed.

Lemma m_opacity_setBackgroundColor : forall c w,
  m_opacity (setBackgroundColor c w) = m_opacity w.
Proof. reflexivity. Qed.

Lemma m_opacity_setBackgroundGradient : forall g w,
  m_opacity (setBackgroundGradient g w) = m_opacity w.
Proof. reflexivity. Qed.

Lemma m_opacity_setBorderStruct : forall b w,
  m_opacity (setBorderStruct b w) = m_opacity w.
Proof. reflexivity. Qed.

Lemma m_opacity_withLook : forall w a b c d e f g h i j k,
  m_opacity (withLook w a b c d e f g h i j k) = m_opacity w.
Proof. reflexivity. Qed.

Lemma m_opacity_setBackground : forall c w,
  m_opacity (setBackground c w) = m_opacity w.
Proof. reflexivity. Qed.

Lemma m_opacity_setGlass : forall on w, m_opacity (setGlass on w) = m_opacity w.
Proof. reflexivity. Qed.

Lemma m_opacity_resize : forall w a b, m_opacity (resize w a b) = m_opacity w.
Proof. reflexivity. Qed.

Lemma m_opacity_create : forall width height,
  m_opacity (Widget.create width height) = Dbl.one.
Proof. reflexivity. Qed.

Lemma inUnit_one : inUnit Dbl.one = true.
Proof. vm_compute. reflexivity. Qed.

(** After a setter, the opacity is the old one or a bounded one. *)
Ltac setter_done HX :=
  first
    [ apply qBound_in_unit
    | rewrite ?m_opacity_setShape, ?m_opacity_setBorder, ?m_opacity_setBlur,
        ?m_opacity_setShadow, ?m_opacity_setRounded,
        ?m_opacity_setBackgroundColor, ?m_opacity_setBackgroundGradient,
        ?m_opacity_setBorderStruct, ?m_opacity_setBackground,
        ?m_opacity_setGlass, ?m_opacity_resize, ?m_opacity_withLook;
      exact HX ].

(** A setter that is applied or not: the property is shown of the widget
    it is applied to, once. *)
Ltac guarded_step :=
  match goal with
  | |- inUnit (m_opacity (if ?c then _ else ?X)) = true =>
      let HX := fresh "HX" in
      assert (HX : inUnit (m_opacity X) = true);
      [ | destruct c; [setter_done HX | exact HX] ]
  | |- inUnit (m_opacity (when ?c ?f ?X)) = true =>
      let HX := fresh "HX" in
      assert (HX : inUnit (m_opacity X) = true);
      [ | unfold when at 1; destruct c;
          [ try match goal with
                | |- context [match ?l with [] => _ | _ :: _ => _ end] =>
                    destruct l as [| ? [| ? [| ? [| ? ?]]]]
                end; setter_done HX
          | exact HX ] ]
  end.

Lemma inUnit_setOpacity : forall o w, inUnit (m_opacity (setOpacity o w)) = true.
Proof. intros; apply qBound_in_unit. Qed.

Lemma inUnit_setStyle : forall st w,
  inUnit (m_opacity w) = true -> inUnit (m_opacity (setStyle st w)) = true.
Proof.
  intros st w H. unfold setStyle. cbv zeta.
  repeat guarded_step. rewrite m_opacity_withLook. exact H.
Qed.

Lemma inUnit_apply : forall w op,
  inUnit (m_opacity w) = true -> inUnit (m_opacity (apply w op)) = true.
Proof.
  intros w op H. destruct op; cbn [apply]; try exact H.
  all: try solve [apply inUnit_setOpacity | apply inUnit_setStyle; exact H].
  all: try solve [rewrite ?m_opacity_setShape, ?m_opacity_request,
                    ?m_opacity_cleanupAnimations, ?m_opacity_tick; exact H].
  - unfold show. rewrite m_opacity_log.
    destruct (m_initialized _); [rewrite m_opacity_request |]; exact H.
  - unfold hide. rewrite m_opacity_log.
    destruct (m_initialized _); [rewrite m_opacity_request |]; exact H.
Qed.

Lemma inUnit_parseWidget : forall elem,
  inUnit (m_opacity (parseWidget elem)) = true.
Proof.
  intros elem. unfold parseWidget, parseWidgetProperties. cbv zeta.
  repeat guarded_step. rewrite m_opacity_create. apply inUnit_one.
Qed.

(** C9.  [Widget::setOpacity] stores its argument bounded to [0.0, 1.0];
    nothing else writes [m_opacity], so after any sequence of operations
    on a widget, made by the constructor or from a markup element, the
    stored opacity lies in [0.0, 1.0]. *)
Theorem stored_opacity_in_unit_interval :
  (forall o w, m_opacity (setOpacity o w) = qBound Dbl.zero o Dbl.one) /\
  (forall o w, inUnit (m_opacity (setOpacity o w)) = true) /\
  (forall ops width height,
     inUnit (m_opacity (run ops (Widget.create width height))) = true) /\
  (forall ops elem, inUnit (m_opacity (run ops (parseWidget elem))) = true).
Proof.
  assert (Hrun : forall ops w, inUnit (m_opacity w) = true ->
                   inUnit (m_opacity (run ops w)) = true).
  { intros ops. induction ops as [| op ops IH]; intros w H; simpl;
      [exact H | apply IH, inUnit_apply, H]. }
  split; [reflexivity |].
  split; [apply inUnit_setOpacity |].
  split; intros.
  - apply Hrun. rewrite m_opacity_create. apply inUnit_one.
  - apply Hrun, inUnit_parseWidget.
Qed.


(** ** Border and shadow shorthands *)

Lemma lastOf_snoc : forall cls sel parts x,
  lastOf cls sel (parts ++ [x])
  = if sel (cls x) then Some x else lastOf cls sel parts.
Proof.
  intros cls sel parts x. unfold lastOf. rewrite List.filter_app. simpl.
  destruct (sel (cls x)); [apply last_snoc | now rewrite app_nil_r].
Qed.

(** One round of the loop of [parseBorder] writes the member of the
    class of its token. *)
Lemma borderPart_members : forall b x,
  b_color (CSSParser.borderPart b x)
    = (if isColor (borderClass x) then Color.parse (trimmed x)
       else b_color b) /\
  width (CSSParser.borderPart b x)
    = (if isLength (borderClass x) then CSSParser.parsePixels (trimmed x)
       else width b) /\
  b_style (CSSParser.borderPart b x)
    = (if isStyle (borderClass x) then CSSParser.borderStyleOf (trimmed x)
       else b_style b).
Proof.
  intros b x. unfold CSSParser.borderPart, borderClass. cbv zeta.
  destruct (endsWith (trimmed x) (qs "px")
            || CSSParser.firstIsDigit (trimmed x));
    [| destruct (CSSParser.isBorderStyleWord (trimmed x))];
    repeat split.
Qed.

(** What the loop of [parseBorder] leaves in a border. *)
Lemma parseBorder_loop : forall parts b,
  let r := fold_left CSSParser.borderPart parts b in
  b_color r = match lastOf borderClass isColor parts with
              | Some p => Color.parse (trimmed p)
              | None => b_color b
              end /\
  width r = match lastOf borderClass isLength parts with
            | Some p => CSSParser.parsePixels (trimmed p)
            | None => width b
            end /\
  b_style r = match lastOf borderClass isStyle parts with
              | Some p => CSSParser.borderStyleOf (trimmed p)
              | None => b_style b
              end.
Proof.
  intros parts. induction parts as [| x parts IH] using rev_ind; intros b r.
  - repeat split.
  - subst r. rewrite fold_left_app, !lastOf_snoc. cbn [fold_left].
    destruct (IH b) as (Hc & Hw & Hs).
    destruct (borderPart_members (fold_left CSSParser.borderPart parts b) x)
      as (Ec & Ew & Es).
    rewrite Ec, Ew, Es, Hc, Hw, Hs.
    destruct (borderClass x); repeat split.
Qed.

(** What the loop of [parseShadow] leaves as the text of the colour. *)
Lemma parseShadow_loop : forall parts acc,
  snd (fold_left CSSParser.shadowPart parts acc)
  = match lastOf shadowClass isColor parts with
    | Some p => trimmed p
    | None => snd acc
    end.
Proof.
  intros parts. induction parts as [| x parts IH] using rev_ind; intros acc.
  - reflexivity.
  - rewrite fold_left_app, lastOf_snoc. cbn [fold_left].
    specialize (IH acc).
    destruct (fold_left CSSParser.shadowPart parts acc) as [numbers colorStr].
    unfold CSSParser.shadowPart, shadowClass.
    destruct (toIntOk (removeStr (trimmed x) (qs "px"))) as [num ok].
    destruct ok; cbn [snd isColor]; [exact IH | reflexivity].
Qed.

Lemma parseShadow_color : forall numbers colorStr,
  sh_color
    (let s := mkShadow (sh_color Shadow0) (sh_blur Shadow0) (offsetX Shadow0)
                (offsetY Shadow0) (spread Shadow0) true in
     let s := match numbers with
              | n0 :: n1 :: _ =>
                  mkShadow (sh_color s) (sh_blur s) n0 n1 (spread s) (enabled s)
              | _ => s
              end in
     let s := match numbers with
              | _ :: _ :: n2 :: _ =>
                  mkShadow (sh_color s) n2 (offsetX s) (offsetY s) (spread s)
                           (enabled s)
              | _ => s
              end in
     let s := match numbers with
              | _ :: _ :: _ :: n3 :: _ =>
                  mkShadow (sh_color s) (sh_blur s) (offsetX s) (offsetY s) n3
                           (enabled s)
              | _ => s
              end in
     if negb (isEmpty colorStr) then
       mkShadow (CSSParser.parseColor colorStr) (sh_blur s) (offsetX s)
                (offsetY s) (spread s) (enabled s)
     else s)
  = if isEmpty colorStr then sh_color Shadow0 else Color.parse colorStr.
Proof.
  intros numbers colorStr.
  destruct colorStr; destruct numbers as [| ? [| ? [| ? [| ? ?]]]]; reflexivity.
Qed.

(** C5, as stated: the first token of the shape of a colour gives the
    colour.  In [1px red blue] and in [0 0 red blue] the colour is
    blue. *)
Lemma first_colour_token_does_not_win :
  lastOf borderClass isColor (splitSkipEmpty (qs "1px red blue") " ")
    = Some (qs "blue") /\
  List.filter (fun p => isColor (borderClass p))
    (splitSkipEmpty (qs "1px red blue") " ") = [qs "red"; qs "blue"] /\
  b_color (CSSParser.parseBorder (qs "1px red blue")) = Color.parse (qs "blue") /\
  sh_color (CSSParser.parseShadow (qs "0 0 red blue")) = Color.parse (qs "blue") /\
  Color.parse (qs "blue") <> Color.parse (qs "red").
Proof. vm_compute. repeat split; discriminate. Qed.

(** C5, amended.  Each token of a border or shadow shorthand, the
    shorthand being split at blanks, is classified by its shape, and the
    last token of a class decides: the last colour token gives the
    colour, the last length token the width of a border, the last style
    token its style; without a token of a class the default stays. *)
Theorem shorthand_last_token_wins : forall value : QString,
  let parts := splitSkipEmpty value " " in
  b_color (CSSParser.parseBorder value)
    = match lastOf borderClass isColor parts with
      | Some p => Color.parse (trimmed p)
      | None => QCol.transparent
      end /\
  width (CSSParser.parseBorder value)
    = match lastOf borderClass isLength parts with
      | Some p => CSSParser.parsePixels (trimmed p)
      | None => 0
      end /\
  b_style (CSSParser.parseBorder value)
    = match lastOf borderClass isStyle parts with
      | Some p => CSSParser.borderStyleOf (trimmed p)
      | None => StyleSolid
      end /\
  sh_color (CSSParser.parseShadow value)
    = match lastOf shadowClass isColor parts with
      | Some p => if isEmpty (trimmed p) then sh_color Shadow0
                  else Color.parse (trimmed p)
      | None => sh_color Shadow0
      end.
Proof.
  intros value parts.
  destruct (parseBorder_loop parts Border0) as (Hc & Hw & Hs).
  split; [exact Hc | split; [exact Hw | split; [exact Hs |]]].
  unfold CSSParser.parseShadow. fold parts.
  pose proof (parseShadow_loop parts ([], [])) as Hl.
  destruct (fold_left CSSParser.shadowPart parts ([], [])) as [numbers colorStr].
  rewrite parseShadow_color. simpl in Hl. rewrite Hl.
  destruct (lastOf shadowClass isColor parts); reflexivity.
Qed.


(** ** Strings *)

Lemma eqc_refl : forall c, eqc c c = true.
Proof. intros c. apply Ascii.eqb_refl. Qed.

Lemma eqc_sym : forall a b, eqc a b = eqc b a.
Proof. intros a b. apply Ascii.eqb_sym. Qed.

Lemma eqs_eq : forall a b, eqs a b = true -> a = b.
Proof.
  induction a as [| x a IH]; intros [| y b] H; simpl in H;
    try reflexivity; try discriminate H.
  apply andb_prop in H as [Hx Hab].
  apply Ascii.eqb_eq in Hx. subst y. f_equal. apply IH, Hab.
Qed.

Lemma eqs_refl : forall a, eqs a a = true.
Proof.
  induction a as [| x a IH]; simpl; [reflexivity |].
  now rewrite eqc_refl, IH.
Qed.

(** A string without the separator is one part. *)
Lemma split_without_sep : forall s sep,
  contains s sep = false -> split s sep = [s].
Proof.
  induction s as [| c s IH]; intros sep H; simpl in *; [reflexivity |].
  apply orb_false_elim in H as [Hc Hs].
  rewrite eqc_sym, Hc, (IH sep Hs). reflexivity.
Qed.

(** The first part ends at the first separator. *)
Lemma split_at_sep : forall s sep rest,
  contains s sep = false -> split (s ++ sep :: rest) sep = s :: split rest sep.
Proof.
  induction s as [| c s IH]; intros sep rest H; simpl in *.
  - now rewrite eqc_refl.
  - apply orb_false_elim in H as [Hc Hs].
    rewrite eqc_sym, Hc, (IH sep rest Hs). reflexivity.
Qed.

(** [mid] between a prefix and a last character. *)
Lemma mid_inner : forall (prefix body : QString) (c : ascii),
  mid (prefix ++ body ++ [c]) (size prefix)
      (size (prefix ++ body ++ [c]) - (size prefix + 1)) = body.
Proof.
  intros prefix body c. unfold mid, size.
  rewrite !length_app. simpl length.
  replace (Z.of_nat (length prefix + (length body + 1))
           - (Z.of_nat (length prefix) + 1))
    with (Z.of_nat (length body)) by lia.
  destruct (Z.ltb_spec (Z.of_nat (length prefix + (length body + 1)))
                       (Z.of_nat (length prefix))) as [H | _]; [lia |].
  destruct (Z.ltb_spec (Z.of_nat (length prefix)) 0) as [H | _]; [lia |].
  destruct (Z.ltb_spec (Z.of_nat (length body)) 0) as [H | _]; [lia |].
  destruct (Z.ltb_spec (Z.of_nat (length prefix + (length body + 1))
                        - Z.of_nat (length prefix))
                       (Z.of_nat (length body))) as [H | _]; [lia |].
  simpl. rewrite !Nat2Z.id.
  rewrite drop_app_length. apply take_app_length.
Qed.

(** A string that begins and ends with something else than white space
    is its own [trimmed]. *)
Lemma trimmed_id : forall (c d : ascii) (m : QString),
  isSpace c = false -> isSpace d = false ->
  trimmed (c :: m ++ [d]) = c :: m ++ [d].
Proof.
  intros c d m Hc Hd. unfold trimmed. simpl. rewrite Hc.
  simpl. rewrite rev_app_distr. simpl. rewrite Hd.
  simpl. rewrite rev_app_distr, rev_involutive. reflexivity.
Qed.

Lemma trimmed_id1 : forall (c : ascii) (m : QString) (d : ascii),
  isSpace c = false -> isSpace (List.last (c :: m) d) = false ->
  trimmed (c :: m) = c :: m.
Proof.
  intros c m d Hc Hd.
  destruct (exists_last (l := c :: m)) as (m' & e & E); [discriminate |].
  rewrite E in Hd |- *. rewrite last_last in Hd.
  destruct m' as [| c' m'].
  - simpl in *. injection E as -> ->.
    cbv [trimmed dropSpaces rev app]. rewrite Hd.
    cbv [dropSpaces rev app]. rewrite Hd. reflexivity.
  - simpl in E. injection E as -> Em. simpl. apply trimmed_id; assumption.
Qed.

Lemma startsWith_app : forall p s : QString, startsWith (p ++ s) p = true.
Proof.
  induction p as [| c p IH]; intros s; simpl; [reflexivity |].
  now rewrite eqc_refl, IH.
Qed.

(** ** The functional notations of [Color::parse] *)

Lemma split_four : forall r g b a : QString,
  contains r "," = false -> contains g "," = false ->
  contains b "," = false -> contains a "," = false ->
  split (r ++ ","%char :: g ++ ","%char :: b ++ ","%char :: a) "," = [r; g; b; a].
Proof.
  intros r g b a Hr Hg Hb Ha.
  rewrite !split_at_sep by assumption.
  now rewrite split_without_sep.
Qed.

Lemma split_three : forall r g b : QString,
  contains r "," = false -> contains g "," = false ->
  contains b "," = false ->
  split (r ++ ","%char :: g ++ ","%char :: b) "," = [r; g; b].
Proof.
  intros r g b Hr Hg Hb.
  rewrite !split_at_sep by assumption.
  now rewrite split_without_sep.
Qed.

Lemma inner_rgba : forall body : QString,
  mid (qs "rgba(" ++ body ++ [")"%char]) 5
      (size (qs "rgba(" ++ body ++ [")"%char]) - 6) = body.
Proof. intros body. exact (mid_inner (qs "rgba(") body ")"). Qed.

Lemma inner_rgb : forall body : QString,
  mid (qs "rgb(" ++ body ++ [")"%char]) 4
      (size (qs "rgb(" ++ body ++ [")"%char]) - 5) = body.
Proof. intros body. exact (mid_inner (qs "rgb(") body ")"). Qed.

(** [parse] on a text of the shape [rgba(r,g,b,a)]. *)
Lemma parse_rgba_shape : forall str r g b a : QString,
  toLower (trimmed str)
    = qs "rgba(" ++ (r ++ ","%char :: g ++ ","%char :: b ++ ","%char :: a) ++ [")"%char] ->
  contains r "," = false -> contains g "," = false ->
  contains b "," = false -> contains a "," = false ->
  Color.parse str
  = fromRgba (toInt (trimmed r)) (toInt (trimmed g)) (toInt (trimmed b))
             (Color.parseAlpha (trimmed a)).
Proof.
  intros str r g b a Hs Hr Hg Hb Ha.
  unfold Color.parse. rewrite Hs.
  set (body := r ++ ","%char :: g ++ ","%char :: b ++ ","%char :: a).
  assert (H1 : Color.parseRgb (qs "rgba(" ++ body ++ [")"%char]) = None)
    by reflexivity.
  assert (H2 : Color.parseRgba (qs "rgba(" ++ body ++ [")"%char])
               = Some (fromRgba (toInt (trimmed r)) (toInt (trimmed g))
                                (toInt (trimmed b))
                                (Color.parseAlpha (trimmed a)))).
  { unfold Color.parseRgba.
    rewrite startsWith_app.
    rewrite inner_rgba. unfold body. rewrite split_four by assumption.
    reflexivity. }
  rewrite H1, H2. reflexivity.
Qed.

(** [parse] on a text of the shape [rgb(r,g,b)]. *)
Lemma parse_rgb_shape : forall str r g b : QString,
  toLower (trimmed str)
    = qs "rgb(" ++ (r ++ ","%char :: g ++ ","%char :: b) ++ [")"%char] ->
  contains r "," = false -> contains g "," = false ->
  contains b "," = false ->
  Color.parse str
  = fromRgb (toInt (trimmed r)) (toInt (trimmed g)) (toInt (trimmed b)).
Proof.
  intros str r g b Hs Hr Hg Hb.
  unfold Color.parse. rewrite Hs.
  set (body := r ++ ","%char :: g ++ ","%char :: b).
  assert (H1 : Color.parseRgb (qs "rgb(" ++ body ++ [")"%char])
               = Some (fromRgb (toInt (trimmed r)) (toInt (trimmed g))
                               (toInt (trimmed b)))).
  { unfold Color.parseRgb.
    rewrite startsWith_app.
    rewrite inner_rgb. unfold body. rewrite split_three by assumption.
    reflexivity. }
  rewrite H1. reflexivity.
Qed.

(** C6.  In a text of the shape [rgba(r,g,b,a)], [Color::parse] reads the
    alpha by the decimal point: when the alpha text has one, the alpha is
    the integer part of 255 times its value as a double; otherwise it is
    the integer the text denotes.  So the alpha [1] is 1 of 255, [1.0] is
    255 and [0.5] is 127. *)
Theorem rgba_alpha_by_decimal_point :
  (forall str r g b a : QString,
     toLower (trimmed str)
       = qs "rgba(" ++ (r ++ ","%char :: g ++ ","%char :: b ++ ","%char :: a)
         ++ [")"%char] ->
     contains r "," = false -> contains g "," = false ->
     contains b "," = false -> contains a "," = false ->
     Color.parse str
     = fromRgba (toInt (trimmed r)) (toInt (trimmed g)) (toInt (trimmed b))
         (if contains (trimmed a) "."
          then Dbl.toIntTrunc
                 (Dbl.mul (Dbl.toDouble (trimmed a)) (Dbl.ofZ 255))
          else toInt (trimmed a))) /\
  Color.parse (qs "rgba(10,20,30,1)") = fromRgba 10 20 30 1 /\
  Widget.alpha (Color.parse (qs "rgba(10,20,30,1)")) = 1 /\
  Color.parse (qs "rgba(10,20,30,1.0)") = fromRgba 10 20 30 255 /\
  Color.parse (qs "rgba(10,20,30,0.5)") = fromRgba 10 20 30 127 /\
  Color.parse (qs "rgba(10,20,30,128)") = fromRgba 10 20 30 128.
Proof.
  split; [| vm_compute; repeat split].
  intros str r g b a Hs Hr Hg Hb Ha.
  exact (parse_rgba_shape str r g b a Hs Hr Hg Hb Ha).
Qed.

Lemma rgba_alpha_by_decimal_point_witness :
  Color.parse (qs " RGBA(10, 20, 30, 0.25)") = fromRgba 10 20 30 63.
Proof.
  destruct rgba_alpha_by_decimal_point as [H _].
  rewrite (H (qs " RGBA(10, 20, 30, 0.25)") (qs "10") (qs " 20") (qs " 30")
             (qs " 0.25"));
    vm_compute; reflexivity.
Defined.

(** C10.  The helper [parseColor] of the header and [Color::parse] are
    meant to read the same notations; on a fractional alpha, on [hsl(],
    on a text in upper case and on the name [green] they differ. *)
Theorem header_parseColor_differs_from_parse :
  Types.parseColor (qs "rgba(0,0,0,0.5)") = fromRgba 0 0 0 0 /\
  Color.parse (qs "rgba(0,0,0,0.5)") = fromRgba 0 0 0 127 /\
  Types.parseColor (qs "rgba(0,0,0,0.5)") <> Color.parse (qs "rgba(0,0,0,0.5)") /\
  Types.parseColor (qs "hsl(120,50%,50%)") = Invalid /\
  Color.parse (qs "hsl(120,50%,50%)") = fromHsl 120 127 127 /\
  Types.parseColor (qs "RGB(1,2,3)") = Invalid /\
  Color.parse (qs "RGB(1,2,3)") = fromRgb 1 2 3 /\
  Types.parseColor (qs "green") = fromRgb 0 128 0 /\
  Color.parse (qs "green") = fromRgb 0 255 0.
Proof. vm_compute. repeat split; discriminate. Qed.


(** ** Colours as texts and back *)

Lemma in_bytes : forall n, 0 <= n <= 255 -> In n bytes.
Proof.
  intros n Hn. unfold bytes. apply in_map_iff.
  exists (Z.to_nat n). split; [lia |]. apply in_seq. lia.
Qed.

Lemma decimalOk_bytes : forallb decimalOk bytes = true.
Proof. vm_compute. reflexivity. Qed.

Lemma hexOk_bytes : forallb hexOk bytes = true.
Proof. vm_compute. reflexivity. Qed.

(** The decimal text of a component: read back, it is the component; it
    has no white space at its ends, no comma, no point and no capital. *)
Lemma decimal_text : forall n, 0 <= n <= 255 ->
  toInt (number n) = n /\
  trimmed (" "%char :: number n) = number n /\
  trimmed (number n) = number n /\
  contains (number n) "," = false /\
  contains (number n) "." = false /\
  toLower (number n) = number n.
Proof.
  intros n Hn.
  pose proof (proj1 (forallb_forall _ _) decimalOk_bytes n (in_bytes n Hn)) as H.
  unfold decimalOk in H.
  repeat (apply andb_prop in H as [H ?]).
  repeat split;
    first [ apply eqs_eq; assumption | apply Z.eqb_eq; assumption
          | apply negb_true_iff; assumption ].
Qed.

(** The two hexadecimal digits of a component. *)
Lemma hex_text : forall n, 0 <= n <= 255 ->
  exists c1 c2, hexPadded n 2 = [c1; c2] /\
                0 <= h2i c1 /\ 0 <= h2i c2 /\ h2i c1 * 16 + h2i c2 = n.
Proof.
  intros n Hn.
  pose proof (proj1 (forallb_forall _ _) hexOk_bytes n (in_bytes n Hn)) as H.
  unfold hexOk in H.
  destruct (hexPadded n 2) as [| c1 [| c2 [| ? ?]]]; try discriminate H.
  exists c1, c2.
  repeat (apply andb_prop in H as [H ?]).
  repeat split; first [apply Z.leb_le; assumption | apply Z.eqb_eq; assumption].
Qed.

Lemma qt_div_257_range : forall x, 0 <= x <= 65535 -> 0 <= qt_div_257 x <= 255.
Proof.
  intros x Hx. unfold qt_div_257. rewrite !Z.shiftr_div_pow2 by lia.
  change (2 ^ 8) with 256. Z.div_mod_to_equations. lia.
Qed.

Lemma qt_div_257_exact : forall v, 0 <= v <= 255 -> qt_div_257 (v * 257) = v.
Proof.
  intros v Hv. unfold qt_div_257. rewrite !Z.shiftr_div_pow2 by lia.
  change (2 ^ 8) with 256. Z.div_mod_to_equations. lia.
Qed.

Lemma inByte_true : forall x, 0 <= x <= 255 -> inByte x = true.
Proof. intros x Hx. unfold inByte. apply andb_true_intro. lia. Qed.

Lemma fromRgba_bytes : forall r g b a,
  0 <= r <= 255 -> 0 <= g <= 255 -> 0 <= b <= 255 -> 0 <= a <= 255 ->
  fromRgba r g b a = Rgb (a * 257) (r * 257) (g * 257) (b * 257).
Proof.
  intros r g b a Hr Hg Hb Ha. unfold fromRgba.
  now rewrite !inByte_true by assumption.
Qed.

Lemma toLower_app : forall a b, toLower (a ++ b) = toLower a ++ toLower b.
Proof. intros a b. apply map_app. Qed.

(** The text [rgba(r, g, b, a)] of four components is read as them. *)
Lemma parse_rgba_text : forall r g b a,
  0 <= r <= 255 -> 0 <= g <= 255 -> 0 <= b <= 255 -> 0 <= a <= 255 ->
  Color.parse (qs "rgba(" ++ number r ++ qs ", " ++ number g ++ qs ", "
               ++ number b ++ qs ", " ++ number a ++ qs ")")
  = fromRgba r g b a.
Proof.
  intros r g b a Hr Hg Hb Ha.
  destruct (decimal_text r Hr) as (Ir & _ & Tr & Cr & _ & Lr).
  destruct (decimal_text g Hg) as (Ig & Tg & _ & Cg & _ & Lg).
  destruct (decimal_text b Hb) as (Ib & Tb & _ & Cb & _ & Lb).
  destruct (decimal_text a Ha) as (Ia & Ta & _ & Ca & Pa & La).
  set (text := qs "rgba(" ++ _).
  assert (Eshape : text = qs "rgba("
            ++ (number r ++ ","%char :: (" "%char :: number g)
                ++ ","%char :: (" "%char :: number b)
                ++ ","%char :: (" "%char :: number a)) ++ [")"%char]).
  { subst text. cbn [qs list_ascii_of_string].
    repeat first [rewrite <- app_assoc | rewrite <- app_comm_cons].
    reflexivity. }
  rewrite (parse_rgba_shape text (number r) (" "%char :: number g)
             (" "%char :: number b) (" "%char :: number a)).
  - rewrite Tr, Tg, Tb, Ta, Ir, Ig, Ib.
    unfold Color.parseAlpha. now rewrite Pa, Ia.
  - rewrite <- Eshape.
    assert (Tt : trimmed text = text).
    { rewrite Eshape.
      change (qs "rgba(" ++ ?m ++ [")"%char])
        with ("r"%char :: (qs "gba(" ++ m) ++ [")"%char]).
      apply trimmed_id; reflexivity. }
    rewrite Tt. subst text. rewrite !toLower_app, Lr, Lg, Lb, La.
    reflexivity.
  - exact Cr.
  - simpl. exact Cg.
  - simpl. exact Cb.
  - simpl. exact Ca.
Qed.

(** The text [rgb(r, g, b)] of three components is read as them. *)
Lemma parse_rgb_text : forall r g b,
  0 <= r <= 255 -> 0 <= g <= 255 -> 0 <= b <= 255 ->
  Color.parse (qs "rgb(" ++ number r ++ qs ", " ++ number g ++ qs ", "
               ++ number b ++ qs ")")
  = fromRgb r g b.
Proof.
  intros r g b Hr Hg Hb.
  destruct (decimal_text r Hr) as (Ir & _ & Tr & Cr & _ & Lr).
  destruct (decimal_text g Hg) as (Ig & Tg & _ & Cg & _ & Lg).
  destruct (decimal_text b Hb) as (Ib & Tb & _ & Cb & _ & Lb).
  set (text := qs "rgb(" ++ _).
  assert (Eshape : text = qs "rgb("
            ++ (number r ++ ","%char :: (" "%char :: number g)
                ++ ","%char :: (" "%char :: number b)) ++ [")"%char]).
  { subst text. cbn [qs list_ascii_of_string].
    repeat first [rewrite <- app_assoc | rewrite <- app_comm_cons].
    reflexivity. }
  rewrite (parse_rgb_shape text (number r) (" "%char :: number g)
             (" "%char :: number b)).
  - now rewrite Tr, Tg, Tb, Ir, Ig, Ib.
  - rewrite <- Eshape.
    assert (Tt : trimmed text = text).
    { rewrite Eshape.
      change (qs "rgb(" ++ ?m ++ [")"%char])
        with ("r"%char :: (qs "gb(" ++ m) ++ [")"%char]).
      apply trimmed_id; reflexivity. }
    rewrite Tt. subst text. rewrite !toLower_app, Lr, Lg, Lb.
    reflexivity.
  - exact Cr.
  - simpl. exact Cg.
  - simpl. exact Cb.
Qed.

Lemma dropSpaces_keeps_last : forall (m : QString) (c : ascii),
  isSpace c = false -> exists m', dropSpaces (m ++ [c]) = m' ++ [c].
Proof.
  induction m as [| x m IH]; intros c Hc; simpl.
  - rewrite Hc. now exists [].
  - destruct (isSpace x); [apply IH, Hc | now exists (x :: m)].
Qed.

(** A text that begins with [#] is handed to [QColor] as it is. *)
Lemma parse_hash : forall rest : QString,
  Color.parse ("#"%char :: rest) = fromString ("#"%char :: rest).
Proof.
  intros rest. unfold Color.parse.
  assert (E : exists rest', toLower (trimmed ("#"%char :: rest))
                            = "#"%char :: rest').
  { unfold trimmed. cbn [dropSpaces].
    replace (isSpace "#") with false by reflexivity.
    cbn [rev]. destruct (dropSpaces_keeps_last (rev rest) "#" eq_refl)
      as (m' & Em).
    rewrite Em, rev_app_distr. cbn [rev app]. now eexists. }
  destruct E as (rest' & ->). reflexivity.
Qed.

Lemma hex2int_two : forall (c1 c2 : ascii) (rest : QString),
  0 <= h2i c1 -> 0 <= h2i c2 ->
  hex2int (c1 :: c2 :: rest) 2 0 = h2i c1 * 16 + h2i c2.
Proof.
  intros c1 c2 rest H1 H2. cbn [hex2int].
  generalize dependent (h2i c2). generalize dependent (h2i c1).
  intros x1 H1 x2 H2.
  destruct (Z.ltb_spec x1 0); [lia |].
  destruct (Z.ltb_spec x2 0); [lia |]. lia.
Qed.

(** The text [#rrggbb] of three components is read as them. *)
Lemma parse_hex_text : forall r g b,
  0 <= r <= 255 -> 0 <= g <= 255 -> 0 <= b <= 255 ->
  Color.parse ("#"%char :: hexPadded r 2 ++ hexPadded g 2 ++ hexPadded b 2)
  = fromRgb r g b.
Proof.
  intros r g b Hr Hg Hb.
  destruct (hex_text r Hr) as (r1 & r2 & -> & Hr1 & Hr2 & Er).
  destruct (hex_text g Hg) as (g1 & g2 & -> & Hg1 & Hg2 & Eg).
  destruct (hex_text b Hb) as (b1 & b2 & -> & Hb1 & Hb2 & Eb).
  rewrite parse_hash. cbn [app].
  unfold fromString, get_hex_rgb, hexAt.
  replace (eqc "#" "#") with true by reflexivity.
  replace (13 <? size ["#"%char; r1; r2; g1; g2; b1; b2]) with false
    by reflexivity.
  cbn [length skipn].
  change (drop 0 ?l) with l.
  change (drop 2 [r1; r2; g1; g2; b1; b2]) with [g1; g2; b1; b2].
  change (drop 4 [r1; r2; g1; g2; b1; b2]) with [b1; b2].
  rewrite !hex2int_two by assumption. rewrite Er, Eg, Eb.
  unfold fromRgb. rewrite fromRgba_bytes by (assumption || lia).
  unfold inUShort, USHRT_MAX.
  replace ((0 <=? r * 257) && (r * 257 <=? 65535)) with true
    by (symmetry; apply andb_true_intro; lia).
  replace ((0 <=? g * 257) && (g * 257 <=? 65535)) with true
    by (symmetry; apply andb_true_intro; lia).
  replace ((0 <=? b * 257) && (b * 257 <=? 65535)) with true
    by (symmetry; apply andb_true_intro; lia).
  reflexivity.
Qed.

(** Every colour [parse] gives has 16-bit components. *)
Lemma inUShort_scaled : forall x, inByte x = true -> inUShort (x * 257) = true.
Proof.
  intros x H. unfold inByte in H. apply andb_prop in H as [H1 H2].
  apply Z.leb_le in H1, H2. unfold inUShort, USHRT_MAX.
  apply andb_true_intro. split; apply Z.leb_le; lia.
Qed.

Lemma fromRgba_wellFormed : forall r g b a,
  wellFormed (fromRgba r g b a) = true.
Proof.
  intros r g b a. unfold fromRgba.
  destruct (inByte r && inByte g && inByte b && inByte a) eqn:E;
    [| reflexivity].
  apply andb_prop in E as [E Ha]. apply andb_prop in E as [E Hb].
  apply andb_prop in E as [Hr Hg].
  simpl. rewrite !inUShort_scaled by assumption. reflexivity.
Qed.

Lemma fromHsl_wellFormed : forall h s l, wellFormed (fromHsl h s l) = true.
Proof. intros h s l. unfold fromHsl. destruct (_ || _); reflexivity. Qed.

Lemma fromString_wellFormed : forall name, wellFormed (fromString name) = true.
Proof.
  intros name. unfold fromString.
  destruct name as [| c rest]; [reflexivity |].
  destruct (eqc c "#").
  - destruct (13 <? _); [reflexivity |].
    unfold get_hex_rgb.
    destruct (match length rest with
              | 3%nat | 6%nat | 8%nat | 9%nat | 12%nat | _ => _
              end) as [[[a r] g] b].
    destruct (inUShort r && inUShort g && inUShort b && inUShort a) eqn:E;
      [| reflexivity].
    simpl. apply andb_prop in E as [E Ha]. apply andb_prop in E as [E Hb].
    apply andb_prop in E as [Hr Hg]. now rewrite Ha, Hr, Hg, Hb.
  - destruct (255 <? _); [reflexivity |].
    unfold get_named_rgb.
    destruct (eqs _ _); [apply fromRgba_wellFormed |].
    destruct (lookupName _ _); [apply fromRgba_wellFormed | reflexivity].
Qed.

Lemma parseNamed_in : forall tbl s c,
  Color.parseNamed tbl s = Some c -> In c (map snd tbl).
Proof.
  induction tbl as [| [k v] tbl IH]; intros s c H; simpl in *;
    [discriminate H |].
  destruct (eqs s (qs k)); [left; congruence | right; eapply IH, H].
Qed.

Lemma namedColors_wellFormed :
  forallb wellFormed (map snd Color.namedColors) = true.
Proof. vm_compute. reflexivity. Qed.

Lemma parse_wellFormed : forall str, wellFormed (Color.parse str) = true.
Proof.
  intros str. unfold Color.parse.
  set (s := toLower (trimmed str)).
  destruct (Color.parseRgb s) as [c |] eqn:E1.
  { unfold Color.parseRgb in E1.
    destruct (startsWith s _); [| discriminate E1].
    destruct (split _ _) as [| ? [| ? [| ? ?]]]; try discriminate E1.
    injection E1 as <-. apply fromRgba_wellFormed. }
  destruct (Color.parseRgba s) as [c |] eqn:E2.
  { unfold Color.parseRgba in E2.
    destruct (startsWith s _); [| discriminate E2].
    destruct (split _ _) as [| ? [| ? [| ? [| ? ?]]]]; try discriminate E2.
    injection E2 as <-. apply fromRgba_wellFormed. }
  destruct (Color.parseHsl s) as [c |] eqn:E3.
  { unfold Color.parseHsl in E3.
    destruct (startsWith s _); [| discriminate E3].
    destruct (split _ _) as [| ? [| ? [| ? ?]]]; try discriminate E3.
    injection E3 as <-. apply fromHsl_wellFormed. }
  destruct (Color.parseNamed Color.namedColors s) as [c |] eqn:E4.
  { apply parseNamed_in in E4.
    exact (proj1 (forallb_forall _ _) namedColors_wellFormed c E4). }
  apply fromString_wellFormed.
Qed.

(** C7, as stated: every valid colour text comes back through its
    formatter.  An [hsl(] text loses a hundredth of its saturation and
    lightness through [toHsl], and a hexadecimal text with an alpha loses
    the alpha through [toHex]. *)
Lemma hsl_text_does_not_come_back :
  Color.toHsl (Color.parse (qs "hsl(120,50%,50%)"))
    = Some (qs "hsl(120, 49%, 49%)") /\
  getHsl (Color.parse (qs "hsl(120,50%,50%)")) = Some (120, 127, 127) /\
  getHsl (Color.parse (qs "hsl(120, 49%, 49%)")) = Some (120, 124, 124) /\
  ~ (exists text,
       Color.toHsl (Color.parse (qs "hsl(120,50%,50%)")) = Some text /\
       getHsl (Color.parse text)
       = getHsl (Color.parse (qs "hsl(120,50%,50%)"))) /\
  ~ comesBack (fun c => Color.toHex c false) (qs "#80ff0000").
Proof.
  split; [vm_compute; reflexivity |].
  split; [vm_compute; reflexivity |].
  split; [vm_compute; reflexivity |].
  split.
  - intros (text & Ht & Hg).
    assert (E : Color.toHsl (Color.parse (qs "hsl(120,50%,50%)"))
                = Some (qs "hsl(120, 49%, 49%)")) by (vm_compute; reflexivity).
    rewrite E in Ht. injection Ht as <-.
    vm_compute in Hg. discriminate Hg.
  - intros (text & Ht & Hg).
    assert (E : Color.toHex (Color.parse (qs "#80ff0000")) false
                = Some (qs "#ff0000")) by (vm_compute; reflexivity).
    rewrite E in Ht. injection Ht as <-.
    vm_compute in Hg. discriminate Hg.
Qed.

(** C7, amended.  A text that [parse] reads as a colour of the RGB model
    (the hexadecimal, [rgb(], [rgba(] and named notations) comes back
    through [toRgba] with the same alpha, red, green and blue; when the
    colour is opaque it comes back through [toRgb] and [toHex] as
    well. *)
Theorem rgb_text_comes_back : forall (source : QString) (a r g b : Z),
  Color.parse source = Rgb a r g b ->
  comesBack Color.toRgba source /\
  (qt_div_257 a = 255 ->
   comesBack Color.toRgb source /\
   comesBack (fun c => Color.toHex c false) source).
Proof.
  intros source a r g b Hp.
  pose proof (parse_wellFormed source) as Hwf. rewrite Hp in Hwf.
  simpl in Hwf. apply andb_prop in Hwf as [Hwf Wb].
  apply andb_prop in Hwf as [Hwf Wg]. apply andb_prop in Hwf as [Wa Wr].
  assert (Hu : forall x, inUShort x = true -> 0 <= qt_div_257 x <= 255).
  { intros x Hx. apply qt_div_257_range.
    unfold inUShort, USHRT_MAX in Hx. apply andb_prop in Hx as [H1 H2].
    apply Z.leb_le in H1, H2. lia. }
  pose proof (Hu a Wa) as Ha. pose proof (Hu r Wr) as Hr.
  pose proof (Hu g Wg) as Hg. pose proof (Hu b Wb) as Hb.
  unfold comesBack. rewrite Hp.
  split; [| intros Hopaque; split].
  - eexists. split; [reflexivity |].
    rewrite parse_rgba_text, fromRgba_bytes by assumption.
    cbn [argb]. now rewrite !qt_div_257_exact by assumption.
  - eexists. split; [reflexivity |].
    rewrite parse_rgb_text by assumption.
    unfold fromRgb. rewrite fromRgba_bytes by (assumption || lia).
    cbn [argb]. rewrite !qt_div_257_exact by (assumption || lia).
    now rewrite Hopaque.
  - unfold Color.toHex. cbn [argb].
    replace (false && _) with false by reflexivity.
    eexists. split; [reflexivity |].
    rewrite parse_hex_text by assumption.
    unfold fromRgb. rewrite fromRgba_bytes by (assumption || lia).
    cbn [argb]. rewrite !qt_div_257_exact by (assumption || lia).
    now rewrite Hopaque.
Qed.

Lemma rgb_text_comes_back_witness :
  comesBack Color.toRgba (qs "rgba(10, 20, 30, 0.5)") /\
  comesBack (fun c => Color.toHex c false) (qs "Orange").
Proof.
  split.
  - exact (proj1 (rgb_text_comes_back (qs "rgba(10, 20, 30, 0.5)")
                    (127 * 257) (10 * 257) (20 * 257) (30 * 257) eq_refl)).
  - exact (proj2 (proj2 (rgb_text_comes_back (qs "Orange") 65535 65535 42405 0
                           eq_refl) eq_refl)).
Defined.


(** ** Animations *)

(** *** What a step writes *)

Lemma fired_log : forall i e w,
  fired i (log e w) = (fired i w + (if isFinishedOf i e then 1 else 0))%nat.
Proof.
  intros i e w. unfold fired, log. cbn [events withAnim].
  rewrite List.filter_app, length_app. cbn [List.filter].
  destruct (isFinishedOf i e); reflexivity.
Qed.

Lemma emitFinished_core : forall a w,
  m_initialized (emitFinished a w) = m_initialized w /\
  objects (emitFinished a w) = objects w /\
  nextId (emitFinished a w) = nextId w.
Proof.
  intros a w. unfold emitFinished, runSlot.
  destruct (a_finished a) as [sl |]; [| repeat split].
  destruct (sl_signal sl); destruct (sl_callback sl && _); repeat split.
Qed.

Lemma fired_emitFinished : forall i a w,
  fired i (emitFinished a w) = (fired i w + firesFor i a)%nat.
Proof.
  intros i a w. unfold emitFinished, firesFor, runSlot.
  destruct (a_finished a) as [sl |]; [| lia].
  destruct (sl_signal sl); destruct (sl_callback sl && _);
    rewrite ?fired_log; cbn [isFinishedOf];
    change (fired i (withAnim ?w _ _ _ _ (events ?w'))) with (fired i w');
    rewrite ?fired_log; cbn [isFinishedOf];
    destruct (Nat.eqb (a_id a) i); lia.
Qed.

Lemma m_animations_emitFinished : forall a w,
  m_animations (emitFinished a w)
  = match a_finished a with
    | Some sl => delete (sl_name sl) (m_animations w)
    | None => m_animations w
    end.
Proof.
  intros a w. unfold emitFinished, runSlot.
  destruct (a_finished a) as [sl |]; [| reflexivity].
  destruct (sl_signal sl); destruct (sl_callback sl && _); reflexivity.
Qed.

Lemma emits_core : forall l w,
  m_initialized (fold_left (fun w a => emitFinished a w) l w)
    = m_initialized w /\
  objects (fold_left (fun w a => emitFinished a w) l w) = objects w /\
  nextId (fold_left (fun w a => emitFinished a w) l w) = nextId w.
Proof.
  induction l as [| a l IH]; intros w; cbn [fold_left]; [repeat split |].
  destruct (IH (emitFinished a w)) as (H1 & H2 & H3).
  destruct (emitFinished_core a w) as (E1 & E2 & E3).
  rewrite H1, H2, H3, E1, E2, E3. repeat split.
Qed.

Lemma fired_emits : forall i l w,
  fired i (fold_left (fun w a => emitFinished a w) l w)
  = (fired i w + firesAmong i l)%nat.
Proof.
  intros i. induction l as [| a l IH]; intros w; cbn [fold_left firesAmong fold_right];
    [lia |].
  rewrite IH, fired_emitFinished. fold (firesAmong i l). lia.
Qed.

Lemma firesAmong_other : forall i l,
  Forall (fun a => a_id a <> i) l -> firesAmong i l = 0%nat.
Proof.
  intros i l H. induction H as [| a l Ha _ IH]; [reflexivity |].
  cbn [firesAmong fold_right]. fold (firesAmong i l). rewrite IH.
  unfold firesFor. destruct (a_finished a); [| reflexivity].
  destruct (Nat.eqb_spec (a_id a) i); [contradiction | reflexivity].
Qed.


Lemma advance_same : forall dt a,
  a_id (fst (advance dt a)) = a_id a /\
  a_finished (fst (advance dt a)) = a_finished a /\
  a_duration (fst (advance dt a)) = a_duration a /\
  a_loopCount (fst (advance dt a)) = a_loopCount a.
Proof.
  intros dt a. unfold advance, setCurrentTime.
  destruct (a_running a); repeat split.
Qed.



Lemma advance_good : forall dt a,
  goodObject a -> goodObject (fst (advance dt a)).
Proof.
  intros dt a Hg. unfold advance.
  destruct (a_running a) eqn:Hr; [| exact Hg].
  destruct Hg as (Hd & Ht & Hk).
  unfold setCurrentTime, totalDuration. cbn [fst].
  unfold goodObject. cbn [a_duration a_time a_loopCount a_running a_finished].
  split; [exact Hd |].
  destruct Hk as [(Hl & Hlt) | (Hl & Hs)].
  - specialize (Hlt Hr). rewrite Hl.
    destruct (Z.leb_spec (a_duration a) 0) as [H | _]; [lia |].
    replace (1 <? 0) with false by reflexivity. rewrite Z.mul_1_r.
    destruct (Z.eqb_spec (a_duration a) (-1)) as [H | _]; [lia |].
    split; [lia |]. left. split; [reflexivity |].
    destruct (Z.eqb_spec (Z.min (a_duration a) (Z.max (a_time a + dt) 0))
                         (a_duration a)) as [E | E];
      [discriminate | intros _; lia].
  - split; [| right; split; assumption].
    rewrite Hl. replace (-1 <? 0) with true by reflexivity.
    repeat match goal with
           | |- context [Z.leb ?x ?y] => destruct (Z.leb_spec x y)
           | |- context [Z.eqb ?x ?y] => destruct (Z.eqb_spec x y)
           end; lia.
Qed.

(** An object that runs once and has not reached its end emits nothing
    when it is stopped. *)
Lemma emitsOnStop_once : forall a,
  a_loopCount a = 1 -> 0 <= a_time a < a_duration a -> emitsOnStop a = false.
Proof.
  intros a Hl Ht. unfold emitsOnStop, currentTime, currentLoop.
  rewrite Hl.
  destruct (Z.leb_spec (a_duration a) 0) as [H | _]; [lia |].
  rewrite Z.div_small, Z.mod_small by lia.
  replace (0 =? 1) with false by reflexivity.
  replace (1 <? 0) with false by reflexivity.
  destruct (Z.eqb_spec (a_duration a) (-1)) as [H | _]; [lia |].
  destruct (Z.eqb_spec (a_time a * (0 + 1)) (a_duration a * 1)) as [H | _];
    [lia | reflexivity].
Qed.

(** Stopping a good object runs no slot. *)
Lemma stop_fires_nothing : forall i a,
  goodObject a -> a_running a && emitsOnStop a = true -> firesFor i a = 0%nat.
Proof.
  intros i a (Hd & Ht & [(Hl & Hlt) | (Hl & Hs)]) H.
  - apply andb_prop in H as [Hr He].
    rewrite (emitsOnStop_once a Hl) in He; [discriminate He |].
    split; [exact Ht | exact (Hlt Hr)].
  - unfold firesFor. now rewrite Hs.
Qed.

Lemma stopAndDelete_core : forall a w,
  m_initialized (stopAndDelete a w) = m_initialized w /\
  objects (stopAndDelete a w) = deleteObject (a_id a) (objects w) /\
  nextId (stopAndDelete a w) = nextId w.
Proof.
  intros a w. unfold stopAndDelete.
  destruct (a_running a && emitsOnStop a); [| repeat split].
  destruct (emitFinished_core a
              (withAnim w (visible w) (m_animations w)
                 (deleteObject (a_id a) (objects w)) (nextId w) (events w)))
    as (H1 & H2 & H3).
  rewrite H1, H2, H3. repeat split.
Qed.

Lemma fired_stopAndDelete : forall i a w,
  goodObject a -> fired i (stopAndDelete a w) = fired i w.
Proof.
  intros i a w Hg. unfold stopAndDelete.
  destruct (a_running a && emitsOnStop a) eqn:E; [| reflexivity].
  rewrite fired_emitFinished, (stop_fires_nothing i a Hg E).
  unfold fired. cbn [events withAnim]. lia.
Qed.

Lemma findObject_some : forall id objs a,
  findObject id objs = Some a -> In a objs /\ a_id a = id.
Proof.
  intros id objs a H. unfold findObject in H.
  apply find_some in H as [Hin He]. split; [exact Hin |].
  now apply Nat.eqb_eq.
Qed.




Lemma deleteObject_incl : forall id objs a,
  In a (deleteObject id objs) -> In a objs.
Proof.
  intros id objs a H. unfold deleteObject in H.
  now apply List.filter_In in H.
Qed.

Lemma NoDup_map_filter : forall (A B : Type) (f : A -> B) (p : A -> bool) l,
  List.NoDup (map f l) -> List.NoDup (map f (List.filter p l)).
Proof.
  intros A B f p l. induction l as [| x l IH]; intros H; [exact H |].
  cbn [map] in H. apply List.NoDup_cons_iff in H as [Hx Hl].
  cbn [List.filter]. destruct (p x); [| apply IH, Hl].
  cbn [map]. apply List.NoDup_cons; [| apply IH, Hl].
  intros Hin. apply Hx. apply List.in_map_iff in Hin as (y & Ey & Hy).
  apply List.filter_In in Hy as [Hy _]. rewrite <- Ey. now apply List.in_map.
Qed.

(** *** The animation on the same property *)

Lemma emitFinished_none : forall a w,
  a_finished a = None -> emitFinished a w = w.
Proof. intros a w H. unfold emitFinished. now rewrite H. Qed.

(** A good object that emits [finished] when it is stopped is an endless
    one, which has no slot. *)
Lemma good_stop_slotless : forall a,
  goodObject a -> a_running a && emitsOnStop a = true -> a_finished a = None.
Proof.
  intros a (Hd & Ht & [(Hl & Hlt) | (Hl & Hs)]) H; [| exact Hs].
  apply andb_prop in H as [Hr He].
  rewrite (emitsOnStop_once a Hl) in He; [discriminate He |].
  split; [exact Ht | exact (Hlt Hr)].
Qed.

Lemma emits_slotless : forall l w,
  Forall (fun a => a_finished a = None) l ->
  fold_left (fun w a => emitFinished a w) l w = w.
Proof.
  induction l as [| a l IH]; intros w H; cbn [fold_left]; [reflexivity |].
  apply List.Forall_cons_iff in H as [Ha Hl].
  rewrite (emitFinished_none a w Ha). apply IH, Hl.
Qed.

(** Among good objects, stopping the animation on the same property
    writes the objects and nothing else. *)
Lemma stopSameProperty_good : forall property w,
  Forall goodObject (objects w) ->
  stopSameProperty property w
  = withAnim w (visible w) (m_animations w)
      (map (stopOther property) (objects w)) (nextId w) (events w).
Proof.
  intros property w Hg. unfold stopSameProperty. apply emits_slotless.
  apply List.Forall_forall. intros a Ha.
  apply List.filter_In in Ha as [Hin Hc].
  apply andb_prop in Hc as [Hc He]. apply andb_prop in Hc as [Hr _].
  apply good_stop_slotless.
  - exact (proj1 (List.Forall_forall _ _) Hg a Hin).
  - now rewrite Hr, He.
Qed.

Lemma stopOther_same : forall property a,
  a_id (stopOther property a) = a_id a /\
  a_finished (stopOther property a) = a_finished a /\
  a_duration (stopOther property a) = a_duration a /\
  a_loopCount (stopOther property a) = a_loopCount a /\
  a_time (stopOther property a) = a_time a.
Proof.
  intros property a. unfold stopOther, stopped.
  destruct (a_running a && _); repeat split.
Qed.

Lemma stopOther_running : forall property a,
  a_running (stopOther property a) = true ->
  a_running a = true /\ stopOther property a = a.
Proof.
  intros property a. unfold stopOther, stopped.
  destruct (a_running a && _) eqn:E; cbn [a_running];
    [discriminate | auto].
Qed.

Lemma stopOther_good : forall property a,
  goodObject a -> goodObject (stopOther property a).
Proof.
  intros property a Hg. unfold stopOther.
  destruct (a_running a && _); [| exact Hg].
  destruct Hg as (Hd & Ht & Hk). unfold goodObject, stopped.
  cbn [a_duration a_time a_loopCount a_running a_finished].
  split; [exact Hd | split; [exact Ht |]].
  destruct Hk as [(Hl & _) | Hk]; [left | right; exact Hk].
  split; [exact Hl | intros H; discriminate H].
Qed.

Lemma map_id_stopOther : forall property objs,
  map a_id (map (stopOther property) objs) = map a_id objs.
Proof.
  intros property objs. rewrite map_map. apply map_ext.
  intros a. apply stopOther_same.
Qed.

(** *** The invariant *)

Lemma fired_same : forall i w w', events w' = events w -> fired i w' = fired i w.
Proof. intros i w w' H. unfold fired. now rewrite H. Qed.

Lemma wf_same : forall w w',
  m_initialized w' = m_initialized w -> objects w' = objects w ->
  nextId w' = nextId w -> events w' = events w -> wf w -> wf w'.
Proof.
  intros w w' Hi Ho Hn He [W1 W2 W3 W4 W5 W6].
  split; rewrite ?Hi, ?Ho, ?Hn; try assumption.
  - eapply List.Forall_impl; [| exact W5]. intros a H Hr.
    rewrite (fired_same _ w w' He). exact (H Hr).
  - intros id Hid. rewrite (fired_same _ w w' He). exact (W6 id Hid).
Qed.

Lemma wf_create : forall width height, wf (Widget.create width height).
Proof.
  intros. split.
  - reflexivity.
  - apply List.Forall_nil.
  - apply List.NoDup_nil.
  - apply List.Forall_nil.
  - apply List.Forall_nil.
  - intros id _. reflexivity.
Qed.

Lemma NoDup_map_eq : forall (A B : Type) (f : A -> B) l x y,
  List.NoDup (map f l) -> In x l -> In y l -> f x = f y -> x = y.
Proof.
  intros A B f l. induction l as [| z l IH]; intros x y Hnd Hx Hy E;
    [destruct Hx |].
  cbn [map] in Hnd. apply List.NoDup_cons_iff in Hnd as [Hz Hnd].
  destruct Hx as [-> | Hx]; destruct Hy as [-> | Hy].
  - reflexivity.
  - exfalso. apply Hz. rewrite E. now apply List.in_map.
  - exfalso. apply Hz. rewrite <- E. now apply List.in_map.
  - now apply IH.
Qed.

Lemma wf_stopAndDelete : forall a w,
  wf w -> In a (objects w) -> wf (stopAndDelete a w).
Proof.
  intros a w [W1 W2 W3 W4 W5 W6] Hin.
  assert (Hg : goodObject a)
    by exact (proj1 (List.Forall_forall _ _) W4 a Hin).
  destruct (stopAndDelete_core a w) as (C1 & C2 & C3).
  split; rewrite ?C1, ?C2, ?C3.
  - exact W1.
  - apply List.Forall_forall. intros b Hb.
    apply deleteObject_incl in Hb.
    exact (proj1 (List.Forall_forall _ _) W2 b Hb).
  - apply NoDup_map_filter, W3.
  - apply List.Forall_forall. intros b Hb.
    apply deleteObject_incl in Hb.
    exact (proj1 (List.Forall_forall _ _) W4 b Hb).
  - apply List.Forall_forall. intros b Hb Hr.
    apply deleteObject_incl in Hb.
    rewrite fired_stopAndDelete by exact Hg.
    exact (proj1 (List.Forall_forall _ _) W5 b Hb Hr).
  - intros id Hid. rewrite fired_stopAndDelete by exact Hg. exact (W6 id Hid).
Qed.

Lemma wf_stopAnimation : forall name w, wf w -> wf (stopAnimation name w).
Proof.
  intros name w Hw. unfold stopAnimation.
  destruct (m_animations w !! name) as [id |]; [| exact Hw].
  destruct (findObject id (objects w)) as [a |] eqn:E; [| exact Hw].
  apply findObject_some in E as [Hin _].
  eapply wf_same; [| | | | exact (wf_stopAndDelete a w Hw Hin)]; reflexivity.
Qed.

Lemma setCurrentTime_zero : forall id property duration loops slot,
  0 <= duration ->
  loops = 1 \/ (loops = -1 /\ slot = None) ->
  let a := mkAnim id property duration loops 0 true slot in
  a_id (fst (setCurrentTime 0 a)) = id /\
  a_finished (fst (setCurrentTime 0 a)) = slot /\
  a_loopCount (fst (setCurrentTime 0 a)) = loops /\
  a_duration (fst (setCurrentTime 0 a)) = duration /\
  a_time (fst (setCurrentTime 0 a)) = 0 /\
  goodObject (fst (setCurrentTime 0 a)) /\
  a_running (fst (setCurrentTime 0 a)) = negb (snd (setCurrentTime 0 a)) /\
  snd (setCurrentTime 0 a) = (duration =? 0).
Proof.
  intros id property duration loops slot Hd Hk a.
  unfold setCurrentTime, totalDuration, goodObject. subst a.
  cbn [fst snd a_id a_finished a_loopCount a_duration a_time a_running].
  change (Z.max 0 0) with 0.
  destruct (Z.leb_spec duration 0) as [H0 | H0].
  - assert (duration = 0) by lia. subst duration.
    replace (0 <=? 0) with true by reflexivity.
    replace (Z.min 0 0) with 0 by reflexivity.
    replace (0 =? -1) with false by reflexivity.
    replace (0 =? 0) with true by reflexivity.
    repeat split; try lia.
    destruct Hk as [-> | (-> & ->)]; [left | right]; split; try reflexivity.
    intros H; discriminate H.
  - destruct Hk as [-> | (-> & ->)].
    + replace (1 <? 0) with false by reflexivity. rewrite Z.mul_1_r.
      destruct (Z.eqb_spec duration (-1)) as [H | _]; [lia |].
      rewrite Z.min_r by lia.
      destruct (Z.eqb_spec 0 duration) as [H | _]; [lia |].
      destruct (Z.eqb_spec duration 0) as [H | _]; [lia |].
      repeat split; try lia;
        try (left; split; [reflexivity | intros _; lia]).
    + replace (-1 <? 0) with true by reflexivity.
      replace (-1 =? -1) with true by reflexivity.
      replace (0 =? -1) with false by reflexivity.
      destruct (Z.eqb_spec duration 0) as [H | _]; [lia |].
      repeat split; try lia; try (right; split; reflexivity).
Qed.

Lemma setDuration_nonneg : forall d, 0 <= setDuration d.
Proof. intros d. unfold setDuration. destruct (Z.ltb_spec d 0); lia. Qed.

Lemma firesFor_other : forall i a, a_id a <> i -> firesFor i a = 0%nat.
Proof.
  intros i a H. unfold firesFor. destruct (a_finished a); [| reflexivity].
  destruct (Nat.eqb_spec (a_id a) i); [contradiction | reflexivity].
Qed.

(** Among good objects, [startAnimation] stops the animation on the
    property, adds the new object and runs its slot at once when there
    is no duration. *)
Lemma startAnimation_good : forall name property duration loops slot w,
  Forall goodObject (objects w) ->
  startAnimation name property duration loops slot w
  = let a := setCurrentTime 0
               (mkAnim (nextId w) property (setDuration duration) loops 0
                       true slot) in
    let w1 := withAnim w (visible w) (<[name := nextId w]> (m_animations w))
                (map (stopOther property) (objects w) ++ [fst a])
                (S (nextId w)) (events w) in
    if snd a then emitFinished (fst a) w1 else w1.
Proof.
  intros name property duration loops slot w Hg. unfold startAnimation.
  rewrite stopSameProperty_good by exact Hg.
  destruct (setCurrentTime 0 _) as [b e]. reflexivity.
Qed.

(** What [startAnimation] leaves: the new object at the end of the
    objects, the next identifier, and the slot run at once when there is
    no duration. *)
Lemma startAnimation_core : forall name property duration loops slot w,
  let a' := fst (setCurrentTime 0
                   (mkAnim (nextId w) property (setDuration duration) loops 0
                           true slot)) in
  let atEnd := setDuration duration =? 0 in
  loops = 1 \/ (loops = -1 /\ slot = None) ->
  Forall goodObject (objects w) ->
  m_initialized (startAnimation name property duration loops slot w)
    = m_initialized w /\
  objects (startAnimation name property duration loops slot w)
    = map (stopOther property) (objects w) ++ [a'] /\
  nextId (startAnimation name property duration loops slot w)
    = S (nextId w) /\
  (forall i, fired i (startAnimation name property duration loops slot w)
             = (fired i w + if atEnd then firesFor i a' else 0)%nat) /\
  m_animations (startAnimation name property duration loops slot w)
    = (if atEnd
       then match slot with
            | Some sl => delete (sl_name sl) (<[name := nextId w]> (m_animations w))
            | None => <[name := nextId w]> (m_animations w)
            end
       else <[name := nextId w]> (m_animations w)).
Proof.
  intros name property duration loops slot w a' atEnd Hk Hg.
  destruct (setCurrentTime_zero (nextId w) property (setDuration duration)
              loops slot (setDuration_nonneg duration) Hk)
    as (Hid & Hfin & _ & _ & _ & _ & _ & Hend).
  rewrite startAnimation_good by exact Hg. cbv zeta.
  destruct (setCurrentTime 0 _) as [b e] eqn:E.
  cbn [fst snd] in *. subst a' atEnd. rewrite <- Hend.
  destruct e.
  - match goal with
    | |- context [emitFinished b ?w0] =>
        destruct (emitFinished_core b w0) as (C1 & C2 & C3);
        rewrite C1, C2, C3;
        pose proof (m_animations_emitFinished b w0) as C4; rewrite C4
    end.
    rewrite Hfin. repeat split.
    intros i. rewrite fired_emitFinished. reflexivity.
  - repeat split. intros i. unfold fired. cbn [events withAnim]. lia.
Qed.

Lemma wf_startAnimation : forall name property duration loops slot w,
  loops = 1 \/ (loops = -1 /\ slot = None) ->
  wf w -> wf (startAnimation name property duration loops slot w).
Proof.
  intros name property duration loops slot w Hk [W1 W2 W3 W4 W5 W6].
  destruct (startAnimation_core name property duration loops slot w Hk W4)
    as (C1 & C2 & C3 & C4 & _).
  destruct (setCurrentTime_zero (nextId w) property (setDuration duration)
              loops slot (setDuration_nonneg duration) Hk)
    as (Hid & Hfin & _ & _ & _ & Hgood & Hrun & Hend).
  set (a' := fst (setCurrentTime 0 _)) in *.
  split; rewrite ?C1, ?C2, ?C3.
  - exact W1.
  - apply Forall_app. split.
    + apply List.Forall_forall. intros b' Hb'.
      apply List.in_map_iff in Hb' as (b & <- & Hb).
      rewrite (proj1 (stopOther_same property b)).
      pose proof (proj1 (List.Forall_forall _ _) W2 b Hb) as Hlt.
      cbn beta in Hlt. lia.
    + apply List.Forall_cons; [rewrite Hid; lia | apply List.Forall_nil].
  - rewrite map_app, map_id_stopOther. cbn [map]. rewrite Hid.
    apply List.NoDup_app; [exact W3 | repeat constructor; intros [] |].
    intros x Hx [<- | []].
    apply List.in_map_iff in Hx as (b & Eb & Hb).
    pose proof (proj1 (List.Forall_forall _ _) W2 b Hb) as Hlt.
    cbn beta in Hlt. lia.
  - apply Forall_app. split.
    + apply List.Forall_forall. intros b' Hb'.
      apply List.in_map_iff in Hb' as (b & <- & Hb).
      apply stopOther_good. exact (proj1 (List.Forall_forall _ _) W4 b Hb).
    + apply List.Forall_cons; [exact Hgood | apply List.Forall_nil].
  - apply Forall_app. split.
    + apply List.Forall_forall. intros b' Hb' Hr. rewrite C4.
      apply List.in_map_iff in Hb' as (b & <- & Hb).
      apply stopOther_running in Hr as [Hr Hsame]. rewrite Hsame.
      pose proof (proj1 (List.Forall_forall _ _) W2 b Hb) as Hlt.
      cbn beta in Hlt.
      rewrite (proj1 (List.Forall_forall _ _) W5 b Hb Hr).
      destruct (_ =? 0); [| reflexivity].
      rewrite firesFor_other; [reflexivity | rewrite Hid; lia].
    + apply List.Forall_cons; [| apply List.Forall_nil].
      intros Hr. rewrite C4, Hid. rewrite Hrun, Hend in Hr.
      destruct (_ =? 0); [discriminate Hr |].
      rewrite W6 by lia. reflexivity.
  - intros id Hid'. rewrite C4. rewrite W6 by lia.
    destruct (_ =? 0); [| reflexivity].
    rewrite firesFor_other; [reflexivity | rewrite Hid; lia].
Qed.

Lemma request_shape : forall r,
  requestLoops r = 1 \/ (requestLoops r = -1 /\ requestSlot r = None).
Proof. intros r. destruct r; cbn; auto. Qed.

Lemma wf_request : forall r w, wf w -> wf (request r w).
Proof.
  intros r w Hw. unfold request.
  destruct (negb (m_initialized w)); [exact Hw |].
  apply wf_startAnimation; [apply request_shape |].
  apply wf_stopAnimation.
  destruct r; try exact Hw.
  eapply wf_same; [| | | | exact Hw]; reflexivity.
Qed.

Lemma advance_running : forall dt a,
  a_running (fst (advance dt a)) = true ->
  a_running a = true /\ snd (advance dt a) = false.
Proof.
  intros dt a. unfold advance, setCurrentTime.
  destruct (a_running a) eqn:Hr; cbn [fst snd a_running].
  - destruct (_ =? totalDuration a); [discriminate | auto].
  - intros H. rewrite Hr in H. discriminate H.
Qed.

Lemma tick_core : forall dt w,
  m_initialized (tick dt w) = m_initialized w /\
  objects (tick dt w) = map (fun a => fst (advance dt a)) (objects w) /\
  nextId (tick dt w) = nextId w /\
  (forall i, fired i (tick dt w)
             = (fired i w
                + firesAmong i (List.filter (fun a => snd (advance dt a))
                                            (objects w)))%nat).
Proof.
  intros dt w. unfold tick.
  match goal with
  | |- context [fold_left _ ?l ?w0] =>
      destruct (emits_core l w0) as (C1 & C2 & C3); rewrite C1, C2, C3
  end.
  repeat split. intros i. rewrite fired_emits. reflexivity.
Qed.

Lemma map_id_advance : forall dt objs,
  map a_id (map (fun a => fst (advance dt a)) objs) = map a_id objs.
Proof.
  intros dt objs. rewrite map_map. apply map_ext.
  intros a. apply advance_same.
Qed.

(** An object that does not end in a step has no slot run for it. *)
Lemma tick_fires_not : forall dt objs b,
  List.NoDup (map a_id objs) -> In b objs -> snd (advance dt b) = false ->
  firesAmong (a_id b) (List.filter (fun a => snd (advance dt a)) objs) = 0%nat.
Proof.
  intros dt objs b Hnd Hb Hs. apply firesAmong_other.
  apply List.Forall_forall. intros c Hc E.
  apply List.filter_In in Hc as [Hc Hend].
  rewrite (NoDup_map_eq _ _ a_id objs c b Hnd Hc Hb E) in Hend. congruence.
Qed.

Lemma tick_fires_fresh : forall dt w id,
  wf w -> (nextId w <= id)%nat ->
  firesAmong id (List.filter (fun a => snd (advance dt a)) (objects w)) = 0%nat.
Proof.
  intros dt w id Hw Hid. apply firesAmong_other.
  apply List.Forall_forall. intros c Hc.
  apply List.filter_In in Hc as [Hc _].
  pose proof (proj1 (List.Forall_forall _ _) (wf_ids w Hw) c Hc) as Hlt.
  cbn beta in Hlt. lia.
Qed.

Lemma wf_tick : forall dt w, wf w -> wf (tick dt w).
Proof.
  intros dt w Hw. pose proof Hw as [W1 W2 W3 W4 W5 W6].
  destruct (tick_core dt w) as (C1 & C2 & C3 & C4).
  split; rewrite ?C1, ?C2, ?C3.
  - exact W1.
  - apply List.Forall_forall. intros b' Hb'.
    apply List.in_map_iff in Hb' as (b & <- & Hb).
    rewrite (proj1 (advance_same dt b)).
    exact (proj1 (List.Forall_forall _ _) W2 b Hb).
  - rewrite map_id_advance. exact W3.
  - apply List.Forall_forall. intros b' Hb'.
    apply List.in_map_iff in Hb' as (b & <- & Hb).
    apply advance_good. exact (proj1 (List.Forall_forall _ _) W4 b Hb).
  - apply List.Forall_forall. intros b' Hb' Hr.
    apply List.in_map_iff in Hb' as (b & <- & Hb).
    apply advance_running in Hr as [Hr Hs].
    rewrite (proj1 (advance_same dt b)), C4.
    rewrite (tick_fires_not dt _ b W3 Hb Hs).
    rewrite (proj1 (List.Forall_forall _ _) W5 b Hb Hr). reflexivity.
  - intros id Hid. rewrite C4, (tick_fires_fresh dt w id Hw Hid).
    rewrite (W6 id Hid). reflexivity.
Qed.

Lemma wf_cleanupAnimations : forall w, wf w -> wf (cleanupAnimations w).
Proof.
  intros w Hw. unfold cleanupAnimations. cbv zeta.
  match goal with
  | |- wf (withAnim ?X _ _ _ _ _) =>
      apply (wf_same X); [reflexivity | reflexivity | reflexivity | reflexivity |]
  end.
  generalize (map_to_list (m_animations w)). intros l. revert w Hw.
  induction l as [| e l IH]; intros w Hw; cbn [fold_left]; [exact Hw |].
  apply IH.
  destruct (findObject (snd e) (objects w)) as [a |] eqn:E; [| exact Hw].
  apply findObject_some in E as [Hin _]. now apply wf_stopAndDelete.
Qed.

Lemma wf_log_other : forall e w,
  (forall i, isFinishedOf i e = false) -> wf w -> wf (log e w).
Proof.
  intros e w He [W1 W2 W3 W4 W5 W6].
  split; try assumption.
  - eapply List.Forall_impl; [| exact W5]. intros a H Hr.
    rewrite fired_log, He, (H Hr). reflexivity.
  - intros id Hid. rewrite fired_log, He, (W6 id Hid). reflexivity.
Qed.

Lemma wf_show : forall w, wf w -> wf (show w).
Proof.
  intros w Hw. unfold show. apply wf_log_other; [reflexivity |].
  assert (Hv : wf (withAnim w true (m_animations w) (objects w) (nextId w)
                     (events w)))
    by (eapply wf_same; [| | | | exact Hw]; reflexivity).
  destruct (m_initialized _); [apply wf_request |]; exact Hv.
Qed.

Lemma wf_hide : forall w, wf w -> wf (hide w).
Proof.
  intros w Hw. unfold hide. apply wf_log_other; [reflexivity |].
  destruct (m_initialized w); [apply wf_request, Hw |].
  eapply wf_same; [| | | | exact Hw]; reflexivity.
Qed.

(** The appearance setters leave the animations alone. *)
Lemma setStyle_anim : forall st w,
  m_initialized (setStyle st w) = m_initialized w /\
  objects (setStyle st w) = objects w /\
  nextId (setStyle st w) = nextId w /\
  events (setStyle st w) = events w.
Proof.
  intros st w. unfold setStyle. cbv zeta.
  repeat match goal with
         | |- context [if ?c then _ else _] => destruct c
         end; repeat split.
Qed.

Lemma wf_apply : forall w op, wf w -> wf (apply w op).
Proof.
  intros w op Hw. destruct op; cbn [apply];
    try (eapply wf_same; [| | | | exact Hw]; reflexivity).
  - destruct (setStyle_anim style w) as (H1 & H2 & H3 & H4).
    eapply wf_same; [exact H1 | exact H2 | exact H3 | exact H4 | exact Hw].
  - eapply wf_same; [| | | | exact Hw]; destruct shape; reflexivity.
  - apply wf_request, Hw.
  - apply wf_cleanupAnimations, Hw.
  - apply wf_show, Hw.
  - apply wf_hide, Hw.
  - apply wf_tick, Hw.
Qed.


(** *** A cancelled animation *)

Lemma stopAnimation_core : forall name w,
  wf w ->
  m_initialized (stopAnimation name w) = m_initialized w /\
  nextId (stopAnimation name w) = nextId w /\
  (forall i, fired i (stopAnimation name w) = fired i w) /\
  objects (stopAnimation name w)
  = match m_animations w !! name with
    | Some id =>
        match findObject id (objects w) with
        | Some _ => deleteObject id (objects w)
        | None => objects w
        end
    | None => objects w
    end.
Proof.
  intros name w Hw. unfold stopAnimation.
  destruct (m_animations w !! name) as [id |]; [| repeat split].
  destruct (findObject id (objects w)) as [a |] eqn:E; [| repeat split].
  apply findObject_some in E as [Hin <-].
  destruct (stopAndDelete_core a w) as (C1 & C2 & C3).
  cbn [m_initialized nextId objects withAnim]. rewrite C1, C2, C3.
  repeat split. intros i.
  rewrite <- (fired_stopAndDelete i a w
                (proj1 (List.Forall_forall _ _) (wf_good w Hw) a Hin)).
  reflexivity.
Qed.

Lemma stopAnimation_incl : forall name w a,
  wf w -> In a (objects (stopAnimation name w)) -> In a (objects w).
Proof.
  intros name w a Hw H.
  destruct (stopAnimation_core name w Hw) as (_ & _ & _ & Ho).
  rewrite Ho in H.
  destruct (m_animations w !! name) as [id |]; [| exact H].
  destruct (findObject id (objects w)); [| exact H].
  eapply deleteObject_incl, H.
Qed.

(** *** One animation on a property *)

Lemma oneRunning_incl : forall w w',
  (forall a, In a (objects w') -> In a (objects w)) ->
  oneRunning w -> oneRunning w'.
Proof.
  intros w w' Hincl H a b Ha Hb. apply H; apply Hincl; assumption.
Qed.

Lemma oneRunning_same : forall w w',
  objects w' = objects w -> oneRunning w -> oneRunning w'.
Proof.
  intros w w' E. apply oneRunning_incl. intros a. now rewrite E.
Qed.

Lemma stopAndDelete_incl : forall a w b,
  In b (objects (stopAndDelete a w)) -> In b (objects w).
Proof.
  intros a w b H. destruct (stopAndDelete_core a w) as (_ & C2 & _).
  rewrite C2 in H. eapply deleteObject_incl, H.
Qed.

Lemma oneRunning_stopAnimation : forall name w,
  wf w -> oneRunning w -> oneRunning (stopAnimation name w).
Proof.
  intros name w Hw. apply oneRunning_incl. intros a.
  apply stopAnimation_incl, Hw.
Qed.

Lemma oneRunning_cleanupAnimations : forall w,
  oneRunning w -> oneRunning (cleanupAnimations w).
Proof.
  intros w. apply oneRunning_incl. unfold cleanupAnimations. cbv zeta.
  cbn [objects withAnim].
  generalize (map_to_list (m_animations w)). intros l. revert w.
  induction l as [| e l IH]; intros w a H; cbn [fold_left] in H;
    [exact H |].
  apply IH in H.
  destruct (findObject (snd e) (objects w)) as [b |]; [| exact H].
  eapply stopAndDelete_incl, H.
Qed.

Lemma advance_property : forall dt a,
  a_property (fst (advance dt a)) = a_property a.
Proof.
  intros dt a. unfold advance, setCurrentTime.
  destruct (a_running a); reflexivity.
Qed.

Lemma oneRunning_tick : forall dt w, oneRunning w -> oneRunning (tick dt w).
Proof.
  intros dt w H a' b' Ha' Hb' Ra Rb E.
  destruct (tick_core dt w) as (_ & Co & _). rewrite Co in Ha', Hb'.
  apply List.in_map_iff in Ha' as (a & <- & Ha).
  apply List.in_map_iff in Hb' as (b & <- & Hb).
  rewrite !advance_property in E.
  rewrite (proj1 (advance_same dt a)), (proj1 (advance_same dt b)).
  apply (H a b Ha Hb); [| | exact E].
  - exact (proj1 (advance_running dt a Ra)).
  - exact (proj1 (advance_running dt b Rb)).
Qed.

(** After [stopOther] no object runs on the property. *)
Lemma stopOther_off : forall property a,
  a_running (stopOther property a) = true ->
  a_property (stopOther property a) <> property.
Proof.
  intros property a. unfold stopOther, stopped.
  destruct (a_running a) eqn:Hr; cbn [andb].
  - destruct (String.eqb_spec (a_property a) property) as [E | E];
      cbn [a_running]; [discriminate | intros _; exact E].
  - intros H. rewrite Hr in H. discriminate H.
Qed.

Lemma oneRunning_startAnimation : forall name property duration loops slot w,
  loops = 1 \/ (loops = -1 /\ slot = None) ->
  wf w -> oneRunning w ->
  oneRunning (startAnimation name property duration loops slot w).
Proof.
  intros name property duration loops slot w Hk Hw H.
  destruct (startAnimation_core name property duration loops slot w Hk
              (wf_good w Hw)) as (_ & Co & _).
  assert (Hold : forall a', In a' (map (stopOther property) (objects w)) ->
            a_running a' = true ->
            a_property a' <> property /\
            exists a, In a (objects w) /\ a' = a /\ a_running a = true).
  { intros a' Ha' Ra. apply List.in_map_iff in Ha' as (a & <- & Ha).
    split; [apply stopOther_off, Ra |].
    destruct (stopOther_running property a Ra) as [Hr Hsame].
    exists a. rewrite Hsame. auto. }
  assert (Hnew : a_property
                   (fst (setCurrentTime 0
                           (mkAnim (nextId w) property (setDuration duration)
                                   loops 0 true slot))) = property)
    by reflexivity.
  intros a b Ha Hb Ra Rb E. rewrite Co in Ha, Hb.
  apply in_app_or in Ha as [Ha | [<- | []]];
    apply in_app_or in Hb as [Hb | [<- | []]].
  - destruct (Hold a Ha Ra) as (_ & a0 & Ha0 & -> & Ra0).
    destruct (Hold b Hb Rb) as (_ & b0 & Hb0 & -> & Rb0).
    exact (H a0 b0 Ha0 Hb0 Ra0 Rb0 E).
  - destruct (Hold a Ha Ra) as (Hp & _). rewrite Hnew in E. contradiction.
  - destruct (Hold b Hb Rb) as (Hp & _). rewrite Hnew in E.
    symmetry in E. contradiction.
  - reflexivity.
Qed.

Lemma oneRunning_request : forall r w,
  wf w -> oneRunning w -> oneRunning (request r w).
Proof.
  intros r w Hw H. unfold request.
  destruct (negb (m_initialized w)); [exact H |].
  set (w0 := match r with ReqSlideIn _ => _ | _ => w end).
  assert (Hw0 : wf w0)
    by (subst w0; destruct r; try exact Hw;
        eapply wf_same; [| | | | exact Hw]; reflexivity).
  assert (H0 : oneRunning w0) by (subst w0; destruct r; exact H).
  apply oneRunning_startAnimation;
    [apply request_shape | apply wf_stopAnimation, Hw0
     | apply oneRunning_stopAnimation; assumption].
Qed.

Lemma oneRunning_apply : forall w op,
  wf w -> oneRunning w -> oneRunning (apply w op).
Proof.
  intros w op Hw H. destruct op; cbn [apply]; try exact H.
  - eapply oneRunning_incl; [| exact H]. intros a Ha.
    now rewrite (proj1 (proj2 (setStyle_anim style w))) in Ha.
  - destruct shape; exact H.
  - apply oneRunning_request; assumption.
  - apply oneRunning_cleanupAnimations, H.
  - unfold show. cbv zeta.
    match goal with
    | |- oneRunning (log _ ?X) => apply (oneRunning_same X); [reflexivity |]
    end.
    cbn [m_initialized withAnim].
    destruct (m_initialized w); [| exact H].
    apply oneRunning_request; [| exact H].
    eapply wf_same; [| | | | exact Hw]; reflexivity.
  - unfold hide.
    match goal with
    | |- oneRunning (log _ ?X) => apply (oneRunning_same X); [reflexivity |]
    end.
    destruct (m_initialized w); [apply oneRunning_request |]; assumption.
  - apply oneRunning_tick, H.
Qed.

(** Whatever happens to a widget, at most one of its animations runs on
    a property: the one [stopSameProperty] stops is the one Qt stops. *)
Lemma oneRunning_run : forall ops width height,
  oneRunning (run ops (Widget.create width height)).
Proof.
  intros ops width height.
  assert (H : forall ops w, wf w -> oneRunning w -> oneRunning (run ops w)).
  { clear ops. induction ops as [| op ops IH]; intros w Hw H;
      cbn [run fold_left]; [exact H |].
    apply IH; [apply wf_apply, Hw | apply oneRunning_apply; assumption]. }
  apply H; [apply wf_create |]. intros a b [].
Qed.







(** *** A replacement that runs to its end *)






Lemma wf_ticks : forall dts w, wf w -> wf (ticks dts w).
Proof.
  induction dts as [| dt dts IH]; intros w Hw; cbn [ticks fold_left];
    [exact Hw | apply IH, wf_tick, Hw].
Qed.




(** *** What the slots notify *)








































(* ===================================================================== *)
(** * Properties of the utilities, the widgets and the rules              *)
(* ===================================================================== *)

(** ** Texts: truncation, case, durations *)

Lemma size_app (a b : QString) : size (a ++ b) = size a + size b.
Proof. unfold size. rewrite length_app. lia. Qed.

Lemma size_nonneg (s : QString) : 0 <= size s.
Proof. unfold size. lia. Qed.

Lemma size_left (s : QString) (n : Z) :
  0 <= n -> n < size s -> size (QStr.left s n) = n.
Proof.
  intros Hn Hs. unfold QStr.left.
  replace (n <? 0) with false by (symmetry; apply Z.ltb_ge; lia).
  replace (size s <=? n) with false by (symmetry; apply Z.leb_gt; lia).
  cbn [orb]. unfold size in *. rewrite length_take. lia.
Qed.

(** X1.  [String::truncate] with a suffix that is not longer than
    [maxLength]: the result has the length of the text or [maxLength],
    whichever is less, so it never exceeds [maxLength]. *)
Theorem truncate_within_max (str suffix : QString) (maxLength : Z) :
  size suffix <= maxLength ->
  size (StringUtils.truncate str maxLength suffix)
  = Z.min (size str) maxLength.
Proof.
  intros Hs. unfold StringUtils.truncate.
  destruct (size str <=? maxLength) eqn:E.
  - apply Z.leb_le in E. lia.
  - apply Z.leb_gt in E. rewrite size_app, size_left.
    + lia.
    + lia.
    + pose proof (size_nonneg suffix). lia.
Qed.

Lemma truncate_within_max_witness :
  size (StringUtils.truncate (qs "system monitor") 9 (qs "..")) = 9.
Proof.
  rewrite (truncate_within_max (qs "system monitor") (qs "..") 9).
  - reflexivity.
  - vm_compute. discriminate.
Defined.

(** X2.  [String::truncate] with a suffix longer than [maxLength]: a text
    that does not fit is not cut at all, the suffix is put after the
    whole of it. *)
Theorem truncate_short_max_appends (str suffix : QString) (maxLength : Z) :
  maxLength < size suffix -> maxLength < size str ->
  StringUtils.truncate str maxLength suffix = str ++ suffix.
Proof.
  intros Hs Hl. unfold StringUtils.truncate.
  replace (size str <=? maxLength) with false
    by (symmetry; apply Z.leb_gt; lia).
  unfold QStr.left.
  replace (maxLength - size suffix <? 0) with true
    by (symmetry; apply Z.ltb_lt; lia).
  reflexivity.
Qed.

Lemma truncate_short_max_appends_witness :
  StringUtils.ellipsis (qs "clock") 2 = qs "clock...".
Proof.
  apply (truncate_short_max_appends (qs "clock") (qs "...") 2);
    vm_compute; reflexivity.
Defined.

Lemma isUpper_lowerc (c : ascii) : QStrMore.isUpper (lowerc c) = false.
Proof. destruct c as [[] [] [] [] [] [] [] []]; reflexivity. Qed.

Lemma lowerc_fixed (c : ascii) : QStrMore.isUpper c = false -> lowerc c = c.
Proof.
  destruct c as [[] [] [] [] [] [] [] []]; intros H;
    first [reflexivity | discriminate H].
Qed.

Lemma snakeFrom_noUpper (first : bool) (s : QString) :
  StringUtils.noUpper (StringUtils.snakeFrom first s).
Proof.
  revert first. induction s as [|c s IH]; intros first; cbn.
  - constructor.
  - assert (H : StringUtils.noUpper
                  (lowerc c :: StringUtils.snakeFrom false s)).
    { constructor; [apply isUpper_lowerc | apply IH]. }
    destruct (QStrMore.isUpper c && negb first); [constructor |];
      first [reflexivity | exact H].
Qed.

Lemma snakeFrom_fixed (first : bool) (s : QString) :
  StringUtils.noUpper s -> StringUtils.snakeFrom first s = s.
Proof.
  revert first. induction s as [|c s IH]; intros first H; cbn.
  - reflexivity.
  - inversion H as [|? ? Hc Hs]; subst.
    rewrite Hc, (lowerc_fixed c Hc), (IH false Hs). reflexivity.
Qed.

(** X3.  On a text of Latin-1 characters, the characters of a [QString]
    here, [String::toSnakeCase] is idempotent: its result has no capital
    left, every capital of Latin-1 having a small letter in Latin-1, and
    a text without capitals is returned as it is.  (Capitals beyond
    Latin-1 that have no small letter are outside of the statement.) *)
Theorem toSnakeCase_idempotent (str : QString) :
  StringUtils.toSnakeCase (StringUtils.toSnakeCase str)
  = StringUtils.toSnakeCase str.
Proof.
  unfold StringUtils.toSnakeCase. apply snakeFrom_fixed, snakeFrom_noUpper.
Qed.

(** X4.  On a text of Latin-1 characters, the characters of a [QString]
    here, the result of [String::toKebabCase] holds no capital and no
    underscore: the underscores of the text itself become hyphens as
    well.  (Capitals beyond Latin-1 that have no small letter are
    outside of the statement.) *)
Theorem toKebabCase_plain (str : QString) :
  Forall (fun c => QStrMore.isUpper c = false /\ c <> "_"%char)
         (StringUtils.toKebabCase str).
Proof.
  unfold StringUtils.toKebabCase, QStrMore.replaceChar.
  apply Forall_map.
  eapply Forall_impl; [apply snakeFrom_noUpper |].
  intros c Hc. cbn. destruct (eqc c "_") eqn:E.
  - split; [reflexivity | discriminate].
  - split; [exact Hc |]. intros ->. discriminate E.
Qed.

(** X5.  [String::formatDuration] of a negative number of seconds shows
    the remainder of the seconds only: the days, hours and minutes, none
    of which is positive, are left out. *)
Theorem formatDuration_negative (seconds : Z) :
  seconds < 0 ->
  StringUtils.formatDuration seconds = number (Z.rem seconds 60) ++ qs "s".
Proof.
  intros H. unfold StringUtils.formatDuration.
  assert (Hq : Z.quot seconds 86400 <= 0
               /\ Z.quot (Z.rem seconds 86400) 3600 <= 0
               /\ Z.quot (Z.rem seconds 3600) 60 <= 0).
  { Z.quot_rem_to_equations. lia. }
  destruct Hq as (Hd & Hh & Hm).
  replace (0 <? Z.quot seconds 86400) with false
    by (symmetry; apply Z.ltb_ge; exact Hd).
  replace (0 <? Z.quot (Z.rem seconds 86400) 3600) with false
    by (symmetry; apply Z.ltb_ge; exact Hh).
  replace (0 <? Z.quot (Z.rem seconds 3600) 60) with false
    by (symmetry; apply Z.ltb_ge; exact Hm).
  reflexivity.
Qed.

Lemma formatDuration_negative_witness :
  StringUtils.formatDuration (-3700) = qs "-40s".
Proof.
  rewrite (formatDuration_negative (-3700)); [reflexivity | lia].
Defined.

Lemma quot_same_minute (a b : Z) :
  0 <= a -> 0 <= b -> Z.quot a 60 = Z.quot b 60 ->
  Z.quot a 86400 = Z.quot b 86400
  /\ Z.quot (Z.rem a 86400) 3600 = Z.quot (Z.rem b 86400) 3600
  /\ Z.quot (Z.rem a 3600) 60 = Z.quot (Z.rem b 3600) 60.
Proof.
  intros Ha Hb H.
  rewrite !Z.rem_mod_nonneg, !Z.quot_div_nonneg in * by
    (try apply Z.mod_pos_bound; lia).
  assert (Ea : a / 86400 = a / 60 / 1440)
    by (rewrite Z.div_div by lia; reflexivity).
  assert (Eb : b / 86400 = b / 60 / 1440)
    by (rewrite Z.div_div by lia; reflexivity).
  assert (Fa : a / 3600 = a / 60 / 60)
    by (rewrite Z.div_div by lia; reflexivity).
  assert (Fb : b / 3600 = b / 60 / 60)
    by (rewrite Z.div_div by lia; reflexivity).
  rewrite H in Ea, Fa.
  repeat split; Z.div_mod_to_equations; lia.
Qed.

(** X6.  From one day on, [String::formatDuration] does not show the
    seconds: two durations within the same minute have the same text. *)
Theorem formatDuration_days_hide_seconds (a b : Z) :
  86400 <= a -> 86400 <= b -> Z.quot a 60 = Z.quot b 60 ->
  StringUtils.formatDuration a = StringUtils.formatDuration b.
Proof.
  intros Ha Hb H. unfold StringUtils.formatDuration.
  destruct (quot_same_minute a b) as (Ed & Eh & Em); [lia | lia | exact H |].
  rewrite Ed, Eh, Em.
  replace (0 <? Z.quot b 86400) with true; [reflexivity |].
  symmetry. apply Z.ltb_lt. Z.quot_rem_to_equations. lia.
Qed.

Lemma formatDuration_days_hide_seconds_witness :
  StringUtils.formatDuration 90000 = StringUtils.formatDuration 90059.
Proof.
  apply (formatDuration_days_hide_seconds 90000 90059);
    [lia | lia | reflexivity].
Defined.

(** ** Numbers as texts and back *)

Lemma digit_not_space (c : ascii) : isDigit c = true -> isSpace c = false.
Proof.
  destruct c as [[] [] [] [] [] [] [] []]; intros H;
    first [reflexivity | discriminate H].
Qed.

Lemma digitChar_digit (d : Z) :
  0 <= d < 10 -> isDigit (digitChar d) = true /\ digitVal (digitChar d) = d.
Proof.
  intros H.
  assert (E : d = 0 \/ d = 1 \/ d = 2 \/ d = 3 \/ d = 4 \/ d = 5 \/ d = 6
              \/ d = 7 \/ d = 8 \/ d = 9) by lia.
  repeat (destruct E as [-> | E]; [split; reflexivity |]).
  subst d. split; reflexivity.
Qed.

Lemma digitsVal_snoc (ds : QString) (c : ascii) :
  digitsVal (ds ++ [c]) = digitsVal ds * 10 + digitVal c.
Proof. unfold digitsVal. rewrite fold_left_app. reflexivity. Qed.

Lemma digitsOf_S (k : nat) (base n : Z) (acc : QString) :
  digitsOf (S k) base n acc
  = if n / base =? 0 then digitChar (n mod base) :: acc
    else digitsOf k base (n / base) (digitChar (n mod base) :: acc).
Proof. reflexivity. Qed.

(** The decimal digits of a number that has at most [fuel + 1] of
    them. *)
Lemma digitsOf_decimal (fuel : nat) : forall n acc,
  0 <= n < 10 ^ Z.of_nat (S fuel) ->
  exists ds, digitsOf (S fuel) 10 n acc = ds ++ acc
             /\ ds <> [] /\ forallb isDigit ds = true /\ digitsVal ds = n.
Proof.
  induction fuel as [|k IH]; intros n acc Hn;
    assert (Hd : 0 <= n mod 10 < 10) by (apply Z.mod_pos_bound; lia);
    destruct (digitChar_digit _ Hd) as [D1 D2];
    rewrite digitsOf_S; destruct (n / 10 =? 0) eqn:E.
  1, 3: apply Z.eqb_eq in E; exists [digitChar (n mod 10)]; repeat split;
    [ discriminate
    | cbn; rewrite D1; reflexivity
    | unfold digitsVal; cbn; rewrite D2; Z.div_mod_to_equations; lia ].
  - apply Z.eqb_neq in E. change (10 ^ Z.of_nat 1) with 10 in Hn.
    exfalso. apply E. apply Z.div_small. lia.
  - apply Z.eqb_neq in E.
    assert (Hq : 0 <= n / 10 < 10 ^ Z.of_nat (S k)).
    { rewrite (Nat2Z.inj_succ (S k)), Z.pow_succ_r in Hn by lia.
      split; [apply Z.div_pos; lia |].
      apply Z.div_lt_upper_bound; lia. }
    destruct (IH (n / 10) (digitChar (n mod 10) :: acc) Hq)
      as (ds & E1 & E2 & E3 & E4).
    exists (ds ++ [digitChar (n mod 10)]). repeat split.
    + rewrite E1, <- app_assoc. reflexivity.
    + destruct ds; discriminate.
    + rewrite forallb_app, E3. cbn. rewrite D1. reflexivity.
    + rewrite digitsVal_snoc, E4, D2. Z.div_mod_to_equations. lia.
Qed.

Lemma number_nonneg (n : Z) :
  0 <= n < 10 ^ 12 ->
  exists c ds, number n = c :: ds
               /\ forallb isDigit (c :: ds) = true /\ digitsVal (c :: ds) = n.
Proof.
  intros Hn. unfold number.
  replace (n <? 0) with false by (symmetry; apply Z.ltb_ge; lia).
  destruct (digitsOf_decimal 11 n [] Hn) as (ds & E1 & E2 & E3 & E4).
  rewrite app_nil_r in E1. destruct ds as [|c ds]; [congruence |].
  exists c, ds. auto.
Qed.

Lemma last_digit (l : QString) (d : ascii) :
  l <> [] -> forallb isDigit l = true -> isDigit (List.last l d) = true.
Proof.
  induction l as [|c l IH]; intros Hne H; [congruence |].
  cbn in H. apply andb_prop in H as [Hc Hl].
  destruct l as [|c' l']; [exact Hc |].
  change (List.last (c :: c' :: l') d) with (List.last (c' :: l') d).
  apply IH; [discriminate | exact Hl].
Qed.

Lemma last_of_app (l m : QString) (d : ascii) :
  m <> [] -> List.last (l ++ m) d = List.last m d.
Proof.
  intros Hm. induction l as [|c l IH]; [reflexivity |].
  cbn [app]. destruct (l ++ m) eqn:E.
  - destruct l; [cbn in E; congruence | discriminate E].
  - exact IH.
Qed.

Lemma trimmed_digits (pre : QString) (c : ascii) (ds : QString) :
  forallb isDigit (c :: ds) = true ->
  match pre with [] => True | p :: _ => isSpace p = false end ->
  trimmed (pre ++ c :: ds) = pre ++ c :: ds.
Proof.
  intros H Hp.
  assert (Hl : isSpace (List.last (c :: ds) " "%char) = false).
  { apply digit_not_space, last_digit; [discriminate | exact H]. }
  destruct pre as [|p pre].
  - cbn [app]. apply (trimmed_id1 c ds " "%char); [| exact Hl].
    cbn in H. apply andb_prop in H as [Hc _]. apply digit_not_space, Hc.
  - cbn [app]. apply (trimmed_id1 p (pre ++ c :: ds) " "%char); [exact Hp |].
    replace (List.last (p :: pre ++ c :: ds) " "%char)
      with (List.last (c :: ds) " "%char); [exact Hl |].
    change (p :: pre ++ c :: ds) with ((p :: pre) ++ c :: ds).
    symmetry. apply last_of_app. discriminate.
Qed.

(** [QString::toInt] reads back what [QString::number] writes. *)
Lemma toIntOk_number (n : Z) :
  INT_MIN <= n <= INT_MAX -> toIntOk (number n) = (n, true).
Proof.
  intros Hn. unfold INT_MIN, INT_MAX in Hn.
  destruct (Z.ltb_spec n 0) as [Hneg | Hpos].
  - destruct (number_nonneg (- n)) as (c & ds & E1 & E2 & E3); [lia |].
    assert (E : number n = "-"%char :: c :: ds).
    { unfold number in *.
      replace (n <? 0) with true by (symmetry; apply Z.ltb_lt; lia).
      replace (- n <? 0) with false in E1 by (symmetry; apply Z.ltb_ge; lia).
      rewrite E1. reflexivity. }
    unfold toIntOk. rewrite E.
    pose proof (trimmed_digits ["-"%char] c ds E2 eq_refl) as Ht.
    cbn [app] in Ht. rewrite Ht. change (eqc "-" "-") with true. cbv iota beta.
    change (isEmpty (c :: ds)) with false. cbn [negb andb].
    rewrite E2, E3. unfold INT_MIN, INT_MAX.
    replace (-2147483648 <=? - - n) with true
      by (symmetry; apply Z.leb_le; lia).
    replace (- - n <=? 2147483647) with true
      by (symmetry; apply Z.leb_le; lia).
    cbn [andb]. f_equal. lia.
  - destruct (number_nonneg n) as (c & ds & E1 & E2 & E3); [lia |].
    unfold toIntOk. rewrite E1.
    pose proof (trimmed_digits [] c ds E2 I) as Ht.
    cbn [app] in Ht. rewrite Ht.
    assert (Hc : isDigit c = true).
    { cbn in E2. apply andb_prop in E2 as [Hc _]. exact Hc. }
    assert (Hm : eqc c "-" = false /\ eqc c "+" = false).
    { clear - Hc. destruct c as [[] [] [] [] [] [] [] []];
        first [discriminate Hc | split; reflexivity]. }
    destruct Hm as [-> ->].
    change (isEmpty (c :: ds)) with false. cbn [negb andb].
    rewrite E2, E3. unfold INT_MIN, INT_MAX.
    replace (-2147483648 <=? n) with true by (symmetry; apply Z.leb_le; lia).
    replace (n <=? 2147483647) with true by (symmetry; apply Z.leb_le; lia).
    reflexivity.
Qed.

(** X7.  [String::toInt] reads back every [int] that [QString::number]
    writes, whatever the default. *)
Theorem toInt_reads_number (n defaultValue : Z) :
  INT_MIN <= n <= INT_MAX ->
  StringUtils.toInt (number n) defaultValue = n.
Proof.
  intros Hn. unfold StringUtils.toInt. rewrite (toIntOk_number n Hn).
  reflexivity.
Qed.

Lemma toInt_reads_number_witness :
  StringUtils.toInt (qs "-2147483648") 7 = -2147483648.
Proof.
  apply (toInt_reads_number (-2147483648) 7). unfold INT_MIN, INT_MAX. lia.
Defined.

(** ** Places on the screen *)

Lemma calculatePosition_inside (primaryScreen : option Screen.QRect)
  (pos : Screen.Position) (widgetSize : Screen.QSize) (margin : Z) :
  pos <> Screen.Manual ->
  0 <= margin ->
  0 <= Screen.s_width widgetSize -> 0 <= Screen.s_height widgetSize ->
  Screen.s_width widgetSize + margin
    < Screen.rwidth (Screen.availableGeometry primaryScreen) ->
  Screen.s_height widgetSize + margin
    < Screen.rheight (Screen.availableGeometry primaryScreen) ->
  Screen.within (Screen.availableGeometry primaryScreen)
    (Screen.calculatePosition primaryScreen pos widgetSize margin)
    widgetSize.
Proof.
  intros Hp Hm Hw Hh Hx Hy.
  unfold Screen.calculatePosition, Screen.within, Screen.rcenter,
    Screen.rwidth, Screen.rheight in *.
  destruct (Screen.availableGeometry primaryScreen) as [a b c d].
  destruct widgetSize as [w h]. cbn [Screen.x1 Screen.y1 Screen.x2 Screen.y2
    Screen.s_width Screen.s_height] in *.
  destruct pos; try congruence; cbn [fst snd];
    Z.quot_rem_to_equations; lia.
Qed.

(** X8.  [Screen::calculatePosition] keeps a widget on the screen: for
    every position but [Manual], a widget that with its margin is
    narrower and lower than the available geometry lies within it. *)
Theorem calculatePosition_within (primaryScreen : option Screen.QRect)
  (pos : Screen.Position) (widgetSize : Screen.QSize) (margin : Z) :
  pos <> Screen.Manual ->
  0 <= margin ->
  0 <= Screen.s_width widgetSize -> 0 <= Screen.s_height widgetSize ->
  Screen.s_width widgetSize + margin
    < Screen.rwidth (Screen.availableGeometry primaryScreen) ->
  Screen.s_height widgetSize + margin
    < Screen.rheight (Screen.availableGeometry primaryScreen) ->
  Screen.within (Screen.availableGeometry primaryScreen)
    (Screen.calculatePosition primaryScreen pos widgetSize margin)
    widgetSize.
Proof. apply calculatePosition_inside. Qed.

Lemma calculatePosition_within_witness :
  Screen.within (Screen.rect 0 0 1920 1080) (1619, 829)
    (Screen.mkSize 250 200).
Proof.
  apply (calculatePosition_within None Screen.BottomRight
           (Screen.mkSize 250 200) 50);
    first [discriminate | vm_compute; reflexivity | cbn; lia].
Defined.

Lemma parsePosition_automatic (value : QString) :
  Placement.parsePosition value <> Screen.Manual.
Proof.
  unfold Placement.parsePosition.
  repeat match goal with
         | |- (if ?c then _ else _) <> _ => destruct c
         end; discriminate.
Qed.

Lemma resize_nonneg (w : Widget) (width height : Z) :
  0 <= w_width (resize w width height)
  /\ 0 <= w_height (resize w width height).
Proof. unfold resize, withLook. cbn. lia. Qed.

Lemma widgetAtPosition_nonneg (elem : QDomNode) :
  0 <= w_width (Placement.widgetAtPosition elem)
  /\ 0 <= w_height (Placement.widgetAtPosition elem).
Proof.
  unfold Placement.widgetAtPosition, when.
  set (w0 := Widget.create _ _).
  assert (H0 : 0 <= w_width w0 /\ 0 <= w_height w0)
    by apply resize_nonneg.
  set (w1 := if hasAttribute elem "background" then _ else w0).
  assert (H1 : 0 <= w_width w1 /\ 0 <= w_height w1)
    by (subst w1; destruct (hasAttribute elem "background"); exact H0).
  set (w2 := if hasAttribute elem "bg" then _ else w1).
  assert (H2 : 0 <= w_width w2 /\ 0 <= w_height w2)
    by (subst w2; destruct (hasAttribute elem "bg"); exact H1).
  set (w3 := if hasAttribute elem "shape" then _ else w2).
  assert (H3 : 0 <= w_width w3 /\ 0 <= w_height w3).
  { subst w3. destruct (hasAttribute elem "shape"); [| exact H2].
    unfold setShape. destruct (parseShape _);
      first [exact H2 | apply resize_nonneg]. }
  set (w4 := if hasAttribute elem "rounded" then _ else w3).
  assert (H4 : 0 <= w_width w4 /\ 0 <= w_height w4)
    by (subst w4; destruct (hasAttribute elem "rounded"); exact H3).
  destruct (hasAttribute elem "radius"); exact H4.
Qed.

(** X9.  A widget whose element names a position, in the attribute
    [position] or [pos] and not by [x] and [y], is put on the screen by
    [XMLParser::parseWidget]: when it is, with the margin of 50, narrower
    and lower than the available geometry, it lies within it.  Any text
    names a position: one that is not known means the centre. *)
Theorem positioned_widget_on_screen (primaryScreen : option Screen.QRect)
  (elem : QDomNode) :
  hasAttribute elem "position" || hasAttribute elem "pos" = true ->
  hasAttribute elem "x" && hasAttribute elem "y" = false ->
  Screen.s_width (Placement.sizeOf (Placement.widgetAtPosition elem)) + 50
    < Screen.rwidth (Screen.availableGeometry primaryScreen) ->
  Screen.s_height (Placement.sizeOf (Placement.widgetAtPosition elem)) + 50
    < Screen.rheight (Screen.availableGeometry primaryScreen) ->
  Screen.within (Screen.availableGeometry primaryScreen)
    (Placement.pos (Placement.placeWidget primaryScreen elem))
    (Placement.sizeOf (Placement.widgetAtPosition elem)).
Proof.
  intros Ha Hxy Hw Hh.
  destruct (widgetAtPosition_nonneg elem) as [Nw Nh].
  unfold Placement.placeWidget, Placement.parsePlacement.
  rewrite Hxy.
  assert (Hset : forall value p,
    Placement.m_screenMargin p = 50 ->
    Screen.within (Screen.availableGeometry primaryScreen)
      (Placement.pos
         (Placement.setPosition primaryScreen
            (Placement.parsePosition value)
            (Placement.sizeOf (Placement.widgetAtPosition elem)) p))
      (Placement.sizeOf (Placement.widgetAtPosition elem))).
  { intros value p Hp. unfold Placement.setPosition, Placement.updatePosition.
    cbn [Placement.pos Placement.m_position Placement.m_screenMargin].
    rewrite Hp. apply calculatePosition_inside;
      [apply parsePosition_automatic | lia | exact Nw | exact Nh
      | exact Hw | exact Hh]. }
  destruct (hasAttribute elem "pos") eqn:Epos.
  - apply Hset. destruct (hasAttribute elem "position"); reflexivity.
  - destruct (hasAttribute elem "position"); [| discriminate Ha].
    apply Hset. reflexivity.
Qed.

Lemma positioned_widget_on_screen_witness :
  Screen.within (Screen.rect 0 0 1920 1080) (1469, 50)
    (Screen.mkSize 400 200).
Proof.
  apply (positioned_widget_on_screen None
           (DomElement (qs "widget")
              [(qs "width", qs "400"); (qs "pos", qs "Top_Right")] []));
    vm_compute; reflexivity.
Defined.

(** ** Bounded values *)

Lemma SFcompare_antisym (x y : spec_float) :
  SFcompare y x = option_map CompOpp (SFcompare x y).
Proof.
  destruct x as [sx | sx | | sx mx ex], y as [sy | sy | | sy my ey];
    try destruct sx; try destruct sy; try reflexivity;
    cbn [SFcompare option_map]; f_equal;
    rewrite (Z.compare_antisym ex ey);
    destruct (ex ?= ey); cbn [CompOpp]; try reflexivity;
    rewrite (Pos.compare_cont_spec my mx), (Pos.compare_cont_spec mx my),
      (Pos.compare_antisym mx my);
    destruct (mx ?= my)%positive; reflexivity.
Qed.

Lemma SFleb_refl_l (x y : spec_float) : SFleb x y = true -> SFleb x x = true.
Proof.
  unfold SFleb. destruct x as [sx | sx | | sx mx ex]; cbn [SFcompare];
    try (destruct sx; reflexivity).
  - intros H. destruct y; discriminate H.
  - intros _. rewrite Z.compare_refl, Pos.compare_cont_refl.
    destruct sx; reflexivity.
Qed.

Lemma SFleb_refl_r (x y : spec_float) : SFleb x y = true -> SFleb y y = true.
Proof.
  unfold SFleb. destruct y as [sy | sy | | sy my ey]; cbn [SFcompare];
    try (destruct sy; reflexivity).
  - intros H. destruct x; discriminate H.
  - intros _. rewrite Z.compare_refl, Pos.compare_cont_refl.
    destruct sy; reflexivity.
Qed.

(** Of two doubles that can be compared, one is not above the other. *)
Lemma SFleb_total (x y : spec_float) :
  SFltb x y = false -> SFleb x x = true -> SFleb y y = true ->
  SFleb y x = true.
Proof.
  unfold SFltb, SFleb. rewrite (SFcompare_antisym x y).
  intros H Hx Hy.
  destruct (SFcompare x y) as [[ | | ] |] eqn:E; cbn [option_map CompOpp];
    try reflexivity; try discriminate H.
  destruct x, y; cbn in E, Hx, Hy; discriminate.
Qed.

(** [qBound] answers a value between its bounds when they are in
    order. *)
Lemma qBound_between (lo v hi : Dbl.double) :
  Dbl.leb lo hi = true ->
  Dbl.leb lo (qBound lo v hi) = true /\ Dbl.leb (qBound lo v hi) hi = true.
Proof.
  unfold Dbl.leb, qBound, qMax, qMin, Dbl.ltb. intros H.
  pose proof (SFleb_refl_l _ _ H) as Hl.
  pose proof (SFleb_refl_r _ _ H) as Hh.
  destruct (SFltb hi v) eqn:E1.
  - destruct (SFltb lo hi); auto.
  - destruct (SFltb lo v) eqn:E2; [| auto].
    pose proof (SFltb_SFleb _ _ E2) as Hv. split; [exact Hv |].
    apply SFleb_total; [exact E1 | exact Hh |].
    exact (SFleb_refl_r _ _ Hv).
Qed.

(** X10.  [ProgressBar::setValue] and [Gauge::setValue] store a value
    between the minimum and the maximum of the widget when these are in
    order, whatever the argument: a number, an infinity or a NaN. *)
Theorem setValue_within_range :
  (forall value b,
     Dbl.leb (ProgressBar.m_minValue b) (ProgressBar.m_maxValue b) = true ->
     let b' := ProgressBar.setValue value b in
     Dbl.leb (ProgressBar.m_minValue b') (ProgressBar.m_value b') = true
     /\ Dbl.leb (ProgressBar.m_value b') (ProgressBar.m_maxValue b') = true)
  /\
  (forall value g,
     Dbl.leb (Gauge.m_minValue g) (Gauge.m_maxValue g) = true ->
     let g' := Gauge.setValue value g in
     Dbl.leb (Gauge.m_minValue g') (Gauge.m_value g') = true
     /\ Dbl.leb (Gauge.m_value g') (Gauge.m_maxValue g') = true).
Proof.
  split; intros value x H; apply qBound_between; exact H.
Qed.

Lemma setValue_within_range_witness :
  let b' := ProgressBar.setValue Dbl.nan ProgressBar.create in
  Dbl.leb (ProgressBar.m_minValue b') (ProgressBar.m_value b') = true
  /\ Dbl.leb (ProgressBar.m_value b') (ProgressBar.m_maxValue b') = true.
Proof.
  destruct setValue_within_range as [H _].
  exact (H Dbl.nan ProgressBar.create eq_refl).
Defined.

Lemma ProgressBar_applyIf_value (c : bool)
  (f : ProgressBar.ProgressBar -> ProgressBar.ProgressBar)
  (b : ProgressBar.ProgressBar) :
  (forall x, ProgressBar.m_value (f x) = ProgressBar.m_value x) ->
  ProgressBar.m_value (ProgressBar.applyIf c f b) = ProgressBar.m_value b.
Proof. intros H. destruct c; [apply H | reflexivity]. Qed.

Lemma Gauge_applyIf_value (c : bool) (f : Gauge.Gauge -> Gauge.Gauge)
  (g : Gauge.Gauge) :
  (forall x, Gauge.m_value (f x) = Gauge.m_value x) ->
  Gauge.m_value (Gauge.applyIf c f g) = Gauge.m_value g.
Proof. intros H. destruct c; [apply H | reflexivity]. Qed.

Lemma hundred_above_zero : Dbl.leb Dbl.zero (Dbl.ofZ 100) = true.
Proof. vm_compute. reflexivity. Qed.

(** X11.  The value of a progress bar or of a gauge read from XML lies
    between 0 and 100, whatever the attributes [min] and [max] of the
    element say: [XMLParser::parseChildElement] sets the value first,
    which bounds it by the range the widget is made with, and the range
    after. *)
Theorem xml_value_in_default_range (elem : QDomNode) :
  (Dbl.leb Dbl.zero (ProgressBar.m_value (ProgressBar.parse elem)) = true
   /\ Dbl.leb (ProgressBar.m_value (ProgressBar.parse elem)) (Dbl.ofZ 100)
      = true)
  /\
  (Dbl.leb Dbl.zero (Gauge.m_value (Gauge.parse elem)) = true
   /\ Dbl.leb (Gauge.m_value (Gauge.parse elem)) (Dbl.ofZ 100) = true).
Proof.
  split.
  - unfold ProgressBar.parse.
    rewrite !ProgressBar_applyIf_value by reflexivity.
    destruct (hasAttribute elem "value").
    + apply (qBound_between Dbl.zero _ (Dbl.ofZ 100)), hundred_above_zero.
    + split; vm_compute; reflexivity.
  - unfold Gauge.parse.
    rewrite !Gauge_applyIf_value
      by (try reflexivity; intros x; destruct (Gauge.styleOf _); reflexivity).
    destruct (hasAttribute elem "value").
    + apply (qBound_between Dbl.zero _ (Dbl.ofZ 100)), hundred_above_zero.
    + split; vm_compute; reflexivity.
Qed.


(** ** The window of a graph *)

Lemma trim_keeps_last (maxPoints : Z) (values : list Dbl.double) :
  0 <= maxPoints ->
  Graph.trim maxPoints values
  = Some (Graph.lastValues (Z.to_nat maxPoints) values).
Proof.
  intros Hm. unfold Graph.lastValues.
  induction values as [|x r IH]; cbn [Graph.trim].
  - replace (Z.of_nat (length (@nil Dbl.double)) <=? maxPoints) with true
      by (symmetry; apply Z.leb_le; cbn; lia).
    reflexivity.
  - destruct (Z.of_nat (length (x :: r)) <=? maxPoints) eqn:E.
    + apply Z.leb_le in E.
      replace (length (x :: r) - Z.to_nat maxPoints)%nat with 0%nat by lia.
      reflexivity.
    + apply Z.leb_gt in E. rewrite IH. cbn [length] in *.
      replace (S (length r) - Z.to_nat maxPoints)%nat
        with (S (length r - Z.to_nat maxPoints)) by lia.
      reflexivity.
Qed.

Lemma trim_undefined (maxPoints : Z) (values : list Dbl.double) :
  maxPoints < 0 -> Graph.trim maxPoints values = None.
Proof.
  intros Hm. induction values as [|x r IH]; cbn [Graph.trim].
  - replace (Z.of_nat (length (@nil Dbl.double)) <=? maxPoints) with false
      by (symmetry; apply Z.leb_gt; cbn; lia).
    reflexivity.
  - replace (Z.of_nat (length (x :: r)) <=? maxPoints) with false
      by (symmetry; apply Z.leb_gt; lia).
    exact IH.
Qed.

Lemma m_values_autoScale (g : Graph.Graph) :
  Graph.m_values (Graph.autoScale g) = Graph.m_values g.
Proof.
  unfold Graph.autoScale. destruct (Graph.m_values g) eqn:E; [exact E |].
  destruct (Graph.m_autoScale g); [reflexivity | exact E].
Qed.

(** X12.  A graph is a window on its newest values: with a capacity
    [m_maxPoints] that is not negative, [Graph::addValue] leaves the last
    [m_maxPoints] values of the old ones followed by the new one, and
    never more than [m_maxPoints]. *)
Theorem addValue_keeps_newest (value : Dbl.double) (g : Graph.Graph) :
  0 <= Graph.m_maxPoints g ->
  exists g',
    Graph.addValue value g = Some g'
    /\ Graph.m_values g'
       = Graph.lastValues (Z.to_nat (Graph.m_maxPoints g))
                          (Graph.m_values g ++ [value])
    /\ Z.of_nat (length (Graph.m_values g')) <= Graph.m_maxPoints g.
Proof.
  intros Hm. unfold Graph.addValue.
  rewrite (trim_keeps_last _ _ Hm). eexists. split; [reflexivity |].
  rewrite m_values_autoScale. cbn [Graph.m_values]. split; [reflexivity |].
  unfold Graph.lastValues. rewrite length_skipn. lia.
Qed.

Lemma addValue_keeps_newest_witness :
  exists g',
    Graph.addValue (Dbl.ofZ 7)
      (Graph.mkGraph [Dbl.ofZ 1; Dbl.ofZ 2; Dbl.ofZ 3] 3 Dbl.zero
                     (Dbl.ofZ 100) false) = Some g'
    /\ Graph.m_values g' = [Dbl.ofZ 2; Dbl.ofZ 3; Dbl.ofZ 7].
Proof.
  destruct (addValue_keeps_newest (Dbl.ofZ 7)
              (Graph.mkGraph [Dbl.ofZ 1; Dbl.ofZ 2; Dbl.ofZ 3] 3 Dbl.zero
                             (Dbl.ofZ 100) false))
    as (g' & E1 & E2 & _); [cbn; lia |].
  exists g'. split; [exact E1 | exact E2].
Defined.

(** X13.  With a negative capacity, [Graph::addValue] and
    [Graph::setValues] have no defined result: the loop that drops the
    oldest values empties the list and then takes from the empty list.
    [Graph::setMaxPoints] accepts such a capacity. *)
Theorem negative_capacity_undefined (c : Z) (g : Graph.Graph) :
  c < 0 ->
  (forall value, Graph.addValue value (Graph.setMaxPoints c g) = None)
  /\ (forall values, Graph.setValues values (Graph.setMaxPoints c g) = None).
Proof.
  intros Hc. split; intros v.
  - unfold Graph.addValue. cbn [Graph.setMaxPoints Graph.m_maxPoints].
    rewrite (trim_undefined _ _ Hc). reflexivity.
  - unfold Graph.setValues. cbn [Graph.setMaxPoints Graph.m_maxPoints].
    rewrite (trim_undefined _ _ Hc). reflexivity.
Qed.

Lemma negative_capacity_undefined_witness :
  Graph.addValue Dbl.one (Graph.setMaxPoints (-1) Graph.create) = None.
Proof.
  destruct (negative_capacity_undefined (-1) Graph.create) as [H _];
    [lia | exact (H Dbl.one)].
Defined.

(** ** The format of a clock *)

(** X14.  A clock element with the attribute [24hour] shows the seconds,
    whatever its attributes [format] and [show-seconds] say: the
    attribute is read last, and [Clock::set24Hour] writes a format with
    seconds. *)
Theorem clock_24hour_shows_seconds (elem : QDomNode) :
  hasAttribute elem "24hour" = true ->
  Clock.m_timeFormat (Clock.parse elem)
  = (if eqs (attribute elem "24hour" "") (qs "true")
     then qs "hh:mm:ss" else qs "h:mm:ss AP")
  /\ Clock.showsSeconds (Clock.m_timeFormat (Clock.parse elem)) = true.
Proof.
  intros H. unfold Clock.parse. rewrite H.
  unfold Clock.applyIf at 1. cbn [Clock.set24Hour Clock.m_timeFormat].
  destruct (eqs (attribute elem "24hour" "") (qs "true"));
    split; reflexivity.
Qed.

Lemma clock_24hour_shows_seconds_witness :
  Clock.m_showSeconds
    (Clock.parse (DomElement (qs "clock")
       [(qs "show-seconds", qs "false"); (qs "24hour", qs "true")] []))
  = false
  /\ Clock.m_timeFormat
       (Clock.parse (DomElement (qs "clock")
          [(qs "show-seconds", qs "false"); (qs "24hour", qs "true")] []))
     = qs "hh:mm:ss".
Proof.
  split; [vm_compute; reflexivity |].
  destruct (clock_24hour_shows_seconds
              (DomElement (qs "clock")
                 [(qs "show-seconds", qs "false"); (qs "24hour", qs "true")]
                 [])
              eq_refl) as [H _].
  exact H.
Defined.

(** ** Blending colours *)

Lemma same_eq (x y : Dbl.double) : DblMore.same x y = true -> x = y.
Proof.
  destruct x as [a | a | | a m e], y as [b | b | | b n f]; cbn;
    intros H; try discriminate H; try reflexivity.
  - apply Bool.eqb_prop in H. congruence.
  - apply Bool.eqb_prop in H. congruence.
  - apply andb_prop in H as [H He]. apply andb_prop in H as [Ha Hm].
    apply Bool.eqb_prop in Ha. apply Pos.eqb_eq in Hm. apply Z.eqb_eq in He.
    congruence.
Qed.

Lemma mixEndsOk_bytes : forallb ColorOps.mixEndsOk bytes = true.
Proof. vm_compute. reflexivity. Qed.

Lemma mixChannel_ends (x y : Z) :
  0 <= x <= 255 -> 0 <= y <= 255 ->
  ColorOps.mixChannel x y Dbl.zero = x /\ ColorOps.mixChannel x y Dbl.one = y.
Proof.
  intros Hx Hy.
  pose proof (proj1 (forallb_forall _ _) mixEndsOk_bytes) as H.
  pose proof (H x (in_bytes x Hx)) as Ex.
  pose proof (H y (in_bytes y Hy)) as Ey.
  unfold ColorOps.mixEndsOk in Ex, Ey.
  repeat match goal with
         | E : _ && _ = true |- _ => apply andb_prop in E as [E ?]
         end.
  repeat match goal with
         | E : DblMore.same _ _ = true |- _ => apply same_eq in E
         | E : (_ =? _) = true |- _ => apply Z.eqb_eq in E
         end.
  unfold ColorOps.mixChannel. split.
  - replace (Dbl.mul (Dbl.ofZ x) (DblMore.sub (Dbl.ofZ 1) Dbl.zero))
      with (Dbl.ofZ x) by congruence.
    replace (Dbl.mul (Dbl.ofZ y) Dbl.zero) with Dbl.zero by congruence.
    replace (DblMore.add (Dbl.ofZ x) Dbl.zero) with (Dbl.ofZ x)
      by congruence.
    congruence.
  - replace (Dbl.mul (Dbl.ofZ x) (DblMore.sub (Dbl.ofZ 1) Dbl.one))
      with Dbl.zero by congruence.
    replace (Dbl.mul (Dbl.ofZ y) Dbl.one) with (Dbl.ofZ y) by congruence.
    replace (DblMore.add Dbl.zero (Dbl.ofZ y)) with (Dbl.ofZ y)
      by congruence.
    congruence.
Qed.

Lemma above_one_positive (r : Dbl.double) :
  Dbl.ltb Dbl.one r = true -> Dbl.ltb Dbl.zero r = true.
Proof.
  rewrite one_eq. unfold Dbl.ltb, Dbl.zero, SFltb.
  destruct r as [s | s | | s m e]; cbn [SFcompare]; try discriminate.
  - destruct s; [discriminate | reflexivity].
  - destruct s; [discriminate | reflexivity].
Qed.

Lemma qBound_low (r : Dbl.double) :
  Dbl.ltb Dbl.zero r = false -> qBound Dbl.zero r Dbl.one = Dbl.zero.
Proof.
  intros H. unfold qBound, qMin, qMax.
  destruct (Dbl.ltb Dbl.one r) eqn:E.
  - rewrite (above_one_positive r E) in H. discriminate H.
  - rewrite H. reflexivity.
Qed.

Lemma qBound_high (r : Dbl.double) :
  Dbl.ltb Dbl.one r = true \/ r = Dbl.one ->
  qBound Dbl.zero r Dbl.one = Dbl.one.
Proof.
  intros [H | ->]; unfold qBound, qMin, qMax.
  - rewrite H. vm_compute. reflexivity.
  - vm_compute. reflexivity.
Qed.

Lemma mixArgb_low (x y : Z * Z * Z * Z) (r : Dbl.double) :
  ColorOps.inBytes x -> ColorOps.inBytes y ->
  Dbl.ltb Dbl.zero r = false ->
  ColorOps.mixArgb x y r
  = (let '(a, red, g, b) := x in fromRgba red g b a).
Proof.
  destruct x as [[[aa ar] ag] ab], y as [[[ba br] bg] bb].
  intros (Ha & Hr & Hg & Hb) (Ha' & Hr' & Hg' & Hb') H.
  unfold ColorOps.mixArgb. rewrite (qBound_low r H).
  rewrite (proj1 (mixChannel_ends ar br Hr Hr')),
    (proj1 (mixChannel_ends ag bg Hg Hg')),
    (proj1 (mixChannel_ends ab bb Hb Hb')),
    (proj1 (mixChannel_ends aa ba Ha Ha')).
  reflexivity.
Qed.

Lemma mixArgb_high (x y : Z * Z * Z * Z) (r : Dbl.double) :
  ColorOps.inBytes x -> ColorOps.inBytes y ->
  Dbl.ltb Dbl.one r = true \/ r = Dbl.one ->
  ColorOps.mixArgb x y r
  = (let '(a, red, g, b) := y in fromRgba red g b a).
Proof.
  destruct x as [[[aa ar] ag] ab], y as [[[ba br] bg] bb].
  intros (Ha & Hr & Hg & Hb) (Ha' & Hr' & Hg' & Hb') H.
  unfold ColorOps.mixArgb. rewrite (qBound_high r H).
  rewrite (proj2 (mixChannel_ends ar br Hr Hr')),
    (proj2 (mixChannel_ends ag bg Hg Hg')),
    (proj2 (mixChannel_ends ab bb Hb Hb')),
    (proj2 (mixChannel_ends aa ba Ha Ha')).
  reflexivity.
Qed.

Lemma inUShort_range (x : Z) : inUShort x = true -> 0 <= x <= 65535.
Proof.
  unfold inUShort. intros H. apply andb_prop in H as [H1 H2].
  apply Z.leb_le in H1. apply Z.leb_le in H2. unfold USHRT_MAX in *. lia.
Qed.

(** The components [argb] reads from a colour are 8-bit values. *)
Lemma argb_inBytes (c : QColor) (x : Z * Z * Z * Z) :
  wellFormed c = true -> argb c = Some x -> ColorOps.inBytes x.
Proof.
  destruct c as [| a r g b | a h s l]; cbn; intros Hw E;
    [| | discriminate E].
  - injection E as <-. cbn. lia.
  - injection E as <-.
    apply andb_prop in Hw as [Hw Hb]. apply andb_prop in Hw as [Hw Hg].
    apply andb_prop in Hw as [Ha Hr]. cbn.
    repeat split; apply qt_div_257_range, inUShort_range; assumption.
Qed.

(** X15.  [Color::mix] of two valid colours of the RGB model, at its
    ends: with a ratio that is not above 0, a NaN included, the result
    has the components of the first colour; with a ratio of 1 or more it
    has those of the second. *)
Theorem mix_ends (a b : QColor) (aa ar ag ab ba br bg bb : Z)
  (ratio : Dbl.double) :
  isValid a = true -> isValid b = true ->
  wellFormed a = true -> wellFormed b = true ->
  argb a = Some (aa, ar, ag, ab) -> argb b = Some (ba, br, bg, bb) ->
  (Dbl.ltb Dbl.zero ratio = false ->
   ColorOps.mix a b ratio = Some (fromRgba ar ag ab aa))
  /\ (Dbl.ltb Dbl.one ratio = true \/ ratio = Dbl.one ->
      ColorOps.mix a b ratio = Some (fromRgba br bg bb ba)).
Proof.
  intros _ _ Wa Wb Ea Eb. unfold ColorOps.mix. rewrite Ea, Eb.
  pose proof (argb_inBytes a _ Wa Ea) as Hx.
  pose proof (argb_inBytes b _ Wb Eb) as Hy.
  split; intros H; f_equal.
  - exact (mixArgb_low _ _ ratio Hx Hy H).
  - exact (mixArgb_high _ _ ratio Hx Hy H).
Qed.

Lemma mix_ends_witness :
  ColorOps.mix (fromRgba 10 20 30 40) (fromRgb 200 100 50) Dbl.nan
  = Some (fromRgba 10 20 30 40)
  /\ ColorOps.mix (fromRgba 10 20 30 40) (fromRgb 200 100 50) (Dbl.ofZ 2)
     = Some (fromRgba 200 100 50 255).
Proof.
  destruct (mix_ends (fromRgba 10 20 30 40) (fromRgb 200 100 50)
              40 10 20 30 255 200 100 50 Dbl.nan
              eq_refl eq_refl eq_refl eq_refl eq_refl eq_refl) as [H0 _].
  destruct (mix_ends (fromRgba 10 20 30 40) (fromRgb 200 100 50)
              40 10 20 30 255 200 100 50 (Dbl.ofZ 2)
              eq_refl eq_refl eq_refl eq_refl eq_refl eq_refl) as [_ H1].
  split; [exact (H0 eq_refl) | exact (H1 (or_introl eq_refl))].
Defined.

Lemma length_upTo (n : Z) : length (ColorOps.upTo n) = Z.to_nat n.
Proof. unfold ColorOps.upTo. rewrite length_map, length_seq. reflexivity. Qed.

Lemma upTo_head (n : Z) :
  1 <= n -> exists rest, ColorOps.upTo n = 0 :: rest.
Proof.
  intros H. unfold ColorOps.upTo.
  destruct (Z.to_nat n) as [|k] eqn:E; [lia |].
  cbn. eexists. reflexivity.
Qed.

Lemma zero_over_not_positive (d : Dbl.double) :
  Dbl.ltb Dbl.zero (DblMore.div (Dbl.ofZ 0) d) = false.
Proof. destruct d as [s | s | | s m e]; try destruct s; reflexivity. Qed.

(** X16.  [Color::gradient] between two valid colours of the RGB model
    gives as many colours as it is asked for, when that is one at least,
    the first with the components of the start; also for a single step,
    where the ratio is the NaN of 0 / 0. *)
Theorem gradient_starts_at_start (start finish : QColor)
  (aa ar ag ab : Z) (y : Z * Z * Z * Z) (steps : Z) :
  isValid start = true -> isValid finish = true ->
  wellFormed start = true -> wellFormed finish = true ->
  argb start = Some (aa, ar, ag, ab) -> argb finish = Some y ->
  1 <= steps ->
  exists rest,
    ColorOps.gradient start finish steps
    = Some (fromRgba ar ag ab aa :: rest)
    /\ Z.of_nat (length rest) = steps - 1.
Proof.
  intros _ _ Ws Wf Es Ef Hn. unfold ColorOps.gradient. rewrite Es, Ef.
  pose proof (length_upTo steps) as Hl.
  destruct (upTo_head steps Hn) as (rest & E). rewrite E in *.
  cbn [map length] in *. eexists. split.
  - f_equal. f_equal.
    exact (mixArgb_low _ _ _ (argb_inBytes _ _ Ws Es)
             (argb_inBytes _ _ Wf Ef) (zero_over_not_positive _)).
  - rewrite length_map. lia.
Qed.

Lemma gradient_starts_at_start_witness :
  exists rest,
    ColorOps.gradient (fromRgb 10 20 30) (fromRgb 110 220 130) 1
    = Some (fromRgba 10 20 30 255 :: rest)
    /\ Z.of_nat (length rest) = 0.
Proof.
  apply (gradient_starts_at_start (fromRgb 10 20 30) (fromRgb 110 220 130)
           255 10 20 30 (255, 110, 220, 130) 1);
    first [reflexivity | lia].
Defined.

(** ** Colours of the HSL model *)

Lemma getHsl_wellFormed (c : QColor) :
  DblMore.wellFormedHsl c = true ->
  exists h s l,
    getHsl c = Some (h, s, l)
    /\ -1 <= h <= 359 /\ 0 <= s <= 255 /\ 0 <= l <= 255
    /\ 0 <= Widget.alpha c <= 255.
Proof.
  destruct c as [| a r g b | a h s l]; cbn; intros H; [| discriminate H |].
  - exists 0, 0, 0. repeat split; lia.
  - apply andb_prop in H as [H Hh]. apply andb_prop in H as [H Hl].
    apply andb_prop in H as [Ha Hs].
    apply inUShort_range in Ha, Hs, Hl.
    eexists _, _, _. split; [reflexivity |].
    split; [| repeat split; apply qt_div_257_range; assumption].
    apply orb_prop in Hh as [Hh | Hh].
    + apply andb_prop in Hh as [H0 H1].
      apply Z.leb_le in H0. apply Z.leb_le in H1.
      replace (h =? USHRT_MAX) with false
        by (symmetry; apply Z.eqb_neq; unfold USHRT_MAX; lia).
      Z.div_mod_to_equations. lia.
    + rewrite Hh. lia.
Qed.

Lemma fromHsla_wellFormed (h s l a : Z) :
  -1 <= h <= 359 -> 0 <= s <= 255 -> 0 <= l <= 255 -> 0 <= a <= 255 ->
  isValid (DblMore.fromHsla h s l a) = true
  /\ DblMore.wellFormedHsl (DblMore.fromHsla h s l a) = true.
Proof.
  intros Hh Hs Hl Ha. unfold DblMore.fromHsla.
  replace (h <? -1) with false by (symmetry; apply Z.ltb_ge; lia).
  rewrite (inByte_true s Hs), (inByte_true l Hl), (inByte_true a Ha).
  cbn [negb orb isValid DblMore.wellFormedHsl]. split; [reflexivity |].
  rewrite !inUShort_scaled by (apply inByte_true; assumption).
  cbn [andb]. destruct (h =? -1) eqn:E; [reflexivity |].
  apply Z.eqb_neq in E. apply orb_true_intro. left.
  apply andb_true_intro. split; apply Z.leb_le;
    Z.quot_rem_to_equations; lia.
Qed.

Lemma qBoundInt_byte (v : Z) : 0 <= DblMore.qBoundInt 0 v 255 <= 255.
Proof. unfold DblMore.qBoundInt. lia. Qed.

(** X17.  [Color::lighten], [darken], [saturate] and [desaturate] of a
    colour of the HSL model, or of an invalid colour, give a valid colour
    of the HSL model whatever the amount: the lightness or saturation is
    bounded to 0..255 after the conversion to [int], also where that
    conversion is out of range (an amount that is huge, infinite or a
    NaN, converted as by [toIntTrunc]). *)
Theorem hsl_adjustments_stay_valid (c : QColor) (amount : Dbl.double) :
  DblMore.wellFormedHsl c = true ->
  Forall (fun result =>
            exists c', result = Some c' /\ isValid c' = true
                       /\ DblMore.wellFormedHsl c' = true)
    [ColorOps.lighten c amount; ColorOps.darken c amount;
     ColorOps.saturate c amount; ColorOps.desaturate c amount].
Proof.
  intros H.
  destruct (getHsl_wellFormed c H) as (h & s & l & E & Hh & Hs & Hl & Ha).
  unfold ColorOps.darken, ColorOps.desaturate, ColorOps.lighten,
    ColorOps.saturate. rewrite E.
  repeat constructor; eexists; (split; [reflexivity |]);
    apply fromHsla_wellFormed;
    first [assumption | apply qBoundInt_byte].
Qed.

Lemma hsl_adjustments_stay_valid_witness :
  exists c', ColorOps.lighten Invalid Dbl.nan = Some c'
             /\ isValid c' = true.
Proof.
  pose proof (hsl_adjustments_stay_valid Invalid Dbl.nan eq_refl) as H.
  inversion H as [| ? ? (c' & E & V & _) _]. exists c'. auto.
Defined.

Lemma in_upTo (n i : Z) : In i (ColorOps.upTo n) -> 0 <= i < n.
Proof.
  unfold ColorOps.upTo. intros H. apply List.in_map_iff in H as (k & <- & Hk).
  apply List.in_seq in Hk. lia.
Qed.

(** X18.  [Color::palette] of a colour of the HSL model, or of an invalid
    colour: a count of zero divides by zero; any other count gives that
    many colours, none for a negative count, and all of them valid. *)
Theorem palette_counts (base : QColor) (count : Z) :
  DblMore.wellFormedHsl base = true ->
  (count = 0 -> ColorOps.palette base count = Some ColorOps.DivisionByZero)
  /\ (count <> 0 ->
      exists colors,
        ColorOps.palette base count = Some (ColorOps.Value colors)
        /\ length colors = Z.to_nat count
        /\ Forall (fun c => isValid c = true) colors).
Proof.
  intros H.
  destruct (getHsl_wellFormed base H) as (h & s & l & E & Hh & Hs & Hl & _).
  unfold ColorOps.palette. rewrite E. split.
  - intros ->. reflexivity.
  - intros Hc.
    replace (count =? 0) with false by (symmetry; apply Z.eqb_neq; exact Hc).
    eexists. split; [reflexivity |]. split.
    + rewrite length_map. apply length_upTo.
    + apply Forall_map. apply List.Forall_forall. intros i Hi.
      apply in_upTo in Hi. cbn. unfold fromHsl.
      rewrite (inByte_true s Hs), (inByte_true l Hl). cbn [negb orb].
      replace (Z.rem (h + i * Z.quot 360 count) 360 <? -1) with false;
        [reflexivity |].
      symmetry. apply Z.ltb_ge.
      assert (0 <= i * Z.quot 360 count).
      { apply Z.mul_nonneg_nonneg; [lia |].
        Z.quot_rem_to_equations. nia. }
      Z.quot_rem_to_equations. lia.
Qed.

Lemma palette_counts_witness :
  ColorOps.palette (fromHsl 100 20 30) 0 = Some ColorOps.DivisionByZero
  /\ exists colors,
       ColorOps.palette (fromHsl 100 20 30) 3
       = Some (ColorOps.Value colors)
       /\ length colors = 3%nat.
Proof.
  destruct (palette_counts (fromHsl 100 20 30) 0 eq_refl) as [H0 _].
  destruct (palette_counts (fromHsl 100 20 30) 3 eq_refl) as [_ H3].
  split; [exact (H0 eq_refl) |].
  destruct (H3 ltac:(discriminate)) as (colors & E & L & _).
  exists colors. split; [exact E | exact L].
Defined.

(** ** The widgets of the application *)

Lemma existsb_eqb_In (w : nat) (l : list nat) :
  existsb (Nat.eqb w) l = true <-> In w l.
Proof.
  rewrite existsb_exists. split.
  - intros (x & Hx & E). apply Nat.eqb_eq in E. subst. exact Hx.
  - intros H. exists w. split; [exact H | apply Nat.eqb_refl].
Qed.

Lemma removeAll_In (w x : nat) (l : list nat) :
  In x (Application.removeAll w l) <-> In x l /\ x <> w.
Proof.
  unfold Application.removeAll. rewrite List.filter_In.
  rewrite negb_true_iff, Nat.eqb_neq. reflexivity.
Qed.

Lemma removeAll_NoDup (w : nat) (l : list nat) :
  List.NoDup l -> List.NoDup (Application.removeAll w l).
Proof. apply List.NoDup_filter. Qed.

Lemma registryOk_register (w : nat) (app : Application.Application) :
  Application.registryOk app ->
  Application.registryOk (Application.registerWidget w app).
Proof.
  intros [Hn H0]. unfold Application.registerWidget.
  destruct (negb (w =? 0)%nat) eqn:E0; [| split; assumption].
  destruct (existsb (Nat.eqb w) (Application.m_widgets app)) eqn:E;
    [split; assumption |].
  apply negb_true_iff, Nat.eqb_neq in E0.
  assert (Hw : ~ In w (Application.m_widgets app)).
  { intros Hin. apply existsb_eqb_In in Hin. congruence. }
  split; cbn.
  - apply List.NoDup_app; [exact Hn | repeat constructor; intros [] |].
    intros x Hx [<- | []]. exact (Hw Hx).
  - rewrite List.in_app_iff. intros [H | [H | []]]; [exact (H0 H) | lia].
Qed.

Lemma registryOk_removeAll (w : nat) (l : list nat) (sig : _) :
  Application.registryOk (Application.mkApplication l sig) ->
  forall sig',
    Application.registryOk
      (Application.mkApplication (Application.removeAll w l) sig').
Proof.
  intros [Hn H0] sig'. split; cbn in *.
  - apply removeAll_NoDup, Hn.
  - rewrite removeAll_In. intros [H _]. exact (H0 H).
Qed.

Lemma registryOk_step (app : Application.Application)
  (op : Application.AppOp) :
  Application.registryOk app ->
  Application.registryOk (Application.step app op).
Proof.
  intros H. destruct op as [w | w | w | ws]; cbn [Application.step].
  - apply registryOk_register, H.
  - unfold Application.unregisterWidget. destruct app as [l sig].
    cbn [Application.m_widgets Application.appSignals].
    destruct (_ <? _)%nat; apply (registryOk_removeAll w l sig H).
  - unfold Application.destroyed. destruct app as [l sig].
    apply (registryOk_removeAll w l sig H).
  - unfold Application.registerAll. revert app H.
    induction ws as [|w ws IH]; intros app H; [exact H |].
    cbn [fold_left]. apply IH, registryOk_register, H.
Qed.

Lemma registryOk_run (ops : list Application.AppOp) :
  Application.registryOk (Application.run ops).
Proof.
  unfold Application.run.
  induction ops as [|op ops IH] using rev_ind.
  - split; [constructor | intros []].
  - rewrite fold_left_app. cbn [fold_left]. apply registryOk_step, IH.
Qed.

Lemma removeAll_length (w : nat) (l : list nat) :
  (length (Application.removeAll w l) <? length l)%nat
  = existsb (Nat.eqb w) l.
Proof.
  induction l as [|x l IH]; [reflexivity |].
  assert (Hle : (length (Application.removeAll w l) <= length l)%nat)
    by apply List.filter_length_le.
  change (Application.removeAll w (x :: l))
    with (if negb (x =? w)%nat then x :: Application.removeAll w l
          else Application.removeAll w l).
  cbn [existsb]. rewrite (Nat.eqb_sym w x).
  destruct (x =? w)%nat eqn:E; cbn [negb orb length].
  - apply Nat.ltb_lt. lia.
  - rewrite <- IH.
    destruct (length (Application.removeAll w l) <? length l)%nat eqn:E1.
    + apply Nat.ltb_lt in E1. apply Nat.ltb_lt. lia.
    + apply Nat.ltb_ge in E1. apply Nat.ltb_ge. lia.
Qed.

Lemma registered_removeAll (w x : nat) (l : list nat) :
  existsb (Nat.eqb x) (Application.removeAll w l)
  = existsb (Nat.eqb x) l && negb (x =? w)%nat.
Proof.
  apply eq_true_iff_eq. rewrite andb_true_iff, !existsb_eqb_In,
    removeAll_In, negb_true_iff, Nat.eqb_neq. reflexivity.
Qed.

Lemma countOf_snoc (p : Application.AppSignal -> bool)
  (l : list nat) (sig : list Application.AppSignal)
  (s : Application.AppSignal) :
  Application.countOf p (Application.mkApplication l (sig ++ [s]))
  = (Application.countOf p (Application.mkApplication l sig)
     + (if p s then 1 else 0))%nat.
Proof.
  unfold Application.countOf. cbn [Application.appSignals].
  rewrite List.filter_app, length_app. cbn [List.filter].
  destruct (p s); reflexivity.
Qed.

Lemma balanced_register (w : nat) (app : Application.Application) :
  Application.balanced app ->
  Application.balanced (Application.registerWidget w app).
Proof.
  intros H. unfold Application.registerWidget.
  destruct (negb (w =? 0)%nat); [| exact H].
  destruct (existsb (Nat.eqb w) (Application.m_widgets app)) eqn:E;
    [exact H |].
  cbn [negb andb]. intros x. specialize (H x). destruct app as [l sig].
  unfold Application.registered in *. cbn [Application.m_widgets] in *.
  rewrite !countOf_snoc. cbn [Application.isAdded Application.isRemoved].
  rewrite existsb_app. cbn [existsb]. rewrite orb_false_r.
  rewrite (Nat.eqb_sym w x).
  destruct (x =? w)%nat eqn:Ex.
  - apply Nat.eqb_eq in Ex. subst x. rewrite E in *. rewrite orb_true_r.
    unfold Application.countOf in *. cbn [Application.appSignals] in *.
    try destruct (existsb (Nat.eqb x) l); lia.
  - rewrite orb_false_r.
    unfold Application.countOf in *. cbn [Application.appSignals] in *.
    try destruct (existsb (Nat.eqb x) l); lia.
Qed.

Lemma balanced_unregister (w : nat) (app : Application.Application) :
  Application.balanced app ->
  Application.balanced (Application.unregisterWidget w app).
Proof.
  intros H x. specialize (H x). unfold Application.unregisterWidget.
  rewrite removeAll_length. destruct app as [l sig].
  unfold Application.registered in *. cbn [Application.m_widgets] in *.
  destruct (existsb (Nat.eqb w) l) eqn:E.
  - rewrite !countOf_snoc. cbn [Application.isAdded Application.isRemoved].
    cbn [Application.m_widgets]. rewrite registered_removeAll.
    rewrite (Nat.eqb_sym w x).
    destruct (x =? w)%nat eqn:Ex.
    + apply Nat.eqb_eq in Ex. subst x. rewrite E in H.
      rewrite andb_false_r.
      unfold Application.countOf in *. cbn [Application.appSignals] in *.
      try destruct (existsb (Nat.eqb x) l); lia.
    + rewrite andb_true_r.
      unfold Application.countOf in *. cbn [Application.appSignals] in *.
      try destruct (existsb (Nat.eqb x) l); lia.
  - cbn [Application.m_widgets]. rewrite registered_removeAll.
    destruct (x =? w)%nat eqn:Ex.
    + apply Nat.eqb_eq in Ex. subst x. rewrite E in *. exact H.
    + rewrite andb_true_r. exact H.
Qed.

Lemma balanced_registerAll (ws : list nat) (app : Application.Application) :
  Application.balanced app ->
  Application.balanced (Application.registerAll ws app).
Proof.
  unfold Application.registerAll. revert app.
  induction ws as [|w ws IH]; intros app H; [exact H |].
  cbn [fold_left]. apply IH, balanced_register, H.
Qed.

Lemma balanced_run (ops : list Application.AppOp) :
  forallb (fun op => negb (Application.isDestroyed op)) ops = true ->
  Application.balanced (Application.run ops).
Proof.
  unfold Application.run.
  induction ops as [|op ops IH] using rev_ind; intros Hd.
  - intros x. reflexivity.
  - rewrite forallb_app in Hd. apply andb_prop in Hd as [Hd Hop].
    rewrite fold_left_app. cbn [fold_left]. specialize (IH Hd).
    destruct op as [w | w | w | ws]; cbn [Application.step].
    + apply balanced_register, IH.
    + apply balanced_unregister, IH.
    + discriminate Hop.
    + apply balanced_registerAll, IH.
Qed.

(** X19.  The list of widgets of the application, after any sequence of
    registrations, removals, loads and destructions: it holds no widget
    twice and no null pointer; and while no widget is destroyed, a widget
    is in the list exactly when [widgetAdded] was emitted for it once
    more than [widgetRemoved]. *)
Theorem registry_consistent (ops : list Application.AppOp) :
  Application.registryOk (Application.run ops)
  /\ (forallb (fun op => negb (Application.isDestroyed op)) ops = true ->
      Application.balanced (Application.run ops)).
Proof. split; [apply registryOk_run | apply balanced_run]. Qed.

Lemma registry_consistent_witness :
  Application.balanced
    (Application.run [Application.Register 4%nat;
                      Application.Load [4%nat; 0%nat; 9%nat];
                      Application.Unregister 4%nat;
                      Application.Unregister 7%nat]).
Proof.
  destruct (registry_consistent
              [Application.Register 4%nat;
               Application.Load [4%nat; 0%nat; 9%nat];
               Application.Unregister 4%nat; Application.Unregister 7%nat])
    as [_ H].
  exact (H eq_refl).
Defined.

(** ** Throttled calls *)

Lemma ran_cons (c : Timers.Call) (rest : list Timers.Call)
  (st : gmap nat Z) :
  Timers.ran (c :: rest) st
  = if fst (Timers.throttle c st)
    then c :: Timers.ran rest (snd (Timers.throttle c st))
    else Timers.ran rest (snd (Timers.throttle c st)).
Proof. cbn [Timers.ran]. destruct (Timers.throttle c st). reflexivity. Qed.

Lemma throttle_other (c : Timers.Call) (st : gmap nat Z) (x : nat) :
  Timers.context c <> x ->
  snd (Timers.throttle c st) !! x = st !! x.
Proof.
  intros H. unfold Timers.throttle.
  destruct (st !! Timers.context c) as [last |];
    [destruct (Timers.ms c <=? Timers.now c - last) |];
    cbn [snd]; try reflexivity; apply lookup_insert_ne; exact H.
Qed.

Lemma throttle_runs (c : Timers.Call) (st : gmap nat Z) :
  fst (Timers.throttle c st) = true ->
  snd (Timers.throttle c st) !! Timers.context c = Some (Timers.now c)
  /\ (forall last, st !! Timers.context c = Some last ->
                   Timers.ms c <= Timers.now c - last).
Proof.
  unfold Timers.throttle.
  destruct (st !! Timers.context c) as [last |] eqn:E.
  - destruct (Timers.ms c <=? Timers.now c - last) eqn:El; cbn [fst snd];
      intros H; [| discriminate H].
    split; [apply lookup_insert_eq |].
    intros l [= <-]. apply Z.leb_le, El.
  - cbn [fst snd]. intros _. split; [apply lookup_insert_eq |].
    intros l H. discriminate H.
Qed.

(** The first callback that runs for a context is late enough after the
    call the map records. *)
Lemma ran_after_recorded (calls : list Timers.Call) :
  forall st x last mid c post,
    st !! x = Some last ->
    Timers.ran calls st = mid ++ c :: post ->
    Timers.context c = x ->
    Forall (fun e => Timers.context e <> x) mid ->
    Timers.ms c <= Timers.now c - last.
Proof.
  induction calls as [|e rest IH]; intros st x last mid c post Hst E Hc Hmid.
  - destruct mid; discriminate E.
  - rewrite ran_cons in E. destruct (fst (Timers.throttle e st)) eqn:Er.
    + destruct mid as [|m mid].
      * injection E as -> _. subst x.
        exact (proj2 (throttle_runs c st Er) last Hst).
      * injection E as -> E. inversion Hmid as [|? ? Hm Hmid']; subst.
        apply (IH (snd (Timers.throttle m st)) (Timers.context c) last mid
                  c post); try assumption; try reflexivity.
        rewrite throttle_other by exact Hm. exact Hst.
    + destruct (Nat.eq_dec (Timers.context e) x) as [Ex | Ex].
      * apply (IH (snd (Timers.throttle e st)) x last mid c post);
          try assumption.
        unfold Timers.throttle in *. rewrite <- Ex in Hst |- *.
        rewrite Hst in *.
        destruct (Timers.ms e <=? Timers.now e - last);
          [discriminate Er | exact Hst].
      * apply (IH (snd (Timers.throttle e st)) x last mid c post);
          try assumption.
        rewrite throttle_other by exact Ex. exact Hst.
Qed.

Lemma ran_spaced (calls : list Timers.Call) :
  forall st pre c1 mid c2 post,
    Timers.ran calls st = pre ++ c1 :: mid ++ c2 :: post ->
    Timers.context c2 = Timers.context c1 ->
    Forall (fun e => Timers.context e <> Timers.context c1) mid ->
    Timers.ms c2 <= Timers.now c2 - Timers.now c1.
Proof.
  induction calls as [|e rest IH]; intros st pre c1 mid c2 post E Hc Hmid.
  - destruct pre; discriminate E.
  - rewrite ran_cons in E. destruct (fst (Timers.throttle e st)) eqn:Er.
    + destruct pre as [|p pre].
      * injection E as -> E.
        apply (ran_after_recorded rest (snd (Timers.throttle c1 st))
                 (Timers.context c1) (Timers.now c1) mid c2 post);
          try assumption.
        exact (proj1 (throttle_runs c1 st Er)).
      * injection E as -> E. exact (IH _ _ _ _ _ _ E Hc Hmid).
    + exact (IH _ _ _ _ _ _ E Hc Hmid).
Qed.

(** X20.  [throttle] spaces the runs of a context: in any sequence of
    calls, from the empty map, a callback that runs for a context does
    so at least the interval of its call after the callback that ran
    before it for the same context. *)
Theorem throttle_spaces_runs (calls pre mid post : list Timers.Call)
  (c1 c2 : Timers.Call) :
  Timers.ran calls ∅ = pre ++ c1 :: mid ++ c2 :: post ->
  Timers.context c2 = Timers.context c1 ->
  Forall (fun e => Timers.context e <> Timers.context c1) mid ->
  Timers.ms c2 <= Timers.now c2 - Timers.now c1.
Proof. apply ran_spaced. Qed.

Lemma throttle_spaces_runs_witness :
  Timers.ran [Timers.mkCall 1 100 0; Timers.mkCall 1 100 60;
              Timers.mkCall 2 100 70; Timers.mkCall 1 100 130] ∅
  = [Timers.mkCall 1 100 0; Timers.mkCall 2 100 70; Timers.mkCall 1 100 130]
  /\ 100 <= 130 - 0.
Proof.
  split; [vm_compute; reflexivity |].
  apply (throttle_spaces_runs
           [Timers.mkCall 1 100 0; Timers.mkCall 1 100 60;
            Timers.mkCall 2 100 70; Timers.mkCall 1 100 130]
           [] [Timers.mkCall 2 100 70] []
           (Timers.mkCall 1 100 0) (Timers.mkCall 1 100 130)).
  - vm_compute. reflexivity.
  - reflexivity.
  - repeat constructor. discriminate.
Defined.

(** ** The body of a rule *)

Lemma contains_app (a b : QString) (c : ascii) :
  contains (a ++ b) c = contains a c || contains b c.
Proof. unfold contains. apply existsb_app. Qed.

Lemma indexOf_found (pre post : QString) (c : ascii) :
  contains pre c = false -> indexOf (pre ++ c :: post) c = size pre.
Proof.
  induction pre as [|x pre IH]; cbn [app indexOf]; intros H.
  - rewrite eqc_refl. reflexivity.
  - unfold contains in H. cbn [existsb] in H.
    apply orb_false_elim in H as [Hx Hp]. rewrite eqc_sym in Hx. rewrite Hx.
    rewrite (IH Hp).
    replace (size pre <? 0) with false
      by (symmetry; apply Z.ltb_ge; apply size_nonneg).
    unfold size. cbn [length]. lia.
Qed.

Lemma indexOf_absent (s : QString) (c : ascii) :
  contains s c = false -> indexOf s c = -1.
Proof.
  induction s as [|x s IH]; cbn [indexOf]; intros H; [reflexivity |].
  unfold contains in H. cbn [existsb] in H.
  apply orb_false_elim in H as [Hx Hp]. rewrite eqc_sym in Hx. rewrite Hx.
  rewrite (IH Hp). reflexivity.
Qed.

Lemma left_prefix (pre post : QString) (c : ascii) :
  QStr.left (pre ++ c :: post) (size pre) = pre.
Proof.
  unfold QStr.left.
  replace (size pre <? 0) with false
    by (symmetry; apply Z.ltb_ge; apply size_nonneg).
  replace (size (pre ++ c :: post) <=? size pre) with false.
  - cbn [orb]. unfold size. rewrite Nat2Z.id. apply take_app_length.
  - symmetry. apply Z.leb_gt. rewrite size_app. unfold size. cbn [length]. lia.
Qed.

Lemma mid_rest (pre post : QString) (c : ascii) :
  mid (pre ++ c :: post) (size pre + 1) (-1) = post.
Proof.
  unfold mid.
  replace (size (pre ++ c :: post) <? size pre + 1) with false
    by (symmetry; apply Z.ltb_ge; rewrite size_app; unfold size;
        cbn [length]; lia).
  replace (size pre + 1 <? 0) with false
    by (symmetry; apply Z.ltb_ge; pose proof (size_nonneg pre); lia).
  cbn [Z.ltb Z.compare orb].
  replace (Z.to_nat (size pre + 1)) with (length (pre ++ [c]))
    by (rewrite length_app; unfold size; cbn [length]; lia).
  replace (pre ++ c :: post) with ((pre ++ [c]) ++ post)
    by (rewrite <- app_assoc; reflexivity).
  apply drop_app_length.
Qed.

Lemma blank_app (a b : QString) :
  CSSRules.blank (a ++ b) = CSSRules.blank a && CSSRules.blank b.
Proof. apply forallb_app. Qed.

Lemma plain_app (a b : QString) :
  CSSRules.plain (a ++ b) = CSSRules.plain a && CSSRules.plain b.
Proof. apply forallb_app. Qed.

Lemma dropSpaces_blank (ws s : QString) :
  CSSRules.blank ws = true -> dropSpaces (ws ++ s) = dropSpaces s.
Proof.
  induction ws as [|c ws IH]; intros H; [reflexivity |].
  cbn [CSSRules.blank forallb] in H. apply andb_prop in H as [Hc Hw].
  cbn [app dropSpaces]. rewrite Hc. exact (IH Hw).
Qed.

Lemma trimmed_lead (ws s : QString) :
  CSSRules.blank ws = true -> trimmed (ws ++ s) = trimmed s.
Proof.
  intros H. unfold trimmed. rewrite (dropSpaces_blank ws s H). reflexivity.
Qed.

Lemma blank_rev (ws : QString) :
  CSSRules.blank ws = true -> CSSRules.blank (rev ws) = true.
Proof.
  intros H. unfold CSSRules.blank in *. apply forallb_forall.
  intros c Hc. apply in_rev in Hc.
  exact (proj1 (forallb_forall _ _) H c Hc).
Qed.

Lemma ends_cons (s : QString) :
  CSSRules.ends s = true ->
  exists c m, s = c :: m /\ isSpace c = false
              /\ isSpace (List.last (c :: m) c) = false.
Proof.
  destruct s as [|c m]; [discriminate |]. unfold CSSRules.ends.
  intros H. apply andb_prop in H as [H1 H2].
  apply negb_true_iff in H1, H2. eauto.
Qed.

Lemma ends_trimmed (s : QString) : CSSRules.ends s = true -> trimmed s = s.
Proof.
  intros H. destruct (ends_cons s H) as (c & m & -> & Hc & Hl).
  exact (trimmed_id1 c m c Hc Hl).
Qed.

(** White space around a text that has none at its ends is what
    [trimmed] takes off. *)
Lemma trimmed_around (ws1 s ws2 : QString) :
  CSSRules.blank ws1 = true -> CSSRules.blank ws2 = true ->
  CSSRules.ends s = true -> trimmed (ws1 ++ s ++ ws2) = s.
Proof.
  intros H1 H2 Hs. rewrite (trimmed_lead ws1 _ H1).
  rewrite <- (ends_trimmed s Hs) at 2.
  destruct (ends_cons s Hs) as (c & m & -> & Hc & _).
  unfold trimmed. cbn [app dropSpaces]. rewrite Hc.
  change (c :: m ++ ws2) with ((c :: m) ++ ws2).
  rewrite rev_app_distr, (dropSpaces_blank (rev ws2) _ (blank_rev ws2 H2)).
  reflexivity.
Qed.

Lemma blank_contains (ws : QString) (c : ascii) :
  CSSRules.blank ws = true -> isSpace c = false -> contains ws c = false.
Proof.
  intros H Hc. induction ws as [|x ws IH]; [reflexivity |].
  cbn [CSSRules.blank forallb] in H. apply andb_prop in H as [Hx Hw].
  unfold contains. cbn [existsb]. fold (contains ws c). rewrite (IH Hw).
  destruct (eqc c x) eqn:E; [| reflexivity].
  apply Ascii.eqb_eq in E. subst x. congruence.
Qed.

Lemma plain_contains (s : QString) (c : ascii) :
  CSSRules.plain s = true -> CSSRules.plainChar c = false ->
  contains s c = false.
Proof.
  intros H Hc. induction s as [|x s IH]; [reflexivity |].
  cbn [CSSRules.plain forallb] in H. apply andb_prop in H as [Hx Hs].
  unfold contains. cbn [existsb]. fold (contains s c). rewrite (IH Hs).
  destruct (eqc c x) eqn:E; [| reflexivity].
  apply Ascii.eqb_eq in E. subst x. congruence.
Qed.

(** A declaration as [toCSS] writes it, when [parseRule] reads it. *)
Lemma parseDeclaration_entry (st : StyleSheet) (pre : QString)
  (d : string * QString) :
  CSSRules.blank pre = true ->
  CSSRules.entryOk d = true ->
  CSSRules.parseDeclaration st (pre ++ qs (fst d) ++ qs ": " ++ snd d)
  = CSSRules.applyEntry st d.
Proof.
  intros Hpre Hd. destruct d as [name v]. cbn [fst snd] in *.
  unfold CSSRules.entryOk, CSSRules.nameOk in Hd. cbn [fst snd] in Hd.
  apply andb_prop in Hd as [Hd Ve]. apply andb_prop in Hd as [Hd Vp].
  apply andb_prop in Hd as [Hd Ne]. apply andb_prop in Hd as [Hd Np].
  apply andb_prop in Hd as [N1 N3].
  apply eqs_eq in N1. apply negb_true_iff in N3.
  unfold CSSRules.parseDeclaration, CSSRules.applyEntry. cbn [fst snd].
  assert (Hc : contains (pre ++ qs name) ":" = false).
  { rewrite contains_app, N3, (blank_contains pre ":" Hpre eq_refl).
    reflexivity. }
  replace (pre ++ qs name ++ qs ": " ++ v)
    with ((pre ++ qs name) ++ ":"%char :: " "%char :: v)
    by (rewrite <- !app_assoc; reflexivity).
  rewrite (indexOf_found _ _ _ Hc).
  replace (size (pre ++ qs name) <? 0) with false
    by (symmetry; apply Z.ltb_ge; apply size_nonneg).
  rewrite left_prefix, mid_rest.
  rewrite (trimmed_lead pre (qs name) Hpre), N1.
  change (trimmed (" "%char :: v)) with (trimmed v).
  rewrite (ends_trimmed v Ve).
  reflexivity.
Qed.

Lemma splitSkipEmpty_cons (p rest : QString) (sep : ascii) :
  contains p sep = false -> p <> [] ->
  splitSkipEmpty (p ++ sep :: rest) sep = p :: splitSkipEmpty rest sep.
Proof.
  intros H Hne. unfold splitSkipEmpty. rewrite (split_at_sep p sep rest H).
  cbn [List.filter]. destruct p; [congruence | reflexivity].
Qed.

Lemma entry_piece (pre : QString) (d : string * QString) :
  CSSRules.blank pre = true -> CSSRules.entryOk d = true ->
  contains (pre ++ qs (fst d) ++ qs ": " ++ snd d) ";" = false
  /\ pre ++ qs (fst d) ++ qs ": " ++ snd d <> [].
Proof.
  intros Hpre Hd.
  unfold CSSRules.entryOk, CSSRules.nameOk in Hd.
  apply andb_prop in Hd as [Hd Ve]. apply andb_prop in Hd as [Hd Vp].
  apply andb_prop in Hd as [Hd Ne]. apply andb_prop in Hd as [Hd Np].
  split.
  - rewrite !contains_app, (blank_contains pre ";" Hpre eq_refl),
      (plain_contains _ ";" Np eq_refl), (plain_contains _ ";" Vp eq_refl).
    reflexivity.
  - destruct pre; [| discriminate].
    destruct (qs (fst d)); [discriminate Ne | discriminate].
Qed.

(** The body that [toCSS] writes, less the end of its last line, is read
    declaration by declaration. *)
Lemma parseBody_cut (ds : list (string * QString)) :
  forall (body : QString) (st : StyleSheet),
    forallb CSSRules.entryOk ds = true ->
    body ++ ["010"%char]
    = "010"%char :: concat (map CSSRules.declaration ds) ->
    fold_left CSSRules.parseDeclaration (splitSkipEmpty body ";") st
    = fold_left CSSRules.applyEntry ds st.
Proof.
  induction ds as [|d ds IH]; intros body st Hok Hb.
  - cbn [map concat] in Hb.
    apply (app_inj_tail body [] "010"%char "010"%char) in Hb as [-> _].
    reflexivity.
  - cbn [forallb] in Hok. apply andb_prop in Hok as [Hd Hds].
    cbn [map concat] in Hb. unfold CSSRules.declaration at 1 in Hb.
    set (tail := "010"%char :: concat (map CSSRules.declaration ds)) in *.
    destruct (exists_last (l := tail)) as (body' & e & He);
      [subst tail; discriminate |].
    set (piece := ["010"%char; " "%char; " "%char] ++ qs (fst d) ++ qs ": "
                  ++ snd d).
    assert (Hb' : body ++ ["010"%char] = (piece ++ ";"%char :: body') ++ [e]).
    { rewrite Hb. subst piece. rewrite <- !app_assoc.
      cbn [app qs list_ascii_of_string]. rewrite <- He.
      reflexivity. }
    apply app_inj_tail in Hb' as [-> <-].
    destruct (entry_piece ["010"%char; " "%char; " "%char] d eq_refl Hd)
      as [Hc Hne].
    rewrite (splitSkipEmpty_cons piece body' ";" Hc Hne).
    cbn [fold_left]. subst piece.
    rewrite (parseDeclaration_entry st ["010"%char; " "%char; " "%char] d
               eq_refl Hd).
    apply IH; [exact Hds | symmetry; exact He].
Qed.

Lemma last_cons (c : ascii) (l : QString) (d : ascii) :
  List.last (c :: l) d = List.last l c.
Proof.
  revert c d. induction l as [|x l IH]; intros c d; [reflexivity |].
  change (List.last (c :: x :: l) d) with (List.last (x :: l) d).
  rewrite (IH x d), (IH x c). reflexivity.
Qed.

(** The body that [toCSS] writes ends its last line after a semicolon. *)
Lemma body_end (ds : list (string * QString)) :
  exists body,
    "010"%char :: concat (map CSSRules.declaration ds)
    = body ++ ["010"%char]
    /\ List.last body ";"%char = ";"%char.
Proof.
  destruct ds as [|d0 ds0] using rev_ind.
  - exists []. split; reflexivity.
  - clear IHds0. rewrite map_app, concat_app. cbn [map concat].
    rewrite app_nil_r. unfold CSSRules.declaration at 2.
    exists ("010"%char :: concat (map CSSRules.declaration ds0)
            ++ qs "  " ++ qs (fst d0) ++ qs ": " ++ snd d0 ++ [";"%char]).
    split.
    + cbn [app]. rewrite <- !app_assoc. reflexivity.
    + rewrite last_cons.
      rewrite !app_assoc. apply last_of_app. discriminate.
Qed.

(** The body of a rule of which the lines are those [toCSS] writes, as
    [parseString] hands it to [parseRule], is read declaration by
    declaration. *)
Lemma parseBody_written (ds : list (string * QString)) :
  forallb CSSRules.entryOk ds = true ->
  CSSRules.parseBody
    (trimmed ("010"%char :: concat (map CSSRules.declaration ds)))
  = fold_left CSSRules.applyEntry ds StyleSheet0.
Proof.
  intros Hok. destruct ds as [|d ds]; [reflexivity |].
  cbn [forallb] in Hok. apply andb_prop in Hok as [Hd Hds].
  destruct (body_end ds) as (body & Hb & Hl).
  cbn [map concat]. unfold CSSRules.declaration at 1.
  set (piece := qs (fst d) ++ qs ": " ++ snd d).
  assert (E : "010"%char :: (qs "  " ++ qs (fst d) ++ qs ": " ++ snd d
                             ++ [";"%char; "010"%char])
                            ++ concat (map CSSRules.declaration ds)
              = ["010"%char; " "%char; " "%char]
                ++ (piece ++ ";"%char :: body) ++ ["010"%char]).
  { subst piece. rewrite <- !app_assoc. cbn [app qs list_ascii_of_string].
    rewrite <- ?app_assoc. cbn [app]. rewrite <- Hb. reflexivity. }
  rewrite E. clear E.
  assert (He : CSSRules.ends (piece ++ ";"%char :: body) = true).
  { pose proof Hd as Hd'.
    unfold CSSRules.entryOk, CSSRules.nameOk in Hd'.
    apply andb_prop in Hd' as [Hd' _]. apply andb_prop in Hd' as [Hd' _].
    apply andb_prop in Hd' as [_ Ne].
    destruct (ends_cons _ Ne) as (c & m & En & Hc & _).
    subst piece. rewrite En. cbn [app CSSRules.ends]. rewrite Hc.
    cbn [negb andb].
    change (c :: ?a ++ ?b) with ((c :: a) ++ b).
    rewrite (last_of_app _ (";"%char :: body) c) by discriminate.
    rewrite last_cons, Hl. reflexivity. }
  rewrite (trimmed_around ["010"%char; " "%char; " "%char] _ ["010"%char]
             eq_refl eq_refl He).
  unfold CSSRules.parseBody.
  destruct (entry_piece [] d eq_refl Hd) as [Hc Hne]. cbn [app] in Hc, Hne.
  rewrite (splitSkipEmpty_cons piece body ";" Hc Hne).
  cbn [fold_left]. subst piece.
  pose proof (parseDeclaration_entry StyleSheet0 [] d eq_refl Hd) as Hp.
  cbn [app] in Hp. rewrite Hp.
  apply parseBody_cut; [exact Hds | symmetry; exact Hb].
Qed.

(** ** The patterns of [parseString] *)

Lemma firstSome_none {A : Type} (f : nat -> option A) (l : list nat) :
  (forall n, f n = None) -> Regex.firstSome f l = None.
Proof.
  intros H. induction l as [|n l IH]; cbn [Regex.firstSome];
    [reflexivity |]. rewrite H. exact IH.
Qed.

Lemma firstSome_some {A : Type} (f : nat -> option A) (l : list nat)
  (n : nat) (a : A) :
  Regex.firstSome f l = Some (n, a) -> f n = Some a.
Proof.
  induction l as [|x l IH]; cbn [Regex.firstSome]; intros H;
    [discriminate H |].
  destruct (f x) eqn:E; [| exact (IH H)].
  injection H as <- <-. exact E.
Qed.

Lemma candidates_greedy (min run : nat) :
  (min <= run)%nat ->
  Regex.candidates min run true = run :: rev (seq min (run - min)).
Proof.
  intros H. unfold Regex.candidates.
  replace (S run - min)%nat with (S (run - min)) by lia.
  rewrite seq_S, rev_app_distr. cbn [rev app]. f_equal. lia.
Qed.

Lemma runLength_exact (k : Regex.CharClass) (p rest : QString) :
  forallb (Regex.inClass k) p = true ->
  match rest with [] => True | c :: _ => Regex.inClass k c = false end ->
  Regex.runLength k (p ++ rest) = length p.
Proof.
  intros Hp Hr. induction p as [|c p IH].
  - destruct rest as [|c rest]; [reflexivity |].
    cbn [app Regex.runLength length]. rewrite Hr. reflexivity.
  - cbn [app Regex.runLength length]. cbn [forallb] in Hp.
    apply andb_prop in Hp as [Hc Hp]. rewrite Hc.
    f_equal. exact (IH Hp).
Qed.

(** No comment without a star. *)
Lemma no_comment (s : QString) : forall before,
  contains s "*" = false -> Regex.search CSSRules.commentRe before s = None.
Proof.
  induction s as [|c s IH]; intros before H; [reflexivity |].
  unfold contains in H. cbn [existsb] in H.
  apply orb_false_elim in H as [Hc Hs].
  cbn [Regex.search].
  assert (E : Regex.matchItems CSSRules.commentRe (c :: s) = None).
  { unfold CSSRules.commentRe. cbn [Regex.matchItems].
    destruct s as [|d s].
    - cbn [startsWith qs list_ascii_of_string]. rewrite andb_false_r.
      reflexivity.
    - cbn [existsb] in Hs. apply orb_false_elim in Hs as [Hd _].
      cbn [startsWith qs list_ascii_of_string]. rewrite Hd.
      rewrite andb_false_r. reflexivity. }
  rewrite E. apply IH. exact Hs.
Qed.

Lemma comments_removed (css : QString) :
  contains css "*" = false ->
  Regex.removeMatches (S (length css)) CSSRules.commentRe css = css.
Proof.
  intros H. cbn [Regex.removeMatches]. unfold Regex.firstMatch.
  rewrite (no_comment css [] H). reflexivity.
Qed.

Lemma noBrace_class (s : QString) :
  contains s "{" = false -> contains s "}" = false ->
  forallb (Regex.inClass (Regex.NoneOf ["{"; "}"]%char)) s = true.
Proof.
  induction s as [|c s IH]; intros H1 H2; [reflexivity |].
  unfold contains in H1, H2. cbn [existsb] in H1, H2.
  apply orb_false_elim in H1 as [A1 B1]. apply orb_false_elim in H2 as [A2 B2].
  cbn [forallb Regex.inClass existsb].
  rewrite (eqc_sym c "{"), (eqc_sym c "}"), A1, A2. cbn [orb negb andb].
  exact (IH B1 B2).
Qed.

Lemma firstn_app_length (p rest : QString) : firstn (length p) (p ++ rest) = p.
Proof. apply take_app_length. Qed.

Lemma skipn_app_length (p rest : QString) :
  skipn (length p) (p ++ rest) = rest.
Proof. apply drop_app_length. Qed.

Lemma matchItems_lit (text : string) (items : list Regex.Item) (s : QString) :
  startsWith s (qs text) = true ->
  Regex.matchItems (Regex.Lit text :: items) s
  = Regex.matchItems items (skipn (length (qs text)) s).
Proof. intros H. cbn [Regex.matchItems]. rewrite H. reflexivity. Qed.

(** A greedy repetition takes the whole run when what follows matches
    after it. *)
Lemma matchItems_greedy (k : Regex.CharClass) (min : nat) (capture : bool)
  (items : list Regex.Item) (s : QString) (run : nat)
  (groups : list QString) (rest : QString) :
  Regex.runLength k s = run -> (min <= run)%nat ->
  Regex.matchItems items (skipn run s) = Some (groups, rest) ->
  Regex.matchItems (Regex.Rep k min true capture :: items) s
  = Some (if capture then firstn run s :: groups else groups, rest).
Proof.
  intros Hrun Hmin H. cbn [Regex.matchItems].
  rewrite Hrun, candidates_greedy by exact Hmin.
  cbn [Regex.firstSome]. rewrite H. reflexivity.
Qed.

(** A rule at the start of a text is what the pattern of a rule finds. *)
Lemma rule_at_start (selector body rest : QString) :
  selector <> [] ->
  contains selector "{" = false -> contains selector "}" = false ->
  contains body "{" = false -> contains body "}" = false ->
  Regex.firstMatch CSSRules.ruleRe
    (selector ++ "{"%char :: body ++ "}"%char :: rest)
  = Some ([], [selector; body], rest).
Proof.
  intros Hne S1 S2 B1 B2. unfold Regex.firstMatch.
  assert (E : Regex.matchItems CSSRules.ruleRe
                (selector ++ "{"%char :: body ++ "}"%char :: rest)
              = Some ([selector; body], rest)).
  { unfold CSSRules.ruleRe.
    rewrite (matchItems_greedy _ 1 true _ _ (length selector)
               [body] rest).
    - rewrite firstn_app_length. reflexivity.
    - apply runLength_exact; [exact (noBrace_class selector S1 S2) |].
      reflexivity.
    - destruct selector; [congruence | cbn [length]; lia].
    - rewrite skipn_app_length.
      rewrite (matchItems_greedy _ 0 false _ _ O [body] rest);
        [reflexivity | reflexivity | lia |].
      cbn [skipn]. rewrite matchItems_lit by reflexivity.
      cbn [qs list_ascii_of_string length skipn].
      rewrite (matchItems_greedy _ 0 true _ _ (length body) [] rest).
      + rewrite drop_0, firstn_app_length. reflexivity.
      + apply runLength_exact; [exact (noBrace_class body B1 B2) |].
        reflexivity.
      + lia.
      + rewrite drop_0, skipn_app_length.
        rewrite matchItems_lit by reflexivity. reflexivity. }
  destruct selector as [|s0 sel]; [congruence |].
  cbn [app Regex.search] in *. rewrite E. reflexivity.
Qed.

(** What a sequence of items matches is taken from the start of the
    text. *)
Lemma matchItems_shorter (items : list Regex.Item) :
  forall (s : QString) (groups : list QString) (rest : QString),
    Regex.matchItems items s = Some (groups, rest) ->
    (length rest <= length s)%nat.
Proof.
  induction items as [|i items IH]; intros s groups rest H.
  - cbn in H. injection H as _ <-. lia.
  - destruct i as [text | k min greedy capture]; cbn [Regex.matchItems] in H.
    + destruct (startsWith s (qs text)); [| discriminate H].
      apply IH in H. rewrite length_skipn in H. lia.
    + destruct (Regex.firstSome _ _) as [[n [g r]] |] eqn:E;
        [| discriminate H].
      injection H as _ <-. apply firstSome_some in E. apply IH in E.
      rewrite length_skipn in E. lia.
Qed.

Lemma matchItems_rep_inv (k : Regex.CharClass) (min : nat)
  (greedy capture : bool) (items : list Regex.Item) (s : QString)
  (groups : list QString) (rest : QString) :
  Regex.matchItems (Regex.Rep k min greedy capture :: items) s
  = Some (groups, rest) ->
  exists n g, Regex.matchItems items (skipn n s) = Some (g, rest).
Proof.
  cbn [Regex.matchItems]. intros H.
  destruct (Regex.firstSome _ _) as [[n [g r]] |] eqn:E; [| discriminate H].
  injection H as _ <-. apply firstSome_some in E. eauto.
Qed.

Lemma matchItems_lit_inv (text : string) (items : list Regex.Item)
  (s : QString) (groups : list QString) (rest : QString) :
  Regex.matchItems (Regex.Lit text :: items) s = Some (groups, rest) ->
  startsWith s (qs text) = true
  /\ Regex.matchItems items (skipn (length (qs text)) s)
     = Some (groups, rest).
Proof.
  cbn [Regex.matchItems]. intros H.
  destruct (startsWith s (qs text)); [auto | discriminate H].
Qed.

(** A rule holds a brace: what is left after it is shorter. *)
Lemma rule_progress (s : QString) : forall before b groups rest,
  Regex.search CSSRules.ruleRe before s = Some (b, groups, rest) ->
  (length rest < length s)%nat.
Proof.
  induction s as [|c s IH]; intros before b groups rest H.
  - cbn in H. discriminate H.
  - cbn [Regex.search] in H.
    destruct (Regex.matchItems CSSRules.ruleRe (c :: s))
      as [[g r] |] eqn:E.
    + injection H as _ _ <-. unfold CSSRules.ruleRe in E.
      apply matchItems_rep_inv in E as (n1 & g1 & E).
      apply matchItems_rep_inv in E as (n2 & g2 & E).
      apply matchItems_lit_inv in E as [Hs E].
      apply matchItems_shorter in E. rewrite !length_skipn in E.
      set (x := skipn n2 (skipn n1 (c :: s))) in *.
      assert (Hx : (length x <= length (c :: s))%nat)
        by (subst x; rewrite !length_skipn; lia).
      destruct x as [|x0 x]; [discriminate Hs |].
      cbn [qs list_ascii_of_string length] in *. lia.
    + apply IH in H. cbn [length]. lia.
Qed.

(** The rules found do not depend on the bound of their number. *)
Lemma globalMatch_fuel (f1 : nat) : forall (f2 : nat) (s : QString),
  (length s < f1)%nat -> (length s < f2)%nat ->
  Regex.globalMatch f1 CSSRules.ruleRe s
  = Regex.globalMatch f2 CSSRules.ruleRe s.
Proof.
  induction f1 as [|f1 IH]; intros f2 s H1 H2; [lia |].
  destruct f2 as [|f2]; [lia |]. cbn [Regex.globalMatch].
  destruct (Regex.firstMatch CSSRules.ruleRe s) as [[[b g] rest] |] eqn:E;
    [| reflexivity].
  apply rule_progress in E. f_equal. apply IH; lia.
Qed.

(** A text that starts with a rule, and holds no star: the rule is read,
    then what follows it. *)
Lemma parseString_rule (selector body rest : QString)
  (m : gmap string StyleSheet) :
  selector <> [] ->
  contains selector "{" = false -> contains selector "}" = false ->
  contains body "{" = false -> contains body "}" = false ->
  contains (selector ++ body ++ rest) "*" = false ->
  CSSRules.parseString (selector ++ "{"%char :: body ++ "}"%char :: rest) m
  = CSSRules.parseString rest
      (CSSRules.parseRule (trimmed selector) (trimmed body) m).
Proof.
  intros Hne S1 S2 B1 B2 Hstar.
  rewrite !contains_app in Hstar.
  apply orb_false_elim in Hstar as [St Hstar].
  apply orb_false_elim in Hstar as [Bt Rt].
  set (css := selector ++ "{"%char :: body ++ "}"%char :: rest).
  assert (Hc : contains css "*" = false).
  { subst css. rewrite contains_app. unfold contains at 2. cbn [existsb].
    fold (contains (body ++ "}"%char :: rest) "*"). rewrite contains_app.
    unfold contains at 3. cbn [existsb]. fold (contains rest "*").
    rewrite St, Bt, Rt. reflexivity. }
  unfold CSSRules.parseString.
  rewrite (comments_removed css Hc), (comments_removed rest Rt).
  change (Regex.globalMatch (S (length css)) CSSRules.ruleRe css)
    with (match Regex.firstMatch CSSRules.ruleRe css with
          | Some (_, groups, rest') =>
              groups :: Regex.globalMatch (length css) CSSRules.ruleRe rest'
          | None => []
          end).
  unfold css at 1.
  rewrite (rule_at_start selector body rest Hne S1 S2 B1 B2).
  cbn [fold_left]. f_equal.
  apply globalMatch_fuel; [| lia].
  subst css. rewrite length_app. cbn [length]. rewrite length_app.
  cbn [length]. lia.
Qed.

(** X21.  [parseString] reads the rules of a text in their order: a text
    without a star that starts with a selector (not empty, without
    braces), an opening brace, a body without braces and a closing brace
    is read as that rule, handed to [parseRule] with selector and body
    trimmed, and then as the text that follows. *)
Theorem rules_read_in_order (selector body rest : QString)
  (m : gmap string StyleSheet) :
  selector <> [] ->
  contains selector "{" = false -> contains selector "}" = false ->
  contains body "{" = false -> contains body "}" = false ->
  contains (selector ++ body ++ rest) "*" = false ->
  CSSRules.parseString (selector ++ "{"%char :: body ++ "}"%char :: rest) m
  = CSSRules.parseString rest
      (CSSRules.parseRule (trimmed selector) (trimmed body) m).
Proof. apply parseString_rule. Qed.

Lemma rules_read_in_order_witness :
  CSSRules.parseString (qs ".a, .b { color: red; } .c { }") ∅
  = CSSRules.parseString (qs " .c { }")
      (CSSRules.parseRule (qs ".a, .b") (qs "color: red;") ∅).
Proof.
  apply (rules_read_in_order (qs ".a, .b ") (qs " color: red; ")
           (qs " .c { }") ∅); first [discriminate | reflexivity].
Defined.

(** ** The table of rules *)

Lemma parseString_nil (m : gmap string StyleSheet) :
  CSSRules.parseString [] m = m.
Proof. reflexivity. Qed.

Lemma insert_all_lookup (v : StyleSheet) (l : list QString) :
  forall (m : gmap string StyleSheet) (k : string),
    In k (map (fun sel => CSSRules.key (trimmed sel)) l) \/ m !! k = Some v ->
    fold_left (fun m sel => <[CSSRules.key (trimmed sel) := v]> m) l m !! k
    = Some v.
Proof.
  induction l as [|x l IH]; intros m k H; cbn [fold_left].
  - destruct H as [[] | H]. exact H.
  - apply IH. cbn [map In] in H.
    destruct (decide (CSSRules.key (trimmed x) = k)) as [<- | Hne].
    + right. apply lookup_insert_eq.
    + destruct H as [[H | H] | H]; [congruence | left; exact H |].
      right. rewrite lookup_insert_ne by exact Hne. exact H.
Qed.

Lemma insert_all_other (v : StyleSheet) (l : list QString) :
  forall (m : gmap string StyleSheet) (k : string),
    (forall s, In s l -> CSSRules.key (trimmed s) <> k) ->
    fold_left (fun m sel => <[CSSRules.key (trimmed sel) := v]> m) l m !! k
    = m !! k.
Proof.
  induction l as [|x l IH]; intros m k H; cbn [fold_left]; [reflexivity |].
  rewrite IH by (intros s Hs; apply H; right; exact Hs).
  apply lookup_insert_ne. apply H. left. reflexivity.
Qed.

Lemma key_inj (a b : QString) : CSSRules.key a = CSSRules.key b -> a = b.
Proof.
  unfold CSSRules.key. intros H.
  rewrite <- (list_ascii_of_string_of_list_ascii a),
          <- (list_ascii_of_string_of_list_ascii b), H.
  reflexivity.
Qed.

Lemma lowerc_lowerc (c : ascii) : lowerc (lowerc c) = lowerc c.
Proof. destruct c as [[] [] [] [] [] [] [] []]; reflexivity. Qed.

Lemma toLower_toLower (s : QString) : toLower (toLower s) = toLower s.
Proof.
  unfold toLower. rewrite map_map. apply map_ext. exact lowerc_lowerc.
Qed.

(** X22.  A rule replaces what the table held for its selectors, whole:
    after [parseString] has read a rule, [getStyle] for one of its class
    selectors answers the style of the body of that rule alone, whatever
    an earlier rule had set for the class. *)
Theorem rule_replaces_earlier (selector body s : QString)
  (m : gmap string StyleSheet) :
  selector <> [] ->
  contains selector "{" = false -> contains selector "}" = false ->
  contains body "{" = false -> contains body "}" = false ->
  contains (selector ++ body) "*" = false ->
  In s (split (trimmed selector) ",") ->
  startsWith (trimmed s) (qs ".") = true ->
  CSSParser.getStyle
    (CSSRules.parseString (selector ++ "{"%char :: body ++ ["}"%char]) m)
    (trimmed s)
  = CSSRules.parseBody (trimmed body).
Proof.
  intros Hne S1 S2 B1 B2 Hstar Hs Hdot.
  rewrite parseString_rule, parseString_nil;
    try assumption; [| rewrite app_nil_r; exact Hstar].
  unfold CSSParser.getStyle. rewrite Hdot. unfold CSSRules.parseRule.
  fold (CSSRules.key (trimmed s)).
  rewrite (insert_all_lookup (CSSRules.parseBody (trimmed body)));
    [reflexivity |].
  left. apply (in_map (fun sel => CSSRules.key (trimmed sel))). exact Hs.
Qed.

Lemma rule_replaces_earlier_witness :
  fontSize
    (CSSParser.getStyle
       (CSSRules.parseString (qs ".a { color: red }")
          (CSSRules.parseString (qs ".a { font-size: 20px }") ∅))
       (qs ".a")) = 12.
Proof.
  rewrite (rule_replaces_earlier (qs ".a ") (qs " color: red ") (qs ".a")
             (CSSRules.parseString (qs ".a { font-size: 20px }") ∅));
    first [discriminate | reflexivity | (left; reflexivity)].
Defined.

(** X23.  [getTypeStyle] looks a type up by its name in lower case, and
    [parseRule] keeps the selectors as they are written: a rule of which
    the selectors hold a capital letter changes nothing of what
    [getTypeStyle] answers, for any type name. *)
Theorem capital_selector_never_found (selector body typeName : QString)
  (m : gmap string StyleSheet) :
  selector <> [] ->
  contains selector "{" = false -> contains selector "}" = false ->
  contains body "{" = false -> contains body "}" = false ->
  contains (selector ++ body) "*" = false ->
  (forall s, In s (split (trimmed selector) ",") ->
             toLower (trimmed s) <> trimmed s) ->
  CSSParser.getTypeStyle
    (CSSRules.parseString (selector ++ "{"%char :: body ++ ["}"%char]) m)
    typeName
  = CSSParser.getTypeStyle m typeName.
Proof.
  intros Hne S1 S2 B1 B2 Hstar Hcap.
  rewrite parseString_rule, parseString_nil;
    try assumption; [| rewrite app_nil_r; exact Hstar].
  unfold CSSParser.getTypeStyle, CSSRules.parseRule.
  fold (CSSRules.key (toLower typeName)).
  rewrite insert_all_other; [reflexivity |].
  intros s Hs E. apply key_inj in E. apply (Hcap s Hs).
  rewrite E. apply toLower_toLower.
Qed.

Lemma capital_selector_never_found_witness :
  CSSParser.getTypeStyle (CSSRules.parseString (qs "Label { color: red }") ∅)
               (qs "Label")
  = CSSParser.getTypeStyle ∅ (qs "Label").
Proof.
  apply (capital_selector_never_found (qs "Label ") (qs " color: red ")
           (qs "Label") ∅); try first [discriminate | reflexivity].
  intros s [<- | []]. discriminate.
Defined.

(** ** The values [toCSS] writes *)

Lemma digitsOf_chars (P : ascii -> bool) (fuel : nat) :
  (forall d, 0 <= d < 10 -> P (digitChar d) = true) ->
  forall n acc,
    forallb P acc = true -> forallb P (digitsOf fuel 10 n acc) = true.
Proof.
  intros HP. induction fuel as [|k IH]; intros n acc Hacc; [exact Hacc |].
  rewrite digitsOf_S.
  assert (Hacc' : forallb P (digitChar (n mod 10) :: acc) = true).
  { cbn [forallb]. rewrite Hacc, HP; [reflexivity |].
    apply Z.mod_pos_bound. lia. }
  destruct (n / 10 =? 0); [exact Hacc' | apply IH; exact Hacc'].
Qed.

Lemma digitsOf_nonempty (fuel : nat) : forall n acc,
  acc <> [] -> digitsOf fuel 10 n acc <> [].
Proof.
  induction fuel as [|k IH]; intros n acc Hacc; [exact Hacc |].
  rewrite digitsOf_S. destruct (n / 10 =? 0); [discriminate |].
  apply IH. discriminate.
Qed.

Lemma digit_plain (d : Z) :
  0 <= d < 10 ->
  CSSRules.plainChar (digitChar d) && negb (isSpace (digitChar d))
  && negb (eqc (digitChar d) " ") = true.
Proof.
  intros H.
  assert (E : d = 0 \/ d = 1 \/ d = 2 \/ d = 3 \/ d = 4 \/ d = 5 \/ d = 6
              \/ d = 7 \/ d = 8 \/ d = 9) by lia.
  repeat (destruct E as [-> | E]; [reflexivity |]).
  subst d. reflexivity.
Qed.

(** Every character of the text of a number is plain and no white
    space, and there is one at least. *)
Lemma number_chars (n : Z) :
  number n <> []
  /\ forallb (fun c => CSSRules.plainChar c && negb (isSpace c)
                       && negb (eqc c " ")) (number n) = true.
Proof.
  unfold number. destruct (n <? 0).
  - split; [discriminate |]. cbn [forallb].
    change (CSSRules.plainChar "-" && negb (isSpace "-")
            && negb (eqc "-" " ")) with true.
    cbn [andb]. apply digitsOf_chars; [exact digit_plain | reflexivity].
  - split.
    + change 12%nat with (S 11). rewrite digitsOf_S.
      destruct (n / 10 =? 0); [discriminate |].
      apply digitsOf_nonempty. discriminate.
    + apply digitsOf_chars; [exact digit_plain | reflexivity].
Qed.

Lemma all_plain (s : QString) :
  forallb (fun c => CSSRules.plainChar c && negb (isSpace c)
                    && negb (eqc c " ")) s = true ->
  CSSRules.plain s = true /\ contains s " " = false.
Proof.
  induction s as [|c s IH]; intros H; [split; reflexivity |].
  cbn [forallb] in H. apply andb_prop in H as [Hc Hs].
  apply andb_prop in Hc as [Hc H3]. apply andb_prop in Hc as [H1 H2].
  destruct (IH Hs) as [I1 I2]. split.
  - cbn [CSSRules.plain forallb]. rewrite H1. exact I1.
  - unfold contains. cbn [existsb]. fold (contains s " "). rewrite I2.
    rewrite eqc_sym. apply negb_true_iff in H3. rewrite H3. reflexivity.
Qed.

Lemma all_ends (s : QString) :
  s <> [] ->
  forallb (fun c => CSSRules.plainChar c && negb (isSpace c)
                    && negb (eqc c " ")) s = true ->
  CSSRules.ends s = true.
Proof.
  intros Hne H. destruct s as [|c m]; [congruence |].
  assert (Hall : forall x, In x (c :: m) -> isSpace x = false).
  { intros x Hx. pose proof (proj1 (forallb_forall _ _) H x Hx) as Hp.
    apply andb_prop in Hp as [Hp _]. apply andb_prop in Hp as [_ Hp].
    apply negb_true_iff. exact Hp. }
  unfold CSSRules.ends. rewrite (Hall c) by (left; reflexivity).
  rewrite (Hall (List.last (c :: m) c)); [reflexivity |].
  destruct (exists_last (l := c :: m)) as (k & e & E); [discriminate |].
  rewrite E, (last_of_app k [e] c) by discriminate.
  cbn [List.last]. rewrite <- E. rewrite E. apply in_or_app. right.
  left. reflexivity.
Qed.

Lemma number_plain (n : Z) :
  CSSRules.plain (number n) = true /\ CSSRules.ends (number n) = true
  /\ contains (number n) " " = false.
Proof.
  destruct (number_chars n) as [Hne H].
  destruct (all_plain _ H) as [P1 P2].
  split; [exact P1 | split; [apply all_ends; assumption | exact P2]].
Qed.

(** What is left of a text after white space is taken off its end. *)
Lemma ends_last (s : QString) (d : ascii) :
  CSSRules.ends s = true -> s <> [] /\ isSpace (List.last s d) = false.
Proof.
  intros H. destruct (ends_cons s H) as (c & m & -> & _ & Hl).
  split; [discriminate |].
  rewrite last_cons. rewrite last_cons in Hl. exact Hl.
Qed.

Lemma app_nonempty_r (a b : QString) : b <> [] -> a ++ b <> [].
Proof. intros H E. apply app_eq_nil in E as [_ E]. exact (H E). Qed.

(** A text that starts as [a] starts and ends as [b] ends. *)
Lemma ends_parts (a b : QString) :
  CSSRules.ends a = true -> CSSRules.ends b = true ->
  CSSRules.ends (a ++ b) = true.
Proof.
  intros Ha Hb. destruct (ends_cons a Ha) as (c & m & -> & Hc & _).
  destruct (ends_last b c Hb) as [Hne Hl].
  cbn [app CSSRules.ends]. rewrite Hc. cbn [negb andb].
  change (c :: m ++ b) with ((c :: m) ++ b).
  rewrite (last_of_app (c :: m) b c Hne), Hl. reflexivity.
Qed.

Lemma ends_after (m b : QString) (d : ascii) :
  CSSRules.ends b = true -> isSpace (List.last (m ++ b) d) = false.
Proof.
  intros Hb. destruct (ends_last b d Hb) as [Hne Hl].
  rewrite (last_of_app m b d Hne). exact Hl.
Qed.

Lemma ends_between (a m b : QString) :
  CSSRules.ends a = true -> CSSRules.ends b = true ->
  CSSRules.ends (a ++ m ++ b) = true.
Proof.
  intros Ha Hb. destruct (ends_cons a Ha) as (c & k & -> & Hc & _).
  destruct (ends_last b c Hb) as [Hne Hl].
  cbn [app CSSRules.ends]. rewrite Hc. cbn [negb andb].
  change (c :: k ++ m ++ b) with ((c :: k) ++ m ++ b).
  rewrite app_assoc, (last_of_app _ b c Hne), Hl. reflexivity.
Qed.

Lemma hexDigit_plain (c : ascii) :
  0 <= h2i c ->
  CSSRules.plainChar c = true /\ isSpace c = false /\ eqc "x" c = false.
Proof.
  destruct c as [[] [] [] [] [] [] [] []]; intros H;
    first [ repeat split; reflexivity | exfalso; revert H; vm_compute; auto ].
Qed.

(** The text [Color::toString] gives a colour. *)
Lemma toString_shape (c : QColor) (t : QString) :
  wellFormed c = true -> Color.toString c true = Some t ->
  (c = Invalid /\ t = qs "transparent")
  \/ exists a r g b,
       argb c = Some (a, r, g, b) /\ isValid c = true
       /\ 0 <= a <= 255 /\ 0 <= r <= 255 /\ 0 <= g <= 255 /\ 0 <= b <= 255
       /\ ((a < 255
            /\ t = qs "rgba(" ++ number r ++ qs ", " ++ number g ++ qs ", "
                   ++ number b ++ qs ", " ++ number a ++ qs ")")
           \/ (a = 255
               /\ t = "#"%char :: hexPadded r 2 ++ hexPadded g 2
                                ++ hexPadded b 2)).
Proof.
  intros Hwf Ht. destruct c as [| a r g b | a h sa l].
  - left. split; [reflexivity |]. cbn in Ht. injection Ht as <-. reflexivity.
  - right. cbn [wellFormed] in Hwf.
    apply andb_prop in Hwf as [Hwf Wb]. apply andb_prop in Hwf as [Hwf Wg].
    apply andb_prop in Hwf as [Wa Wr].
    pose proof (qt_div_257_range a (inUShort_range a Wa)) as Ha.
    pose proof (qt_div_257_range r (inUShort_range r Wr)) as Hr.
    pose proof (qt_div_257_range g (inUShort_range g Wg)) as Hg.
    pose proof (qt_div_257_range b (inUShort_range b Wb)) as Hb.
    exists (qt_div_257 a), (qt_div_257 r), (qt_div_257 g), (qt_div_257 b).
    repeat (split; [first [reflexivity | assumption | lia] |]).
    unfold Color.toString, Color.toRgba, Color.toHex, QCol.name in Ht.
    cbn [isValid negb argb andb] in Ht.
    destruct (Z.ltb_spec (qt_div_257 a) 255) as [Hlt | Hge];
      injection Ht as <-; [left | right]; (split; [lia | reflexivity]).
  - cbn in Ht. discriminate Ht.
Qed.

Lemma hex_plain (n : Z) :
  0 <= n <= 255 ->
  exists c1 c2, hexPadded n 2 = [c1; c2]
                /\ CSSRules.plainChar c1 = true /\ CSSRules.plainChar c2 = true
                /\ isSpace c2 = false /\ eqc "x" c2 = false
                /\ eqc " " c1 = false /\ eqc " " c2 = false.
Proof.
  intros Hn. destruct (hex_text n Hn) as (c1 & c2 & E & H1 & H2 & _).
  exists c1, c2.
  destruct (hexDigit_plain c1 H1) as (P1 & S1 & _).
  destruct (hexDigit_plain c2 H2) as (P2 & S2 & X2).
  repeat split; try assumption.
  - destruct (eqc " " c1) eqn:E1; [| reflexivity].
    apply Ascii.eqb_eq in E1. subst c1. discriminate S1.
  - destruct (eqc " " c2) eqn:E2; [| reflexivity].
    apply Ascii.eqb_eq in E2. subst c2. discriminate S2.
Qed.

(** The text of a colour can stand as a value, and is no gradient. *)
Lemma colour_text (c : QColor) (t : QString) :
  wellFormed c = true -> Color.toString c true = Some t ->
  CSSRules.plain t = true /\ CSSRules.ends t = true
  /\ startsWith t (qs "linear-gradient") = false.
Proof.
  intros Hwf Ht.
  destruct (toString_shape c t Hwf Ht)
    as [[_ ->] | (a & r & g & b & _ & _ & Ha & Hr & Hg & Hb
                  & [[_ ->] | [_ ->]])].
  - repeat split; reflexivity.
  - destruct (number_plain r) as (Pr & Er & _).
    destruct (number_plain g) as (Pg & Eg & _).
    destruct (number_plain b) as (Pb & Eb & _).
    destruct (number_plain a) as (Pa & Ea & _).
    split; [| split].
    + rewrite !plain_app, Pr, Pg, Pb, Pa. reflexivity.
    + replace (qs "rgba(" ++ number r ++ qs ", " ++ number g ++ qs ", "
               ++ number b ++ qs ", " ++ number a ++ qs ")")
        with (qs "rgba(" ++ (number r ++ qs ", " ++ number g ++ qs ", "
                             ++ number b ++ qs ", " ++ number a) ++ qs ")")
        by (rewrite <- !app_assoc; reflexivity).
      apply ends_between; reflexivity.
    + reflexivity.
  - destruct (hex_plain r Hr) as (r1 & r2 & -> & R1 & R2 & _).
    destruct (hex_plain g Hg) as (g1 & g2 & -> & G1 & G2 & _).
    destruct (hex_plain b Hb) as (b1 & b2 & -> & B1 & B2 & B3 & _).
    cbn [app]. split; [| split].
    + cbn [CSSRules.plain forallb]. rewrite R1, R2, G1, G2, B1, B2.
      reflexivity.
    + cbn [CSSRules.ends List.last]. rewrite B3. reflexivity.
    + reflexivity.
Qed.

(** A valid colour written by [Color::toString] and read by
    [Color::parse] is valid and has the alpha, red, green and blue it
    had. *)
Lemma colour_read (c : QColor) (t : QString) :
  wellFormed c = true -> isValid c = true ->
  Color.toString c true = Some t ->
  isValid (Color.parse t) = true /\ argb (Color.parse t) = argb c.
Proof.
  intros Hwf Hv Ht.
  destruct (toString_shape c t Hwf Ht)
    as [[-> _] | (a & r & g & b & Hc & _ & Ha & Hr & Hg & Hb
                  & [[_ ->] | [-> ->]])].
  - discriminate Hv.
  - rewrite parse_rgba_text, fromRgba_bytes by assumption.
    split; [reflexivity |]. rewrite Hc. cbn [argb].
    rewrite !qt_div_257_exact by assumption. reflexivity.
  - rewrite parse_hex_text by assumption. unfold fromRgb.
    rewrite fromRgba_bytes by (assumption || lia).
    split; [reflexivity |]. rewrite Hc. cbn [argb].
    rewrite !qt_div_257_exact by (assumption || lia). reflexivity.
Qed.

(** The family between quotes. *)
Lemma remove_absent (s : QString) (c : ascii) :
  contains s c = false -> remove s c = s.
Proof.
  induction s as [|x s IH]; intros H; [reflexivity |].
  unfold contains in H. cbn [existsb] in H.
  apply orb_false_elim in H as [Hx Hs].
  unfold remove. cbn [List.filter]. rewrite eqc_sym, Hx. cbn [negb].
  f_equal. exact (IH Hs).
Qed.

Lemma remove_app (a b : QString) (c : ascii) :
  remove (a ++ b) c = remove a c ++ remove b c.
Proof. apply List.filter_app. Qed.

Lemma unquoted_quoted (family : QString) :
  contains family "034" = false -> contains family "'" = false ->
  CSSRules.unquoted ("034"%char :: family ++ ["034"%char]) = family.
Proof.
  intros H1 H2. unfold CSSRules.unquoted.
  change ("034"%char :: family ++ ["034"%char])
    with (["034"%char] ++ family ++ ["034"%char]).
  rewrite !remove_app, (remove_absent family _ H1).
  change (remove ["034"%char] "034") with (@nil ascii).
  rewrite app_nil_r. cbn [app]. exact (remove_absent family _ H2).
Qed.

Lemma quoted_value (family : QString) :
  CSSRules.plain family = true ->
  CSSRules.plain ("034"%char :: family ++ ["034"%char]) = true
  /\ CSSRules.ends ("034"%char :: family ++ ["034"%char]) = true.
Proof.
  intros H. split.
  - change ("034"%char :: family ++ ["034"%char])
      with (["034"%char] ++ family ++ ["034"%char]).
    rewrite !plain_app, H. reflexivity.
  - exact (ends_between ["034"%char] family ["034"%char] eq_refl eq_refl).
Qed.

(** The pixels of a number followed by [px]. *)
Lemma removeFrom_absent (p0 : ascii) (p s : QString) :
  contains s p0 = false -> removeFrom (p0 :: p) O s = s.
Proof.
  induction s as [|c s IH]; intros H; [reflexivity |].
  unfold contains in H. cbn [existsb] in H.
  apply orb_false_elim in H as [Hc Hs].
  cbn [removeFrom isEmpty negb startsWith andb]. rewrite Hc. cbn [andb].
  f_equal. exact (IH Hs).
Qed.

Lemma startsWith_self (s : QString) : startsWith s s = true.
Proof.
  pose proof (startsWith_app s []) as H. rewrite app_nil_r in H. exact H.
Qed.

Lemma removeFrom_skip (q p : QString) : removeFrom q (length p) p = [].
Proof. induction p as [|x p IH]; [reflexivity | exact IH]. Qed.

Lemma removeFrom_suffix (p0 : ascii) (p ds : QString) :
  contains ds p0 = false ->
  removeFrom (p0 :: p) O (ds ++ p0 :: p) = ds.
Proof.
  induction ds as [|c ds IH]; intros H.
  - cbn [app removeFrom]. rewrite startsWith_self.
    cbn [isEmpty negb andb length Nat.pred]. apply removeFrom_skip.
  - unfold contains in H. cbn [existsb] in H.
    apply orb_false_elim in H as [Hc Hs].
    cbn [app removeFrom isEmpty negb startsWith andb]. rewrite Hc.
    cbn [andb]. f_equal. exact (IH Hs).
Qed.

Lemma digits_contain (ds : QString) (c : ascii) :
  forallb isDigit ds = true -> isDigit c = false -> contains ds c = false.
Proof.
  intros H Hc. induction ds as [|x ds IH]; [reflexivity |].
  cbn [forallb] in H. apply andb_prop in H as [Hx Hd].
  unfold contains. cbn [existsb]. fold (contains ds c). rewrite (IH Hd).
  destruct (eqc c x) eqn:E; [| reflexivity].
  apply Ascii.eqb_eq in E. subst x. congruence.
Qed.

Lemma digit_lower (c : ascii) : isDigit c = true -> lowerc c = c.
Proof.
  destruct c as [[] [] [] [] [] [] [] []]; intros H;
    first [reflexivity | discriminate H].
Qed.

Lemma toLower_digits (ds : QString) :
  forallb isDigit ds = true -> toLower ds = ds.
Proof.
  induction ds as [|c ds IH]; intros H; [reflexivity |].
  cbn [forallb] in H. apply andb_prop in H as [Hc Hd].
  cbn [toLower map]. rewrite (digit_lower c Hc). f_equal. exact (IH Hd).
Qed.

Lemma parsePixels_px (n : Z) :
  0 <= n <= INT_MAX -> CSSParser.parsePixels (number n ++ qs "px") = n.
Proof.
  intros Hn. unfold INT_MAX in Hn.
  destruct (number_nonneg n) as (c & ds & E & Hd & Hv); [lia |].
  destruct (number_plain n) as (_ & He & _).
  pose proof (toIntOk_number n) as Hi. unfold INT_MIN, INT_MAX in Hi.
  specialize (Hi ltac:(lia)).
  unfold CSSParser.parsePixels.
  rewrite (ends_trimmed (number n ++ qs "px"))
    by (apply ends_parts; [exact He | reflexivity]).
  rewrite toLower_app, E, (toLower_digits _ Hd).
  change (toLower (qs "px")) with (qs "px").
  unfold removeStr.
  change (qs "px") with ("p"%char :: qs "x").
  rewrite (removeFrom_suffix "p" (qs "x") (c :: ds))
    by (apply digits_contain; [exact Hd | reflexivity]).
  change (qs "pt") with ("p"%char :: qs "t").
  change (qs "em") with ("e"%char :: qs "m").
  change (qs "rem") with ("r"%char :: qs "em").
  rewrite (removeFrom_absent "p" (qs "t") (c :: ds)),
    (removeFrom_absent "e" (qs "m") (c :: ds)),
    (removeFrom_absent "r" (qs "em") (c :: ds))
    by (apply digits_contain; [exact Hd | reflexivity]).
  unfold toInt. rewrite <- E, Hi. reflexivity.
Qed.

(** ** A rule written and read *)

Lemma entry_contains (d : string * QString) (c : ascii) :
  CSSRules.entryOk d = true -> CSSRules.plainChar c = false ->
  eqc c ";" = false ->
  contains (CSSRules.declaration d) c = false.
Proof.
  intros Hd Hc Hs.
  unfold CSSRules.entryOk, CSSRules.nameOk in Hd.
  apply andb_prop in Hd as [Hd _]. apply andb_prop in Hd as [Hd Vp].
  apply andb_prop in Hd as [Hd _]. apply andb_prop in Hd as [_ Np].
  unfold CSSRules.declaration. rewrite !contains_app.
  rewrite (plain_contains _ c Np Hc), (plain_contains _ c Vp Hc).
  unfold contains. cbn [existsb qs list_ascii_of_string]. rewrite Hs.
  destruct c as [[] [] [] [] [] [] [] []];
    first [reflexivity | discriminate Hc].
Qed.

Lemma entries_contain (ds : list (string * QString)) (c : ascii) :
  forallb CSSRules.entryOk ds = true -> CSSRules.plainChar c = false ->
  eqc c ";" = false ->
  contains (concat (map CSSRules.declaration ds)) c = false.
Proof.
  intros Hds Hc Hs. induction ds as [|d ds IH]; [reflexivity |].
  cbn [forallb] in Hds. apply andb_prop in Hds as [Hd Hds].
  cbn [map concat]. rewrite contains_app, (entry_contains d c Hd Hc Hs).
  exact (IH Hds).
Qed.

Lemma parseString_newline (m : gmap string StyleSheet) :
  CSSRules.parseString ["010"%char] m = m.
Proof. reflexivity. Qed.

(** A rule for a class of which the lines are those [toCSS] writes: what
    [getStyle] answers for the class after [parseString] has read the
    rule is the default style with the declarations applied in their
    order. *)
Lemma written_rule_read (ds : list (string * QString))
  (className rest : QString) (m : gmap string StyleSheet) :
  forallb CSSRules.entryOk ds = true ->
  CSSRules.classSelector className = true ->
  rest = [] \/ rest = ["010"%char] ->
  CSSParser.getStyle
    (CSSRules.parseString
       (className ++ qs " {" ++ "010"%char
        :: concat (map CSSRules.declaration ds) ++ "}"%char :: rest) m)
    className
  = fold_left CSSRules.applyEntry ds StyleSheet0.
Proof.
  intros Hds Hsel Hrest. unfold CSSRules.classSelector in Hsel.
  apply andb_prop in Hsel as [Hsel Hcomma].
  apply andb_prop in Hsel as [Hsel Hplain].
  apply andb_prop in Hsel as [Hdot Hends].
  apply negb_true_iff in Hcomma.
  set (text := concat (map CSSRules.declaration ds)).
  assert (Hshape :
            className ++ qs " {" ++ "010"%char :: text ++ "}"%char :: rest
            = (className ++ [" "%char])
              ++ "{"%char :: ("010"%char :: text) ++ "}"%char :: rest).
  { rewrite <- !app_assoc. reflexivity. }
  assert (Htext : forall c, CSSRules.plainChar c = false ->
                            eqc c ";" = false ->
                            contains ("010"%char :: text) c = false).
  { intros c Hc Hs. unfold contains. cbn [existsb]. fold (contains text c).
    subst text. rewrite (entries_contain ds c Hds Hc Hs).
    destruct c as [[] [] [] [] [] [] [] []];
      first [reflexivity | discriminate Hc]. }
  assert (Hname : forall c, CSSRules.plainChar c = false ->
                            contains (className ++ [" "%char]) c = false).
  { intros c Hc. rewrite contains_app, (plain_contains _ c Hplain Hc).
    destruct c as [[] [] [] [] [] [] [] []];
      first [reflexivity | discriminate Hc]. }
  assert (Hstar : contains rest "*" = false)
    by (destruct Hrest as [-> | ->]; reflexivity).
  rewrite Hshape, parseString_rule.
  - replace (CSSRules.parseString rest _) with
      (CSSRules.parseRule (trimmed (className ++ [" "%char]))
         (trimmed ("010"%char :: text)) m)
      by (destruct Hrest as [-> | ->]; reflexivity).
    pose proof (trimmed_around [] className [" "%char] eq_refl eq_refl Hends)
      as Ht. cbn [app] in Ht. rewrite Ht.
    unfold CSSRules.parseRule. rewrite (split_without_sep _ _ Hcomma).
    cbn [fold_left]. rewrite (ends_trimmed className Hends).
    unfold CSSParser.getStyle. rewrite Hdot.
    fold (CSSRules.key className). rewrite lookup_insert_eq. cbn [default].
    subst text. apply parseBody_written. exact Hds.
  - destruct className; discriminate.
  - apply Hname. reflexivity.
  - apply Hname. reflexivity.
  - apply Htext; reflexivity.
  - apply Htext; reflexivity.
  - rewrite (contains_app (className ++ [" "%char])),
      (contains_app ("010"%char :: text)), (Hname "*"%char eq_refl),
      (Htext "*"%char eq_refl eq_refl), Hstar. reflexivity.
Qed.

(** ** The lines of [toCSS] *)

Lemma joinLines_cons (l : option (list (string * QString)))
  (ls : list (option (list (string * QString))))
  (ds : list (string * QString)) :
  CSSRules.joinLines (l :: ls) = Some ds ->
  exists a r, l = Some a /\ CSSRules.joinLines ls = Some r /\ ds = a ++ r.
Proof.
  unfold CSSRules.joinLines. cbn [fold_right]. intros H.
  destruct l as [a |]; [| discriminate H].
  destruct (fold_right _ _ ls) as [r |]; [| discriminate H].
  injection H as <-. eauto.
Qed.

Lemma lineIf_some (c : bool) (name : string) (value : option QString)
  (a : list (string * QString)) :
  CSSRules.lineIf c name value = Some a ->
  (c = false /\ a = [])
  \/ (c = true /\ exists t, value = Some t /\ a = [(name, t)]).
Proof.
  unfold CSSRules.lineIf. destruct c; intros H.
  - right. split; [reflexivity |]. destruct value as [t |];
      [| discriminate H]. injection H as <-. eauto.
  - left. injection H as <-. auto.
Qed.

(** A line of another property leaves a member as it is. *)
Lemma line_frame {A : Type} (f : StyleSheet -> A) (c : bool) (name : string)
  (value : option QString) (a : list (string * QString)) (st : StyleSheet) :
  CSSRules.lineIf c name value = Some a ->
  (forall st t, f (CSSRules.applyEntry st (name, t)) = f st) ->
  f (fold_left CSSRules.applyEntry a st) = f st.
Proof.
  intros H Hf.
  destruct (lineIf_some c name value a H) as [[_ ->] | [_ (t & _ & ->)]];
    [reflexivity | apply Hf].
Qed.

(** A line is a declaration that is read as it is written when its name
    and its value are. *)
Lemma line_entries (c : bool) (name : string) (value : option QString)
  (a : list (string * QString)) :
  CSSRules.lineIf c name value = Some a ->
  CSSRules.nameOk name = true ->
  (forall t, value = Some t ->
             CSSRules.plain t = true /\ CSSRules.ends t = true) ->
  forallb CSSRules.entryOk a = true.
Proof.
  intros H Hn Hv.
  destruct (lineIf_some c name value a H) as [[_ ->] | [_ (t & E & ->)]];
    [reflexivity |].
  destruct (Hv t E) as [P1 P2]. cbn [forallb]. unfold CSSRules.entryOk.
  cbn [fst snd]. rewrite Hn, P1, P2. reflexivity.
Qed.

Lemma px_value (n : Z) :
  CSSRules.plain (number n ++ qs "px") = true
  /\ CSSRules.ends (number n ++ qs "px") = true.
Proof.
  destruct (number_plain n) as (P & E & _). split.
  - rewrite plain_app, P. reflexivity.
  - apply ends_parts; [exact E | reflexivity].
Qed.

Lemma border_value (n : Z) (c : QColor) (t : QString) :
  wellFormed c = true -> Color.toString c true = Some t ->
  CSSRules.plain (number n ++ qs "px solid " ++ t) = true
  /\ CSSRules.ends (number n ++ qs "px solid " ++ t) = true.
Proof.
  intros Hwf Ht. destruct (number_plain n) as (P & E & _).
  destruct (colour_text c t Hwf Ht) as (Pt & Et & _). split.
  - rewrite !plain_app, P, Pt. reflexivity.
  - apply ends_between; assumption.
Qed.

Lemma shadow_value (x y b : Z) (c : QColor) (t : QString) :
  wellFormed c = true -> Color.toString c true = Some t ->
  CSSRules.plain (number x ++ qs "px " ++ number y ++ qs "px " ++ number b
                  ++ qs "px " ++ t) = true
  /\ CSSRules.ends (number x ++ qs "px " ++ number y ++ qs "px " ++ number b
                    ++ qs "px " ++ t) = true.
Proof.
  intros Hwf Ht. destruct (number_plain x) as (Px & Ex & _).
  destruct (number_plain y) as (Py & _). destruct (number_plain b) as (Pb & _).
  destruct (colour_text c t Hwf Ht) as (Pt & Et & _). split.
  - rewrite !plain_app, Px, Py, Pb, Pt. reflexivity.
  - replace (number x ++ qs "px " ++ number y ++ qs "px " ++ number b
             ++ qs "px " ++ t)
      with (number x ++ (qs "px " ++ number y ++ qs "px " ++ number b
                         ++ qs "px ") ++ t)
      by (rewrite <- !app_assoc; reflexivity).
    apply ends_between; assumption.
Qed.

Ltac frame_side :=
  intros;
  first [ reflexivity
        | unfold CSSRules.applyEntry, CSSRules.parseProperty; cbn [fst snd];
          destruct (startsWith _ (qs "linear-gradient")); reflexivity ].

Ltac frames f :=
  repeat match goal with
         | L : CSSRules.lineIf _ _ _ = Some ?a |- _ =>
             rewrite (line_frame f _ _ _ a _ L) by frame_side
         end.

Lemma apply_background (st : StyleSheet) (t : QString) :
  startsWith t (qs "linear-gradient") = false ->
  CSSRules.applyEntry st ("background-color"%string, t)
  = CSSRules.withBackgroundColor (Color.parse t) st.
Proof.
  intros H. unfold CSSRules.applyEntry, CSSRules.parseProperty.
  cbn [fst snd]. rewrite H. reflexivity.
Qed.

Lemma invalid_colour (c : QColor) : isValid c = false -> c = Invalid.
Proof. destruct c; [reflexivity | discriminate | discriminate]. Qed.

Lemma wellFormedStyle_parts (style : StyleSheet) :
  CSSRules.wellFormedStyle style = true ->
  wellFormed (backgroundColor style) = true
  /\ wellFormed (textColor style) = true
  /\ wellFormed (b_color (border style)) = true
  /\ wellFormed (sh_color (shadow style)) = true
  /\ fontSize style <= INT_MAX /\ cornerRadius style <= INT_MAX
  /\ width (border style) <= INT_MAX
  /\ CSSRules.plain (fontFamily style) = true
  /\ contains (fontFamily style) "034" = false
  /\ contains (fontFamily style) "'" = false.
Proof.
  unfold CSSRules.wellFormedStyle. intros H.
  repeat (apply andb_prop in H as [H ?]).
  repeat match goal with
         | X : (_ <=? _) = true |- _ => apply Z.leb_le in X
         | X : negb _ = true |- _ => apply negb_true_iff in X
         end.
  auto 12.
Qed.

(** The declarations [toCSS] writes are read as they are written. *)
Lemma declarations_entries (style : StyleSheet)
  (ds : list (string * QString)) :
  CSSRules.declarations style = Some ds ->
  CSSRules.wellFormedStyle style = true ->
  forallb CSSRules.entryOk ds = true.
Proof.
  intros H Hwf.
  destruct (wellFormedStyle_parts style Hwf)
    as (Wbg & Wtx & Wbd & Wsh & _ & _ & _ & Pf & _ & _).
  unfold CSSRules.declarations in H.
  apply joinLines_cons in H as (a1 & r1 & L1 & H & ->).
  apply joinLines_cons in H as (a2 & r2 & L2 & H & ->).
  apply joinLines_cons in H as (a3 & r3 & L3 & H & ->).
  apply joinLines_cons in H as (a4 & r4 & L4 & H & ->).
  apply joinLines_cons in H as (a5 & r5 & L5 & H & ->).
  apply joinLines_cons in H as (a6 & r6 & L6 & H & ->).
  apply joinLines_cons in H as (a7 & r7 & L7 & H & ->).
  apply joinLines_cons in H as (a8 & r8 & L8 & H & ->).
  apply joinLines_cons in H as (a9 & r9 & L9 & H & ->).
  apply joinLines_cons in H as (a10 & r10 & L10 & H & ->).
  injection H as <-. rewrite !forallb_app.
  rewrite (line_entries _ _ _ _ L1 eq_refl)
    by (intros t Ht; destruct (colour_text _ t Wbg Ht) as (? & ? & _); auto).
  rewrite (line_entries _ _ _ _ L2 eq_refl)
    by (intros t Ht; destruct (colour_text _ t Wtx Ht) as (? & ? & _); auto).
  rewrite (line_entries _ _ _ _ L3 eq_refl)
    by (intros t Ht; injection Ht as <-; apply quoted_value; exact Pf).
  rewrite (line_entries _ _ _ _ L4 eq_refl)
    by (intros t Ht; injection Ht as <-; apply px_value).
  rewrite (line_entries _ _ _ _ L5 eq_refl)
    by (intros t Ht; injection Ht as <-; split; reflexivity).
  rewrite (line_entries _ _ _ _ L6 eq_refl)
    by (intros t Ht; injection Ht as <-; split; reflexivity).
  rewrite (line_entries _ _ _ _ L7 eq_refl).
  2:{ intros t Ht.
      destruct (Color.toString (b_color (border style)) true) as [c |] eqn:E;
        [| discriminate Ht].
      injection Ht as <-. exact (border_value _ _ c Wbd E). }
  rewrite (line_entries _ _ _ _ L8 eq_refl)
    by (intros t Ht; injection Ht as <-; apply px_value).
  rewrite (line_entries _ _ _ _ L9 eq_refl).
  2:{ intros t Ht.
      destruct (Color.toString (sh_color (shadow style)) true) as [c |] eqn:E;
        [| discriminate Ht].
      injection Ht as <-. exact (shadow_value _ _ _ _ c Wsh E). }
  rewrite (line_entries _ _ _ _ L10 eq_refl)
    by (intros t Ht; discriminate Ht).
  reflexivity.
Qed.

(** The members of the style that the declarations [toCSS] writes give,
    applied in their order to the default style. *)
Lemma declarations_fields (style : StyleSheet)
  (ds : list (string * QString)) :
  CSSRules.declarations style = Some ds ->
  CSSRules.wellFormedStyle style = true ->
  let read := fold_left CSSRules.applyEntry ds StyleSheet0 in
  (isValid (backgroundColor read) = isValid (backgroundColor style)
   /\ argb (backgroundColor read) = argb (backgroundColor style))
  /\ (isValid (textColor read) = isValid (textColor style)
      /\ argb (textColor read) = argb (textColor style))
  /\ fontFamily read = fontFamily style
  /\ fontSize read = (if 0 <? fontSize style then fontSize style else 12)
  /\ fontBold read = fontBold style
  /\ fontItalic read = fontItalic style
  /\ cornerRadius read
     = (if 0 <? cornerRadius style then cornerRadius style else 0)
  /\ (0 < width (border style) ->
      exists c,
        Color.toString (b_color (border style)) true = Some c
        /\ border read
           = CSSParser.parseBorder
               (number (width (border style)) ++ qs "px solid " ++ c)).
Proof.
  intros H Hwf.
  destruct (wellFormedStyle_parts style Hwf)
    as (Wbg & Wtx & Wbd & Wsh & Hfs & Hcr & _ & Pf & Q1 & Q2).
  unfold CSSRules.declarations in H.
  apply joinLines_cons in H as (a1 & r1 & L1 & H & ->).
  apply joinLines_cons in H as (a2 & r2 & L2 & H & ->).
  apply joinLines_cons in H as (a3 & r3 & L3 & H & ->).
  apply joinLines_cons in H as (a4 & r4 & L4 & H & ->).
  apply joinLines_cons in H as (a5 & r5 & L5 & H & ->).
  apply joinLines_cons in H as (a6 & r6 & L6 & H & ->).
  apply joinLines_cons in H as (a7 & r7 & L7 & H & ->).
  apply joinLines_cons in H as (a8 & r8 & L8 & H & ->).
  apply joinLines_cons in H as (a9 & r9 & L9 & H & ->).
  apply joinLines_cons in H as (a10 & r10 & L10 & H & ->).
  injection H as <-. cbv zeta. rewrite !fold_left_app. cbn [fold_left].
  repeat split.
  - frames backgroundColor.
    destruct (lineIf_some _ _ _ _ L1) as [[Hc ->] | [Hc (t & Et & ->)]].
    + rewrite Hc. reflexivity.
    + destruct (colour_text _ t Wbg Et) as (_ & _ & Hg).
      cbn [fold_left]. rewrite (apply_background _ t Hg). cbn.
      rewrite Hc. exact (proj1 (colour_read _ t Wbg Hc Et)).
  - frames backgroundColor.
    destruct (lineIf_some _ _ _ _ L1) as [[Hc ->] | [Hc (t & Et & ->)]].
    + rewrite (invalid_colour _ Hc). reflexivity.
    + destruct (colour_text _ t Wbg Et) as (_ & _ & Hg).
      cbn [fold_left]. rewrite (apply_background _ t Hg). cbn.
      exact (proj2 (colour_read _ t Wbg Hc Et)).
  - frames textColor.
    destruct (lineIf_some _ _ _ _ L2) as [[Hc ->] | [Hc (t & Et & ->)]].
    + cbn [fold_left]. frames textColor. rewrite Hc. reflexivity.
    + cbn. rewrite Hc. exact (proj1 (colour_read _ t Wtx Hc Et)).
  - frames textColor.
    destruct (lineIf_some _ _ _ _ L2) as [[Hc ->] | [Hc (t & Et & ->)]].
    + cbn [fold_left]. frames textColor. rewrite (invalid_colour _ Hc).
      reflexivity.
    + cbn. exact (proj2 (colour_read _ t Wtx Hc Et)).
  - frames fontFamily.
    destruct (lineIf_some _ _ _ _ L3) as [[Hc ->] | [Hc (t & Et & ->)]].
    + cbn [fold_left]. frames fontFamily. apply negb_false_iff in Hc.
      destruct (fontFamily style); [reflexivity | discriminate Hc].
    + injection Et as <-. cbn. exact (unquoted_quoted _ Q1 Q2).
  - frames fontSize.
    destruct (lineIf_some _ _ _ _ L4) as [[Hc ->] | [Hc (t & Et & ->)]].
    + cbn [fold_left]. frames fontSize. rewrite Hc. reflexivity.
    + injection Et as <-. rewrite Hc. cbn.
      apply parsePixels_px. apply Z.ltb_lt in Hc. lia.
  - frames fontBold.
    destruct (lineIf_some _ _ _ _ L5) as [[Hc ->] | [Hc (t & Et & ->)]].
    + cbn [fold_left]. frames fontBold. rewrite Hc. reflexivity.
    + injection Et as <-. rewrite Hc. reflexivity.
  - frames fontItalic.
    destruct (lineIf_some _ _ _ _ L6) as [[Hc ->] | [Hc (t & Et & ->)]].
    + cbn [fold_left]. frames fontItalic. rewrite Hc. reflexivity.
    + injection Et as <-. rewrite Hc. reflexivity.
  - frames cornerRadius.
    destruct (lineIf_some _ _ _ _ L8) as [[Hc ->] | [Hc (t & Et & ->)]].
    + cbn [fold_left]. frames cornerRadius. rewrite Hc. reflexivity.
    + injection Et as <-. rewrite Hc. cbn.
      apply parsePixels_px. apply Z.ltb_lt in Hc. lia.
  - intros Hw. frames border.
    destruct (lineIf_some _ _ _ _ L7) as [[Hc ->] | [Hc (t & Et & ->)]].
    + apply Z.ltb_ge in Hc. lia.
    + destruct (Color.toString (b_color (border style)) true) as [c |];
        [| discriminate Et].
      injection Et as <-. exists c. split; reflexivity.
Qed.

(** ** The border [toCSS] writes *)

Lemma endsWith_app (a p : QString) : endsWith (a ++ p) p = true.
Proof. unfold endsWith. rewrite rev_app_distr. apply startsWith_app. Qed.

Lemma borderPart_px (b : Border) (n : Z) :
  0 <= n <= INT_MAX ->
  CSSParser.borderPart b (number n ++ qs "px")
  = mkBorder (b_color b) n (radius b) (b_style b).
Proof.
  intros Hn. unfold CSSParser.borderPart.
  rewrite (ends_trimmed (number n ++ qs "px")) by apply px_value.
  rewrite endsWith_app, (parsePixels_px n Hn). reflexivity.
Qed.

Lemma borderPart_solid (b : Border) :
  CSSParser.borderPart b (qs "solid")
  = mkBorder (b_color b) (width b) (radius b) StyleSolid.
Proof. reflexivity. Qed.

Lemma borderPart_hex (bd : Border) (r g b : Z) :
  0 <= r <= 255 -> 0 <= g <= 255 -> 0 <= b <= 255 ->
  CSSParser.borderPart bd
    ("#"%char :: hexPadded r 2 ++ hexPadded g 2 ++ hexPadded b 2)
  = mkBorder (fromRgb r g b) (width bd) (radius bd) (b_style bd).
Proof.
  intros Hr Hg Hb. unfold CSSParser.borderPart, CSSParser.parseColor.
  rewrite <- (parse_hex_text r g b Hr Hg Hb).
  destruct (hex_plain r Hr) as (r1 & r2 & -> & _).
  destruct (hex_plain g Hg) as (g1 & g2 & -> & _).
  destruct (hex_plain b Hb) as (b1 & b2 & -> & _ & _ & B3 & B4 & _).
  cbn [app].
  rewrite (trimmed_id1 "#" [r1; r2; g1; g2; b1; b2] "#" eq_refl B3).
  unfold endsWith. cbn [rev app startsWith qs list_ascii_of_string].
  rewrite B4. reflexivity.
Qed.

Lemma splitSkipEmpty_last (p : QString) (sep : ascii) :
  contains p sep = false -> p <> [] -> splitSkipEmpty p sep = [p].
Proof.
  intros H Hne. unfold splitSkipEmpty. rewrite (split_without_sep p sep H).
  cbn [List.filter]. destruct p; [congruence | reflexivity].
Qed.

Lemma px_piece (n : Z) :
  contains (number n ++ qs "px") " " = false /\ number n ++ qs "px" <> [].
Proof.
  destruct (number_plain n) as (_ & _ & H). split.
  - rewrite contains_app, H. reflexivity.
  - apply app_nonempty_r. discriminate.
Qed.

(** A border with an opaque colour, as [toCSS] writes it, is read with
    its width and its colour, and as a solid one. *)
Lemma parseBorder_hex (n r g b : Z) :
  0 <= n <= INT_MAX ->
  0 <= r <= 255 -> 0 <= g <= 255 -> 0 <= b <= 255 ->
  CSSParser.parseBorder
    (number n ++ qs "px solid "
     ++ "#"%char :: hexPadded r 2 ++ hexPadded g 2 ++ hexPadded b 2)
  = mkBorder (fromRgb r g b) n 0 StyleSolid.
Proof.
  intros Hn Hr Hg Hb. unfold CSSParser.parseBorder.
  destruct (px_piece n) as [Hc Hne].
  set (hex := "#"%char :: hexPadded r 2 ++ hexPadded g 2 ++ hexPadded b 2).
  replace (number n ++ qs "px solid " ++ hex)
    with ((number n ++ qs "px") ++ " "%char :: qs "solid" ++ " "%char :: hex)
    by (rewrite <- !app_assoc; reflexivity).
  rewrite (splitSkipEmpty_cons _ _ " " Hc Hne).
  rewrite (splitSkipEmpty_cons (qs "solid") hex " " eq_refl)
    by discriminate.
  assert (Hhex : contains hex " " = false /\ hex <> []).
  { subst hex.
    destruct (hex_plain r Hr) as (r1 & r2 & -> & _ & _ & _ & _ & R1 & R2).
    destruct (hex_plain g Hg) as (g1 & g2 & -> & _ & _ & _ & _ & G1 & G2).
    destruct (hex_plain b Hb) as (b1 & b2 & -> & _ & _ & _ & _ & B1 & B2).
    split; [| discriminate]. unfold contains. cbn [app existsb].
    rewrite R1, R2, G1, G2, B1, B2. reflexivity. }
  destruct Hhex as [Hh1 Hh2].
  rewrite (splitSkipEmpty_last hex " " Hh1 Hh2). cbn [fold_left].
  rewrite (borderPart_px Border0 n Hn), borderPart_solid. subst hex.
  rewrite (borderPart_hex _ r g b Hr Hg Hb). reflexivity.
Qed.

Lemma last_part_bytes :
  forallb (fun a =>
             let p := trimmed (number a ++ qs ")") in
             (endsWith p (qs "px") || CSSParser.firstIsDigit p)
             && (CSSParser.parsePixels p =? 0)) bytes = true.
Proof. vm_compute. reflexivity. Qed.

Lemma borderPart_last (bd : Border) (a : Z) :
  0 <= a <= 255 ->
  width (CSSParser.borderPart bd (number a ++ qs ")")) = 0.
Proof.
  intros Ha.
  pose proof (proj1 (forallb_forall _ _) last_part_bytes a (in_bytes a Ha))
    as H. cbv zeta in H. apply andb_prop in H as [H1 H2].
  apply Z.eqb_eq in H2. unfold CSSParser.borderPart. rewrite H1.
  cbn [width]. exact H2.
Qed.

(** A border with a translucent colour, as [toCSS] writes it, is read
    with the width 0: the blanks of the colour make parts of it, and the
    last of them starts with a digit. *)
Lemma parseBorder_rgba (n r g b a : Z) :
  0 <= a <= 255 ->
  width (CSSParser.parseBorder
           (number n ++ qs "px solid "
            ++ qs "rgba(" ++ number r ++ qs ", " ++ number g ++ qs ", "
            ++ number b ++ qs ", " ++ number a ++ qs ")")) = 0.
Proof.
  intros Ha. unfold CSSParser.parseBorder.
  destruct (px_piece n) as [Hc Hne].
  destruct (number_plain r) as (_ & _ & Sr).
  destruct (number_plain g) as (_ & _ & Sg).
  destruct (number_plain b) as (_ & _ & Sb).
  destruct (number_plain a) as (_ & _ & Sa).
  replace (number n ++ qs "px solid "
           ++ qs "rgba(" ++ number r ++ qs ", " ++ number g ++ qs ", "
           ++ number b ++ qs ", " ++ number a ++ qs ")")
    with ((number n ++ qs "px") ++ " "%char
          :: qs "solid" ++ " "%char
          :: (qs "rgba(" ++ number r ++ qs ",") ++ " "%char
          :: (number g ++ qs ",") ++ " "%char
          :: (number b ++ qs ",") ++ " "%char
          :: (number a ++ qs ")"))
    by (rewrite <- !app_assoc; reflexivity).
  rewrite (splitSkipEmpty_cons _ _ " " Hc Hne).
  rewrite (splitSkipEmpty_cons (qs "solid") _ " " eq_refl) by discriminate.
  rewrite (splitSkipEmpty_cons (qs "rgba(" ++ number r ++ qs ",") _ " ")
    by (first [ rewrite !contains_app, Sr; reflexivity | discriminate ]).
  rewrite (splitSkipEmpty_cons (number g ++ qs ",") _ " ")
    by (first [ rewrite !contains_app, Sg; reflexivity
              | apply app_nonempty_r; discriminate ]).
  rewrite (splitSkipEmpty_cons (number b ++ qs ",") _ " ")
    by (first [ rewrite !contains_app, Sb; reflexivity
              | apply app_nonempty_r; discriminate ]).
  rewrite (splitSkipEmpty_last (number a ++ qs ")") " ")
    by (first [ rewrite !contains_app, Sa; reflexivity
              | apply app_nonempty_r; discriminate ]).
  cbn [fold_left]. apply borderPart_last. exact Ha.
Qed.

Lemma alpha_argb (c : QColor) (a r g b : Z) :
  argb c = Some (a, r, g, b) -> alpha c = a.
Proof.
  destruct c; cbn; intros H; [| | discriminate H];
    injection H as <- _ _ _; reflexivity.
Qed.

Lemma toCSS_declarations (style : StyleSheet) (text : QString) :
  CSSRules.toCSS style = Some text ->
  exists ds, CSSRules.declarations style = Some ds
             /\ text = concat (map CSSRules.declaration ds).
Proof.
  unfold CSSRules.toCSS. intros H.
  destruct (CSSRules.declarations style) as [ds |]; [| discriminate H].
  injection H as <-. eauto.
Qed.

(** What [getStyle] answers for a class after [parseString] has read the
    rule of the class with the text of [toCSS] between its braces. *)
Lemma toCSS_read (style : StyleSheet) (text className : QString)
  (m : gmap string StyleSheet) :
  CSSRules.toCSS style = Some text ->
  CSSRules.wellFormedStyle style = true ->
  CSSRules.classSelector className = true ->
  exists ds,
    CSSRules.declarations style = Some ds
    /\ CSSParser.getStyle
         (CSSRules.parseString
            (className ++ qs " {" ++ "010"%char :: text ++ qs "}") m)
         className
       = fold_left CSSRules.applyEntry ds StyleSheet0.
Proof.
  intros Ht Hwf Hsel. destruct (toCSS_declarations style text Ht)
    as (ds & Hds & ->).
  exists ds. split; [exact Hds |].
  apply (written_rule_read ds className [] m);
    [exact (declarations_entries style ds Hds Hwf) | exact Hsel | auto].
Qed.

(** X24.  A style written by [CSSParser::toCSS] between the braces of a
    rule for a class, and read by [parseString].  The style holds no
    colour of the HSL model where a colour is written and no opacity
    below 1 (the texts of these are not modelled), its colours hold
    16-bit components, its numbers fit an [int], and its font family
    holds no quote and none of the characters that end a declaration,
    open or close a rule or may open a comment; the selector starts with
    a dot, holds no comma and none of those characters, and has no white
    space at its ends.  Then [getStyle] answers for the class a style
    whose background and text colour are valid or invalid as those of
    the style and, when valid, have the same alpha, red, green and blue;
    with the same bold and italic; and with the font size and the corner
    radius when they are positive, and else the defaults 12 and 0. *)
Theorem written_style_read_back (style : StyleSheet)
  (text className : QString) (m : gmap string StyleSheet) :
  CSSRules.toCSS style = Some text ->
  CSSRules.wellFormedStyle style = true ->
  CSSRules.classSelector className = true ->
  let read :=
    CSSParser.getStyle
      (CSSRules.parseString
         (className ++ qs " {" ++ "010"%char :: text ++ qs "}") m)
      className in
  (isValid (backgroundColor read) = isValid (backgroundColor style)
   /\ (isValid (backgroundColor style) = true ->
       argb (backgroundColor read) = argb (backgroundColor style)))
  /\ (isValid (textColor read) = isValid (textColor style)
      /\ (isValid (textColor style) = true ->
          argb (textColor read) = argb (textColor style)))
  /\ fontSize read = (if 0 <? fontSize style then fontSize style else 12)
  /\ fontBold read = fontBold style
  /\ fontItalic read = fontItalic style
  /\ cornerRadius read
     = (if 0 <? cornerRadius style then cornerRadius style else 0).
Proof.
  intros Ht Hwf Hsel read.
  destruct (toCSS_read style text className m Ht Hwf Hsel) as (ds & Hds & E).
  subst read. rewrite E.
  pose proof (declarations_fields style ds Hds Hwf) as F. cbv zeta in F.
  tauto.
Qed.

Lemma written_style_read_back_witness :
  let read :=
    CSSParser.getStyle
      (CSSRules.parseString
         (qs ".card {" ++ "010"%char :: StyleSamples.cardText "#ff0000"
          ++ qs "}") ∅)
      (qs ".card") in
  (isValid (backgroundColor read) = true
   /\ argb (backgroundColor read) = Some (255, 10, 20, 30))
  /\ (isValid (textColor read) = true
      /\ argb (textColor read) = Some (128, 200, 100, 50))
  /\ fontSize read = 12
  /\ fontBold read = true
  /\ fontItalic read = false
  /\ cornerRadius read = 8.
Proof.
  pose proof (written_style_read_back (StyleSamples.card (fromRgb 255 0 0))
                (StyleSamples.cardText "#ff0000") (qs ".card") ∅) as T.
  cbv zeta in T.
  destruct T as ((B1 & B2) & (T1 & T2) & F);
    [vm_compute; reflexivity | vm_compute; reflexivity
     | vm_compute; reflexivity |].
  specialize (B2 eq_refl). specialize (T2 eq_refl).
  cbv zeta.
  split; [split; [exact B1 | exact B2] |].
  split; [split; [exact T1 | exact T2] | exact F].
Defined.

(** X25.  In the same round trip a border of a positive width and of a
    valid, opaque colour comes back with its width and the alpha, red,
    green and blue of its colour, and as a solid border whatever its
    style was. *)
Theorem opaque_border_read_back (style : StyleSheet)
  (text className : QString) (m : gmap string StyleSheet) :
  CSSRules.toCSS style = Some text ->
  CSSRules.wellFormedStyle style = true ->
  CSSRules.classSelector className = true ->
  0 < width (border style) ->
  isValid (b_color (border style)) = true ->
  alpha (b_color (border style)) = 255 ->
  let read :=
    CSSParser.getStyle
      (CSSRules.parseString
         (className ++ qs " {" ++ "010"%char :: text ++ qs "}") m)
      className in
  width (border read) = width (border style)
  /\ argb (b_color (border read)) = argb (b_color (border style))
  /\ b_style (border read) = StyleSolid.
Proof.
  intros Ht Hwf Hsel Hw Hv Ha read.
  destruct (toCSS_read style text className m Ht Hwf Hsel) as (ds & Hds & E).
  subst read. rewrite E.
  pose proof (declarations_fields style ds Hds Hwf) as F. cbv zeta in F.
  destruct F as (_ & _ & _ & _ & _ & _ & _ & F).
  destruct (F Hw) as (t & Et & ->).
  destruct (wellFormedStyle_parts style Hwf)
    as (_ & _ & Wbd & _ & _ & _ & Hmax & _).
  destruct (toString_shape _ t Wbd Et)
    as [[Hi _] | (a & r & g & b & Hc & _ & _ & Hr & Hg & Hb
                  & [[Hlt _] | [-> ->]])].
  - rewrite Hi in Hv. discriminate Hv.
  - rewrite (alpha_argb _ _ _ _ _ Hc) in Ha. lia.
  - rewrite parseBorder_hex by (assumption || lia).
    cbn [width b_color b_style]. repeat split. rewrite Hc.
    unfold fromRgb. rewrite fromRgba_bytes by (assumption || lia).
    cbn [argb]. rewrite !qt_div_257_exact by (assumption || lia).
    reflexivity.
Qed.

Lemma opaque_border_read_back_witness :
  let read :=
    CSSParser.getStyle
      (CSSRules.parseString
         (qs ".card {" ++ "010"%char :: StyleSamples.cardText "#ff0000"
          ++ qs "}") ∅)
      (qs ".card") in
  width (border read) = 2
  /\ argb (b_color (border read)) = Some (255, 255, 0, 0)
  /\ b_style (border read) = StyleSolid.
Proof.
  apply (opaque_border_read_back (StyleSamples.card (fromRgb 255 0 0))
           (StyleSamples.cardText "#ff0000") (qs ".card") ∅);
    first [lia | vm_compute; reflexivity].
Defined.

(** X26.  In the same round trip a border of a valid colour that is not
    opaque loses its width: the colour is written as [rgba(r, g, b, a)],
    [parseBorder] cuts the value at its blanks, and the last part, which
    starts with a digit, is read as a width of 0. *)
Theorem translucent_border_loses_width (style : StyleSheet)
  (text className : QString) (m : gmap string StyleSheet) :
  CSSRules.toCSS style = Some text ->
  CSSRules.wellFormedStyle style = true ->
  CSSRules.classSelector className = true ->
  0 < width (border style) ->
  isValid (b_color (border style)) = true ->
  alpha (b_color (border style)) < 255 ->
  width (border
           (CSSParser.getStyle
              (CSSRules.parseString
                 (className ++ qs " {" ++ "010"%char :: text ++ qs "}") m)
              className)) = 0.
Proof.
  intros Ht Hwf Hsel Hw Hv Ha.
  destruct (toCSS_read style text className m Ht Hwf Hsel) as (ds & Hds & E).
  rewrite E.
  pose proof (declarations_fields style ds Hds Hwf) as F. cbv zeta in F.
  destruct F as (_ & _ & _ & _ & _ & _ & _ & F).
  destruct (F Hw) as (t & Et & ->).
  destruct (wellFormedStyle_parts style Hwf) as (_ & _ & Wbd & _).
  destruct (toString_shape _ t Wbd Et)
    as [[Hi _] | (a & r & g & b & Hc & _ & Hab & _ & _ & _
                  & [[_ ->] | [-> _]])].
  - rewrite Hi in Hv. discriminate Hv.
  - apply parseBorder_rgba. exact Hab.
  - rewrite (alpha_argb _ _ _ _ _ Hc) in Ha. lia.
Qed.

Lemma translucent_border_loses_width_witness :
  width (border
           (CSSParser.getStyle
              (CSSRules.parseString
                 (qs ".card {" ++ "010"%char
                  :: StyleSamples.cardText "rgba(255, 0, 0, 128)"
                  ++ qs "}") ∅)
              (qs ".card"))) = 0.
Proof.
  apply (translucent_border_loses_width
           (StyleSamples.card (fromRgba 255 0 0 128))
           (StyleSamples.cardText "rgba(255, 0, 0, 128)") (qs ".card") ∅);
    first [lia | vm_compute; reflexivity].
Defined.

(** ** A widget saved as a rule *)

(** The declarations [Widget::toCSS] writes are read as they are
    written, and the members of the style they give. *)
Lemma widget_fields (w : Widget) (ds : list (string * QString)) :
  CSSRules.widgetDeclarations w = Some ds ->
  wellFormed (m_bgColor w) = true ->
  wellFormed (b_color (m_border w)) = true ->
  m_cornerRadius w <= INT_MAX ->
  forallb CSSRules.entryOk ds = true
  /\ let read := fold_left CSSRules.applyEntry ds StyleSheet0 in
     (exists t, Color.toString (m_bgColor w) true = Some t
                /\ backgroundColor read = Color.parse t)
     /\ backgroundGradient read = Gradient0
     /\ cornerRadius read
        = (if 0 <? m_cornerRadius w then m_cornerRadius w else 0)
     /\ shadow read = Shadow0
     /\ opacity read = Dbl.one
     /\ blur read = BlurNone
     /\ (Border_isVisible (m_border w) = false -> border read = Border0)
     /\ (Border_isVisible (m_border w) = true ->
         exists c,
           Color.toString (b_color (m_border w)) true = Some c
           /\ border read
              = CSSParser.parseBorder
                  (number (width (m_border w)) ++ qs "px solid " ++ c)).
Proof.
  intros H Wbg Wbd Hcr. unfold CSSRules.widgetDeclarations in H.
  apply joinLines_cons in H as (a1 & r1 & L1 & H & ->).
  apply joinLines_cons in H as (a2 & r2 & L2 & H & ->).
  apply joinLines_cons in H as (a3 & r3 & L3 & H & ->).
  apply joinLines_cons in H as (a4 & r4 & L4 & H & ->).
  apply joinLines_cons in H as (a5 & r5 & L5 & H & ->).
  injection H as <-. split.
  - rewrite !forallb_app.
    rewrite (line_entries _ _ _ _ L1 eq_refl)
      by (intros t Ht; destruct (colour_text _ t Wbg Ht) as (? & ? & _); auto).
    rewrite (line_entries _ _ _ _ L2 eq_refl)
      by (intros t Ht; injection Ht as <-; apply px_value).
    rewrite (line_entries _ _ _ _ L3 eq_refl)
      by (intros t Ht; injection Ht as <-; apply px_value).
    rewrite (line_entries _ _ _ _ L4 eq_refl)
      by (intros t Ht; injection Ht as <-; apply px_value).
    rewrite (line_entries _ _ _ _ L5 eq_refl); [reflexivity |].
    intros t Ht.
    destruct (Color.toString (b_color (m_border w)) true) as [c |] eqn:E;
      [| discriminate Ht].
    injection Ht as <-. exact (border_value _ _ c Wbd E).
  - cbv zeta. rewrite !fold_left_app. cbn [fold_left]. repeat split.
    + frames backgroundColor.
      destruct (lineIf_some _ _ _ _ L1) as [[Hc _] | [_ (t & Et & ->)]];
        [discriminate Hc |].
      exists t. split; [exact Et |].
      destruct (colour_text _ t Wbg Et) as (_ & _ & Hg).
      cbn [fold_left]. rewrite (apply_background _ t Hg). reflexivity.
    + frames backgroundGradient.
      destruct (lineIf_some _ _ _ _ L1) as [[Hc _] | [_ (t & Et & ->)]];
        [discriminate Hc |].
      destruct (colour_text _ t Wbg Et) as (_ & _ & Hg).
      cbn [fold_left]. rewrite (apply_background _ t Hg). reflexivity.
    + frames cornerRadius.
      destruct (lineIf_some _ _ _ _ L4) as [[Hc ->] | [Hc (t & Et & ->)]].
      * cbn [fold_left]. frames cornerRadius. rewrite Hc. reflexivity.
      * injection Et as <-. rewrite Hc. cbn.
        apply parsePixels_px. apply Z.ltb_lt in Hc. lia.
    + frames shadow. reflexivity.
    + frames opacity. reflexivity.
    + frames blur. reflexivity.
    + intros Hv. rewrite Hv in L5. injection L5 as <-. cbn [fold_left].
      frames border. reflexivity.
    + intros Hv. rewrite Hv in L5.
      destruct (Color.toString (b_color (m_border w)) true) as [c |];
        [| discriminate L5].
      injection L5 as <-. exists c. split; reflexivity.
Qed.

(** [Widget::setStyle] with a style that holds no gradient, no shadow,
    no opacity below 1 and no blur. *)
Lemma setStyle_look (style : StyleSheet) (w : Widget) :
  backgroundGradient style = Gradient0 -> shadow style = Shadow0 ->
  opacity style = Dbl.one -> blur style = BlurNone ->
  m_bgColor (setStyle style w)
  = (if isValid (backgroundColor style) then backgroundColor style
     else m_bgColor w)
  /\ m_cornerRadius (setStyle style w)
     = (if 0 <? cornerRadius style then cornerRadius style
        else m_cornerRadius w)
  /\ m_border (setStyle style w)
     = (if Border_isVisible (border style) then border style
        else m_border w)
  /\ w_width (setStyle style w) = w_width w
  /\ w_height (setStyle style w) = w_height w.
Proof.
  intros Hg Hs Ho Hb. unfold setStyle. rewrite Hg, Hs, Ho, Hb.
  change (Gradient_isValid Gradient0) with false.
  change (enabled Shadow0) with false.
  change (Dbl.ltb Dbl.one Dbl.one) with false.
  change (CSSParser.blurSet BlurNone) with false. cbv iota zeta.
  destruct (isValid (backgroundColor style)),
    (0 <? cornerRadius style), (Border_isVisible (border style));
    repeat split.
Qed.

(** X27.  A widget saved with [Widget::toCSS], the rule read by
    [parseString] and applied to a widget with [applyStyle]: the widget
    takes the background of the saved one (an invalid one comes as
    transparent black), its corner radius when that is positive, and its
    border when that is visible with an opaque colour; the size, though
    written, is not read, and a border with a translucent colour is not
    taken. *)
Theorem saved_widget_restored (w w0 : Widget) (css : QString)
  (m : gmap string StyleSheet) :
  CSSRules.widgetToCSS w = Some css ->
  wellFormed (m_bgColor w) = true ->
  wellFormed (b_color (m_border w)) = true ->
  m_cornerRadius w <= INT_MAX -> width (m_border w) <= INT_MAX ->
  let w' := CSSRules.applyStyle (CSSRules.parseString css m) (qs "widget") w0
  in
  (isValid (m_bgColor w) = true -> argb (m_bgColor w') = argb (m_bgColor w))
  /\ (isValid (m_bgColor w) = false -> m_bgColor w' = QCol.transparent)
  /\ m_cornerRadius w'
     = (if 0 <? m_cornerRadius w then m_cornerRadius w else m_cornerRadius w0)
  /\ (w_width w' = w_width w0 /\ w_height w' = w_height w0)
  /\ (Border_isVisible (m_border w) = true ->
      isValid (b_color (m_border w)) = true ->
      alpha (b_color (m_border w)) = 255 ->
      width (m_border w') = width (m_border w)
      /\ argb (b_color (m_border w')) = argb (b_color (m_border w)))
  /\ (alpha (b_color (m_border w)) < 255 -> m_border w' = m_border w0).
Proof.
  intros Hcss Wbg Wbd Hcr Hbw w'.
  unfold CSSRules.widgetToCSS in Hcss.
  destruct (CSSRules.widgetDeclarations w) as [ds |] eqn:Hds;
    [| discriminate Hcss].
  injection Hcss as <-.
  destruct (widget_fields w ds Hds Wbg Wbd Hcr) as [Hok F]. cbv zeta in F.
  destruct F as ((t & Et & Fbg) & Fg & Fr & Fs & Fo & Fb & Fn & Fv).
  assert (E : CSSParser.getStyle
                (CSSRules.parseString
                   (qs ".widget {" ++ "010"%char
                    :: concat (map CSSRules.declaration ds) ++ qs "}"
                    ++ ["010"%char]) m) (qs "widget")
              = fold_left CSSRules.applyEntry ds StyleSheet0).
  { rewrite <- (written_rule_read ds (qs ".widget") ["010"%char] m Hok
                  eq_refl (or_intror eq_refl)).
    reflexivity. }
  subst w'. unfold CSSRules.applyStyle.
  match goal with
  | |- context [CSSParser.getStyle ?x ?y] =>
      replace (CSSParser.getStyle x y)
        with (fold_left CSSRules.applyEntry ds StyleSheet0)
        by (rewrite <- E; reflexivity)
  end.
  set (read := fold_left CSSRules.applyEntry ds StyleSheet0) in *.
  destruct (setStyle_look read w0 Fg Fs Fo Fb) as (Sbg & Sr & Sb & Sw & Sh).
  rewrite Sbg, Sr, Sb, Sw, Sh, Fr, Fbg.
  split; [| split; [| split; [| split; [| split]]]].
  - intros Hv. destruct (colour_read _ t Wbg Hv Et) as [V A].
    rewrite V. exact A.
  - intros Hv. apply invalid_colour in Hv. rewrite Hv in Et.
    injection Et as <-. reflexivity.
  - destruct (0 <? m_cornerRadius w) eqn:Hc; [rewrite Hc |]; reflexivity.
  - split; reflexivity.
  - intros Hvis Hv Ha. destruct (Fv Hvis) as (c & Ec & ->).
    unfold Border_isVisible in Hvis. apply andb_prop in Hvis as [Hw _].
    apply Z.ltb_lt in Hw.
    destruct (toString_shape _ c Wbd Ec)
      as [[Hi _] | (a & r & g & b & Hc & _ & _ & Hr & Hg & Hb
                    & [[Hlt _] | [-> ->]])].
    + rewrite Hi in Hv. discriminate Hv.
    + rewrite (alpha_argb _ _ _ _ _ Hc) in Ha. lia.
    + rewrite parseBorder_hex by (assumption || lia).
      unfold fromRgb. rewrite fromRgba_bytes by (assumption || lia).
      unfold Border_isVisible. cbn [width b_color alpha].
      rewrite qt_div_257_exact by lia.
      replace (0 <? width (m_border w)) with true
        by (symmetry; apply Z.ltb_lt; exact Hw).
      cbn [andb Z.ltb Z.compare width b_color]. split; [reflexivity |].
      rewrite Hc. cbn [argb].
      rewrite !qt_div_257_exact by (assumption || lia). reflexivity.
  - intros Ha. destruct (Border_isVisible (m_border w)) eqn:Hvis.
    + destruct (Fv eq_refl) as (c & Ec & ->).
      destruct (toString_shape _ c Wbd Ec)
        as [[Hi _] | (a & r & g & b & Hc & _ & Hab & _ & _ & _
                      & [[_ ->] | [-> _]])].
      * rewrite Hi in Ha. cbn in Ha. lia.
      * unfold Border_isVisible at 1.
        rewrite (parseBorder_rgba _ r g b a Hab). reflexivity.
      * rewrite (alpha_argb _ _ _ _ _ Hc) in Ha. lia.
    + rewrite (Fn eq_refl). reflexivity.
Qed.

Lemma saved_widget_restored_witness :
  let w' :=
    CSSRules.applyStyle (CSSRules.parseString StyleSamples.panelText ∅)
      (qs "widget") (Widget.create 100 100) in
  argb (m_bgColor w') = Some (220, 30, 30, 40)
  /\ m_cornerRadius w' = 12
  /\ w_width w' = 100
  /\ width (m_border w') = 2.
Proof.
  pose proof (saved_widget_restored StyleSamples.panel (Widget.create 100 100)
                StyleSamples.panelText ∅) as H.
  cbv zeta in H |- *.
  assert (H0 : CSSRules.widgetToCSS StyleSamples.panel
               = Some StyleSamples.panelText) by (vm_compute; reflexivity).
  assert (Hr : m_cornerRadius StyleSamples.panel <= INT_MAX)
    by (vm_compute; discriminate).
  assert (Hb : width (m_border StyleSamples.panel) <= INT_MAX)
    by (vm_compute; discriminate).
  destruct (H H0 eq_refl eq_refl Hr Hb) as (H1 & _ & H2 & (H3 & _) & H4 & _).
  rewrite (H1 eq_refl), H2, H3, (proj1 (H4 eq_refl eq_refl eq_refl)).
  vm_compute. repeat split; reflexivity.
Defined.

